(** * cine-craft: the content originality engine

    A shallow embedding of the duplicate detector
    ([core/templates/dedup]), the uniqueness service and the variant
    selection service ([core/templates/dedup.variants.ts]), with the
    properties their specification states about them.

    Conventions of the embedding:
    - a JavaScript string is the list of its UTF-16 code units;
    - a JavaScript number is a rational, extended with [NaN] and the two
      infinities; the sign of zero is not modelled. The arithmetic is
      exact where a result is only compared or passed on, and rounded to
      double precision where the outcome hangs on the rounding: in the
      score of the originality report and in the distances of
      [selectByIntensity];
    - [Math.random()], clocks and generated labels are inputs of the
      functions that read them. *)

From Stdlib Require Import String Ascii DecimalString HexadecimalString.
From Stdlib Require Import QArith Qcanon Qround Qminmax Qpower Qabs ZArith Lia Lqa
  Permutation.
From stdpp Require Import base option list gmap numbers.

Local Open Scope N_scope.

(** ** JavaScript numbers *)

Module Num.

Inductive number : Type :=
| NaN
| Inf (negative : bool)
| Fin (q : Qc).

Definition Qcleb (p q : Qc) : bool := Qle_bool p q.
Definition Qcltb (p q : Qc) : bool := negb (Qle_bool q p).
Definition Qceqb (p q : Qc) : bool := Qeq_bool p q.

Definition ofZ (z : Z) : number := Fin (Q2Qc (inject_Z z)).
Definition ofNat (n : nat) : number := ofZ (Z.of_nat n).
(** The literal [n/d], as in [0.6] = [ratio 6 10]. *)
Definition ratio (n : Z) (d : positive) : number := Fin (Q2Qc (n # d)).

Definition neg (x : number) : number :=
  match x with
  | NaN => NaN
  | Inf s => Inf (negb s)
  | Fin q => Fin (- q)%Qc
  end.

Definition add (x y : number) : number :=
  match x, y with
  | NaN, _ | _, NaN => NaN
  | Inf s, Inf t => if eqb s t then Inf s else NaN
  | Inf s, Fin _ => Inf s
  | Fin _, Inf t => Inf t
  | Fin p, Fin q => Fin (p + q)%Qc
  end.

Definition sub (x y : number) : number := add x (neg y).

Definition mul (x y : number) : number :=
  match x, y with
  | NaN, _ | _, NaN => NaN
  | Inf s, Inf t => Inf (xorb s t)
  | Inf s, Fin q | Fin q, Inf s =>
      if Qceqb q 0 then NaN else Inf (xorb s (Qcltb q 0))
  | Fin p, Fin q => Fin (p * q)%Qc
  end.

(** [x / y]; a finite non-zero number over zero is an infinity and
    [0 / 0] is [NaN]. *)
Definition div (x y : number) : number :=
  match x, y with
  | NaN, _ | _, NaN => NaN
  | Inf _, Inf _ => NaN
  | Inf s, Fin q => Inf (xorb s (Qcltb q 0))
  | Fin _, Inf _ => Fin 0
  | Fin p, Fin q =>
      if Qceqb q 0
      then (if Qceqb p 0 then NaN else Inf (Qcltb p 0))
      else Fin (p / q)%Qc
  end.

(** Comparisons: every comparison with [NaN] is false. *)
Definition leb (x y : number) : bool :=
  match x, y with
  | NaN, _ | _, NaN => false
  | Inf true, _ => true
  | _, Inf false => true
  | Inf false, _ => false
  | _, Inf true => false
  | Fin p, Fin q => Qcleb p q
  end.

Definition geb (x y : number) : bool := leb y x.

Definition ltb (x y : number) : bool :=
  match x, y with
  | NaN, _ | _, NaN => false
  | _, _ => negb (leb y x)
  end.

(** [Math.max(x, y)] *)
Definition max (x y : number) : number :=
  match x, y with
  | NaN, _ | _, NaN => NaN
  | _, _ => if leb x y then y else x
  end.

(** [Math.round(x)]: the nearest integer, halves going up. *)
Definition round (x : number) : number :=
  match x with
  | Fin q => ofZ (Qfloor (q + Q2Qc (1 # 2))%Qc)
  | _ => x
  end.

(** *** Double precision

    Where the outcome of a function hangs on the rounding of its
    arithmetic, the operations are those of IEEE 754 binary64: the exact
    result, rounded to the nearest double, a tie going to the double with
    the even significand. *)

(** [2^k] *)
Definition pow2 (k : Z) : Q := (2 ^ k)%Q.

(** The integer nearest to [n / d], a half going to the even one. *)
Definition nearestEven (n : Z) (d : positive) : Z :=
  let q := (n / Zpos d)%Z in
  match (2 * (n mod Zpos d) ?= Zpos d)%Z with
  | Lt => q
  | Gt => (q + 1)%Z
  | Eq => if Z.even q then q else (q + 1)%Z
  end.

(** The exponent [e] of the positive rational [n / d]:
    [2^e <= n / d < 2^(e + 1)]. *)
Definition exponentOf (n d : positive) : Z :=
  let e := (Z.log2 (Zpos n) - Z.log2 (Zpos d))%Z in
  if Qle_bool (pow2 e) (Zpos n # d) then e else (e - 1)%Z.

(** The positive rational [n / d] rounded to a multiple of [2^k], where
    [k] leaves 53 bits to the significand and is [-1074] for the
    subnormal numbers below [2^-1022]. *)
Definition roundPositive (n d : positive) : Q :=
  let k := (Z.max (exponentOf n d) (-1022) - 52)%Z in
  let scaled := ((Zpos n # d) / pow2 k)%Q in
  (inject_Z (nearestEven (Qnum scaled) (Qden scaled)) * pow2 k)%Q.

(** The double nearest to a rational; from [2^1024] on the rounded value
    is an infinity. *)
Definition double (q : Q) : number :=
  match Qnum q with
  | Z0 => Fin (Q2Qc 0)
  | Zpos n =>
      let v := roundPositive n (Qden q) in
      if Qle_bool (pow2 1024) v then Inf false else Fin (Q2Qc v)
  | Zneg n =>
      let v := roundPositive n (Qden q) in
      if Qle_bool (pow2 1024) v then Inf true else Fin (Q2Qc (- v))
  end.

(** The value of a decimal literal and of the result of an operation:
    the nearest double. *)
Definition round64 (x : number) : number :=
  match x with
  | Fin q => double q
  | _ => x
  end.

(** The bounds of the error of a rounding: [2^-53] of the value, and a
    bound [2^-100] on the absolute error [2^-1075] of the subnormal
    numbers. *)
Definition unit53 : Q := 1 # 9007199254740992.
Definition tiny : Q := 1 # 1267650600228229401496703205376.

(** The doubles are multiples of [2^-1074]. *)
Definition onGrid (x : number) : Prop :=
  match x with
  | Fin r => exists j : Z, (r == inject_Z j * pow2 (-1074))%Q
  | _ => True
  end.

Definition sub64 (x y : number) : number := round64 (sub x y).
Definition mul64 (x y : number) : number := round64 (mul x y).
Definition div64 (x y : number) : number := round64 (div x y).

(** Two numbers of the same value; [NaN] counts as itself here. *)
Definition same (x y : number) : bool :=
  match x, y with
  | NaN, NaN => true
  | Inf s, Inf t => eqb s t
  | Fin p, Fin q => Qceqb p q
  | _, _ => false
  end.

(** [x] is a number of the closed interval [[lo, hi]]. *)
Definition within (lo hi : Z) (x : number) : Prop :=
  match x with
  | Fin q => (Q2Qc (inject_Z lo) <= q)%Qc /\ (q <= Q2Qc (inject_Z hi))%Qc
  | _ => False
  end.

End Num.

Abbreviation number := Num.number.

(** A number that is neither [NaN] nor an infinity. *)
Definition finite (x : number) : Prop := exists q, x = Num.Fin q.

(** ** JavaScript strings *)

(** A string is the sequence of its UTF-16 code units: [s.length] is
    [length s], [s[i]] is [s !! i] and [===] on strings is [=]. *)
Definition jsstring := list N.

Module Str.

(** String literals of the sources are written as they stand in the
    TypeScript files; [js] turns the UTF-8 bytes of the literal into
    code units. *)
Fixpoint decode (bs : list N) : jsstring :=
  match bs with
  | [] => []
  | b0 :: r0 =>
      if b0 <? 0x80 then b0 :: decode r0
      else
        match r0 with
        | [] => [b0]
        | b1 :: r1 =>
            if b0 <? 0xE0
            then ((b0 - 0xC0) * 64 + (b1 - 0x80)) :: decode r1
            else
              match r1 with
              | [] => [b0; b1]
              | b2 :: r2 =>
                  if b0 <? 0xF0
                  then ((b0 - 0xE0) * 4096 + (b1 - 0x80) * 64 + (b2 - 0x80))
                         :: decode r2
                  else
                    match r2 with
                    | [] => [b0; b1; b2]
                    | b3 :: r3 =>
                        let cp := (b0 - 0xF0) * 262144 + (b1 - 0x80) * 4096
                                  + (b2 - 0x80) * 64 + (b3 - 0x80) in
                        let v := cp - 0x10000 in
                        (0xD800 + v / 1024) :: (0xDC00 + v mod 1024)
                          :: decode r3
                    end
              end
        end
  end.

Definition js (s : string) : jsstring :=
  decode (List.map N_of_ascii (list_ascii_of_string s)).

Definition inRange (lo hi u : N) : bool := (lo <=? u) && (u <=? hi).

Definition eqb (a b : jsstring) : bool := bool_decide (a = b).

(** *** Character classes *)

(** [\s] of a regular expression, which is also what [trim] strips:
    white space and line terminators. *)
Definition isWhiteSpace (u : N) : bool :=
  inRange 0x9 0xD u || (u =? 0x20) || (u =? 0xA0) || (u =? 0x1680)
  || inRange 0x2000 0x200A u || (u =? 0x2028) || (u =? 0x2029)
  || (u =? 0x202F) || (u =? 0x205F) || (u =? 0x3000) || (u =? 0xFEFF).

(** What [.] of a regular expression does not match. *)
Definition isLineTerminator (u : N) : bool :=
  (u =? 0xA) || (u =? 0xD) || (u =? 0x2028) || (u =? 0x2029).

Definition isHighSurrogate (u : N) : bool := inRange 0xD800 0xDBFF u.
Definition isLowSurrogate (u : N) : bool := inRange 0xDC00 0xDFFF u.
Definition isSurrogate (u : N) : bool := inRange 0xD800 0xDFFF u.

(** *** [String.prototype.toLowerCase] *)

(** The default case conversion of Unicode, without a locale: the
    simple mappings of the character data base, the one mapping to two
    code points, and the final sigma. *)

(** The simple lower-case mappings of [UnicodeData.txt] (Unicode 14.0):
    a rule [(first, last, stride, image)] sends the code points [first],
    [first + stride], ... up to [last] to [image], [image + stride],
    ... *)
Definition lowerRules : list (N * N * N * N) :=
  [ (0x41, 0x5A, 1, 0x61); (0xC0, 0xD6, 1, 0xE0); (0xD8, 0xDE, 1, 0xF8);
    (0x100, 0x12E, 2, 0x101); (0x132, 0x136, 2, 0x133);
    (0x139, 0x147, 2, 0x13A); (0x14A, 0x176, 2, 0x14B);
    (0x178, 0x178, 1, 0xFF); (0x179, 0x17D, 2, 0x17A);
    (0x181, 0x181, 1, 0x253); (0x182, 0x184, 2, 0x183);
    (0x186, 0x186, 1, 0x254); (0x187, 0x187, 1, 0x188);
    (0x189, 0x18A, 1, 0x256); (0x18B, 0x18B, 1, 0x18C);
    (0x18E, 0x18E, 1, 0x1DD); (0x18F, 0x18F, 1, 0x259);
    (0x190, 0x190, 1, 0x25B); (0x191, 0x191, 1, 0x192);
    (0x193, 0x193, 1, 0x260); (0x194, 0x194, 1, 0x263);
    (0x196, 0x196, 1, 0x269); (0x197, 0x197, 1, 0x268);
    (0x198, 0x198, 1, 0x199); (0x19C, 0x19C, 1, 0x26F);
    (0x19D, 0x19D, 1, 0x272); (0x19F, 0x19F, 1, 0x275);
    (0x1A0, 0x1A4, 2, 0x1A1); (0x1A6, 0x1A6, 1, 0x280);
    (0x1A7, 0x1A7, 1, 0x1A8); (0x1A9, 0x1A9, 1, 0x283);
    (0x1AC, 0x1AC, 1, 0x1AD); (0x1AE, 0x1AE, 1, 0x288);
    (0x1AF, 0x1AF, 1, 0x1B0); (0x1B1, 0x1B2, 1, 0x28A);
    (0x1B3, 0x1B5, 2, 0x1B4); (0x1B7, 0x1B7, 1, 0x292);
    (0x1B8, 0x1B8, 1, 0x1B9); (0x1BC, 0x1BC, 1, 0x1BD);
    (0x1C4, 0x1C4, 1, 0x1C6); (0x1C5, 0x1C5, 1, 0x1C6);
    (0x1C7, 0x1C7, 1, 0x1C9); (0x1C8, 0x1C8, 1, 0x1C9);
    (0x1CA, 0x1CA, 1, 0x1CC); (0x1CB, 0x1DB, 2, 0x1CC);
    (0x1DE, 0x1EE, 2, 0x1DF); (0x1F1, 0x1F1, 1, 0x1F3);
    (0x1F2, 0x1F4, 2, 0x1F3); (0x1F6, 0x1F6, 1, 0x195);
    (0x1F7, 0x1F7, 1, 0x1BF); (0x1F8, 0x21E, 2, 0x1F9);
    (0x220, 0x220, 1, 0x19E); (0x222, 0x232, 2, 0x223);
    (0x23A, 0x23A, 1, 0x2C65); (0x23B, 0x23B, 1, 0x23C);
    (0x23D, 0x23D, 1, 0x19A); (0x23E, 0x23E, 1, 0x2C66);
    (0x241, 0x241, 1, 0x242); (0x243, 0x243, 1, 0x180);
    (0x244, 0x244, 1, 0x289); (0x245, 0x245, 1, 0x28C);
    (0x246, 0x24E, 2, 0x247); (0x370, 0x372, 2, 0x371);
    (0x376, 0x376, 1, 0x377); (0x37F, 0x37F, 1, 0x3F3);
    (0x386, 0x386, 1, 0x3AC); (0x388, 0x38A, 1, 0x3AD);
    (0x38C, 0x38C, 1, 0x3CC); (0x38E, 0x38F, 1, 0x3CD);
    (0x391, 0x3A1, 1, 0x3B1); (0x3A3, 0x3AB, 1, 0x3C3);
    (0x3CF, 0x3CF, 1, 0x3D7); (0x3D8, 0x3EE, 2, 0x3D9);
    (0x3F4, 0x3F4, 1, 0x3B8); (0x3F7, 0x3F7, 1, 0x3F8);
    (0x3F9, 0x3F9, 1, 0x3F2); (0x3FA, 0x3FA, 1, 0x3FB);
    (0x3FD, 0x3FF, 1, 0x37B); (0x400, 0x40F, 1, 0x450);
    (0x410, 0x42F, 1, 0x430); (0x460, 0x480, 2, 0x461);
    (0x48A, 0x4BE, 2, 0x48B); (0x4C0, 0x4C0, 1, 0x4CF);
    (0x4C1, 0x4CD, 2, 0x4C2); (0x4D0, 0x52E, 2, 0x4D1);
    (0x531, 0x556, 1, 0x561); (0x10A0, 0x10C5, 1, 0x2D00);
    (0x10C7, 0x10C7, 1, 0x2D27); (0x10CD, 0x10CD, 1, 0x2D2D);
    (0x13A0, 0x13EF, 1, 0xAB70); (0x13F0, 0x13F5, 1, 0x13F8);
    (0x1C90, 0x1CBA, 1, 0x10D0); (0x1CBD, 0x1CBF, 1, 0x10FD);
    (0x1E00, 0x1E94, 2, 0x1E01); (0x1E9E, 0x1E9E, 1, 0xDF);
    (0x1EA0, 0x1EFE, 2, 0x1EA1); (0x1F08, 0x1F0F, 1, 0x1F00);
    (0x1F18, 0x1F1D, 1, 0x1F10); (0x1F28, 0x1F2F, 1, 0x1F20);
    (0x1F38, 0x1F3F, 1, 0x1F30); (0x1F48, 0x1F4D, 1, 0x1F40);
    (0x1F59, 0x1F5F, 2, 0x1F51); (0x1F68, 0x1F6F, 1, 0x1F60);
    (0x1F88, 0x1F8F, 1, 0x1F80); (0x1F98, 0x1F9F, 1, 0x1F90);
    (0x1FA8, 0x1FAF, 1, 0x1FA0); (0x1FB8, 0x1FB9, 1, 0x1FB0);
    (0x1FBA, 0x1FBB, 1, 0x1F70); (0x1FBC, 0x1FBC, 1, 0x1FB3);
    (0x1FC8, 0x1FCB, 1, 0x1F72); (0x1FCC, 0x1FCC, 1, 0x1FC3);
    (0x1FD8, 0x1FD9, 1, 0x1FD0); (0x1FDA, 0x1FDB, 1, 0x1F76);
    (0x1FE8, 0x1FE9, 1, 0x1FE0); (0x1FEA, 0x1FEB, 1, 0x1F7A);
    (0x1FEC, 0x1FEC, 1, 0x1FE5); (0x1FF8, 0x1FF9, 1, 0x1F78);
    (0x1FFA, 0x1FFB, 1, 0x1F7C); (0x1FFC, 0x1FFC, 1, 0x1FF3);
    (0x2126, 0x2126, 1, 0x3C9); (0x212A, 0x212A, 1, 0x6B);
    (0x212B, 0x212B, 1, 0xE5); (0x2132, 0x2132, 1, 0x214E);
    (0x2160, 0x216F, 1, 0x2170); (0x2183, 0x2183, 1, 0x2184);
    (0x24B6, 0x24CF, 1, 0x24D0); (0x2C00, 0x2C2F, 1, 0x2C30);
    (0x2C60, 0x2C60, 1, 0x2C61); (0x2C62, 0x2C62, 1, 0x26B);
    (0x2C63, 0x2C63, 1, 0x1D7D); (0x2C64, 0x2C64, 1, 0x27D);
    (0x2C67, 0x2C6B, 2, 0x2C68); (0x2C6D, 0x2C6D, 1, 0x251);
    (0x2C6E, 0x2C6E, 1, 0x271); (0x2C6F, 0x2C6F, 1, 0x250);
    (0x2C70, 0x2C70, 1, 0x252); (0x2C72, 0x2C72, 1, 0x2C73);
    (0x2C75, 0x2C75, 1, 0x2C76); (0x2C7E, 0x2C7F, 1, 0x23F);
    (0x2C80, 0x2CE2, 2, 0x2C81); (0x2CEB, 0x2CED, 2, 0x2CEC);
    (0x2CF2, 0x2CF2, 1, 0x2CF3); (0xA640, 0xA66C, 2, 0xA641);
    (0xA680, 0xA69A, 2, 0xA681); (0xA722, 0xA72E, 2, 0xA723);
    (0xA732, 0xA76E, 2, 0xA733); (0xA779, 0xA77B, 2, 0xA77A);
    (0xA77D, 0xA77D, 1, 0x1D79); (0xA77E, 0xA786, 2, 0xA77F);
    (0xA78B, 0xA78B, 1, 0xA78C); (0xA78D, 0xA78D, 1, 0x265);
    (0xA790, 0xA792, 2, 0xA791); (0xA796, 0xA7A8, 2, 0xA797);
    (0xA7AA, 0xA7AA, 1, 0x266); (0xA7AB, 0xA7AB, 1, 0x25C);
    (0xA7AC, 0xA7AC, 1, 0x261); (0xA7AD, 0xA7AD, 1, 0x26C);
    (0xA7AE, 0xA7AE, 1, 0x26A); (0xA7B0, 0xA7B0, 1, 0x29E);
    (0xA7B1, 0xA7B1, 1, 0x287); (0xA7B2, 0xA7B2, 1, 0x29D);
    (0xA7B3, 0xA7B3, 1, 0xAB53); (0xA7B4, 0xA7C2, 2, 0xA7B5);
    (0xA7C4, 0xA7C4, 1, 0xA794); (0xA7C5, 0xA7C5, 1, 0x282);
    (0xA7C6, 0xA7C6, 1, 0x1D8E); (0xA7C7, 0xA7C9, 2, 0xA7C8);
    (0xA7D0, 0xA7D0, 1, 0xA7D1); (0xA7D6, 0xA7D8, 2, 0xA7D7);
    (0xA7F5, 0xA7F5, 1, 0xA7F6); (0xFF21, 0xFF3A, 1, 0xFF41);
    (0x10400, 0x10427, 1, 0x10428); (0x104B0, 0x104D3, 1, 0x104D8);
    (0x10570, 0x1057A, 1, 0x10597); (0x1057C, 0x1058A, 1, 0x105A3);
    (0x1058C, 0x10592, 1, 0x105B3); (0x10594, 0x10595, 1, 0x105BB);
    (0x10C80, 0x10CB2, 1, 0x10CC0); (0x118A0, 0x118BF, 1, 0x118C0);
    (0x16E40, 0x16E5F, 1, 0x16E60); (0x1E900, 0x1E921, 1, 0x1E922) ].

(** The code points with the property [Cased] of
    [DerivedCoreProperties.txt], as ranges. *)
Definition casedRanges : list (N * N) :=
  [ (0x41, 0x5A); (0x61, 0x7A); (0xAA, 0xAA); (0xB5, 0xB5); (0xBA, 0xBA);
    (0xC0, 0xD6); (0xD8, 0xF6); (0xF8, 0x1BA); (0x1BC, 0x1BF);
    (0x1C4, 0x293); (0x295, 0x2B8); (0x2C0, 0x2C1); (0x2E0, 0x2E4);
    (0x345, 0x345); (0x370, 0x373); (0x376, 0x377); (0x37A, 0x37D);
    (0x37F, 0x37F); (0x386, 0x386); (0x388, 0x38A); (0x38C, 0x38C);
    (0x38E, 0x3A1); (0x3A3, 0x3F5); (0x3F7, 0x481); (0x48A, 0x52F);
    (0x531, 0x556); (0x560, 0x588); (0x10A0, 0x10C5); (0x10C7, 0x10C7);
    (0x10CD, 0x10CD); (0x10D0, 0x10FA); (0x10FD, 0x10FF); (0x13A0, 0x13F5);
    (0x13F8, 0x13FD); (0x1C80, 0x1C88); (0x1C90, 0x1CBA); (0x1CBD, 0x1CBF);
    (0x1D00, 0x1DBF); (0x1E00, 0x1F15); (0x1F18, 0x1F1D); (0x1F20, 0x1F45);
    (0x1F48, 0x1F4D); (0x1F50, 0x1F57); (0x1F59, 0x1F59); (0x1F5B, 0x1F5B);
    (0x1F5D, 0x1F5D); (0x1F5F, 0x1F7D); (0x1F80, 0x1FB4); (0x1FB6, 0x1FBC);
    (0x1FBE, 0x1FBE); (0x1FC2, 0x1FC4); (0x1FC6, 0x1FCC); (0x1FD0, 0x1FD3);
    (0x1FD6, 0x1FDB); (0x1FE0, 0x1FEC); (0x1FF2, 0x1FF4); (0x1FF6, 0x1FFC);
    (0x2071, 0x2071); (0x207F, 0x207F); (0x2090, 0x209C); (0x2102, 0x2102);
    (0x2107, 0x2107); (0x210A, 0x2113); (0x2115, 0x2115); (0x2119, 0x211D);
    (0x2124, 0x2124); (0x2126, 0x2126); (0x2128, 0x2128); (0x212A, 0x212D);
    (0x212F, 0x2134); (0x2139, 0x2139); (0x213C, 0x213F); (0x2145, 0x2149);
    (0x214E, 0x214E); (0x2160, 0x217F); (0x2183, 0x2184); (0x24B6, 0x24E9);
    (0x2C00, 0x2CE4); (0x2CEB, 0x2CEE); (0x2CF2, 0x2CF3); (0x2D00, 0x2D25);
    (0x2D27, 0x2D27); (0x2D2D, 0x2D2D); (0xA640, 0xA66D); (0xA680, 0xA69D);
    (0xA722, 0xA787); (0xA78B, 0xA78E); (0xA790, 0xA7CA); (0xA7D0, 0xA7D1);
    (0xA7D3, 0xA7D3); (0xA7D5, 0xA7D9); (0xA7F5, 0xA7F6); (0xA7F8, 0xA7FA);
    (0xAB30, 0xAB5A); (0xAB5C, 0xAB68); (0xAB70, 0xABBF); (0xFB00, 0xFB06);
    (0xFB13, 0xFB17); (0xFF21, 0xFF3A); (0xFF41, 0xFF5A); (0x10400, 0x1044F);
    (0x104B0, 0x104D3); (0x104D8, 0x104FB); (0x10570, 0x1057A);
    (0x1057C, 0x1058A); (0x1058C, 0x10592); (0x10594, 0x10595);
    (0x10597, 0x105A1); (0x105A3, 0x105B1); (0x105B3, 0x105B9);
    (0x105BB, 0x105BC); (0x10780, 0x10780); (0x10783, 0x10785);
    (0x10787, 0x107B0); (0x107B2, 0x107BA); (0x10C80, 0x10CB2);
    (0x10CC0, 0x10CF2); (0x118A0, 0x118DF); (0x16E40, 0x16E7F);
    (0x1D400, 0x1D454); (0x1D456, 0x1D49C); (0x1D49E, 0x1D49F);
    (0x1D4A2, 0x1D4A2); (0x1D4A5, 0x1D4A6); (0x1D4A9, 0x1D4AC);
    (0x1D4AE, 0x1D4B9); (0x1D4BB, 0x1D4BB); (0x1D4BD, 0x1D4C3);
    (0x1D4C5, 0x1D505); (0x1D507, 0x1D50A); (0x1D50D, 0x1D514);
    (0x1D516, 0x1D51C); (0x1D51E, 0x1D539); (0x1D53B, 0x1D53E);
    (0x1D540, 0x1D544); (0x1D546, 0x1D546); (0x1D54A, 0x1D550);
    (0x1D552, 0x1D6A5); (0x1D6A8, 0x1D6C0); (0x1D6C2, 0x1D6DA);
    (0x1D6DC, 0x1D6FA); (0x1D6FC, 0x1D714); (0x1D716, 0x1D734);
    (0x1D736, 0x1D74E); (0x1D750, 0x1D76E); (0x1D770, 0x1D788);
    (0x1D78A, 0x1D7A8); (0x1D7AA, 0x1D7C2); (0x1D7C4, 0x1D7CB);
    (0x1DF00, 0x1DF09); (0x1DF0B, 0x1DF1E); (0x1E900, 0x1E943);
    (0x1F130, 0x1F149); (0x1F150, 0x1F169); (0x1F170, 0x1F189) ].

(** The code points with the property [Case_Ignorable]. *)
Definition caseIgnorableRanges : list (N * N) :=
  [ (0x27, 0x27); (0x2E, 0x2E); (0x3A, 0x3A); (0x5E, 0x5E); (0x60, 0x60);
    (0xA8, 0xA8); (0xAD, 0xAD); (0xAF, 0xAF); (0xB4, 0xB4); (0xB7, 0xB8);
    (0x2B0, 0x36F); (0x374, 0x375); (0x37A, 0x37A); (0x384, 0x385);
    (0x387, 0x387); (0x483, 0x489); (0x559, 0x559); (0x55F, 0x55F);
    (0x591, 0x5BD); (0x5BF, 0x5BF); (0x5C1, 0x5C2); (0x5C4, 0x5C5);
    (0x5C7, 0x5C7); (0x5F4, 0x5F4); (0x600, 0x605); (0x610, 0x61A);
    (0x61C, 0x61C); (0x640, 0x640); (0x64B, 0x65F); (0x670, 0x670);
    (0x6D6, 0x6DD); (0x6DF, 0x6E8); (0x6EA, 0x6ED); (0x70F, 0x70F);
    (0x711, 0x711); (0x730, 0x74A); (0x7A6, 0x7B0); (0x7EB, 0x7F5);
    (0x7FA, 0x7FA); (0x7FD, 0x7FD); (0x816, 0x82D); (0x859, 0x85B);
    (0x888, 0x888); (0x890, 0x891); (0x898, 0x89F); (0x8C9, 0x902);
    (0x93A, 0x93A); (0x93C, 0x93C); (0x941, 0x948); (0x94D, 0x94D);
    (0x951, 0x957); (0x962, 0x963); (0x971, 0x971); (0x981, 0x981);
    (0x9BC, 0x9BC); (0x9C1, 0x9C4); (0x9CD, 0x9CD); (0x9E2, 0x9E3);
    (0x9FE, 0x9FE); (0xA01, 0xA02); (0xA3C, 0xA3C); (0xA41, 0xA42);
    (0xA47, 0xA48); (0xA4B, 0xA4D); (0xA51, 0xA51); (0xA70, 0xA71);
    (0xA75, 0xA75); (0xA81, 0xA82); (0xABC, 0xABC); (0xAC1, 0xAC5);
    (0xAC7, 0xAC8); (0xACD, 0xACD); (0xAE2, 0xAE3); (0xAFA, 0xAFF);
    (0xB01, 0xB01); (0xB3C, 0xB3C); (0xB3F, 0xB3F); (0xB41, 0xB44);
    (0xB4D, 0xB4D); (0xB55, 0xB56); (0xB62, 0xB63); (0xB82, 0xB82);
    (0xBC0, 0xBC0); (0xBCD, 0xBCD); (0xC00, 0xC00); (0xC04, 0xC04);
    (0xC3C, 0xC3C); (0xC3E, 0xC40); (0xC46, 0xC48); (0xC4A, 0xC4D);
    (0xC55, 0xC56); (0xC62, 0xC63); (0xC81, 0xC81); (0xCBC, 0xCBC);
    (0xCBF, 0xCBF); (0xCC6, 0xCC6); (0xCCC, 0xCCD); (0xCE2, 0xCE3);
    (0xD00, 0xD01); (0xD3B, 0xD3C); (0xD41, 0xD44); (0xD4D, 0xD4D);
    (0xD62, 0xD63); (0xD81, 0xD81); (0xDCA, 0xDCA); (0xDD2, 0xDD4);
    (0xDD6, 0xDD6); (0xE31, 0xE31); (0xE34, 0xE3A); (0xE46, 0xE4E);
    (0xEB1, 0xEB1); (0xEB4, 0xEBC); (0xEC6, 0xEC6); (0xEC8, 0xECD);
    (0xF18, 0xF19); (0xF35, 0xF35); (0xF37, 0xF37); (0xF39, 0xF39);
    (0xF71, 0xF7E); (0xF80, 0xF84); (0xF86, 0xF87); (0xF8D, 0xF97);
    (0xF99, 0xFBC); (0xFC6, 0xFC6); (0x102D, 0x1030); (0x1032, 0x1037);
    (0x1039, 0x103A); (0x103D, 0x103E); (0x1058, 0x1059); (0x105E, 0x1060);
    (0x1071, 0x1074); (0x1082, 0x1082); (0x1085, 0x1086); (0x108D, 0x108D);
    (0x109D, 0x109D); (0x10FC, 0x10FC); (0x135D, 0x135F); (0x1712, 0x1714);
    (0x1732, 0x1733); (0x1752, 0x1753); (0x1772, 0x1773); (0x17B4, 0x17B5);
    (0x17B7, 0x17BD); (0x17C6, 0x17C6); (0x17C9, 0x17D3); (0x17D7, 0x17D7);
    (0x17DD, 0x17DD); (0x180B, 0x180F); (0x1843, 0x1843); (0x1885, 0x1886);
    (0x18A9, 0x18A9); (0x1920, 0x1922); (0x1927, 0x1928); (0x1932, 0x1932);
    (0x1939, 0x193B); (0x1A17, 0x1A18); (0x1A1B, 0x1A1B); (0x1A56, 0x1A56);
    (0x1A58, 0x1A5E); (0x1A60, 0x1A60); (0x1A62, 0x1A62); (0x1A65, 0x1A6C);
    (0x1A73, 0x1A7C); (0x1A7F, 0x1A7F); (0x1AA7, 0x1AA7); (0x1AB0, 0x1ACE);
    (0x1B00, 0x1B03); (0x1B34, 0x1B34); (0x1B36, 0x1B3A); (0x1B3C, 0x1B3C);
    (0x1B42, 0x1B42); (0x1B6B, 0x1B73); (0x1B80, 0x1B81); (0x1BA2, 0x1BA5);
    (0x1BA8, 0x1BA9); (0x1BAB, 0x1BAD); (0x1BE6, 0x1BE6); (0x1BE8, 0x1BE9);
    (0x1BED, 0x1BED); (0x1BEF, 0x1BF1); (0x1C2C, 0x1C33); (0x1C36, 0x1C37);
    (0x1C78, 0x1C7D); (0x1CD0, 0x1CD2); (0x1CD4, 0x1CE0); (0x1CE2, 0x1CE8);
    (0x1CED, 0x1CED); (0x1CF4, 0x1CF4); (0x1CF8, 0x1CF9); (0x1D2C, 0x1D6A);
    (0x1D78, 0x1D78); (0x1D9B, 0x1DFF); (0x1FBD, 0x1FBD); (0x1FBF, 0x1FC1);
    (0x1FCD, 0x1FCF); (0x1FDD, 0x1FDF); (0x1FED, 0x1FEF); (0x1FFD, 0x1FFE);
    (0x200B, 0x200F); (0x2018, 0x2019); (0x2024, 0x2024); (0x2027, 0x2027);
    (0x202A, 0x202E); (0x2060, 0x2064); (0x2066, 0x206F); (0x2071, 0x2071);
    (0x207F, 0x207F); (0x2090, 0x209C); (0x20D0, 0x20F0); (0x2C7C, 0x2C7D);
    (0x2CEF, 0x2CF1); (0x2D6F, 0x2D6F); (0x2D7F, 0x2D7F); (0x2DE0, 0x2DFF);
    (0x2E2F, 0x2E2F); (0x3005, 0x3005); (0x302A, 0x302D); (0x3031, 0x3035);
    (0x303B, 0x303B); (0x3099, 0x309E); (0x30FC, 0x30FE); (0xA015, 0xA015);
    (0xA4F8, 0xA4FD); (0xA60C, 0xA60C); (0xA66F, 0xA672); (0xA674, 0xA67D);
    (0xA67F, 0xA67F); (0xA69C, 0xA69F); (0xA6F0, 0xA6F1); (0xA700, 0xA721);
    (0xA770, 0xA770); (0xA788, 0xA78A); (0xA7F2, 0xA7F4); (0xA7F8, 0xA7F9);
    (0xA802, 0xA802); (0xA806, 0xA806); (0xA80B, 0xA80B); (0xA825, 0xA826);
    (0xA82C, 0xA82C); (0xA8C4, 0xA8C5); (0xA8E0, 0xA8F1); (0xA8FF, 0xA8FF);
    (0xA926, 0xA92D); (0xA947, 0xA951); (0xA980, 0xA982); (0xA9B3, 0xA9B3);
    (0xA9B6, 0xA9B9); (0xA9BC, 0xA9BD); (0xA9CF, 0xA9CF); (0xA9E5, 0xA9E6);
    (0xAA29, 0xAA2E); (0xAA31, 0xAA32); (0xAA35, 0xAA36); (0xAA43, 0xAA43);
    (0xAA4C, 0xAA4C); (0xAA70, 0xAA70); (0xAA7C, 0xAA7C); (0xAAB0, 0xAAB0);
    (0xAAB2, 0xAAB4); (0xAAB7, 0xAAB8); (0xAABE, 0xAABF); (0xAAC1, 0xAAC1);
    (0xAADD, 0xAADD); (0xAAEC, 0xAAED); (0xAAF3, 0xAAF4); (0xAAF6, 0xAAF6);
    (0xAB5B, 0xAB5F); (0xAB69, 0xAB6B); (0xABE5, 0xABE5); (0xABE8, 0xABE8);
    (0xABED, 0xABED); (0xFB1E, 0xFB1E); (0xFBB2, 0xFBC2); (0xFE00, 0xFE0F);
    (0xFE13, 0xFE13); (0xFE20, 0xFE2F); (0xFE52, 0xFE52); (0xFE55, 0xFE55);
    (0xFEFF, 0xFEFF); (0xFF07, 0xFF07); (0xFF0E, 0xFF0E); (0xFF1A, 0xFF1A);
    (0xFF3E, 0xFF3E); (0xFF40, 0xFF40); (0xFF70, 0xFF70); (0xFF9E, 0xFF9F);
    (0xFFE3, 0xFFE3); (0xFFF9, 0xFFFB); (0x101FD, 0x101FD);
    (0x102E0, 0x102E0); (0x10376, 0x1037A); (0x10780, 0x10785);
    (0x10787, 0x107B0); (0x107B2, 0x107BA); (0x10A01, 0x10A03);
    (0x10A05, 0x10A06); (0x10A0C, 0x10A0F); (0x10A38, 0x10A3A);
    (0x10A3F, 0x10A3F); (0x10AE5, 0x10AE6); (0x10D24, 0x10D27);
    (0x10EAB, 0x10EAC); (0x10F46, 0x10F50); (0x10F82, 0x10F85);
    (0x11001, 0x11001); (0x11038, 0x11046); (0x11070, 0x11070);
    (0x11073, 0x11074); (0x1107F, 0x11081); (0x110B3, 0x110B6);
    (0x110B9, 0x110BA); (0x110BD, 0x110BD); (0x110C2, 0x110C2);
    (0x110CD, 0x110CD); (0x11100, 0x11102); (0x11127, 0x1112B);
    (0x1112D, 0x11134); (0x11173, 0x11173); (0x11180, 0x11181);
    (0x111B6, 0x111BE); (0x111C9, 0x111CC); (0x111CF, 0x111CF);
    (0x1122F, 0x11231); (0x11234, 0x11234); (0x11236, 0x11237);
    (0x1123E, 0x1123E); (0x112DF, 0x112DF); (0x112E3, 0x112EA);
    (0x11300, 0x11301); (0x1133B, 0x1133C); (0x11340, 0x11340);
    (0x11366, 0x1136C); (0x11370, 0x11374); (0x11438, 0x1143F);
    (0x11442, 0x11444); (0x11446, 0x11446); (0x1145E, 0x1145E);
    (0x114B3, 0x114B8); (0x114BA, 0x114BA); (0x114BF, 0x114C0);
    (0x114C2, 0x114C3); (0x115B2, 0x115B5); (0x115BC, 0x115BD);
    (0x115BF, 0x115C0); (0x115DC, 0x115DD); (0x11633, 0x1163A);
    (0x1163D, 0x1163D); (0x1163F, 0x11640); (0x116AB, 0x116AB);
    (0x116AD, 0x116AD); (0x116B0, 0x116B5); (0x116B7, 0x116B7);
    (0x1171D, 0x1171F); (0x11722, 0x11725); (0x11727, 0x1172B);
    (0x1182F, 0x11837); (0x11839, 0x1183A); (0x1193B, 0x1193C);
    (0x1193E, 0x1193E); (0x11943, 0x11943); (0x119D4, 0x119D7);
    (0x119DA, 0x119DB); (0x119E0, 0x119E0); (0x11A01, 0x11A0A);
    (0x11A33, 0x11A38); (0x11A3B, 0x11A3E); (0x11A47, 0x11A47);
    (0x11A51, 0x11A56); (0x11A59, 0x11A5B); (0x11A8A, 0x11A96);
    (0x11A98, 0x11A99); (0x11C30, 0x11C36); (0x11C38, 0x11C3D);
    (0x11C3F, 0x11C3F); (0x11C92, 0x11CA7); (0x11CAA, 0x11CB0);
    (0x11CB2, 0x11CB3); (0x11CB5, 0x11CB6); (0x11D31, 0x11D36);
    (0x11D3A, 0x11D3A); (0x11D3C, 0x11D3D); (0x11D3F, 0x11D45);
    (0x11D47, 0x11D47); (0x11D90, 0x11D91); (0x11D95, 0x11D95);
    (0x11D97, 0x11D97); (0x11EF3, 0x11EF4); (0x13430, 0x13438);
    (0x16AF0, 0x16AF4); (0x16B30, 0x16B36); (0x16B40, 0x16B43);
    (0x16F4F, 0x16F4F); (0x16F8F, 0x16F9F); (0x16FE0, 0x16FE1);
    (0x16FE3, 0x16FE4); (0x1AFF0, 0x1AFF3); (0x1AFF5, 0x1AFFB);
    (0x1AFFD, 0x1AFFE); (0x1BC9D, 0x1BC9E); (0x1BCA0, 0x1BCA3);
    (0x1CF00, 0x1CF2D); (0x1CF30, 0x1CF46); (0x1D167, 0x1D169);
    (0x1D173, 0x1D182); (0x1D185, 0x1D18B); (0x1D1AA, 0x1D1AD);
    (0x1D242, 0x1D244); (0x1DA00, 0x1DA36); (0x1DA3B, 0x1DA6C);
    (0x1DA75, 0x1DA75); (0x1DA84, 0x1DA84); (0x1DA9B, 0x1DA9F);
    (0x1DAA1, 0x1DAAF); (0x1E000, 0x1E006); (0x1E008, 0x1E018);
    (0x1E01B, 0x1E021); (0x1E023, 0x1E024); (0x1E026, 0x1E02A);
    (0x1E130, 0x1E13D); (0x1E2AE, 0x1E2AE); (0x1E2EC, 0x1E2EF);
    (0x1E8D0, 0x1E8D6); (0x1E944, 0x1E94B); (0x1F3FB, 0x1F3FF);
    (0xE0001, 0xE0001); (0xE0020, 0xE007F); (0xE0100, 0xE01EF) ].

(** [rule] holds a mapping for the code point [c]. *)
Definition covers (c : N) (rule : N * N * N * N) : bool :=
  let '(first, last, stride, _) := rule in
  (first <=? c) && (c <=? last) && ((c - first) mod stride =? 0).

(** The simple lower-case mapping of a code point; a code point
    without a rule is its own image. *)
Definition simpleLower (c : N) : N :=
  match List.find (covers c) lowerRules with
  | Some (first, _, _, image) => image + (c - first)
  | None => c
  end.

Definition inRanges (ranges : list (N * N)) (c : N) : bool :=
  existsb (fun range => inRange range.1 range.2 c) ranges.

Definition isCased (c : N) : bool := inRanges casedRanges c.
Definition isCaseIgnorable (c : N) : bool := inRanges caseIgnorableRanges c.

(** The code point of a surrogate pair, and the pair of a supplementary
    code point. *)
Definition codePoint (h l : N) : N := 0x10000 + (h - 0xD800) * 0x400 + (l - 0xDC00).

Definition codeUnits (c : N) : jsstring :=
  [0xD800 + (c - 0x10000) / 0x400; 0xDC00 + (c - 0x10000) mod 0x400].

(** [toLowerCase] reads the string as code points: a high surrogate
    followed by a low surrogate is one code point, any other code unit
    is a code point of its own. *)
Fixpoint codePoints (s : jsstring) : list N :=
  match s with
  | [] => []
  | h :: t =>
      match t with
      | l :: t' =>
          if isHighSurrogate h && isLowSurrogate l
          then codePoint h l :: codePoints t'
          else h :: codePoints t
      | [] => [h]
      end
  end.

(** The condition [Final_Sigma] of [SpecialCasing.txt] looks past the
    case-ignorable code points for a cased one: on the code points
    before, nearest first, and on the code points after. A code point
    that is both cased and case-ignorable is passed over. *)
Fixpoint casedNext (points : list N) : bool :=
  match points with
  | [] => false
  | c :: rest => if isCaseIgnorable c then casedNext rest else isCased c
  end.

(** The lower case of a code point of one code unit, between the code
    points [before] (nearest first) and [after]: capital sigma becomes
    the final small sigma after a cased letter and not before one, and
    the capital I with a dot becomes a small i and a combining dot. *)
Definition lowerUnit (before : list N) (u : N) (after : list N) : jsstring :=
  if u =? 0x3A3
  then [if casedNext before && negb (casedNext after) then 0x3C2 else 0x3C3]
  else if u =? 0x130 then [0x69; 0x307]
  else [simpleLower u].

(** The lower case of a supplementary code point, given by its
    surrogate pair. *)
Definition lowerPair (h l : N) : jsstring :=
  let c := codePoint h l in
  let d := simpleLower c in
  if d =? c then [h; l] else codeUnits d.

(** The lower case of [s], which follows the code points [before]
    (nearest first) in its string. *)
Fixpoint lowerFrom (before : list N) (s : jsstring) : jsstring :=
  match s with
  | [] => []
  | h :: t =>
      match t with
      | l :: t' =>
          if isHighSurrogate h && isLowSurrogate l
          then lowerPair h l ++ lowerFrom (codePoint h l :: before) t'
          else lowerUnit before h (codePoints t) ++ lowerFrom (h :: before) t
      | [] => lowerUnit before h []
      end
  end.

Definition toLowerCase (s : jsstring) : jsstring := lowerFrom [] s.

(** [s.trim()] *)
Fixpoint trimStart (s : jsstring) : jsstring :=
  match s with
  | [] => []
  | u :: t => if isWhiteSpace u then trimStart t else s
  end.
Definition trim (s : jsstring) : jsstring :=
  rev (trimStart (rev (trimStart s))).

(** [s.replace(/[class]/g, '')] for a class of single code units. *)
Definition removeAll (class : N -> bool) (s : jsstring) : jsstring :=
  List.filter (fun u => negb (class u)) s.

(** [s.includes(p)] *)
Fixpoint isPrefix (p s : jsstring) : bool :=
  match p, s with
  | [], _ => true
  | _ :: _, [] => false
  | a :: p', b :: s' => (a =? b) && isPrefix p' s'
  end.

Fixpoint includes (s p : jsstring) : bool :=
  isPrefix p s ||
  match s with
  | [] => false
  | _ :: s' => includes s' p
  end.

(** [String(n)] for a natural number [n]. *)
Definition ofNat (n : nat) : jsstring :=
  js (DecimalString.NilEmpty.string_of_uint (Nat.to_uint n)).

(** [n.toString(16)] for a natural number [n]. *)
Definition hexOfN (n : N) : jsstring :=
  js (HexadecimalString.NilZero.string_of_uint (N.to_hex_uint n)).

(** [s.split(sep)] for a separator of one code unit. *)
Fixpoint split (sep : N) (s : jsstring) : list jsstring :=
  match s with
  | [] => [[]]
  | u :: t =>
      if u =? sep then [] :: split sep t
      else match split sep t with
           | w :: ws => (u :: w) :: ws
           | [] => [[u]]
           end
  end.

(** [s.split(/\s+/)]: the pieces between the runs of white space;
    [inRun] tells that the unit before was white space. *)
Fixpoint splitRuns (inRun : bool) (s : jsstring) : list jsstring :=
  match s with
  | [] => [[]]
  | u :: t =>
      if isWhiteSpace u
      then (if inRun then splitRuns true t else [] :: splitRuns true t)
      else match splitRuns false t with
           | w :: ws => (u :: w) :: ws
           | [] => [[u]]
           end
  end.

(** [s.replace(new RegExp(p, 'g'), r)] for a pattern [p] of plain
    characters: the occurrences of [p] are replaced from left to right,
    without overlap. [skip] counts the units of a match still to pass. *)
Fixpoint replaceLoop (p r : jsstring) (skip : nat) (s : jsstring) : jsstring :=
  match s with
  | [] => []
  | u :: t =>
      match skip with
      | S k => replaceLoop p r k t
      | O =>
          if isPrefix p s
          then r ++ replaceLoop p r (length p - 1) t
          else u :: replaceLoop p r O t
      end
  end.

Definition replaceAll (p r s : jsstring) : jsstring := replaceLoop p r O s.

(** [parts.join(sep)] *)
Fixpoint join (sep : jsstring) (parts : list jsstring) : jsstring :=
  match parts with
  | [] => []
  | [p] => p
  | p :: ps => p ++ sep ++ join sep ps
  end.

(** A string is well formed when its surrogates come in pairs, a high
    one followed by a low one. *)
Fixpoint wellFormed (s : jsstring) : bool :=
  match s with
  | [] => true
  | h :: t =>
      if isHighSurrogate h then
        match t with
        | l :: t' => isLowSurrogate l && wellFormed t'
        | [] => false
        end
      else negb (isLowSurrogate h) && wellFormed t
  end.

(** The mappings of a rule one by one, and those of all rules. *)
Definition ruleEntries (rule : N * N * N * N) : list (N * N) :=
  let '(first, last, stride, image) := rule in
  map (fun k : nat => (first + N.of_nat k * stride, image + N.of_nat k * stride))
      (seq 0 (S (N.to_nat ((last - first) / stride)))).

Definition lowerEntries : list (N * N) := flat_map ruleEntries lowerRules.

(** A code unit that [toLowerCase] leaves as it is in every context. *)
Definition isLowerUnit (u : N) : bool :=
  negb (u =? 0x3A3) && negb (u =? 0x130) && (simpleLower u =? u).

(** A well-formed string whose code points are all their own lower
    case. *)
Fixpoint isLowered (s : jsstring) : bool :=
  match s with
  | [] => true
  | h :: t =>
      if isHighSurrogate h then
        match t with
        | l :: t' =>
            isLowSurrogate l && (simpleLower (codePoint h l) =? codePoint h l)
            && isLowered t'
        | [] => false
        end
      else negb (isLowSurrogate h) && isLowerUnit h && isLowered t
  end.

End Str.

Abbreviation js := Str.js.

(** ** Scripts *)

Inductive SegmentType := narration | dialogue | description.

Module ScriptSegment.
Record t := mk {
  id : jsstring;
  startTime : number;
  endTime : number;
  content : jsstring;
  type : SegmentType
}.
End ScriptSegment.

(** Modelled from the spec: the declaration of [ScriptData] in
    [@/core/types] is not part of the sources at hand; the fields are those
    of the data model (id, title, ordered segments, the derived content,
    metadata and the two time stamps). *)
Module ScriptData.
Record t := mk {
  id : jsstring;
  title : jsstring;
  content : jsstring;
  segments : list ScriptSegment.t;
  metadata : jsstring;
  createdAt : jsstring;
  updatedAt : jsstring
}.
End ScriptData.

#[global] Instance SegmentType_eq_dec : EqDecision SegmentType.
Proof. solve_decision. Defined.

(** [Array.prototype.sort(cmp)]: the sort is stable, and for a comparator
    that is a total preorder every stable sort returns the list built here
    by insertion. [cmp x y > 0] asks for [x] after [y]. *)
Section Sort.
Context {A : Type} (cmp : A -> A -> number).

Fixpoint insertBy (x : A) (l : list A) : list A :=
  match l with
  | [] => [x]
  | y :: l' =>
      if Num.ltb (Num.ofZ 0) (cmp x y) then y :: insertBy x l' else x :: l
  end.

Definition sortBy (l : list A) : list A := foldr insertBy [] l.

End Sort.

Local Close Scope N_scope.
Local Open Scope nat_scope.

(** ** Loops and array writes *)

(** [for (let i = from; i < from + count; i++) body]: the body may leave
    the model ([None]), which ends the loop. *)
Fixpoint forRange {S : Type} (from count : nat)
    (body : nat -> S -> option S) (s : S) : option S :=
  match count with
  | O => Some s
  | Datatypes.S c => s' ← body from s; forRange (Datatypes.S from) c body s'
  end.

(** [arr[i] = v] on an array without holes: inside the array the element
    is replaced, at [arr.length] the array grows by one. A write further
    out would leave holes, which the model does not represent. *)
Definition store {A : Type} (arr : list A) (i : nat) (v : A) : option (list A) :=
  if decide (i < length arr) then Some (<[i:=v]> arr)
  else if decide (i = length arr) then Some (arr ++ [v])
  else None.

(** * The duplicate detector ([dedup/detectors], [dedup/types]) *)

Module Dedup.

Inductive DedupStrategy := Exact | Semantic | Structural | Template.

#[global] Instance DedupStrategy_eq_dec : EqDecision DedupStrategy.
Proof. solve_decision. Defined.

(** The [type] of a result: ['exact' | 'similar' | 'template']. *)
Inductive DuplicateType := TExact | TSimilar | TTemplate.

#[global] Instance DuplicateType_eq_dec : EqDecision DuplicateType.
Proof. solve_decision. Defined.

Record SegmentRef := mkRef {
  segmentId : jsstring;
  content : jsstring;
  startTime : number
}.

(** The [id] of a result is a fresh label built from the clock and
    [Math.random()]; nothing reads it and it is left out. *)
Record DuplicateResult := mkDuplicate {
  type : DuplicateType;
  source : SegmentRef;
  target : SegmentRef;
  similarity : number;
  suggestion : jsstring
}.

Record DedupConfig := mkConfig {
  enabled : bool;
  strategies : list DedupStrategy;
  threshold : number;
  autoFix : bool;
  preserveMeaning : bool;
  autoVariant : bool;
  variantIntensity : option number
}.

Definition COMMON_PHRASES : list (jsstring * list jsstring) :=
  [ (js "intro",
     [ js "大家好，欢迎来到"; js "今天给大家带来"; js "今天要和大家分享";
       js "相信很多人都有过这样的经历"; js "不知道大家有没有发现";
       js "今天我们要聊的是"; js "最近我发现"; js "今天给大家推荐" ]);
    (js "transition",
     [ js "接下来我们看看"; js "那么接下来"; js "说完这个，我们再来看看";
       js "不仅如此"; js "更重要的是"; js "除此之外"; js "另外值得一提的是" ]);
    (js "conclusion",
     [ js "好了，今天的分享就到这里"; js "以上就是今天的全部内容";
       js "希望今天的分享对你有帮助"; js "如果你觉得有用，记得点赞收藏";
       js "我们下期再见"; js "感谢大家的观看" ]);
    (js "emphasis",
     [ js "非常重要"; js "值得注意的是"; js "关键点在于"; js "这里需要特别注意";
       js "这一点很关键"; js "千万不要忽视" ]);
    (js "subjective",
     [ js "我觉得"; js "个人认为"; js "在我看来"; js "说实话"; js "老实说";
       js "坦白讲"; js "不得不说" ]) ].

(** *** [normalizeText] *)

(** The class of the regular expression of [normalizeText]: white
    space, the double and the single quote, and the full-width
    punctuation marks listed. *)
Definition isNormalizePunctuation (u : N) : bool :=
  Str.isWhiteSpace u || (u =? 0x22)%N
  || existsb (N.eqb u) (js "，。！？、；：'（）【】").

Definition normalizeText (text : jsstring) : jsstring :=
  Str.trim (Str.removeAll isNormalizePunctuation (Str.toLowerCase text)).

(** *** [levenshteinDistance] *)

Definition cell (matrix : list (list nat)) (i j : nat) : option nat :=
  row ← matrix !! i; row !! j.

Definition setCell (matrix : list (list nat)) (i j v : nat)
    : option (list (list nat)) :=
  row ← matrix !! i; row' ← store row j v; store matrix i row'.

(** The result is [None] when a read misses the matrix, where the
    JavaScript arithmetic would go on with [undefined]. *)
Definition levenshteinDistance (str1 str2 : jsstring) : option nat :=
  matrix ← forRange 0 (S (length str1))
              (fun i matrix => store matrix i [i]) [];
  matrix ← forRange 0 (S (length str2))
              (fun j matrix => setCell matrix 0 j j) matrix;
  matrix ← forRange 1 (length str1) (fun i matrix =>
              forRange 1 (length str2) (fun j matrix =>
                c1 ← str1 !! (i - 1);
                c2 ← str2 !! (j - 1);
                let cost := if (c1 =? c2)%N then 0 else 1 in
                up ← cell matrix (i - 1) j;
                left ← cell matrix i (j - 1);
                diag ← cell matrix (i - 1) (j - 1);
                setCell matrix i j
                  (Nat.min (Nat.min (up + 1) (left + 1)) (diag + cost)))
                matrix) matrix;
  cell matrix (length str1) (length str2).

(** *** [calculateSimilarity] *)

Definition calculateSimilarity (text1 text2 : jsstring) : number :=
  let normalized1 := normalizeText text1 in
  let normalized2 := normalizeText text2 in
  match levenshteinDistance normalized1 normalized2 with
  | Some distance =>
      let maxLength := Nat.max (length normalized1) (length normalized2) in
      Num.sub (Num.ofZ 1) (Num.div (Num.ofNat distance) (Num.ofNat maxLength))
  | None => Num.NaN
  end.

(** *** Structure features *)

(** [w] occurs in [t] with at least one code unit after it. *)
Fixpoint hasInner (w t : jsstring) : bool :=
  (Str.isPrefix w t && (length w <? length t)) ||
  match t with
  | [] => false
  | _ :: t' => hasInner w t'
  end.

(** [/^(.+?)w(.+?)$/.test(text)]: [text] holds no line terminator and
    [w] occurs in it with a non-empty text on each side. *)
Definition testAround (w text : jsstring) : bool :=
  forallb (fun u => negb (Str.isLineTerminator u)) text &&
  match text with
  | [] => false
  | _ :: t => hasInner w t
  end.

Definition pushIf (c : bool) (f : jsstring) (features : list jsstring) :=
  if c then features ++ [f] else features.

Definition extractStructureFeatures (text : jsstring) : list jsstring :=
  let features := [] in
  let features := pushIf (testAround (js "是") text) (js "是字句") features in
  let features := pushIf (testAround (js "让") text) (js "使令句") features in
  let features := pushIf (testAround (js "可以") text) (js "可能句") features in
  let features := pushIf (testAround (js "有") text) (js "存在句") features in
  let features := pushIf (testAround (js "在") text) (js "处所句") features in
  let features :=
    pushIf (Str.includes text (js "因为") || Str.includes text (js "由于"))
           (js "因果") features in
  let features :=
    pushIf (Str.includes text (js "但是") || Str.includes text (js "然而"))
           (js "转折") features in
  let features :=
    pushIf (Str.includes text (js "而且") || Str.includes text (js "并且"))
           (js "递进") features in
  let features :=
    pushIf (Str.includes text (js "如果") || Str.includes text (js "假如"))
           (js "假设") features in
  features.

Definition calculateStructureSimilarity (text1 text2 : jsstring) : number :=
  let features1 := extractStructureFeatures text1 in
  let features2 := extractStructureFeatures text2 in
  let intersection :=
    List.filter (fun f => bool_decide (f ∈ features2)) features1 in
  let union := remove_dups (features1 ++ features2) in
  Num.div (Num.ofNat (length intersection)) (Num.ofNat (length union)).

Definition generateSuggestion (similarity : number) : jsstring :=
  if Num.geb similarity (Num.ratio 9 10) then js "内容高度相似，建议完全重写"
  else if Num.geb similarity (Num.ratio 8 10) then js "内容较为相似，建议大幅修改"
  else if Num.geb similarity (Num.ratio 7 10)
       then js "内容有一定相似度，建议调整表达方式"
  else js "建议检查内容原创性".

(** *** The four detection passes *)

Definition refOf (s : ScriptSegment.t) : SegmentRef :=
  mkRef (ScriptSegment.id s) (ScriptSegment.content s)
        (ScriptSegment.startTime s).

(** The loop of [detectExactDuplicates], with the [contentMap] built so
    far; [segments.find(...)!] is [None] when no segment has the id. *)
Fixpoint exactLoop (segments : list ScriptSegment.t)
    (normalizeText : jsstring -> jsstring)
    (contentMap : gmap jsstring jsstring) (rest : list ScriptSegment.t)
    : option (list DuplicateResult) :=
  match rest with
  | [] => Some []
  | segment :: rest' =>
      let normalized := normalizeText (ScriptSegment.content segment) in
      match contentMap !! normalized with
      | Some existingId =>
          existing ← List.find
            (fun s => Str.eqb (ScriptSegment.id s) existingId) segments;
          duplicates ← exactLoop segments normalizeText contentMap rest';
          Some (mkDuplicate TExact (refOf existing) (refOf segment)
                  (Num.ofZ 1) (js "内容完全重复，建议删除或合并")
                :: duplicates)
      | None =>
          exactLoop segments normalizeText
            (<[normalized := ScriptSegment.id segment]> contentMap) rest'
      end
  end.

Definition detectExactDuplicates (segments : list ScriptSegment.t)
    (normalizeText : jsstring -> jsstring) : option (list DuplicateResult) :=
  exactLoop segments normalizeText ∅ segments.

(** The two nested loops over [i < j] of the semantic and the structural
    pass: for each segment, the segments after it, in order. *)
Fixpoint pairLoop (emit : ScriptSegment.t -> ScriptSegment.t
                          -> list DuplicateResult)
    (segments : list ScriptSegment.t) : list DuplicateResult :=
  match segments with
  | [] => []
  | si :: rest => flat_map (emit si) rest ++ pairLoop emit rest
  end.

Definition detectSemanticDuplicates (segments : list ScriptSegment.t)
    (threshold : number)
    (calculateSimilarity : jsstring -> jsstring -> number)
    : list DuplicateResult :=
  pairLoop (fun si sj =>
    let similarity :=
      calculateSimilarity (ScriptSegment.content si) (ScriptSegment.content sj) in
    if Num.geb similarity threshold
    then [mkDuplicate TSimilar (refOf si) (refOf sj) similarity
            (generateSuggestion similarity)]
    else []) segments.

Definition detectTemplateContent (segments : list ScriptSegment.t)
    : list DuplicateResult :=
  flat_map (fun segment =>
    flat_map (fun entry : jsstring * list jsstring =>
      let (category, phrases) := entry in
      flat_map (fun phrase =>
        if Str.includes (ScriptSegment.content segment) phrase
        then [mkDuplicate TTemplate
                (mkRef (ScriptSegment.id segment) phrase
                       (ScriptSegment.startTime segment))
                (refOf segment)
                (Num.ratio 5 10)
                (js "检测到" ++ category ++ js "套话，建议替换为更原创的表达")]
        else []) phrases) COMMON_PHRASES) segments.

Definition detectStructuralDuplicates (segments : list ScriptSegment.t)
    (threshold : number)
    (calculateStructureSimilarity : jsstring -> jsstring -> number)
    : list DuplicateResult :=
  pairLoop (fun si sj =>
    let structureSimilarity :=
      calculateStructureSimilarity
        (ScriptSegment.content si) (ScriptSegment.content sj) in
    if Num.geb structureSimilarity threshold
    then [mkDuplicate TSimilar (refOf si) (refOf sj) structureSimilarity
            (js "句式结构相似，建议变换表达方式")]
    else []) segments.

(** *** [deduplicateResults] *)

Definition pairKey (a b : jsstring) : jsstring := a ++ js "-" ++ b.

(** The filter of [deduplicateResults], with the set [seen] of the keys
    kept so far. *)
Fixpoint dedupLoop (seen : gset jsstring) (results : list DuplicateResult)
    : list DuplicateResult :=
  match results with
  | [] => []
  | result :: rest =>
      let key := pairKey (segmentId (source result)) (segmentId (target result)) in
      let reverseKey :=
        pairKey (segmentId (target result)) (segmentId (source result)) in
      if bool_decide (key ∈ seen) || bool_decide (reverseKey ∈ seen)
      then dedupLoop seen rest
      else result :: dedupLoop ({[key]} ∪ seen) rest
  end.

Definition deduplicateResults (results : list DuplicateResult)
    : list DuplicateResult :=
  dedupLoop ∅ results.

(** *** [DedupService] ([dedup/index.ts]) *)

Definition defaultConfig : DedupConfig :=
  mkConfig true [Exact; Semantic; Template] (Num.ratio 7 10)
           false true true None.

Definition includesStrategy (config : DedupConfig) (s : DedupStrategy) : bool :=
  bool_decide (s ∈ strategies config).

(** [detectDuplicates]; the result is [None] only if the exact pass
    fails to find a recorded segment again. *)
Definition detectDuplicates (config : DedupConfig) (script : ScriptData.t)
    : option (list DuplicateResult) :=
  let segments := ScriptData.segments script in
  let duplicates := [] in
  duplicates ←
    (if includesStrategy config Exact
     then found ← detectExactDuplicates segments normalizeText;
          Some (duplicates ++ found)
     else Some duplicates);
  let duplicates :=
    if includesStrategy config Semantic
    then duplicates ++
         detectSemanticDuplicates segments (threshold config) calculateSimilarity
    else duplicates in
  let duplicates :=
    if includesStrategy config Template
    then duplicates ++ detectTemplateContent segments
    else duplicates in
  let duplicates :=
    if includesStrategy config Structural
    then duplicates ++
         detectStructuralDuplicates segments (threshold config)
           calculateStructureSimilarity
    else duplicates in
  Some (sortBy (fun a b => Num.sub (similarity b) (similarity a))
          (deduplicateResults duplicates)).

(** *** [generateOriginalityReport] ([dedup/rewriters]) *)

Definition countOfType (t : DuplicateType) (duplicates : list DuplicateResult)
    : nat :=
  length (List.filter (fun d => bool_decide (type d = t)) duplicates).

Definition generateOriginalityReport (script : ScriptData.t)
    (duplicates : list DuplicateResult) : number * list jsstring :=
  let totalSegments := length (ScriptData.segments script) in
  let duplicateCount :=
    size (list_to_set (map (fun d => segmentId (target d)) duplicates)
            : gset jsstring) in
  let score :=
    Num.max (Num.ofZ 0)
      (Num.sub64 (Num.ofZ 100)
         (Num.mul64 (Num.div64 (Num.ofNat duplicateCount) (Num.ofNat totalSegments))
                    (Num.ofZ 100))) in
  let suggestions := [] in
  let suggestions :=
    if Num.ltb score (Num.ofZ 60)
    then suggestions ++ [js "原创性较低，建议大幅修改内容"]
    else if Num.ltb score (Num.ofZ 80)
    then suggestions ++ [js "原创性一般，建议优化重复段落"]
    else suggestions in
  let templateCount := countOfType TTemplate duplicates in
  let suggestions :=
    if 0 <? templateCount
    then suggestions ++
         [js "检测到 " ++ Str.ofNat templateCount
            ++ js " 处模板化表达，建议使用更原创的语言"]
    else suggestions in
  let exactCount := countOfType TExact duplicates in
  let suggestions :=
    if 0 <? exactCount
    then suggestions ++
         [js "检测到 " ++ Str.ofNat exactCount
            ++ js " 处完全重复内容，建议删除或合并"]
    else suggestions in
  (Num.round score, suggestions).

(** *** The score of the specification *)

(** [max(0, 100 − 100 × flagged / total)], as an exact rational. *)
Definition scoreFormula (flagged total : nat) : Q :=
  Qmax 0 (100 - 100 * (inject_Z (Z.of_nat flagged) / inject_Z (Z.of_nat total))).

(** The nearest integer, halves going up. *)
Definition roundHalfUp (q : Q) : Z := Qfloor (q + (1 # 2)).

(** The number of distinct target segment ids among the results. *)
Definition flaggedTargets (duplicates : list DuplicateResult) : nat :=
  size (list_to_set (map (fun d => segmentId (target d)) duplicates)
          : gset jsstring).

(** *** Pairs of segment ids *)

(** Two results name the same unordered pair of segment ids. *)
Definition samePair (r1 r2 : DuplicateResult) : Prop :=
  (segmentId (source r1) = segmentId (source r2) /\
   segmentId (target r1) = segmentId (target r2)) \/
  (segmentId (source r1) = segmentId (target r2) /\
   segmentId (target r1) = segmentId (source r2)).

(** The source of [r] is a segment that stands before its target in
    [segments]. *)
Definition sourceBeforeTarget (segments : list ScriptSegment.t)
    (r : DuplicateResult) : Prop :=
  exists p cur q,
    segments = p ++ cur :: q /\
    segmentId (source r) ∈ map ScriptSegment.id p /\
    segmentId (target r) = ScriptSegment.id cur.

(** The keys under which [deduplicateResults] records a result. *)
Definition keyOf (r : DuplicateResult) : jsstring :=
  pairKey (segmentId (source r)) (segmentId (target r)).

Definition reverseKeyOf (r : DuplicateResult) : jsstring :=
  pairKey (segmentId (target r)) (segmentId (source r)).

(** What a result of the passes looks like: a template finding names its
    segment twice, any other finding names a segment and a later one. *)
Definition classified (segments : list ScriptSegment.t) (r : DuplicateResult)
    : Prop :=
  (type r = TTemplate /\ segmentId (source r) = segmentId (target r)) \/
  (type r <> TTemplate /\ sourceBeforeTarget segments r).

(** *** The recurrence of the edit distance *)

Definition substitutionCost (str1 str2 : jsstring) (i j : nat) : nat :=
  match str1 !! i, str2 !! j with
  | Some c1, Some c2 => if (c1 =? c2)%N then 0 else 1
  | _, _ => 1
  end.

(** The classic recurrence: the distance between the first [i] code
    units of [str1] and the first [j] code units of [str2]. *)
Fixpoint editDistance (str1 str2 : jsstring) (i j : nat) {struct i} : nat :=
  match i with
  | O => j
  | S i' =>
      (fix row (j : nat) : nat :=
         match j with
         | O => S i'
         | S j' =>
             Nat.min (Nat.min (editDistance str1 str2 i' (S j') + 1) (row j' + 1))
                     (editDistance str1 str2 i' j' + substitutionCost str1 str2 i' j')
         end) j
  end.

(** The matrix of [levenshteinDistance] when the rows before [i] are
    complete and row [i] is filled up to column [j]: the later rows hold
    their first entry only. *)
Definition matrixAt (str1 str2 : jsstring) (i j : nat) : list (list nat) :=
  map (fun r =>
         map (editDistance str1 str2 r)
             (seq 0 (if r <? i then S (length str2) else if r =? i then j else 1)))
      (seq 0 (S (length str1))).

End Dedup.

(** * Random numbers *)

(** A value of [Math.random()]: a number [r] with [0 <= r < 1]. *)
Record Unit01 := mkUnit01 {
  unitValue : Qc;
  unitRange : (0 <= unitValue)%Qc /\ (unitValue < 1)%Qc
}.

(** [Math.floor(r * n)] *)
Definition floorScaled (r : Unit01) (n : nat) : nat :=
  Z.to_nat (Qfloor (unitValue r * Q2Qc (inject_Z (Z.of_nat n)))%Qc).

Definition unitZero : Unit01.
Proof. refine (mkUnit01 0 _). split; [apply Qcle_refl | reflexivity]. Defined.

Definition unitHalf : Unit01.
Proof.
  refine (mkUnit01 (Q2Qc (1 # 2)) _).
  split; [discriminate | reflexivity].
Defined.

(** [l[Math.floor(Math.random() * l.length)]]; the index lies inside a
    non-empty [l], [d] stands for the element of an empty one. *)
Definition pick {A : Type} (r : Unit01) (l : list A) (d : A) : A :=
  nth (floorScaled r (length l)) l d.

(** [[l[i], l[j]] = [l[j], l[i]]] for two indices inside [l]. *)
Definition swap {A : Type} (l : list A) (i j : nat) : list A :=
  match l !! i, l !! j with
  | Some a, Some b => <[i:=b]> (<[j:=a]> l)
  | _, _ => l
  end.

(** * The uniqueness service *)

Module Uniqueness.

Record ContentFingerprint := mkFingerprint {
  id : jsstring;
  scriptId : jsstring;
  hash : jsstring;
  keywords : list jsstring;
  structure : jsstring;
  createdAt : jsstring
}.

Record MatchedScript := mkMatched {
  matchedId : jsstring;
  matchedTitle : jsstring;
  matchedCreatedAt : jsstring
}.

Record UniquenessCheckResult := mkCheck {
  isUnique : bool;
  similarity : number;
  matchedScript : option MatchedScript;
  differences : list jsstring;
  suggestions : list jsstring
}.

Module UniquenessConfig.
Record t := mk {
  enforceUniqueness : bool;
  similarityThreshold : number;
  checkHistory : bool;
  autoRewrite : bool;
  maxRewriteAttempts : Z;
  addRandomness : bool
}.
End UniquenessConfig.

(** The defaults of the constructor. *)
Definition defaultConfig : UniquenessConfig.t :=
  UniquenessConfig.mk true (Num.ratio 3 10) true true 3 true.

(** The [Map] of fingerprints, in insertion order. *)
Definition History := list (jsstring * ContentFingerprint).

(** [map.set(k, v)]: an existing key keeps its place. *)
Fixpoint mapSet (k : jsstring) (v : ContentFingerprint) (m : History) : History :=
  match m with
  | [] => [(k, v)]
  | (k', v') :: m' =>
      if Str.eqb k k' then (k, v) :: m' else (k', v') :: mapSet k v m'
  end.

(** What [generateFingerprint] takes from the clock and from
    [Math.random()]: the id and the creation time of the fingerprint. *)
Record Stamp := mkStamp { stampId : jsstring; stampTime : jsstring }.

(** *** [extractKeywords] *)

(** The class [[一-龥a-zA-Z0-9]]. *)
Definition isWordUnit (u : N) : bool :=
  Str.inRange 0x4e00 0x9fa5 u || Str.inRange 0x61 0x7A u
  || Str.inRange 0x41 0x5A u || Str.inRange 0x30 0x39 u.

Fixpoint bump (word : jsstring) (wordCount : list (jsstring * nat))
    : list (jsstring * nat) :=
  match wordCount with
  | [] => [(word, 1)]
  | (w, n) :: rest =>
      if Str.eqb w word then (w, n + 1) :: rest else (w, n) :: bump word rest
  end.

Definition stopWords : list jsstring :=
  [ js "的"; js "了"; js "在"; js "是"; js "我"; js "有"; js "和"; js "就";
    js "不"; js "人"; js "都"; js "一"; js "一个"; js "上"; js "也"; js "很";
    js "到"; js "说"; js "要"; js "去"; js "你"; js "会"; js "着"; js "没有";
    js "看"; js "好"; js "自己"; js "这"; js "那" ].

Definition extractKeywords (content : jsstring) : list jsstring :=
  let words :=
    List.filter (fun w => 2 <=? length w)
      (Str.splitRuns false
         (map (fun u => if isWordUnit u then u else 0x20%N)
              (Str.toLowerCase content))) in
  let wordCount := foldl (fun m word => bump word m) [] words in
  map fst
    (take 20
       (sortBy (fun a b => Num.sub (Num.ofNat (snd b)) (Num.ofNat (snd a)))
          (List.filter (fun e => negb (bool_decide (fst e ∈ stopWords)))
             wordCount))).

(** *** [generateStructureSignature] *)

Definition typeName (t : SegmentType) : jsstring :=
  match t with
  | narration => js "narration"
  | dialogue => js "dialogue"
  | description => js "description"
  end.

Definition isSentenceEnd (u : N) : bool :=
  existsb (N.eqb u) (js "。！？").

Definition generateStructureSignature (script : ScriptData.t) : jsstring :=
  Str.join (js "|")
    (map (fun s =>
            let length_ := length (ScriptSegment.content s) in
            let sentences :=
              S (length (List.filter isSentenceEnd (ScriptSegment.content s))) in
            typeName (ScriptSegment.type s) ++ js ":" ++ Str.ofNat length_
              ++ js ":" ++ Str.ofNat sentences)
         (ScriptData.segments script)).

(** *** [generateHash] *)

(** [ToInt32]: the wrap-around of the bit operations. *)
Definition toInt32 (z : Z) : Z :=
  ((z + 2 ^ 31) mod 2 ^ 32 - 2 ^ 31)%Z.

Definition generateHash (content : jsstring) : jsstring :=
  let normalized := Str.removeAll Str.isWhiteSpace (Str.toLowerCase content) in
  let hash :=
    foldl (fun hash char =>
             toInt32 (toInt32 (Z.shiftl hash 5) - hash + Z.of_N char)%Z)
          0%Z normalized in
  Str.hexOfN (Z.to_N (Z.abs hash)).

(** *** [generateFingerprint] *)

Definition generateFingerprint (stamp : Stamp) (script : ScriptData.t)
    : ContentFingerprint :=
  let content := ScriptData.content script in
  let keywords := extractKeywords content in
  let structure := generateStructureSignature script in
  let hash := generateHash content in
  mkFingerprint (stampId stamp) (ScriptData.id script) hash keywords structure
                (stampTime stamp).

(** *** Similarity of fingerprints *)

Definition calculateKeywordSimilarity (keywords1 keywords2 : list jsstring)
    : number :=
  let set1 := remove_dups keywords1 in
  let set2 := remove_dups keywords2 in
  let intersection :=
    remove_dups (List.filter (fun x => bool_decide (x ∈ set2)) set1) in
  let union := remove_dups (set1 ++ set2) in
  Num.div (Num.ofNat (length intersection)) (Num.ofNat (length union)).

(** The loop [for (i = 0; i < parts1.length; i++)] that counts the
    positions with [parts1[i] === parts2[i]]; [parts2[i]] is [undefined]
    past the end of [parts2]. *)
Definition matchCountOf (parts1 parts2 : list jsstring) : nat :=
  length (List.filter (fun i => bool_decide (parts1 !! i = parts2 !! i))
                      (seq 0 (length parts1))).

Definition calculateStructureSimilarity (structure1 structure2 : jsstring)
    : number :=
  let parts1 := Str.split 0x7C structure1 in
  let parts2 := Str.split 0x7C structure2 in
  if negb (length parts1 =? length parts2) then Num.ofZ 0
  else Num.div (Num.ofNat (matchCountOf parts1 parts2))
               (Num.ofNat (length parts1)).

Definition calculateFingerprintSimilarity (fp1 fp2 : ContentFingerprint)
    : number :=
  if Str.eqb (hash fp1) (hash fp2) then Num.ofZ 1
  else
    let keywordSimilarity :=
      calculateKeywordSimilarity (keywords fp1) (keywords fp2) in
    let structureSimilarity :=
      calculateStructureSimilarity (structure fp1) (structure fp2) in
    Num.add (Num.mul keywordSimilarity (Num.ratio 6 10))
            (Num.mul structureSimilarity (Num.ratio 4 10)).

Definition findDifferences (fp1 fp2 : ContentFingerprint) : list jsstring :=
  let differences := [] in
  let uniqueKeywords :=
    List.filter (fun k => negb (bool_decide (k ∈ keywords fp2))) (keywords fp1) in
  let differences :=
    if 0 <? length uniqueKeywords
    then differences ++
         [js "新增关键词: " ++ Str.join (js ", ") (take 5 uniqueKeywords)]
    else differences in
  let differences :=
    if negb (Str.eqb (structure fp1) (structure fp2))
    then differences ++ [js "段落结构不同"]
    else differences in
  differences.

Definition generateUniquenessSuggestions (similarity : number) : list jsstring :=
  if Num.geb similarity (Num.ratio 8 10) then
    [ js "⚠️ 内容与历史脚本高度相似，建议完全重写";
      js "尝试更换解说角度或切入点";
      js "使用不同的案例或数据支撑" ]
  else if Num.geb similarity (Num.ratio 5 10) then
    [ js "内容与历史脚本有一定相似度";
      js "建议调整部分段落表述";
      js "增加新的观点或见解" ]
  else
    [ js "内容与历史脚本略有相似";
      js "可进行微调提高唯一性" ].

(** *** [checkUniqueness] *)

(** The loop over the entries of the map, in insertion order. *)
Fixpoint checkLoop (config : UniquenessConfig.t) (fingerprint : ContentFingerprint)
    (entries : History) : option UniquenessCheckResult :=
  match entries with
  | [] => None
  | (_, existingFp) :: rest =>
      let similarity := calculateFingerprintSimilarity fingerprint existingFp in
      if Num.geb similarity (UniquenessConfig.similarityThreshold config)
      then Some (mkCheck false similarity
                   (Some (mkMatched (scriptId existingFp) (js "历史脚本")
                                    (createdAt existingFp)))
                   (findDifferences fingerprint existingFp)
                   (generateUniquenessSuggestions similarity))
      else checkLoop config fingerprint rest
  end.

Definition uniqueResult : UniquenessCheckResult :=
  mkCheck true (Num.ofZ 0) None [] [js "内容唯一性良好"].

Definition checkUniqueness (config : UniquenessConfig.t) (fingerprints : History)
    (stamp : Stamp) (script : ScriptData.t) : UniquenessCheckResult :=
  let fingerprint := generateFingerprint stamp script in
  match (if UniquenessConfig.checkHistory config
         then checkLoop config fingerprint fingerprints
         else None) with
  | Some found => found
  | None => uniqueResult
  end.

(** [registerScript]; the copy written to the storage service mirrors
    the map and is not modelled. *)
Definition registerScript (fingerprints : History) (stamp : Stamp)
    (script : ScriptData.t) : History :=
  let fingerprint := generateFingerprint stamp script in
  mapSet (id fingerprint) fingerprint fingerprints.

(** *** [ensureUniqueness] *)

(** What a run of the service does that can be seen from outside. *)
Inductive Event :=
| Checked (script : ScriptData.t)
| Registered (script : ScriptData.t)
| RewriteCalled (script : ScriptData.t).

Record EnsureResult := mkEnsure {
  script : ScriptData.t;
  attempts : nat;
  ensuredUnique : bool
}.

(** A call either returns, or throws (for an [async] function: the
    promise is fulfilled, or rejected with the error). *)
Inductive Completion (A : Type) :=
| Returned (a : A)
| Thrown (error : jsstring).
Arguments Returned {A} a.
Arguments Thrown {A} error.

Section Service.
(** The state of the rewrite collaborator. *)
Context {W : Type}.
(** The stamps drawn by [generateFingerprint], in the order of the
    draws. *)
Variable stamps : nat -> Stamp.
Variable config : UniquenessConfig.t.
(** [rewriteFn]: the promise it returns is fulfilled with a script or
    rejected. *)
Variable rewriteFn : ScriptData.t -> W -> Completion ScriptData.t * W.

Record State := mkState {
  fingerprints : History;
  drawn : nat;
  collaborator : W;
  trace : list Event
}.

Definition M (A : Type) : Type := State -> Completion A * State.

Definition ret {A : Type} (a : A) : M A := fun st => (Returned a, st).

Definition bind {A B : Type} (m : M A) (k : A -> M B) : M B :=
  fun st =>
    match m st with
    | (Returned a, st') => k a st'
    | (Thrown e, st') => (Thrown e, st')
    end.

Definition log (e : Event) : M unit :=
  fun st =>
    (Returned tt,
     mkState (fingerprints st) (drawn st) (collaborator st) (trace st ++ [e])).

Definition drawStamp : M Stamp :=
  fun st =>
    (Returned (stamps (drawn st)),
     mkState (fingerprints st) (S (drawn st)) (collaborator st) (trace st)).

Definition checkUniquenessM (script : ScriptData.t) : M UniquenessCheckResult :=
  bind (log (Checked script)) (fun _ =>
  bind drawStamp (fun stamp =>
  fun st => (Returned (checkUniqueness config (fingerprints st) stamp script), st))).

Definition registerScriptM (script : ScriptData.t) : M unit :=
  bind (log (Registered script)) (fun _ =>
  bind drawStamp (fun stamp =>
  fun st =>
    (Returned tt,
     mkState (registerScript (fingerprints st) stamp script)
             (drawn st) (collaborator st) (trace st)))).

Definition awaitRewrite (script : ScriptData.t) : M ScriptData.t :=
  bind (log (RewriteCalled script)) (fun _ =>
  fun st =>
    let (result, w) := rewriteFn script (collaborator st) in
    (result, mkState (fingerprints st) (drawn st) w (trace st))).

(** The [while (attempts < maxRewriteAttempts)] loop; [rounds] is
    [maxRewriteAttempts - attempts], the number of times the test of
    the loop can still succeed. *)
Fixpoint ensureLoop (rounds : nat) (currentScript : ScriptData.t)
    (attempts : nat) : M EnsureResult :=
  match rounds with
  | O => ret (mkEnsure currentScript attempts false)
  | S rounds' =>
      bind (checkUniquenessM currentScript) (fun check =>
      if isUnique check then
        bind (registerScriptM currentScript) (fun _ =>
        ret (mkEnsure currentScript attempts true))
      else if negb (UniquenessConfig.autoRewrite config) then
        ret (mkEnsure currentScript attempts false)
      else
        let attempts := S attempts in
        bind (awaitRewrite currentScript) (fun currentScript =>
        ensureLoop rounds' currentScript attempts))
  end.

Definition ensureUniqueness (script : ScriptData.t) : M EnsureResult :=
  ensureLoop (Z.to_nat (UniquenessConfig.maxRewriteAttempts config)) script 0.

End Service.

Definition countChecks (t : list Event) : nat :=
  length (List.filter (fun e => match e with Checked _ => true | _ => false end) t).

Definition countRewrites (t : list Event) : nat :=
  length (List.filter (fun e => match e with RewriteCalled _ => true | _ => false end) t).

(** *** [addRandomness] *)

Definition variations : list (list jsstring) :=
  [ [ js "大家好，今天"; js "欢迎来到本期，"; js "今天我们来聊聊";
      js "这期内容我们要探讨" ];
    [ js "接下来"; js "然后"; js "随后"; js "接着" ];
    [ js "非常重要"; js "值得注意"; js "关键在于"; js "核心要点是" ];
    [ js "总结一下"; js "总的来说"; js "归纳起来"; js "综上所述" ] ].

Section Randomness.
(** The values of [Math.random()], in the order of the calls. *)
Variable random : nat -> Unit01.
(** The id given to the segment at an index, and the new
    [updatedAt]. *)
Variable freshSegmentId : nat -> jsstring.
Variable now : jsstring.

(** The loop of [shuffleArray], for [i] down to [1]; [k] counts the
    random numbers drawn. *)
Fixpoint shuffleLoop {A : Type} (i k : nat) (result : list A) : list A :=
  match i with
  | O => result
  | S i' =>
      let j := floorScaled (random k) (i + 1) in
      shuffleLoop i' (S k) (swap result i j)
  end.

Definition shuffleArray {A : Type} (k : nat) (array : list A) : list A :=
  shuffleLoop (length array - 1) k array.

(** The loop over the groups of [variations]; [k] counts the random
    numbers drawn. *)
Fixpoint replacePhrases (groups : list (list jsstring)) (k : nat)
    (content : jsstring) : jsstring :=
  match groups with
  | [] => content
  | group :: rest =>
      let original := hd [] group in
      let alternatives := tl group in
      let replacement := pick (random k) alternatives original in
      replacePhrases rest (S k) (Str.replaceAll original replacement content)
  end.

Definition withId (i : jsstring) (s : ScriptSegment.t) : ScriptSegment.t :=
  ScriptSegment.mk i (ScriptSegment.startTime s) (ScriptSegment.endTime s)
                   (ScriptSegment.content s) (ScriptSegment.type s).

Definition addRandomness (config : UniquenessConfig.t) (script : ScriptData.t)
    : ScriptData.t :=
  if negb (UniquenessConfig.addRandomness config) then script
  else
    let content := replacePhrases variations 0 (ScriptData.content script) in
    let segments := ScriptData.segments script in
    let segments :=
      if 3 <? length segments then
        let middle := removelast (drop 1 segments) in
        let shuffled := shuffleArray (length variations) middle in
        take 1 segments ++ shuffled ++ drop (1 + length middle) segments
      else segments in
    ScriptData.mk (ScriptData.id script) (ScriptData.title script) content
      (imap (fun index s => withId (freshSegmentId index) s) segments)
      (ScriptData.metadata script) (ScriptData.createdAt script) now.

End Randomness.

(** *** The similarity of the specification *)

(** The Jaccard similarity of two sets: the size of the intersection over
    the size of the union. *)
Definition jaccard (A B : gset jsstring) : number :=
  Num.div (Num.ofNat (size (A ∩ B))) (Num.ofNat (size (A ∪ B))).

(** The number of positions at which two lists hold equal parts. *)
Definition equalPositions (parts1 parts2 : list jsstring) : nat :=
  length (List.filter (fun p : jsstring * jsstring => bool_decide (p.1 = p.2))
                      (zip parts1 parts2)).

(** The structural match ratio: zero for lists of different lengths,
    otherwise the fraction of the positions with equal parts. *)
Definition structuralMatchRatio (parts1 parts2 : list jsstring) : number :=
  if decide (length parts1 = length parts2)
  then Num.div (Num.ofNat (equalPositions parts1 parts2))
               (Num.ofNat (length parts1))
  else Num.ofZ 0.

(** The similarity of the stored fingerprint [entry.2] to [fingerprint]
    reaches the threshold. *)
Definition reaches (config : UniquenessConfig.t) (fingerprint : ContentFingerprint)
    (entry : jsstring * ContentFingerprint) : bool :=
  Num.geb (calculateFingerprintSimilarity fingerprint entry.2)
          (UniquenessConfig.similarityThreshold config).

(** A segment without its id, to compare segments up to their ids. *)
Definition anonymous (s : ScriptSegment.t) : ScriptSegment.t :=
  ScriptSegment.mk [] (ScriptSegment.startTime s) (ScriptSegment.endTime s)
                   (ScriptSegment.content s) (ScriptSegment.type s).

End Uniqueness.

(** * The variant service ([dedup.variants.ts]) *)

Module Variants.

Inductive DedupVariantType :=
| conservative | balanced | aggressive | creative
| academic | casual | poetic | technical.

#[global] Instance DedupVariantType_eq_dec : EqDecision DedupVariantType.
Proof. solve_decision. Defined.

Definition variantIndex (v : DedupVariantType) : nat :=
  match v with
  | conservative => 0 | balanced => 1 | aggressive => 2 | creative => 3
  | academic => 4 | casual => 5 | poetic => 6 | technical => 7
  end.

Definition variantOfIndex (n : nat) : option DedupVariantType :=
  match n with
  | 0 => Some conservative | 1 => Some balanced | 2 => Some aggressive
  | 3 => Some creative | 4 => Some academic | 5 => Some casual
  | 6 => Some poetic | 7 => Some technical | _ => None
  end.

#[global] Instance DedupVariantType_countable : Countable DedupVariantType.
Proof.
  apply (inj_countable variantIndex variantOfIndex).
  intros []; reflexivity.
Defined.

Record DedupVariant := mkVariant {
  id : DedupVariantType;
  name : jsstring;
  description : jsstring;
  intensity : number;
  strategies : list jsstring;
  synonymRatio : number;
  restructuring : bool;
  expansion : bool;
  contraction : bool
}.

(** [Object.values(DEDUP_VARIANTS)], in the order of the declaration. *)
Definition DEDUP_VARIANTS : list DedupVariant :=
  [ mkVariant conservative (js "保守型") (js "最小化改动，保持原意和结构")
      (Num.ratio 2 10) [js "synonym_replace"; js "minor_reorder"]
      (Num.ratio 3 10) false false false;
    mkVariant balanced (js "平衡型") (js "适度改写，平衡原创性和可读性")
      (Num.ratio 5 10)
      [js "synonym_replace"; js "sentence_restructure"; js "transition_change"]
      (Num.ratio 5 10) true false false;
    mkVariant aggressive (js "激进型") (js "大幅改写，最大化原创性")
      (Num.ratio 8 10)
      [js "synonym_replace"; js "sentence_restructure"; js "paragraph_reorder";
       js "voice_change"; js "perspective_shift"]
      (Num.ratio 7 10) true true true;
    mkVariant creative (js "创意型") (js "完全重写，注入新观点")
      (Num.ofZ 1)
      [js "complete_rewrite"; js "new_examples"; js "fresh_metaphors";
       js "different_angle"]
      (Num.ratio 9 10) true true true;
    mkVariant academic (js "学术型") (js "正式化改写，增加学术性")
      (Num.ratio 6 10)
      [js "formal_vocabulary"; js "passive_voice"; js "citation_style";
       js "technical_terms"]
      (Num.ratio 6 10) true true false;
    mkVariant casual (js "口语型") (js "口语化改写，更接地气")
      (Num.ratio 5 10)
      [js "colloquial_phrases"; js "rhetorical_questions";
       js "personal_pronouns"; js "contractions"]
      (Num.ratio 4 10) true false true;
    mkVariant poetic (js "诗意型") (js "文学化改写，增加修辞")
      (Num.ratio 7 10)
      [js "metaphors"; js "parallelism"; js "rhythm"; js "imagery";
       js "emotional_language"]
      (Num.ratio 6 10) true true false;
    mkVariant technical (js "技术型") (js "专业化改写，精确表达")
      (Num.ratio 6 10)
      [js "precise_terminology"; js "logical_structure"; js "data_driven";
       js "step_by_step"]
      (Num.ratio 5 10) true true false ].

(** [!exclude?.includes(id)]: without an exclude list nothing is
    excluded. *)
Definition notExcluded (exclude : option (list DedupVariantType))
    (v : DedupVariantType) : bool :=
  match exclude with
  | Some l => negb (bool_decide (v ∈ l))
  | None => true
  end.

Definition availableVariants (usedVariants : gset DedupVariantType)
    (exclude : option (list DedupVariantType)) : list DedupVariant :=
  List.filter
    (fun v => negb (bool_decide (id v ∈ usedVariants)) && notExcluded exclude (id v))
    DEDUP_VARIANTS.

(** [selectVariant]: the service holds [usedVariants]; [r] is the value
    of [Math.random()] and [depth] bounds the depth of the recursion,
    [None] telling that the bound was reached. *)
Fixpoint selectVariant (depth : nat) (r : Unit01)
    (usedVariants : gset DedupVariantType)
    (exclude : option (list DedupVariantType))
    : option (DedupVariant * gset DedupVariantType) :=
  match depth with
  | O => None
  | S depth' =>
      let available := availableVariants usedVariants exclude in
      match available with
      | [] => selectVariant depth' r ∅ exclude
      | first :: _ =>
          let selected := pick r available first in
          Some (selected, {[id selected]} ∪ usedVariants)
      end
  end.

(** The calls of [selectVariant] that return, as a relation: from the
    used set [usedVariants] the call returns [selected] and leaves the
    used set [usedVariants']. *)
Inductive selects (r : Unit01) (exclude : option (list DedupVariantType))
    : gset DedupVariantType -> DedupVariant -> gset DedupVariantType -> Prop :=
| selects_reset usedVariants selected usedVariants' :
    availableVariants usedVariants exclude = [] ->
    selects r exclude ∅ selected usedVariants' ->
    selects r exclude usedVariants selected usedVariants'
| selects_pick usedVariants first rest :
    availableVariants usedVariants exclude = first :: rest ->
    selects r exclude usedVariants
      (pick r (first :: rest) first)
      ({[id (pick r (first :: rest) first)]} ∪ usedVariants).

End Variants.

(** * Sample scripts *)

Module Samples.

Definition segment (id content : string) : ScriptSegment.t :=
  ScriptSegment.mk (js id) (Num.ofZ 0) (Num.ofZ 1) (js content) narration.

Definition scriptOf (id content : string) (segments : list ScriptSegment.t)
    : ScriptData.t :=
  ScriptData.mk (js id) (js "sample") (js content) segments (js "")
                (js "2024-01-01T00:00:00.000Z") (js "2024-01-01T00:00:00.000Z").

Definition emptyScript : ScriptData.t := scriptOf "empty" "" [].

(** Eight segments with different texts. *)
Definition eightSegments : ScriptData.t :=
  scriptOf "eight" ""
    [ segment "s1" "alpha"; segment "s2" "bravo"; segment "s3" "charlie";
      segment "s4" "delta"; segment "s5" "echo"; segment "s6" "foxtrot";
      segment "s7" "golf"; segment "s8" "hotel" ].

(** One finding whose target is the second of the eight segments. *)
Definition oneFinding : list Dedup.DuplicateResult :=
  [ Dedup.mkDuplicate Dedup.TSimilar
      (Dedup.mkRef (js "s1") (js "alpha") (Num.ofZ 0))
      (Dedup.mkRef (js "s2") (js "bravo") (Num.ofZ 0))
      (Num.ratio 8 10) (js "") ].

(** One segment that holds a phrase of the [emphasis] group. *)
Definition templated : ScriptData.t :=
  scriptOf "templated" "" [ segment "s1" "这一步非常重要，请看仔细" ].

(** Two scripts that share two of their three keywords, the stamps of
    three fingerprints, and the history in which the first script and
    then the second were registered. *)
Definition scriptA : ScriptData.t := scriptOf "A" "alpha beta gamma" [].
Definition scriptB : ScriptData.t := scriptOf "B" "alpha beta delta" [].

Definition stampOf (n : nat) : Uniqueness.Stamp :=
  Uniqueness.mkStamp (js "fp_" ++ Str.ofNat n) (js "t_" ++ Str.ofNat n).

Definition historyAB : Uniqueness.History :=
  Uniqueness.registerScript
    (Uniqueness.registerScript [] (stampOf 0) scriptA) (stampOf 1) scriptB.

(** A rewrite collaborator whose promise is always rejected, and the
    state of a service at its start with a given history. *)
Definition failingRewrite (s : ScriptData.t) (w : unit)
    : Uniqueness.Completion ScriptData.t * unit :=
  (Uniqueness.Thrown (js "rewrite failed"), w).

Definition startWith (history : Uniqueness.History) : @Uniqueness.State unit :=
  Uniqueness.mkState history 0 tt [].

(** The default configuration with [maxRewriteAttempts: 0]. *)
Definition noAttempts : Uniqueness.UniquenessConfig.t :=
  Uniqueness.UniquenessConfig.mk true (Num.ratio 3 10) true true 0 true.

(** A random source that always answers one half, and the ids
    [segment_0], [segment_1], ... for the segments of a randomized
    script. *)
Definition alwaysHalf (n : nat) : Unit01 := unitHalf.

Definition numberedId (index : nat) : jsstring := js "segment_" ++ Str.ofNat index.

(** Three segments: the second repeats the first up to spacing and
    punctuation, the third holds a phrase of the [emphasis] group. *)
Definition repeated : ScriptData.t :=
  scriptOf "repeated" ""
    [ segment "s1" "今天的天气真不错";
      segment "s2" "今天的 天气真不错！";
      segment "s3" "这一步非常重要" ].

End Samples.

(** * Chance and time *)

(** What a computation reads from outside: the values of [Math.random()]
    and the strings of [new Date().toISOString()], each in the order of
    the calls, with the number of values read so far. *)
Record World := mkWorld {
  randoms : nat -> Unit01;
  times : nat -> jsstring;
  randomsRead : nat;
  timesRead : nat
}.

(** A computation that reads random numbers and the clock. *)
Definition Gen (A : Type) : Type := World -> A * World.

#[global] Instance Gen_ret : MRet Gen := fun A (a : A) (w : World) => (a, w).

#[global] Instance Gen_bind : MBind Gen :=
  fun A B (k : A -> Gen B) (m : Gen A) (w : World) =>
    match m w with (a, w') => k a w' end.

(** [Math.random()] *)
Definition mathRandom : Gen Unit01 :=
  fun w =>
    (randoms w (randomsRead w),
     mkWorld (randoms w) (times w) (S (randomsRead w)) (timesRead w)).

(** [new Date().toISOString()] *)
Definition isoNow : Gen jsstring :=
  fun w =>
    (times w (timesRead w),
     mkWorld (randoms w) (times w) (randomsRead w) (S (timesRead w))).

(** [for (const x of l) body], with the variable [s] that the body
    updates. *)
Fixpoint forEach {A S : Type} (l : list A) (body : A -> S -> Gen S) (s : S)
    : Gen S :=
  match l with
  | [] => mret s
  | x :: l' => s' ← body x s; forEach l' body s'
  end.

(** The same loop with a body that may throw: the exception leaves the
    loop, and what is left of the list is not visited. *)
Fixpoint forEachTry {A S : Type} (l : list A)
    (body : A -> S -> Gen (Uniqueness.Completion S)) (s : S)
    : Gen (Uniqueness.Completion S) :=
  match l with
  | [] => mret (Uniqueness.Returned s)
  | x :: l' =>
      s' ← body x s;
      match s' with
      | Uniqueness.Returned s' => forEachTry l' body s'
      | Uniqueness.Thrown error => mret (Uniqueness.Thrown error)
      end
  end.

(** [r < n/d] and [r > n/d] for a value [r] of [Math.random()]. *)
Definition below (r : Unit01) (n : Z) (d : positive) : bool :=
  Num.ltb (Num.Fin (unitValue r)) (Num.ratio n d).

Definition above (r : Unit01) (n : Z) (d : positive) : bool :=
  Num.ltb (Num.ratio n d) (Num.Fin (unitValue r)).

(** [l[Math.floor(Math.random() * l.length)]] *)
Definition choose {A : Type} (l : list A) (d : A) : Gen A :=
  r ← mathRandom; mret (pick r l d).

(** The loop of a Fisher-Yates shuffle in place, for [i] down to 1. *)
Fixpoint shuffleFrom {A : Type} (i : nat) (l : list A) : Gen (list A) :=
  match i with
  | O => mret l
  | S i' => r ← mathRandom; shuffleFrom i' (swap l i (floorScaled r (i + 1)))
  end.

(** [array.findIndex(p)]; [None] stands for [-1]. *)
Fixpoint findIndex {A : Type} (p : A -> bool) (l : list A) : option nat :=
  match l with
  | [] => None
  | x :: l' => if p x then Some 0 else S <$> findIndex p l'
  end.

(** * Regular expressions with groups *)

Module Regex.

(** The regular expressions with groups of the sources are sequences of
    literal texts and of the capture groups [(.+?)] and [(.+)]; they
    carry no flag but [g], so they read code units and [.] stands for
    every code unit but a line terminator. *)
Inductive token :=
| Lit (text : jsstring)
| Lazy
| Greedy.

(** A replacement text: plain text and the references [$1], [$2], ... *)
Inductive piece :=
| Text (text : jsstring)
| Group (n : nat).

(** The backtracking matcher at the start of [s]: the captures of the
    groups, in the order of the groups, and what follows the match. A
    lazy group tries the shorter captures first, a greedy group the
    longer ones. *)
Fixpoint matchHere (pattern : list token) (s : jsstring) {struct pattern}
    : option (list jsstring * jsstring) :=
  match pattern with
  | [] => Some ([], s)
  | Lit text :: pattern' =>
      if Str.isPrefix text s then matchHere pattern' (drop (length text) s)
      else None
  | Lazy :: pattern' =>
      (fix shortest (captured s : jsstring) {struct s} :=
         match s with
         | [] => None
         | u :: t =>
             if Str.isLineTerminator u then None
             else
               match matchHere pattern' t with
               | Some (captures, rest) =>
                   Some ((captured ++ [u]) :: captures, rest)
               | None => shortest (captured ++ [u]) t
               end
         end) [] s
  | Greedy :: pattern' =>
      (fix longest (captured s : jsstring) {struct s} :=
         match s with
         | [] => None
         | u :: t =>
             if Str.isLineTerminator u then None
             else
               match longest (captured ++ [u]) t with
               | Some found => Some found
               | None =>
                   match matchHere pattern' t with
                   | Some (captures, rest) =>
                       Some ((captured ++ [u]) :: captures, rest)
                   | None => None
                   end
               end
         end) [] s
  end.

(** The first match from the left: the text before it, the captures
    and the text after it. *)
Fixpoint search (pattern : list token) (before s : jsstring)
    : option (jsstring * list jsstring * jsstring) :=
  match matchHere pattern s with
  | Some (captures, rest) => Some (before, captures, rest)
  | None =>
      match s with
      | [] => None
      | u :: t => search pattern (before ++ [u]) t
      end
  end.

(** The replacement text with the captures filled in; a reference to a
    group that the pattern does not have stays as it is written. *)
Definition expand (template : list piece) (captures : list jsstring) : jsstring :=
  flat_map (fun p =>
    match p with
    | Text text => text
    | Group n =>
        match n with
        | S k => default (js "$" ++ Str.ofNat n) (captures !! k)
        | O => js "$0"
        end
    end) template.

(** [s.replace(pattern, template)] for a pattern without the flag [g],
    and for a string pattern [Lit p]: the first match is replaced. *)
Definition replaceFirst (pattern : list token) (template : list piece)
    (s : jsstring) : jsstring :=
  match search pattern [] s with
  | Some (before, captures, rest) => before ++ expand template captures ++ rest
  | None => s
  end.

(** [s.replace(pattern, template)] for a pattern with the flag [g]:
    the matches are replaced from left to right, each search starting
    where the match before ended. [skip] counts the code units of a match
    still to pass; every pattern of the sources matches one code unit
    at least. *)
Fixpoint replaceEvery (pattern : list token) (template : list piece)
    (skip : nat) (s : jsstring) : jsstring :=
  match s with
  | [] => []
  | u :: t =>
      match skip with
      | S k => replaceEvery pattern template k t
      | O =>
          match matchHere pattern s with
          | Some (captures, rest) =>
              expand template captures
                ++ replaceEvery pattern template (length s - length rest - 1) t
          | None => u :: replaceEvery pattern template O t
          end
      end
  end.

(** [s.split(sep)] for a separator text that is not empty, which is also
    [s.split(/sep/)] for a pattern of plain characters. *)
Fixpoint splitLoop (sep : jsstring) (skip : nat) (s : jsstring) : list jsstring :=
  match s with
  | [] => [[]]
  | u :: t =>
      match skip with
      | S k => splitLoop sep k t
      | O =>
          if Str.isPrefix sep s then [] :: splitLoop sep (length sep - 1) t
          else
            match splitLoop sep O t with
            | w :: ws => (u :: w) :: ws
            | [] => [[u]]
            end
      end
  end.

Definition splitOn (sep s : jsstring) : list jsstring := splitLoop sep O s.

End Regex.
(** * The rewriters ([dedup/rewriters]) *)

Module Rewriters.
Import Dedup.

(** ** The tables of [dedup/types] *)

Definition SYNONYMS : list (jsstring * list jsstring) :=
  [
    (js "重要",
     [ js "关键"; js "核心"; js "主要"; js "首要"; js "重大" ]);
    (js "很好",
     [ js "优秀"; js "出色"; js "卓越"; js "精良"; js "上乘" ]);
    (js "很多",
     [ js "大量"; js "众多"; js "丰富"; js "繁多"; js "海量" ]);
    (js "非常",
     [ js "极其"; js "相当"; js "十分"; js "特别"; js "格外" ]);
    (js "问题",
     [ js "难题"; js "挑战"; js "困境"; js "疑虑"; js "症结" ]);
    (js "方法",
     [ js "方案"; js "策略"; js "途径"; js "手段"; js "方式" ]);
    (js "结果",
     [ js "成果"; js "成效"; js "效果"; js "结局"; js "后果" ]);
    (js "开始",
     [ js "启动"; js "开启"; js "着手"; js "开端"; js "起步" ]);
    (js "结束",
     [ js "完成"; js "终结"; js "收尾"; js "落幕"; js "达成" ]);
    (js "增加",
     [ js "提升"; js "增长"; js "扩大"; js "增强"; js "添加" ]);
    (js "减少",
     [ js "降低"; js "削减"; js "缩小"; js "减弱"; js "精简" ]);
    (js "简单",
     [ js "简易"; js "便捷"; js "轻松"; js " straightforward"; js " uncomplicated" ]);
    (js "复杂",
     [ js "繁杂"; js "繁琐"; js "困难"; js "棘手"; js "错综复杂" ]);
    (js "快速",
     [ js "迅速"; js "快捷"; js "高速"; js "敏捷"; js "飞快" ]);
    (js "缓慢",
     [ js "渐进"; js "逐步"; js "缓慢"; js "迟缓"; js "徐徐" ]);
    (js "明显",
     [ js "显著"; js "突出"; js "醒目"; js "清晰"; js "明确" ]);
    (js "可能",
     [ js "或许"; js "也许"; js "大概"; js "或然"; js "说不定" ]);
    (js "一定",
     [ js "必然"; js "肯定"; js "必定"; js "确定"; js "毫无疑问" ]);
    (js "因为",
     [ js "由于"; js "鉴于"; js "基于"; js "考虑到"; js "缘于" ]);
    (js "所以",
     [ js "因此"; js "因而"; js "故而"; js "于是"; js "从而" ]) ].

(** [Object.values(SENTENCE_PATTERNS)]: the groups of patterns, each
    pattern with its replacement text. *)
Definition SENTENCE_PATTERNS
    : list (list (list Regex.token * list Regex.piece)) :=
  [ [ ([Regex.Lazy; Regex.Lit (js "让"); Regex.Lazy; Regex.Greedy],
       [Regex.Group 2; Regex.Text (js "被"); Regex.Group 1; Regex.Group 3]);
      ([Regex.Lazy; Regex.Lit (js "使"); Regex.Lazy; Regex.Greedy],
       [Regex.Group 2; Regex.Text (js "被"); Regex.Group 1; Regex.Group 3]) ];
    [ ([Regex.Lazy; Regex.Lit (js "必须"); Regex.Greedy],
       [Regex.Group 1; Regex.Text (js "不得不"); Regex.Group 2]);
      ([Regex.Lazy; Regex.Lit (js "一定"); Regex.Greedy],
       [Regex.Group 1; Regex.Text (js "非"); Regex.Group 2;
        Regex.Text (js "不可")]) ];
    [ ([Regex.Lazy; Regex.Lit (js "是"); Regex.Greedy],
       [Regex.Group 1; Regex.Text (js "难道不是"); Regex.Group 2;
        Regex.Text (js "吗")]);
      ([Regex.Lazy; Regex.Lit (js "可以"); Regex.Greedy],
       [Regex.Group 1; Regex.Text (js "不是可以"); Regex.Group 2;
        Regex.Text (js "吗")]) ];
    [ ([Regex.Lazy; Regex.Lit (js "，"); Regex.Lazy; Regex.Lit (js "，");
        Regex.Greedy],
       [Regex.Group 1; Regex.Text (js "。"); Regex.Group 2;
        Regex.Text (js "。"); Regex.Group 3]) ];
    [ ([Regex.Lazy; Regex.Lit (js "。"); Regex.Lazy; Regex.Lit (js "。")],
       [Regex.Group 1; Regex.Text (js "，"); Regex.Group 2;
        Regex.Text (js "。")]) ] ].

Definition ALTERNATIVE_PHRASES : list (jsstring * list jsstring) :=
  [
    (js "intro",
     [ js "欢迎来到本期内容"; js "很高兴在这里见到你"; js "今天我们来探讨"; js "这期内容我们要聊";
       js "让我们开始今天的分享" ]);
    (js "transition",
     [ js "接下来"; js "然后"; js "随后"; js "接着"; js "在此之后" ]);
    (js "conclusion",
     [ js "这就是今天的全部"; js "感谢你的观看"; js "希望对你有所帮助"; js "期待下次再见"; js "祝你有美好的一天" ]);
    (js "emphasis",
     [ js "这一点很关键"; js "值得重点关注"; js "这是核心所在"; js "不容忽视"; js "必须牢记" ]);
    (js "subjective",
     [ js "从我的角度来看"; js "基于我的经验"; js "据我观察"; js "以我的理解"; js "从我的立场出发" ]) ].

(** ** Segments under repair *)

(** A segment as the rewriters hand it on: [rewriteSegment] and
    [replaceTemplatePhrases] add the property [updatedAt] to the object,
    and the spread [{...segment}] carries it along. *)
Record Segment := mkSegment {
  fields : ScriptSegment.t;
  updatedAt : option jsstring
}.

Definition plain (s : ScriptSegment.t) : Segment := mkSegment s None.

Definition idOf (s : Segment) : jsstring := ScriptSegment.id (fields s).
Definition contentOf (s : Segment) : jsstring := ScriptSegment.content (fields s).

(** [{...segment, content}] *)
Definition withContent (content : jsstring) (s : ScriptSegment.t) : ScriptSegment.t :=
  ScriptSegment.mk (ScriptSegment.id s) (ScriptSegment.startTime s)
                   (ScriptSegment.endTime s) content (ScriptSegment.type s).

Definition hasId (i : jsstring) (s : Segment) : bool := Str.eqb (idOf s) i.

(** ** [mergeSegments] *)

(** The array is changed in place and returned; the caller goes on with
    the returned array. *)
Definition mergeSegments (segments : list Segment) (duplicate : DuplicateResult)
    : list Segment :=
  match findIndex (hasId (segmentId (source duplicate))) segments,
        findIndex (hasId (segmentId (target duplicate))) segments with
  | Some sourceIndex, Some targetIndex =>
      match segments !! sourceIndex, segments !! targetIndex with
      | Some s, Some t =>
          let merged :=
            mkSegment
              (ScriptSegment.mk (idOf s) (ScriptSegment.startTime (fields s))
                 (ScriptSegment.endTime (fields t))
                 (contentOf s ++ js " " ++ contentOf t)
                 (ScriptSegment.type (fields s)))
              (updatedAt s) in
          delete targetIndex (<[sourceIndex := merged]> segments)
      | _, _ => segments
      end
  | _, _ => segments
  end.

(** ** The three rewrites *)

(** The loop over [Object.entries(SYNONYMS)] of [completeRewrite]: a
    word that occurs is replaced everywhere by an alternative drawn at
    random. *)
Definition completeRewrite (content : jsstring) : Gen jsstring :=
  rewritten ← forEach SYNONYMS (fun entry rewritten =>
      let (word, alternatives) := entry : jsstring * list jsstring in
      if Str.includes rewritten word then
        replacement ← choose alternatives [];
        mret (Str.replaceAll word replacement rewritten)
      else mret rewritten) content;
  mret (foldl (fun rewritten patterns =>
           foldl (fun rewritten pattern =>
                    Regex.replaceFirst pattern.1 pattern.2 rewritten)
                 rewritten patterns)
         rewritten SENTENCE_PATTERNS).

Definition majorRewrite (content : jsstring) : Gen jsstring :=
  forEach SYNONYMS (fun entry rewritten =>
      let (word, alternatives) := entry : jsstring * list jsstring in
      if Str.includes rewritten word then
        r ← mathRandom;
        if above r 5 10 then
          replacement ← choose alternatives [];
          mret (Str.replaceAll word replacement rewritten)
        else mret rewritten
      else mret rewritten) content.

Definition transitions : list jsstring :=
  [ js "此外"; js "同时"; js "另外"; js "值得一提的是" ].

Definition minorRewrite (content : jsstring) : Gen jsstring :=
  transition ← choose transitions [];
  if negb (Str.isPrefix transition content)
  then mret (transition ++ js "，" ++ content)
  else mret content.

(** [rewriteSegment]; [variantFn] is the optional fourth argument, of
    which the content of the result is read. *)
Definition rewriteSegment (segment : Segment) (similarity : number)
    (autoVariant : bool)
    (variantFn : option (jsstring -> number -> Gen jsstring)) : Gen Segment :=
  let content := contentOf segment in
  content ←
    match autoVariant, variantFn with
    | true, Some variantFn => variantFn content similarity
    | _, _ =>
        if Num.geb similarity (Num.ratio 9 10) then completeRewrite content
        else if Num.geb similarity (Num.ratio 8 10) then majorRewrite content
        else minorRewrite content
    end;
  now ← isoNow;
  mret (mkSegment (withContent content (fields segment)) (Some now)).

(** ** [replaceTemplatePhrases] *)

(** The table [originals] of [getOriginalPhrases]. *)
Definition originals : list (jsstring * list jsstring) :=
  [
    (js "intro",
     [ js "大家好，欢迎来到"; js "今天给大家带来"; js "今天要和大家分享"; js "今天我们要聊的是"; js "最近我发现";
       js "今天给大家推荐" ]);
    (js "transition",
     [ js "接下来我们看看"; js "那么接下来"; js "说完这个，我们再来看看"; js "不仅如此"; js "更重要的是";
       js "除此之外"; js "另外值得一提的是" ]);
    (js "conclusion",
     [ js "好了，今天的分享就到这里"; js "以上就是今天的全部内容"; js "希望今天的分享对你有帮助";
       js "如果你觉得有用，记得点赞收藏"; js "我们下期再见"; js "感谢大家的观看" ]);
    (js "emphasis",
     [ js "非常重要"; js "值得注意的是"; js "关键点在于"; js "这里需要特别注意"; js "这一点很关键";
       js "千万不要忽视" ]);
    (js "subjective",
     [ js "我觉得"; js "个人认为"; js "在我看来"; js "说实话"; js "老实说"; js "坦白讲"; js "不得不说" ]) ].

(** The names of the properties that an object literal inherits from
    [Object.prototype]; each of them holds a function, or an object for
    [__proto__]. *)
Definition objectPrototypeKeys : list jsstring :=
  [ js "constructor"; js "hasOwnProperty"; js "isPrototypeOf";
    js "propertyIsEnumerable"; js "toLocaleString"; js "toString";
    js "valueOf"; js "__proto__"; js "__defineGetter__";
    js "__defineSetter__"; js "__lookupGetter__"; js "__lookupSetter__" ].

(** What [table[category]] finds in an object literal: the array of a
    key of the table, a property of the prototype, or [undefined]. *)
Inductive Property :=
| Own (phrases : list jsstring)
| Inherited
| Undefined.

Definition lookupCategory (table : list (jsstring * list jsstring))
    (category : jsstring) : Property :=
  match List.find (fun entry => Str.eqb entry.1 category) table with
  | Some entry => Own entry.2
  | None =>
      if bool_decide (category ∈ objectPrototypeKeys) then Inherited
      else Undefined
  end.

(** The value of [originals[category] || []]: an array, or the
    inherited property, which is truthy and cannot be iterated. *)
Inductive Phrases :=
| Iterable (phrases : list jsstring)
| NotIterable.

Definition getOriginalPhrases (category : jsstring) : Phrases :=
  match lookupCategory originals category with
  | Own phrases => Iterable phrases
  | Inherited => NotIterable
  | Undefined => Iterable []
  end.

(** An inherited property has no method [filter]: the call throws. *)
Definition getAlternativePhrase (category original : jsstring)
    : Gen (Uniqueness.Completion jsstring) :=
  match lookupCategory ALTERNATIVE_PHRASES category with
  | Inherited =>
      mret (Uniqueness.Thrown (js "TypeError: alternatives.filter is not a function"))
  | found =>
      let alternatives :=
        match found with Own phrases => phrases | _ => [original] end in
      let filtered :=
        List.filter (fun a => negb (Str.eqb a original)) alternatives in
      if 0 <? length filtered
      then chosen ← choose filtered original; mret (Uniqueness.Returned chosen)
      else mret (Uniqueness.Returned original)
  end.

Definition replaceTemplatePhrases (segment : Segment)
    : Gen (Uniqueness.Completion Segment) :=
  let content := contentOf segment in
  content ← forEachTry ALTERNATIVE_PHRASES (fun entry content =>
      let (category, phrases) := entry : jsstring * list jsstring in
      match getOriginalPhrases category with
      | Iterable originalPhrases =>
          forEachTry originalPhrases (fun phrase content =>
              if Str.includes content phrase then
                replacement ← getAlternativePhrase category phrase;
                match replacement with
                | Uniqueness.Returned replacement =>
                    mret (Uniqueness.Returned
                            (Regex.replaceFirst [Regex.Lit phrase]
                               [Regex.Text replacement] content))
                | Uniqueness.Thrown error => mret (Uniqueness.Thrown error)
                end
              else mret (Uniqueness.Returned content)) content
      | NotIterable =>
          mret (Uniqueness.Thrown (js "TypeError: originalPhrases is not iterable"))
      end) content;
  match content with
  | Uniqueness.Returned content =>
      now ← isoNow;
      mret (Uniqueness.Returned
              (mkSegment (withContent content (fields segment)) (Some now)))
  | Uniqueness.Thrown error => mret (Uniqueness.Thrown error)
  end.

End Rewriters.

(** * [DedupService]: repair and report ([dedup/index.ts]) *)

Module DedupService.
Import Dedup Rewriters.

(** The script that [autoFix] returns: the fields of the script, with
    the repaired segments, each with its [updatedAt] if it has one. *)
Record FixedScript := mkFixedScript {
  fixedId : jsstring;
  fixedTitle : jsstring;
  fixedContent : jsstring;
  fixedSegments : list Segment;
  fixedMetadata : jsstring;
  fixedCreatedAt : jsstring;
  fixedUpdatedAt : jsstring
}.

(** One round of the loop of [autoFix] over the findings. *)
Definition fixOne (config : DedupConfig) (dup : DuplicateResult)
    (fixedSegments : list Segment) : Gen (Uniqueness.Completion (list Segment)) :=
  match findIndex (hasId (segmentId (target dup))) fixedSegments with
  | Some targetIndex =>
      match fixedSegments !! targetIndex with
      | Some found =>
          match type dup with
          | TExact => mret (Uniqueness.Returned (mergeSegments fixedSegments dup))
          | TSimilar =>
              rewritten ←
                rewriteSegment found (similarity dup) (autoVariant config) None;
              mret (Uniqueness.Returned (<[targetIndex := rewritten]> fixedSegments))
          | TTemplate =>
              replaced ← replaceTemplatePhrases found;
              match replaced with
              | Uniqueness.Returned replaced =>
                  mret (Uniqueness.Returned
                          (<[targetIndex := replaced]> fixedSegments))
              | Uniqueness.Thrown error => mret (Uniqueness.Thrown error)
              end
          end
      | None => mret (Uniqueness.Returned fixedSegments)
      end
  | None => mret (Uniqueness.Returned fixedSegments)
  end.

(** The two line feeds between the segments of the new content. *)
Definition blankLine : jsstring := [0xA; 0xA]%N.

(** [autoFix]; [None] only if [detectDuplicates] fails or a repair
    throws. *)
Definition autoFix (config : DedupConfig) (script : ScriptData.t)
    : Gen (option FixedScript) :=
  match detectDuplicates config script with
  | Some duplicates =>
      fixedSegments ←
        forEachTry duplicates (fixOne config)
          (map plain (ScriptData.segments script));
      match fixedSegments with
      | Uniqueness.Returned fixedSegments =>
          now ← isoNow;
          mret (Some (mkFixedScript
                        (ScriptData.id script) (ScriptData.title script)
                        (Str.join blankLine (map contentOf fixedSegments))
                        fixedSegments
                        (ScriptData.metadata script) (ScriptData.createdAt script)
                        now))
      | Uniqueness.Thrown _ => mret None
      end
  | None => mret None
  end.

Record OriginalityReport := mkReport {
  score : number;
  duplicates : list DuplicateResult;
  suggestions : list jsstring
}.

(** The method [generateOriginalityReport] of the service. *)
Definition originalityReport (config : DedupConfig) (script : ScriptData.t)
    : option OriginalityReport :=
  duplicates ← detectDuplicates config script;
  let (score, suggestions) := generateOriginalityReport script duplicates in
  Some (mkReport score duplicates suggestions).

(** A repaired segment that has the id, the start time and the type of
    a segment of the script. *)
Definition sameFrame (repaired : Segment) (s : ScriptSegment.t) : Prop :=
  idOf repaired = ScriptSegment.id s /\
  ScriptSegment.startTime (fields repaired) = ScriptSegment.startTime s /\
  ScriptSegment.type (fields repaired) = ScriptSegment.type s.

(** The repaired segments are a subsequence of the segments, each in
    the frame of its segment. *)
Definition framed (segments : list ScriptSegment.t) (repaired : list Segment) : Prop :=
  exists kept, sublist kept segments /\ Forall2 sameFrame repaired kept.

End DedupService.
(** * The strategies and the service of [dedup.variants.ts] *)

Module VariantService.
Import Variants.

(** ** The strategies *)

(** The table [synonyms] of [synonym_replace]. *)
Definition synonyms : list (jsstring * list jsstring) :=
  [
    (js "重要",
     [ js "关键"; js "核心"; js "主要"; js "首要"; js "重大"; js "至关重要" ]);
    (js "很好",
     [ js "优秀"; js "出色"; js "卓越"; js "精良"; js "上乘"; js "杰出" ]);
    (js "很多",
     [ js "大量"; js "众多"; js "丰富"; js "繁多"; js "海量"; js "不胜枚举" ]);
    (js "非常",
     [ js "极其"; js "相当"; js "十分"; js "特别"; js "格外"; js "尤为" ]);
    (js "问题",
     [ js "难题"; js "挑战"; js "困境"; js "疑虑"; js "症结"; js "瓶颈" ]);
    (js "方法",
     [ js "方案"; js "策略"; js "途径"; js "手段"; js "方式"; js "措施" ]);
    (js "结果",
     [ js "成果"; js "成效"; js "效果"; js "结局"; js "后果"; js "产物" ]);
    (js "开始",
     [ js "启动"; js "开启"; js "着手"; js "开端"; js "起步"; js "发轫" ]);
    (js "结束",
     [ js "完成"; js "终结"; js "收尾"; js "落幕"; js "达成"; js "告终" ]);
    (js "增加",
     [ js "提升"; js "增长"; js "扩大"; js "增强"; js "添加"; js "拓展" ]);
    (js "减少",
     [ js "降低"; js "削减"; js "缩小"; js "减弱"; js "精简"; js "压缩" ]);
    (js "简单",
     [ js "简易"; js "便捷"; js "轻松"; js " straightforward"; js " uncomplicated";
       js "简明" ]);
    (js "复杂",
     [ js "繁杂"; js "繁琐"; js "困难"; js "棘手"; js "错综复杂"; js "盘根错节" ]);
    (js "快速",
     [ js "迅速"; js "快捷"; js "高速"; js "敏捷"; js "飞快"; js "疾速" ]);
    (js "缓慢",
     [ js "渐进"; js "逐步"; js "缓慢"; js "迟缓"; js "徐徐"; js "循序渐进" ]);
    (js "明显",
     [ js "显著"; js "突出"; js "醒目"; js "清晰"; js "明确"; js "昭然若揭" ]);
    (js "可能",
     [ js "或许"; js "也许"; js "大概"; js "或然"; js "说不定"; js "兴许" ]);
    (js "一定",
     [ js "必然"; js "肯定"; js "必定"; js "确定"; js "毫无疑问"; js "毋庸置疑" ]);
    (js "因为",
     [ js "由于"; js "鉴于"; js "基于"; js "考虑到"; js "缘于"; js "归因于" ]);
    (js "所以",
     [ js "因此"; js "因而"; js "故而"; js "于是"; js "从而"; js "由此可见" ]) ].

Definition synonym_replace (content : jsstring) : Gen jsstring :=
  forEach synonyms (fun entry result =>
      let (word, alternatives) := entry : jsstring * list jsstring in
      if Str.includes result word then
        r ← mathRandom;
        if below r 5 10 then
          replacement ← choose alternatives [];
          mret (Str.replaceAll word replacement result)
        else mret result
      else mret result) content.

(** The patterns of [sentence_restructure], all with the flag [g]. *)
Definition restructurePatterns : list (list Regex.token * list Regex.piece) :=
  [ ([Regex.Lazy; Regex.Lit (js "让"); Regex.Lazy; Regex.Greedy],
     [Regex.Group 2; Regex.Text (js "被"); Regex.Group 1; Regex.Group 3]);
    ([Regex.Lazy; Regex.Lit (js "使"); Regex.Lazy; Regex.Greedy],
     [Regex.Group 2; Regex.Text (js "被"); Regex.Group 1; Regex.Group 3]);
    ([Regex.Lazy; Regex.Lit (js "必须"); Regex.Greedy],
     [Regex.Group 1; Regex.Text (js "不得不"); Regex.Group 2]);
    ([Regex.Lazy; Regex.Lit (js "一定"); Regex.Greedy],
     [Regex.Group 1; Regex.Text (js "非"); Regex.Group 2; Regex.Text (js "不可")]);
    ([Regex.Lazy; Regex.Lit (js "是"); Regex.Greedy],
     [Regex.Group 1; Regex.Text (js "难道不是"); Regex.Group 2;
      Regex.Text (js "吗")]);
    ([Regex.Lazy; Regex.Lit (js "，"); Regex.Lazy; Regex.Lit (js "，");
      Regex.Greedy],
     [Regex.Group 1; Regex.Text (js "。"); Regex.Group 2; Regex.Text (js "。");
      Regex.Group 3]) ].

Definition sentence_restructure (content : jsstring) : Gen jsstring :=
  forEach restructurePatterns (fun pattern result =>
      r ← mathRandom;
      if below r 3 10
      then mret (Regex.replaceEvery pattern.1 pattern.2 O result)
      else mret result) content.

Definition paragraph_reorder (content : jsstring) : Gen jsstring :=
  let paragraphs := Regex.splitOn DedupService.blankLine content in
  if length paragraphs <? 3 then mret content
  else
    let first := hd [] paragraphs in
    let last := List.last paragraphs [] in
    let middle := removelast (drop 1 paragraphs) in
    middle ← shuffleFrom (length middle - 1) middle;
    mret (Str.join DedupService.blankLine (first :: middle ++ [last])).

Definition shifts : list (jsstring * jsstring) :=
  [ (js "我们认为", js "从用户角度来看"); (js "我觉得", js "客观地说");
    (js "大家", js "用户"); (js "你们", js "各位") ].

Definition perspective_shift (content : jsstring) : Gen jsstring :=
  mret (foldl (fun result shift => Str.replaceAll shift.1 shift.2 result)
              content shifts).

Definition transitionGroups : list (list jsstring) :=
  [ [ js "接下来"; js "然后"; js "随后"; js "接着"; js "在此之后" ];
    [ js "首先"; js "第一"; js "首要的是"; js "一开始" ];
    [ js "最后"; js "最终"; js "归根结底"; js "总而言之" ];
    [ js "此外"; js "另外"; js "除此之外"; js "不仅如此" ];
    [ js "因此"; js "所以"; js "由此可见"; js "于是" ] ].

Definition transition_change (content : jsstring) : Gen jsstring :=
  forEach transitionGroups (fun group result =>
      let original := hd [] group in
      let alternatives := tl group in
      if Str.includes result original then
        r ← mathRandom;
        if below r 5 10 then
          replacement ← choose alternatives [];
          mret (Str.replaceAll original replacement result)
        else mret result
      else mret result) content.

Definition formal : list (jsstring * jsstring) :=
  [ (js "好", js "优良"); (js "坏", js "不良"); (js "大", js "显著");
    (js "小", js "细微"); (js "快", js "迅速"); (js "慢", js "迟缓");
    (js "多", js "大量"); (js "少", js "少量") ].

Definition formal_vocabulary (content : jsstring) : Gen jsstring :=
  forEach formal (fun entry result =>
      r ← mathRandom;
      if below r 3 10 then mret (Str.replaceAll entry.1 entry.2 result)
      else mret result) content.

Definition colloquial : list (jsstring * jsstring) :=
  [ (js "因此", js "所以"); (js "然而", js "不过"); (js "此外", js "还有");
    (js "综上所述", js "总的来说"); (js "值得注意的是", js "有意思的是") ].

Definition colloquial_phrases (content : jsstring) : Gen jsstring :=
  forEach colloquial (fun entry result =>
      r ← mathRandom;
      if below r 4 10 then mret (Str.replaceAll entry.1 entry.2 result)
      else mret result) content.

(** The patterns of [metaphors], without the flag [g]. *)
Definition metaphorPatterns : list (list Regex.token * list Regex.piece) :=
  [ ([Regex.Lit (js "像"); Regex.Lazy; Regex.Lit (js "一样")],
     [Regex.Text (js "宛如"); Regex.Group 1]);
    ([Regex.Lit (js "非常重要")], [Regex.Text (js "至关重要，如同基石")]);
    ([Regex.Lit (js "快速发展")], [Regex.Text (js "如雨后春笋般迅猛发展")]) ].

Definition metaphors (content : jsstring) : Gen jsstring :=
  forEach metaphorPatterns (fun m result =>
      r ← mathRandom;
      if below r 2 10 then mret (Regex.replaceFirst m.1 m.2 result)
      else mret result) content.

(** The object [STRATEGIES], by its keys. *)
Definition STRATEGIES : list (jsstring * (jsstring -> Gen jsstring)) :=
  [ (js "synonym_replace", synonym_replace);
    (js "sentence_restructure", sentence_restructure);
    (js "paragraph_reorder", paragraph_reorder);
    (js "perspective_shift", perspective_shift);
    (js "transition_change", transition_change);
    (js "formal_vocabulary", formal_vocabulary);
    (js "colloquial_phrases", colloquial_phrases);
    (js "metaphors", metaphors) ].

(** [STRATEGIES[strategy]], for the names of strategies that the
    variants list. *)
Definition strategyOf (strategy : jsstring) : option (jsstring -> Gen jsstring) :=
  snd <$> List.find (fun entry => Str.eqb entry.1 strategy) STRATEGIES.

(** ** [DedupVariantService] *)

(** [Math.abs] *)
Definition abs (x : number) : number :=
  match x with
  | Num.NaN => Num.NaN
  | Num.Inf _ => Num.Inf false
  | Num.Fin q => if Num.Qcltb q 0 then Num.Fin (- q)%Qc else x
  end.

(** The distance [Math.abs(v.intensity - intensity)] that
    [selectByIntensity] sorts by, in double precision: the literal of the
    table stands for the nearest double, and the difference is rounded. *)
Definition distanceTo (intensity : number) (v : DedupVariant) : number :=
  abs (Num.sub64 (Num.round64 (Variants.intensity v)) intensity).

(** [selectByIntensity]: the first element of the sorted copy of
    [Object.values(DEDUP_VARIANTS)]; the comparator subtracts the
    distances, in double precision again. *)
Definition selectByIntensity (intensity : number) : option DedupVariant :=
  let variants := DEDUP_VARIANTS in
  let sorted :=
    sortBy (fun a b => Num.sub64 (distanceTo intensity a) (distanceTo intensity b))
           variants in
  head sorted.

Definition applyVariant (content : jsstring) (variant : DedupVariant)
    : Gen jsstring :=
  forEach (strategies variant) (fun strategy result =>
      match strategyOf strategy with
      | Some apply => apply result
      | None => mret result
      end) content.



(** The loop of [batchDedup], with the set [usedVariants] of the
    service; [selectVariant] is called without an exclude list, so it
    returns after one reset at most. *)
Fixpoint batchLoop (count : nat) (content : jsstring)
    (usedVariants : gset DedupVariantType)
    (results : list (jsstring * DedupVariant))
    : Gen (option (list (jsstring * DedupVariant) * gset DedupVariantType)) :=
  match count with
  | O => mret (Some (results, usedVariants))
  | S count' =>
      r ← mathRandom;
      match selectVariant 2 r usedVariants None with
      | Some (variant, usedVariants') =>
          result ← applyVariant content variant;
          batchLoop count' content usedVariants' (results ++ [(result, variant)])
      | None => mret None
      end
  end.

(** [batchDedup(content, count)] for a whole number [count]. *)
Definition batchDedup (content : jsstring) (count : Z)
    (usedVariants : gset DedupVariantType)
    : Gen (option (list (jsstring * DedupVariant) * gset DedupVariantType)) :=
  batchLoop (Z.to_nat count) content usedVariants [].

(** [reset()] and [getAllVariants()] *)
Definition reset (usedVariants : gset DedupVariantType) : gset DedupVariantType := ∅.

Definition getAllVariants : list DedupVariant := DEDUP_VARIANTS.

(** The variants of the results of [batchDedup]. *)
Definition variantIds (results : list (jsstring * DedupVariant))
    : list DedupVariantType :=
  map (fun result => id result.2) results.

End VariantService.

(** * The rewrite of the workflow *)

Module Workflow.

(** The rewrite function that [stepEnsureUniqueness] hands to
    [ensureUniqueness]. [hasContext] tells that the video information,
    the analysis and the template of the workflow are all there; the
    state counts the rewrites done, [seeds] are the random suffixes
    [Math.random().toString(36).substring(7)] and [times] the time
    stamps, in the order of the calls. *)
Definition rewriteOfStep (hasContext : bool) (seeds times : nat -> jsstring)
    (script : ScriptData.t) (n : nat)
    : Uniqueness.Completion ScriptData.t * nat :=
  if negb hasContext then (Uniqueness.Returned script, n)
  else
    (Uniqueness.Returned
       (ScriptData.mk (ScriptData.id script) (ScriptData.title script)
          (ScriptData.content script ++ [0xA%N] ++ js "<!-- rewrite: "
             ++ seeds n ++ js " -->")
          (ScriptData.segments script) (ScriptData.metadata script)
          (ScriptData.createdAt script) (times n)),
     S n).

End Workflow.

(** * Parts of a structure signature *)

(** What [generateStructureSignature] writes for a segment. *)
Definition partOf (s : ScriptSegment.t) : jsstring :=
  Uniqueness.typeName (ScriptSegment.type s) ++ js ":"
    ++ Str.ofNat (length (ScriptSegment.content s)) ++ js ":"
    ++ Str.ofNat (S (length (List.filter Uniqueness.isSentenceEnd (ScriptSegment.content s)))).

(** * More samples *)

Module Cases.


(** A world at its start: every random number is one half, and the
    clock answers with the number of the reading. *)
Definition startOfWorld : World :=
  mkWorld Samples.alwaysHalf (fun n => js "t_" ++ Str.ofNat n) 0 0.

(** The default strategies and threshold, every other field turned
    round. *)
Definition flagsOff : Dedup.DedupConfig :=
  Dedup.mkConfig false [Dedup.Exact; Dedup.Semantic; Dedup.Template]
                 (Num.ratio 7 10) true false false (Some (Num.ratio 5 10)).

(** The seeds and time stamps of the rewrites of a workflow. *)
Definition seedOf (n : nat) : jsstring := js "seed" ++ Str.ofNat n.

(** A script of 200 segments, and 109 findings with a target each among
    its segments. *)
Definition numbered (n : nat) : ScriptSegment.t :=
  ScriptSegment.mk (js "n" ++ Str.ofNat n) (Num.ofZ 0) (Num.ofZ 1)
                   (js "text " ++ Str.ofNat n) narration.

Definition twoHundred : ScriptData.t :=
  ScriptData.mk (js "two hundred") (js "sample") (js "") (map numbered (seq 0 200))
                (js "") (js "2024-01-01T00:00:00.000Z")
                (js "2024-01-01T00:00:00.000Z").

Definition flagged109 : list Dedup.DuplicateResult :=
  map (fun n =>
         Dedup.mkDuplicate Dedup.TSimilar
           (Dedup.mkRef (js "n199") (js "text 199") (Num.ofZ 0))
           (Dedup.mkRef (js "n" ++ Str.ofNat n) (js "text " ++ Str.ofNat n)
                        (Num.ofZ 0))
           (Num.ratio 8 10) (js ""))
      (seq 0 109).

End Cases.

(** * Properties *)

(** ** Numbers *)

Module NumFacts.
Import Num.

Lemma Fin_eq (p q : Qc) : (p == q)%Q -> Fin p = Fin q.
Proof. intros H. f_equal. now apply Qc_is_canon. Qed.

Lemma Fin_neq (p q : Qc) : ~ (p == q)%Q -> Fin p <> Fin q.
Proof. intros H E. apply H. injection E as ->. reflexivity. Qed.

Lemma Qcleb_le (p q : Qc) : Qcleb p q = true <-> (p <= q)%Qc.
Proof. unfold Qcleb, Qcle. apply Qle_bool_iff. Qed.

Lemma Qcltb_lt (p q : Qc) : Qcltb p q = true <-> (p < q)%Qc.
Proof.
  unfold Qcltb, Qclt. rewrite negb_true_iff.
  split.
  - intros H. apply Qnot_le_lt. intros Hle.
    apply Qle_bool_iff in Hle. congruence.
  - intros H. destruct (Qle_bool q p) eqn:E; [|reflexivity].
    apply Qle_bool_iff in E. exfalso. eapply Qlt_not_le; eauto.
Qed.

Lemma Qceqb_eq (p q : Qc) : Qceqb p q = true <-> p = q.
Proof.
  unfold Qceqb. rewrite Qeq_bool_iff. split.
  - apply Qc_is_canon.
  - now intros ->.
Qed.

(** The operations of [Qc] read in [Q]. *)
Lemma this_Q2Qc (q : Q) : (this (Q2Qc q) == q)%Q.
Proof. apply Qred_correct. Qed.

Lemma this_plus (x y : Qc) : (this (x + y)%Qc == this x + this y)%Q.
Proof. apply Qred_correct. Qed.

Lemma this_opp (x : Qc) : (this (- x)%Qc == - this x)%Q.
Proof. apply Qred_correct. Qed.

Lemma this_mult (x y : Qc) : (this (x * y)%Qc == this x * this y)%Q.
Proof. apply Qred_correct. Qed.

Lemma this_inv (x : Qc) : (this (/ x)%Qc == / this x)%Q.
Proof. apply Qred_correct. Qed.

Lemma this_div (x y : Qc) : (this (x / y)%Qc == this x / this y)%Q.
Proof. unfold Qcdiv. rewrite this_mult, this_inv. reflexivity. Qed.

Ltac to_Q :=
  rewrite ?this_plus, ?this_opp, ?this_mult, ?this_div, ?this_inv, ?this_Q2Qc.

Lemma ofNat_nonzero (n : nat) : 0 < n -> Qceqb (Q2Qc (inject_Z (Z.of_nat n))) 0 = false.
Proof.
  intros Hn. destruct (Qceqb _ _) eqn:E; [|reflexivity].
  apply Qceqb_eq in E. apply (f_equal this) in E.
  assert (H : (inject_Z (Z.of_nat n) == 0)%Q).
  { rewrite <- (this_Q2Qc (inject_Z (Z.of_nat n))). now rewrite E. }
  unfold Qeq in H. cbn in H. lia.
Qed.

Lemma ofNat_zero : Qceqb (Q2Qc (inject_Z (Z.of_nat 0))) 0 = true.
Proof. reflexivity. Qed.

Lemma within_ofZ (lo hi z : Z) : within lo hi (ofZ z) <-> (lo <= z <= hi)%Z.
Proof.
  unfold within, ofZ, Qcle. rewrite !this_Q2Qc, <- !Zle_Qle. tauto.
Qed.

Lemma same_eq (x y : number) : same x y = true -> x = y.
Proof.
  destruct x as [|s|p], y as [|t|q]; cbn [same]; try discriminate.
  - reflexivity.
  - intros H. apply Bool.eqb_prop in H. now subst.
  - intros H. apply Qceqb_eq in H. now subst.
Qed.

End NumFacts.

(** ** Rounding to double precision *)

Module RoundingFacts.
Import Num NumFacts.

Local Open Scope Q_scope.

Lemma two_nonzero : ~ 2 == 0.
Proof. discriminate. Qed.

Lemma pow2_pos (k : Z) : 0 < pow2 k.
Proof. apply Qpower_0_lt. reflexivity. Qed.

Lemma pow2_add (a b : Z) : pow2 (a + b) == pow2 a * pow2 b.
Proof. apply Qpower_plus, two_nonzero. Qed.

Lemma pow2_sub (a b : Z) : pow2 (a - b) == pow2 a / pow2 b.
Proof. apply Qpower_minus, two_nonzero. Qed.

Lemma pow2_le (a b : Z) : (a <= b)%Z -> pow2 a <= pow2 b.
Proof. intros H. apply Qpower_le_compat_l; [exact H | discriminate]. Qed.

Lemma pow2_Z (a : Z) : (0 <= a)%Z -> pow2 a == inject_Z (2 ^ a).
Proof. intros H. unfold pow2. now rewrite Zpower_Qpower. Qed.

Lemma nearestEven_spec (n : Z) (d : positive) :
  (0 <= n)%Z ->
  (Z.abs (2 * (nearestEven n d * Zpos d - n)) <= Zpos d)%Z /\
  (n / Zpos d <= nearestEven n d)%Z.
Proof.
  intros Hn. unfold nearestEven.
  pose proof (Z.div_mod n (Zpos d) ltac:(lia)) as Hdm.
  pose proof (Z.mod_pos_bound n (Zpos d) ltac:(lia)) as Hr.
  set (q := (n / Zpos d)%Z) in *. set (r := (n mod Zpos d)%Z) in *.
  destruct (Z.compare_spec (2 * r) (Zpos d)) as [E | E | E];
    [destruct (Z.even q)|..]; split; lia.
Qed.

Lemma exponentOf_le (n d : positive) : pow2 (exponentOf n d) <= Zpos n # d.
Proof.
  unfold exponentOf.
  set (a := Z.log2 (Zpos n)). set (b := Z.log2 (Zpos d)).
  destruct (Qle_bool (pow2 (a - b)) (Zpos n # d)) eqn:E.
  - now apply Qle_bool_iff.
  - clear E.
    assert (Ha : (0 <= a)%Z) by apply Z.log2_nonneg.
    assert (Hb : (0 <= b)%Z) by apply Z.log2_nonneg.
    destruct (Z.log2_spec (Zpos n) ltac:(lia)) as [Hn _].
    destruct (Z.log2_spec (Zpos d) ltac:(lia)) as [_ Hd].
    fold a in Hn. fold b in Hd.
    replace (a - b - 1)%Z with (a - (b + 1))%Z by lia.
    rewrite pow2_sub, (pow2_Z a), (pow2_Z (b + 1)) by lia.
    replace (Z.succ b) with (b + 1)%Z in Hd by lia.
    assert (Hpos : (0 < 2 ^ (b + 1))%Z) by (apply Z.pow_pos_nonneg; lia).
    apply Qle_shift_div_r.
    + change 0 with (inject_Z 0). rewrite <- Zlt_Qlt. exact Hpos.
    + unfold Qle, Qmult, inject_Z. cbn [Qnum Qden].
      rewrite Pos.mul_1_r, Z.mul_1_r. nia.
Qed.

Lemma Qnum_nonneg (x : Q) : 0 < x -> (0 <= Qnum x)%Z.
Proof. destruct x as [xn xd]. unfold Qlt. cbn. lia. Qed.

Lemma near_half (m : Z) (x : Q) :
  (Z.abs (2 * (m * Zpos (Qden x) - Qnum x)) <= Zpos (Qden x))%Z ->
  Qabs (inject_Z m - x) <= 1 # 2.
Proof.
  intros H. apply Qabs_Qle_condition.
  destruct x as [xn xd]. unfold Qle, Qminus, Qplus, Qopp, inject_Z.
  cbn [Qnum Qden] in *. lia.
Qed.

Lemma floor_one (x : Q) : 1 <= x -> (1 <= Qnum x / Zpos (Qden x))%Z.
Proof.
  destruct x as [xn xd]. unfold Qle. cbn [Qnum Qden]. intros H.
  apply Z.div_le_lower_bound; lia.
Qed.

(** The rounded value of a positive rational [q]: a multiple [m * 2^k]
    with [k >= -1074], within [2^k / 2] of [q], where [2^k] is at most
    [q * 2^-52] unless [k = -1074]. *)
Lemma roundPositive_spec (n d : positive) :
  exists (m k : Z),
    roundPositive n d == inject_Z m * pow2 k /\
    (-1074 <= k)%Z /\
    (0 <= m)%Z /\
    Qabs (roundPositive n d - (Zpos n # d)) <= pow2 k / 2 /\
    (pow2 k <= (Zpos n # d) * pow2 (-52) \/ k = (-1074)%Z) /\
    (pow2 k <= (Zpos n # d) -> (1 <= m)%Z).
Proof.
  unfold roundPositive.
  set (q := Zpos n # d).
  set (k := (Z.max (exponentOf n d) (-1022) - 52)%Z).
  set (x := q / pow2 k).
  set (m := nearestEven (Qnum x) (Qden x)).
  pose proof (pow2_pos k) as Hk.
  assert (Hq : 0 < q) by reflexivity.
  assert (Hx : 0 < x).
  { unfold x. apply Qlt_shift_div_l; [exact Hk|]. rewrite Qmult_0_l. exact Hq. }
  assert (Hxn : (0 <= Qnum x)%Z) by now apply Qnum_nonneg.
  destruct (nearestEven_spec (Qnum x) (Qden x) Hxn) as [Hnear Hfloor].
  fold m in Hnear, Hfloor.
  assert (Hmx : Qabs (inject_Z m - x) <= 1 # 2) by now apply near_half.
  exists m, k. split; [reflexivity|]. split; [lia|]. split.
  { pose proof (Z.div_pos (Qnum x) (Zpos (Qden x)) Hxn ltac:(lia)). lia. }
  split; [|split].
  - assert (E : inject_Z m * pow2 k - q == (inject_Z m - x) * pow2 k).
    { unfold x. field. lra. }
    rewrite E, Qabs_Qmult, (Qabs_pos (pow2 k)) by lra.
    unfold Qdiv. rewrite (Qmult_comm (pow2 k)).
    apply Qmult_le_compat_r; [|lra].
    exact Hmx.
  - destruct (Z.max_spec (exponentOf n d) (-1022)) as [[Hlt Hmax] | [Hle Hmax]].
    + right. unfold k. lia.
    + left. unfold k. rewrite Hmax, pow2_sub.
      unfold Qdiv. rewrite <- (Qpower_opp 2 52).
      apply Qmult_le_compat_r; [apply exponentOf_le | apply Qlt_le_weak, pow2_pos].
  - intros Hle.
    assert (H1 : 1 <= x).
    { unfold x. apply Qle_shift_div_l; [exact Hk | lra]. }
    pose proof (floor_one x H1). lia.
Qed.

Lemma pow2_53 : pow2 (-53) == unit53.
Proof. reflexivity. Qed.

Lemma half_52 : pow2 (-52) / 2 == unit53.
Proof. reflexivity. Qed.

Lemma half_1074 : pow2 (-1074) / 2 == pow2 (-1075).
Proof. now vm_compute. Qed.

(** What rounding a positive rational gives: the error is at most
    [q * 2^-53 + 2^-1075], the value is a multiple of [2^-1074], and it
    is positive if [q] is at least [2^-1074]. *)
Lemma roundPositive_near (n d : positive) :
  let q := Zpos n # d in
  let v := roundPositive n d in
  Qabs (v - q) <= q * unit53 + pow2 (-1075) /\
  0 <= v /\
  (exists j : Z, v == inject_Z j * pow2 (-1074)) /\
  (pow2 (-1074) <= q -> 0 < v).
Proof.
  cbv zeta.
  destruct (roundPositive_spec n d) as (m & k & Hv & Hk & Hm & Herr & Hsize & Hone).
  set (q := Zpos n # d) in *. set (v := roundPositive n d) in *.
  assert (Hq : 0 < q) by reflexivity.
  pose proof (pow2_pos k) as Hpk. pose proof (pow2_pos (-1075)) as Hp.
  split; [|split; [|split]].
  - eapply Qle_trans; [exact Herr|].
    destruct Hsize as [Hs | ->].
    + assert (H : pow2 k / 2 <= q * pow2 (-52) / 2).
      { unfold Qdiv. apply Qmult_le_compat_r; [exact Hs | discriminate]. }
      assert (E : q * pow2 (-52) / 2 == q * unit53).
      { unfold Qdiv. rewrite <- Qmult_assoc. apply Qmult_comp; [reflexivity|].
        exact half_52. }
      rewrite E in H.
      assert (H0 : 0 <= q * unit53) by (apply Qmult_le_0_compat; [lra | discriminate]).
      lra.
    + rewrite half_1074.
      assert (H0 : 0 <= q * unit53) by (apply Qmult_le_0_compat; [lra | discriminate]).
      lra.
  - rewrite Hv. apply Qmult_le_0_compat; [|lra].
    change 0 with (inject_Z 0). now rewrite <- Zle_Qle.
  - exists (m * 2 ^ (k + 1074))%Z.
    rewrite Hv, inject_Z_mult, <- pow2_Z by lia.
    rewrite <- Qmult_assoc, <- pow2_add.
    now replace (k + 1074 + -1074)%Z with k by lia.
  - intros Hmin.
    assert (Hkq : pow2 k <= q).
    { destruct Hsize as [Hs | ->]; [|exact Hmin].
      eapply Qle_trans; [exact Hs|].
      rewrite <- (Qmult_1_r q) at 2.
      apply Qmult_le_l; [exact Hq | discriminate]. }
    specialize (Hone Hkq). rewrite Hv.
    apply Qmult_lt_0_compat; [|exact Hpk].
    change 0 with (inject_Z 0). rewrite <- Zlt_Qlt. lia.
Qed.

Lemma pow2_1024 : pow2 1024 == 2 * pow2 1023.
Proof. now vm_compute. Qed.

Lemma pow2_1023_large : 2 <= pow2 1023.
Proof. now vm_compute. Qed.

Lemma pow2_1075_small : pow2 (-1075) <= 1 # 1267650600228229401496703205376.
Proof. now vm_compute. Qed.

Lemma Qneg_pos (n d : positive) : Z.neg n # d == - (Zpos n # d).
Proof. reflexivity. Qed.

(** The double nearest to [q]: an infinity only from [2^1023] on;
    otherwise a multiple of [2^-1074] within [|q| * 2^-53 + 2^-1075] of
    [q], of the sign of [q], and not zero if [|q|] is at least
    [2^-1074]. *)
Lemma double_spec (q : Q) :
  match double q with
  | NaN => False
  | Inf negative =>
      pow2 1023 <= Qabs q /\ (if negative then q < 0 else 0 < q)
  | Fin r =>
      Qabs (r - q) <= Qabs q * unit53 + pow2 (-1075) /\
      (exists j : Z, r == inject_Z j * pow2 (-1074)) /\
      (pow2 (-1074) <= q -> 0 < r) /\
      (q <= - pow2 (-1074) -> r < 0) /\
      (0 <= q -> 0 <= r) /\
      (q <= 0 -> r <= 0)
  end.
Proof.
  pose proof pow2_1024 as H1024. pose proof pow2_1023_large as H1023.
  pose proof pow2_1075_small as H1075.
  pose proof (pow2_pos (-1074)) as H1074. pose proof (pow2_pos (-1075)) as Hp.
  destruct q as [[|n|n] d]; unfold double; cbn [Qnum Qden].
  - assert (E : 0 # d == 0) by reflexivity.
    rewrite this_Q2Qc, E. change (Qabs 0) with 0.
    split; [|split; [|split; [|split; [|split]]]].
    + change (Qabs (0 - 0)) with 0. unfold unit53. lra.
    + exists 0%Z. now rewrite Qmult_0_l.
    + lra.
    + lra.
    + lra.
    + lra.
  - destruct (roundPositive_near n d) as (Herr & Hnn & Hgrid & Hpos).
    set (q := Zpos n # d) in *. set (v := roundPositive n d) in *.
    assert (Hq : 0 < q) by reflexivity.
    apply Qabs_Qle_condition in Herr as [Hlo Hhi].
    destruct (Qle_bool (pow2 1024) v) eqn:E.
    + apply Qle_bool_iff in E. split; [|exact Hq].
      rewrite Qabs_pos by lra. unfold unit53 in *. lra.
    + split; [|split; [|split; [|split; [|split]]]].
      * rewrite this_Q2Qc. apply Qabs_Qle_condition.
        rewrite (Qabs_pos q) by lra. lra.
      * destruct Hgrid as [j Hj]. exists j. now rewrite this_Q2Qc.
      * rewrite this_Q2Qc. exact Hpos.
      * intros Hle. lra.
      * intros _. now rewrite this_Q2Qc.
      * intros Hle. lra.
  - destruct (roundPositive_near n d) as (Herr & Hnn & Hgrid & Hpos).
    change (Z.neg n # d) with (- (Zpos n # d)).
    set (p := Zpos n # d) in *. set (v := roundPositive n d) in *.
    assert (Hq : 0 < p) by reflexivity.
    apply Qabs_Qle_condition in Herr as [Hlo Hhi].
    destruct (Qle_bool (pow2 1024) v) eqn:E.
    + apply Qle_bool_iff in E. split; [|lra].
      rewrite Qabs_neg by lra. unfold unit53 in *. lra.
    + split; [|split; [|split; [|split; [|split]]]].
      * rewrite this_Q2Qc. apply Qabs_Qle_condition.
        rewrite (Qabs_neg (- p)) by lra. lra.
      * destruct Hgrid as [j Hj]. exists (- j)%Z.
        rewrite this_Q2Qc, inject_Z_opp, Hj. ring.
      * intros Hle. lra.
      * intros Hle. rewrite this_Q2Qc.
        assert (0 < v) by (apply Hpos; lra). lra.
      * intros Hle. lra.
      * intros _. rewrite this_Q2Qc. lra.
Qed.

(** Some doubles: the literal [0.1]; the value of
    [100 - (109 / 200) * 100], a little below 45.5; the two distances
    [|0.6 - 0.65|] and [|0.7 - 0.65|], of which the second is the
    smaller; and the two ends of the range. *)
Lemma double_examples :
  same (double (1 # 10)) (Fin (Q2Qc (3602879701896397 # 36028797018963968))) = true /\
  same (sub64 (ofZ 100) (mul64 (div64 (ofZ 109) (ofZ 200)) (ofZ 100)))
       (Fin (Q2Qc (6403555720167423 # 140737488355328))) = true /\
  same (sub64 (double (65 # 100)) (double (6 # 10)))
       (Fin (Q2Qc (225179981368525 # 4503599627370496))) = true /\
  same (sub64 (double (7 # 10)) (double (65 # 100)))
       (Fin (Q2Qc (450359962737049 # 9007199254740992))) = true /\
  double (pow2 1024 - pow2 970) = Inf false /\
  same (double (pow2 (-1075))) (ofZ 0) = true.
Proof. repeat split; vm_compute; reflexivity. Qed.

(** Three cases of the rounding: a small number, a number from one on
    and a negative number. *)
Lemma double_small (q : Q) :
  Qabs q <= 1000 ->
  exists r : Qc,
    double q = Fin r /\
    Qabs (r - q) <= Qabs q * unit53 + tiny /\
    (0 <= q -> 0 <= r).
Proof.
  intros Hq. pose proof (double_spec q) as H.
  pose proof pow2_1023_large as H1023. pose proof pow2_1075_small as H1075.
  destruct (double q) as [|negative|r]; [contradiction| |].
  - destruct H as [H _]. exfalso.
    assert (1000 < pow2 1023) by now vm_compute.
    lra.
  - destruct H as (Herr & _ & _ & _ & Hpos & _).
    exists r. split; [reflexivity|]. split; [|exact Hpos].
    unfold tiny. lra.
Qed.

Lemma double_large (q : Q) :
  1 <= q ->
  double q = Inf false \/
  exists r : Qc, double q = Fin r /\ q * (1 - 2 * unit53) <= r.
Proof.
  intros Hq. pose proof (double_spec q) as H.
  pose proof pow2_1075_small as H1075.
  destruct (double q) as [|negative|r]; [contradiction| |].
  - left. destruct H as [_ H]. destruct negative; [lra | reflexivity].
  - right. destruct H as (Herr & _).
    exists r. split; [reflexivity|].
    apply Qabs_Qle_condition in Herr as [Hlo _].
    rewrite Qabs_pos in Hlo by lra. unfold unit53 in *. lra.
Qed.

Lemma double_negative (q : Q) :
  q <= - (1 # 1000000000000) ->
  double q = Inf true \/ exists r : Qc, double q = Fin r /\ r < 0.
Proof.
  intros Hq. pose proof (double_spec q) as H.
  assert (Hmin : pow2 (-1074) <= 1 # 1000000000000) by now vm_compute.
  destruct (double q) as [|negative|r]; [contradiction| |].
  - left. destruct H as [_ H]. destruct negative; [reflexivity | lra].
  - right. destruct H as (_ & _ & _ & Hneg & _).
    exists r. split; [reflexivity|]. apply Hneg. lra.
Qed.

End RoundingFacts.

(** ** Lists *)

Section ListFacts.
Context {A : Type}.

Lemma elem_of_List_filter (f : A -> bool) (x : A) (l : list A) :
  x ∈ List.filter f l <-> x ∈ l /\ f x = true.
Proof.
  rewrite !list_elem_of_In. apply List.filter_In.
Qed.

End ListFacts.

(** ** Sorting *)

Section SortFacts.
Context {A : Type} (cmp : A -> A -> number).

Lemma insertBy_perm x l : Permutation (x :: l) (insertBy cmp x l).
Proof.
  induction l as [|y l IH]; cbn [insertBy]; [reflexivity|].
  destruct (Num.ltb (Num.ofZ 0) (cmp x y)); [|reflexivity].
  rewrite perm_swap. now apply perm_skip.
Qed.

Lemma sortBy_perm l : Permutation l (sortBy cmp l).
Proof.
  induction l as [|x l IH]; cbn [sortBy foldr]; [reflexivity|].
  rewrite <- insertBy_perm. now apply perm_skip.
Qed.
End SortFacts.

(** ** Random numbers *)

Section RandomFacts.

Lemma floorScaled_lt (r : Unit01) (n : nat) : 0 < n -> floorScaled r n < n.
Proof.
  intros Hn. unfold floorScaled.
  destruct r as [v [Hlo Hhi]]; cbn [unitValue].
  set (x := (v * Q2Qc (inject_Z (Z.of_nat n)))%Qc).
  assert (Hx : (x == v * inject_Z (Z.of_nat n))%Q).
  { unfold x, Qcmult, Q2Qc; cbn [this]. rewrite !Qred_correct. reflexivity. }
  assert (Hn' : (0 < inject_Z (Z.of_nat n))%Q).
  { change 0%Q with (inject_Z 0). rewrite <- Zlt_Qlt. lia. }
  unfold Qcle in Hlo. unfold Qclt in Hhi. cbn [this Q2Qc] in Hlo, Hhi.
  assert (H0 : (0 <= x)%Q).
  { rewrite Hx. apply Qmult_le_0_compat; [exact Hlo|]. now apply Qlt_le_weak. }
  assert (H1 : (x < inject_Z (Z.of_nat n))%Q).
  { rewrite Hx. rewrite <- (Qmult_1_l (inject_Z (Z.of_nat n))) at 2.
    apply Qmult_lt_compat_r; assumption. }
  assert (Hf0 : (0 <= Qfloor x)%Z).
  { change 0%Z with (Qfloor (inject_Z 0)) at 1. now apply Qfloor_resp_le. }
  assert (Hf1 : (Qfloor x < Z.of_nat n)%Z).
  { rewrite Zlt_Qlt. eapply Qle_lt_trans; [apply Qfloor_le | exact H1]. }
  lia.
Qed.

Lemma pick_In {A : Type} (r : Unit01) (l : list A) (d : A) :
  l <> [] -> pick r l d ∈ l.
Proof.
  intros Hl. unfold pick. apply list_elem_of_In, nth_In.
  apply floorScaled_lt. destruct l; [congruence | cbn; lia].
Qed.

End RandomFacts.

(** ** The variant service *)

Module VariantsFacts.
Import Variants.

Lemma variant_listed (v : DedupVariantType) :
  exists d, (d ∈ DEDUP_VARIANTS) /\ id d = v.
Proof.
  assert (H : v ∈ map id DEDUP_VARIANTS).
  { apply list_elem_of_In. destruct v; cbn; tauto. }
  apply list_elem_of_fmap in H as (d & -> & Hd). eauto.
Qed.

Lemma available_spec used exclude d :
  d ∈ availableVariants used exclude <->
  (d ∈ DEDUP_VARIANTS) /\ (id d ∉ used) /\ notExcluded exclude (id d) = true.
Proof.
  unfold availableVariants.
  rewrite list_elem_of_In, filter_In, <- list_elem_of_In.
  rewrite andb_true_iff, negb_true_iff, bool_decide_eq_false. tauto.
Qed.

Lemma available_empty_used used exclude :
  availableVariants used exclude = [] ->
  forall v, notExcluded exclude v = true -> v ∈ used.
Proof.
  intros He v Hv. destruct (decide (v ∈ used)) as [|Hn]; [assumption|].
  destruct (variant_listed v) as (d & Hd & <-).
  assert (H : d ∈ availableVariants used exclude) by now apply available_spec.
  rewrite He in H. now apply elem_of_nil in H.
Qed.

Lemma available_all_excluded used exclude :
  (forall v, notExcluded exclude v = false) ->
  availableVariants used exclude = [].
Proof.
  intros Hall. destruct (availableVariants used exclude) as [|d l] eqn:E; [reflexivity|].
  assert (H : d ∈ availableVariants used exclude) by (rewrite E; left).
  apply available_spec in H as (_ & _ & H). rewrite Hall in H. discriminate.
Qed.

Lemma selectVariant_pick depth r used exclude first rest :
  availableVariants used exclude = first :: rest ->
  selectVariant (S depth) r used exclude =
    Some (pick r (first :: rest) first,
          {[id (pick r (first :: rest) first)]} ∪ used).
Proof. intros E. cbn [selectVariant]. now rewrite E. Qed.

Lemma selectVariant_reset depth r used exclude :
  availableVariants used exclude = [] ->
  selectVariant (S depth) r used exclude = selectVariant depth r ∅ exclude.
Proof. intros E. cbn [selectVariant]. now rewrite E. Qed.

(** The test [!exclude?.includes(id)] holds of the ids that are not in
    the exclude list; without a list the list is empty. *)
Lemma notExcluded_spec (exclude : option (list DedupVariantType))
    (v : DedupVariantType) :
  notExcluded exclude v = true <-> v ∉ default [] exclude.
Proof.
  destruct exclude as [l|]; cbn [notExcluded default from_option].
  - unfold id. rewrite negb_true_iff, bool_decide_eq_false. reflexivity.
  - split; [intros _; apply not_elem_of_nil | reflexivity].
Qed.

Lemma notExcluded_false (exclude : option (list DedupVariantType))
    (v : DedupVariantType) :
  notExcluded exclude v = false <-> v ∈ default [] exclude.
Proof.
  destruct (notExcluded exclude v) eqn:E.
  - apply notExcluded_spec in E. split; [discriminate | contradiction].
  - split; [intros _ | reflexivity].
    destruct (decide (v ∈ default [] exclude)) as [H | H]; [exact H|].
    apply notExcluded_spec in H. congruence.
Qed.

(** C10. [selectVariant(exclude)] returns whenever the exclude list
    omits some variant id (the list is empty when the argument is left
    out): from depth two on the call yields a variant of the table whose
    id is neither in the exclude list nor in the used set it is chosen
    against, which is the used set of the session or, when every id
    outside the exclude list was used, the cleared one. When the
    exclude list holds all eight ids the call recurses at every depth and
    no call returns. *)
Theorem selectVariant_returns_unless_all_excluded
    (r : Unit01) (usedVariants : gset DedupVariantType)
    (exclude : option (list DedupVariantType)) :
  ((exists v, v ∉ default [] exclude) ->
   exists selected against,
     (forall depth, 2 <= depth ->
        selectVariant depth r usedVariants exclude
        = Some (selected, {[id selected]} ∪ against)) /\
     (selected ∈ DEDUP_VARIANTS) /\
     (id selected ∉ default [] exclude) /\
     (id selected ∉ against) /\
     (against = usedVariants \/
      against = ∅ /\
      forall v, v ∉ default [] exclude -> v ∈ usedVariants)) /\
  ((forall v, v ∈ default [] exclude) ->
   (forall depth, selectVariant depth r usedVariants exclude = None) /\
   ~ exists selected usedVariants',
       selects r exclude usedVariants selected usedVariants').
Proof.
  split.
  - intros [v Hv%notExcluded_spec].
    destruct (availableVariants usedVariants exclude) as [|first rest] eqn:E.
    + destruct (availableVariants ∅ exclude) as [|first rest] eqn:E0.
      { pose proof (available_empty_used _ _ E0 v Hv) as H.
        now apply not_elem_of_empty in H. }
      set (selected := pick r (first :: rest) first).
      assert (Hin : selected ∈ availableVariants ∅ exclude).
      { rewrite E0. now apply pick_In. }
      apply available_spec in Hin as (Hl & Hu & Hx%notExcluded_spec).
      exists selected, ∅. repeat split; try assumption.
      * intros [|[|depth]] Hd; try lia.
        rewrite (selectVariant_reset _ _ _ _ E).
        now rewrite (selectVariant_pick _ _ _ _ _ _ E0).
      * right. split; [reflexivity|].
        intros u Hu'%notExcluded_spec. now apply (available_empty_used _ _ E).
    + set (selected := pick r (first :: rest) first).
      assert (Hin : selected ∈ availableVariants usedVariants exclude).
      { rewrite E. now apply pick_In. }
      apply available_spec in Hin as (Hl & Hu & Hx%notExcluded_spec).
      exists selected, usedVariants. repeat split; try assumption.
      * intros [|depth] Hd; [lia|].
        now rewrite (selectVariant_pick _ _ _ _ _ _ E).
      * now left.
  - intros Hall.
    assert (Hall' : forall v, notExcluded exclude v = false).
    { intros v. apply notExcluded_false, Hall. }
    split.
    + intros depth. revert usedVariants.
      induction depth as [|depth IH]; intros used; [reflexivity|].
      rewrite selectVariant_reset by now apply available_all_excluded.
      apply IH.
    + intros (selected & used' & Hsel).
      induction Hsel as [used sel used' He _ IH | used first rest He].
      * exact IH.
      * rewrite available_all_excluded in He by assumption. discriminate.
Qed.

Lemma selectVariant_returns_witness :
  exists selected against,
    (forall depth, 2 <= depth ->
       selectVariant depth unitHalf {[conservative]} (Some [balanced])
       = Some (selected, {[id selected]} ∪ against)) /\
    (selected ∈ DEDUP_VARIANTS) /\
    (id selected ∉ [balanced]) /\
    (id selected ∉ against) /\
    (against = {[conservative]} \/
     against = ∅ /\
     forall v, v ∉ [balanced] -> v ∈ ({[conservative]} : gset DedupVariantType)).
Proof.
  refine (proj1 (selectVariant_returns_unless_all_excluded
                   unitHalf {[conservative]} (Some [balanced]))
                (ex_intro _ aggressive _)).
  apply (bool_decide_unpack _). vm_compute. exact I.
Defined.

End VariantsFacts.

(** ** Strings *)

Module StrFacts.
Import Str.

Local Open Scope N_scope.

Lemma inRange_iff lo hi u : inRange lo hi u = true <-> lo <= u /\ u <= hi.
Proof. unfold inRange. rewrite andb_true_iff, !N.leb_le. tauto. Qed.

Lemma inRange_false_iff lo hi u : inRange lo hi u = false <-> u < lo \/ hi < u.
Proof.
  unfold inRange. rewrite andb_false_iff, !N.leb_gt. tauto.
Qed.

(** Turns the tests on code units of the context into arithmetic. *)
Ltac arith_hyps :=
  repeat match goal with
    | H : _ && _ = true |- _ => apply andb_true_iff in H as [? ?]
    | H : _ && _ = false |- _ => apply andb_false_iff in H as [H | H]
    | H : _ || _ = true |- _ => apply orb_true_iff in H as [H | H]
    | H : _ || _ = false |- _ => apply orb_false_iff in H as [? ?]
    | H : negb _ = true |- _ => apply negb_true_iff in H
    | H : negb _ = false |- _ => apply negb_false_iff in H
    | H : inRange _ _ _ = true |- _ => apply inRange_iff in H
    | H : inRange _ _ _ = false |- _ => apply inRange_false_iff in H
    | H : (_ =? _) = true |- _ => apply N.eqb_eq in H
    | H : (_ =? _) = false |- _ => apply N.eqb_neq in H
    end.

Ltac split_if :=
  match goal with
  | |- context [if ?c then _ else _] => destruct c eqn:?
  end.

Lemma not_surrogate u :
  isSurrogate u = false -> isHighSurrogate u = false /\ isLowSurrogate u = false.
Proof.
  unfold isSurrogate, isHighSurrogate, isLowSurrogate.
  rewrite !inRange_false_iff. lia.
Qed.

Lemma whiteSpace_not_surrogate u : isWhiteSpace u = true -> isSurrogate u = false.
Proof.
  unfold isWhiteSpace, isSurrogate. intros H. apply inRange_false_iff.
  arith_hyps; lia.
Qed.

(** Induction along the reading of a string by [toLowerCase]. *)
Lemma two_step_ind (P : jsstring -> Prop) :
  P [] -> (forall h, P [h]) ->
  (forall h l t, P t -> P (l :: t) -> P (h :: l :: t)) ->
  forall s, P s.
Proof.
  intros H0 H1 H2 s.
  assert (H : P s /\ forall h, P (h :: s)).
  { induction s as [|l t [IH1 IH2]]; split; auto. }
  apply H.
Qed.

(** *** The table of the lower-case mappings *)

Lemma covers_entry (c : N) (rule : N * N * N * N) :
  covers c rule = true ->
  let '(first, _, _, image) := rule in
  In (c, image + (c - first)) (ruleEntries rule).
Proof.
  destruct rule as [[[first last] stride] image]. unfold covers, ruleEntries.
  intros [[Hlo Hhi]%andb_true_iff Hmod]%andb_true_iff.
  apply N.leb_le in Hlo, Hhi. apply N.eqb_eq in Hmod.
  apply in_map_iff. exists (N.to_nat ((c - first) / stride)).
  rewrite N2Nat.id.
  assert (E : (c - first) / stride * stride = c - first).
  { destruct (N.eq_dec stride 0) as [-> | Hs].
    - rewrite N.mod_0_r in Hmod. rewrite Hmod. reflexivity.
    - pose proof (N.div_mod (c - first) stride Hs) as H. rewrite Hmod in H.
      rewrite N.add_0_r, N.mul_comm in H. now symmetry. }
  split.
  - rewrite E. clear E Hmod. f_equal. lia.
  - apply in_seq. split; [apply Nat.le_0_l|].
    assert (Hle : (c - first) / stride <= (last - first) / stride).
    { destruct (N.eq_dec stride 0) as [-> | Hs].
      - now rewrite !N.div_0_r.
      - apply N.Div0.div_le_mono; clear E Hmod; lia. }
    clear E Hmod.
    set (a := (c - first) / stride) in *. set (b := (last - first) / stride) in *.
    lia.
Qed.

(** A code point is its own image, or the table holds its image. *)
Lemma simpleLower_cases (c : N) :
  simpleLower c = c \/ In (c, simpleLower c) lowerEntries.
Proof.
  unfold simpleLower.
  destruct (List.find (covers c) lowerRules) as [[[[first last] stride] image]|] eqn:E;
    [right | now left].
  apply List.find_some in E as [Hin Hc].
  apply in_flat_map. exists (first, last, stride, image).
  split; [exact Hin|]. exact (covers_entry c _ Hc).
Qed.

(** What the table shows of every mapping it holds: the image is its
    own lower case in every context and is no white space; neither the
    code point nor its image is a surrogate; and both are of the same
    plane, basic or supplementary. *)
Lemma lowerEntries_checked :
  Forall (fun entry : N * N =>
            let (c, d) := entry in
            isLowerUnit d = true /\ isSurrogate c = false /\ isSurrogate d = false /\
            isWhiteSpace c = false /\ isWhiteSpace d = false /\
            ((c <? 0x10000) = (d <? 0x10000)) /\ d < 0x110000)
         lowerEntries.
Proof.
  apply List.Forall_forall. intros [c d] Hin.
  assert (H : forallb (fun entry : N * N =>
                isLowerUnit entry.2 && negb (isSurrogate entry.1)
                && negb (isSurrogate entry.2) && negb (isWhiteSpace entry.1)
                && negb (isWhiteSpace entry.2)
                && Bool.eqb (entry.1 <? 0x10000) (entry.2 <? 0x10000)
                && (entry.2 <? 0x110000)) lowerEntries = true)
    by (vm_compute; reflexivity).
  rewrite forallb_forall in H. specialize (H _ Hin). cbn [fst snd] in H.
  apply andb_true_iff in H as [H H7]. apply andb_true_iff in H as [H H6].
  apply andb_true_iff in H as [H H5]. apply andb_true_iff in H as [H H4].
  apply andb_true_iff in H as [H H3]. apply andb_true_iff in H as [H1 H2].
  apply negb_true_iff in H2, H3, H4, H5.
  apply Bool.eqb_prop in H6. apply N.ltb_lt in H7.
  repeat split; assumption.
Qed.

Lemma simpleLower_image (c : N) :
  simpleLower c <> c ->
  isLowerUnit (simpleLower c) = true /\
  isSurrogate c = false /\ isSurrogate (simpleLower c) = false /\
  isWhiteSpace c = false /\ isWhiteSpace (simpleLower c) = false /\
  ((c <? 0x10000) = (simpleLower c <? 0x10000)) /\ simpleLower c < 0x110000.
Proof.
  intros Hne. destruct (simpleLower_cases c) as [E | Hin]; [contradiction|].
  pose proof lowerEntries_checked as H. rewrite List.Forall_forall in H.
  exact (H _ Hin).
Qed.

Lemma simpleLower_idem (c : N) : simpleLower (simpleLower c) = simpleLower c.
Proof.
  destruct (N.eq_dec (simpleLower c) c) as [E | Hne]; [now rewrite !E|].
  destruct (simpleLower_image c Hne) as (H & _).
  unfold isLowerUnit in H. apply andb_true_iff in H as [_ H]. now apply N.eqb_eq.
Qed.

(** *** Strings in lower case *)

Lemma lowerFrom_pair before h l t :
  isHighSurrogate h && isLowSurrogate l = true ->
  lowerFrom before (h :: l :: t)
  = lowerPair h l ++ lowerFrom (codePoint h l :: before) t.
Proof. intros H. cbn [lowerFrom]. now rewrite H. Qed.

Lemma lowerFrom_unit before h t :
  isHighSurrogate h = false ->
  lowerFrom before (h :: t)
  = lowerUnit before h (codePoints t) ++ lowerFrom (h :: before) t.
Proof.
  intros H. destruct t as [|l t]; cbn [lowerFrom codePoints].
  - now rewrite app_nil_r.
  - now rewrite H.
Qed.

Lemma isLowered_unit h t :
  isHighSurrogate h = false ->
  isLowered (h :: t) = negb (isLowSurrogate h) && isLowerUnit h && isLowered t.
Proof. intros H. cbn [isLowered]. now rewrite H. Qed.

Lemma isLowered_pair h l t :
  isHighSurrogate h = true ->
  isLowered (h :: l :: t)
  = isLowSurrogate l && (simpleLower (codePoint h l) =? codePoint h l)
    && isLowered t.
Proof. intros H. cbn [isLowered]. now rewrite H. Qed.

Lemma isLowered_app a b :
  isLowered a = true -> isLowered b = true -> isLowered (a ++ b) = true.
Proof.
  intros Ha Hb. revert Ha.
  induction a as [|h|h l t IHt IHlt] using two_step_ind; [now intros _| |].
  - cbn [app]. destruct (isHighSurrogate h) eqn:Hh.
    + cbn [isLowered]. now rewrite Hh.
    + rewrite !isLowered_unit by assumption.
      intros [H _]%andb_true_iff. now rewrite H.
  - cbn [app]. destruct (isHighSurrogate h) eqn:Hh.
    + rewrite !isLowered_pair by assumption.
      intros [H Ht]%andb_true_iff. rewrite H. now apply IHt.
    + change (h :: l :: t ++ b) with (h :: (l :: t) ++ b).
      rewrite (isLowered_unit h (l :: t)), (isLowered_unit h ((l :: t) ++ b))
        by assumption.
      intros [H Ht]%andb_true_iff. rewrite H. now apply IHlt.
Qed.

(** The pair of a supplementary code point. *)
Lemma codeUnits_spec (d : N) :
  0x10000 <= d -> d < 0x110000 ->
  exists hi lo,
    codeUnits d = [hi; lo] /\
    isHighSurrogate hi = true /\ isLowSurrogate lo = true /\
    codePoint hi lo = d.
Proof.
  intros H0 H1. unfold codeUnits. eexists. eexists. split; [reflexivity|].
  pose proof (N.div_mod (d - 0x10000) 0x400 ltac:(discriminate)) as Hdm.
  pose proof (N.mod_lt (d - 0x10000) 0x400 ltac:(discriminate)) as Hm.
  assert (Hq : (d - 0x10000) / 0x400 < 0x400).
  { apply N.Div0.div_lt_upper_bound. lia. }
  set (q := (d - 0x10000) / 0x400) in *. set (r := (d - 0x10000) mod 0x400) in *.
  unfold isHighSurrogate, isLowSurrogate, codePoint.
  rewrite !inRange_iff. repeat split; lia.
Qed.

Lemma codePoint_large h l : 0x10000 <= codePoint h l.
Proof. unfold codePoint. lia. Qed.

Lemma lowerUnit_lowered before u after :
  isSurrogate u = false -> isLowered (lowerUnit before u after) = true.
Proof.
  intros Hu. unfold lowerUnit.
  destruct (u =? 0x3A3); [now destruct (_ && _)|].
  destruct (u =? 0x130) eqn:E130; [reflexivity|].
  assert (H : isSurrogate (simpleLower u) = false /\ isLowerUnit (simpleLower u) = true).
  { destruct (N.eq_dec (simpleLower u) u) as [E | Hne].
    - rewrite E. split; [exact Hu|]. unfold isLowerUnit.
      rewrite E, N.eqb_refl, E130.
      destruct (u =? 0x3A3) eqn:E3; [|reflexivity].
      apply N.eqb_eq in E3. subst u. now vm_compute in E.
    - destruct (simpleLower_image u Hne) as (H1 & _ & H2 & _). now split. }
  destruct H as [[Hh Hl]%not_surrogate Hunit].
  rewrite isLowered_unit by exact Hh. now rewrite Hl, Hunit.
Qed.

Lemma lowerPair_lowered h l :
  isHighSurrogate h = true -> isLowSurrogate l = true ->
  isLowered (lowerPair h l) = true.
Proof.
  intros Hh Hl. unfold lowerPair. cbv zeta.
  destruct (simpleLower (codePoint h l) =? codePoint h l) eqn:E.
  - rewrite isLowered_pair by exact Hh. now rewrite Hl, E.
  - apply N.eqb_neq in E.
    destruct (simpleLower_image _ E) as (Hunit & _ & _ & _ & _ & Hplane & Hmax).
    pose proof (codePoint_large h l) as Hc.
    assert (Hd : 0x10000 <= simpleLower (codePoint h l)).
    { destruct (simpleLower (codePoint h l) <? 0x10000) eqn:Elt.
      - apply N.ltb_lt in Hplane. lia.
      - now apply N.ltb_ge in Elt. }
    destruct (codeUnits_spec _ Hd Hmax) as (hi & lo & -> & Hhi & Hlo & Ecp).
    rewrite isLowered_pair by exact Hhi. rewrite Hlo, Ecp.
    unfold isLowerUnit in Hunit. apply andb_true_iff in Hunit as [_ ->].
    reflexivity.
Qed.

Lemma lowerFrom_lowered s :
  wellFormed s = true -> forall before, isLowered (lowerFrom before s) = true.
Proof.
  assert (Hlone : forall h, isHighSurrogate h = false -> isLowSurrogate h = false ->
                            isSurrogate h = false).
  { intros h. unfold isHighSurrogate, isLowSurrogate, isSurrogate.
    rewrite !inRange_false_iff. lia. }
  induction s as [|h|h l t IHt IHlt] using two_step_ind; [reflexivity| |].
  - cbn [wellFormed lowerFrom]. intros H before.
    destruct (isHighSurrogate h) eqn:Hh; [discriminate|].
    rewrite andb_true_r in H. apply negb_true_iff in H.
    apply lowerUnit_lowered. now apply Hlone.
  - cbn [wellFormed]. destruct (isHighSurrogate h) eqn:Hh.
    + intros [Hl Ht]%andb_true_iff before.
      rewrite lowerFrom_pair by now rewrite Hh, Hl.
      apply isLowered_app; [now apply lowerPair_lowered | now apply IHt].
    + intros [Hl Ht]%andb_true_iff before. apply negb_true_iff in Hl.
      rewrite lowerFrom_unit by exact Hh.
      apply isLowered_app; [apply lowerUnit_lowered; now apply Hlone | now apply IHlt].
Qed.

(** The mapping at work: a sigma at the end of a word and inside one,
    the dotted capital I, the Kelvin sign, a Latin Extended letter, and a
    Deseret capital, which is a surrogate pair. *)
Lemma toLowerCase_examples :
  toLowerCase (js "ΑΣ Β") = js "ας β" /\
  toLowerCase (js "ΑΣΒ") = js "ασβ" /\
  toLowerCase [0x130] = [0x69; 0x307] /\
  toLowerCase [0x212A] = [0x6B] /\
  toLowerCase [0x100] = [0x101] /\
  toLowerCase [0xD801; 0xDC00] = [0xD801; 0xDC28].
Proof. repeat split; vm_compute; reflexivity. Qed.

Lemma toLowerCase_lowered s :
  wellFormed s = true -> isLowered (toLowerCase s) = true.
Proof. intros H. now apply lowerFrom_lowered. Qed.

Lemma lowerUnit_fixed before u after :
  isLowerUnit u = true -> lowerUnit before u after = [u].
Proof.
  unfold isLowerUnit, lowerUnit.
  intros [[H3%negb_true_iff H1%negb_true_iff]%andb_true_iff E%N.eqb_eq]%andb_true_iff.
  now rewrite H3, H1, E.
Qed.

Lemma lowerFrom_fixed s :
  isLowered s = true -> forall before, lowerFrom before s = s.
Proof.
  induction s as [|h|h l t IHt IHlt] using two_step_ind; [reflexivity| |].
  - cbn [isLowered lowerFrom].
    destruct (isHighSurrogate h); [discriminate|].
    rewrite andb_true_r. intros [_ H]%andb_true_iff before.
    now apply lowerUnit_fixed.
  - destruct (isHighSurrogate h) eqn:Hh.
    + rewrite isLowered_pair by assumption.
      intros [[Hl Hp]%andb_true_iff Ht]%andb_true_iff before.
      rewrite lowerFrom_pair by now rewrite Hh, Hl.
      unfold lowerPair. cbv zeta. rewrite Hp. cbn [app]. now rewrite IHt.
    + rewrite isLowered_unit by assumption.
      intros [[_ Hu]%andb_true_iff Ht]%andb_true_iff before.
      rewrite lowerFrom_unit by exact Hh.
      rewrite lowerUnit_fixed by exact Hu. cbn [app]. now rewrite IHlt.
Qed.

Lemma toLowerCase_fixed s : isLowered s = true -> toLowerCase s = s.
Proof. intros H. now apply lowerFrom_fixed. Qed.

Lemma removeAll_lowered (class : N -> bool) s :
  (forall u, class u = true -> isSurrogate u = false) ->
  isLowered s = true -> isLowered (removeAll class s) = true.
Proof.
  intros Hc.
  assert (Hhigh : forall u, isHighSurrogate u = true -> class u = false).
  { intros u Hu. destruct (class u) eqn:E; [|reflexivity].
    apply Hc, not_surrogate in E as [E _]. congruence. }
  assert (Hlow : forall u, isLowSurrogate u = true -> class u = false).
  { intros u Hu. destruct (class u) eqn:E; [|reflexivity].
    apply Hc, not_surrogate in E as [_ E]. congruence. }
  assert (Hone : forall h t, isHighSurrogate h = false ->
             isLowered (h :: t) = true ->
             isLowered (removeAll class t) = true ->
             isLowered (removeAll class (h :: t)) = true).
  { intros h t Hh H IH. unfold removeAll in *. cbn [List.filter].
    destruct (class h); cbn [negb]; [exact IH|].
    rewrite isLowered_unit in * by assumption.
    apply andb_true_iff in H as [H _]. now rewrite H, IH. }
  induction s as [|h|h l t IHt IHlt] using two_step_ind; [reflexivity| |].
  - intros H. destruct (isHighSurrogate h) eqn:Hh.
    + cbn [isLowered] in H. now rewrite Hh in H.
    + now apply Hone.
  - intros H. destruct (isHighSurrogate h) eqn:Hh.
    + rewrite isLowered_pair in H by assumption.
      apply andb_true_iff in H as [[Hl Hp]%andb_true_iff Ht].
      unfold removeAll in *. cbn [List.filter].
      rewrite (Hhigh h Hh), (Hlow l Hl). cbn [negb].
      rewrite isLowered_pair by assumption.
      now rewrite Hl, Hp, IHt.
    + apply Hone; [assumption..|]. apply IHlt.
      rewrite isLowered_unit in H by assumption.
      now apply andb_true_iff in H as [_ H].
Qed.

Lemma trimStart_id s :
  Forall (fun u => isWhiteSpace u = false) s -> trimStart s = s.
Proof. intros [|u t Hu _]; [reflexivity|]. cbn [trimStart]. now rewrite Hu. Qed.

Lemma trim_id s : Forall (fun u => isWhiteSpace u = false) s -> trim s = s.
Proof.
  intros H. unfold trim. rewrite (trimStart_id s H).
  rewrite trimStart_id by now apply Forall_rev.
  apply rev_involutive.
Qed.

Lemma removeAll_Forall (class : N -> bool) s :
  Forall (fun u => class u = false) (removeAll class s).
Proof.
  apply List.Forall_forall. intros u Hu. unfold removeAll in Hu.
  apply List.filter_In in Hu as [_ Hu].
  now apply negb_true_iff in Hu.
Qed.

Lemma removeAll_idem (class : N -> bool) s :
  removeAll class (removeAll class s) = removeAll class s.
Proof.
  unfold removeAll. induction s as [|u t IH]; [reflexivity|].
  cbn [List.filter]. destruct (negb (class u)) eqn:E; [|exact IH].
  cbn [List.filter]. now rewrite E, IH.
Qed.

(** *** Lower case and white space *)

Lemma removeAll_app (class : N -> bool) a b :
  removeAll class (a ++ b) = removeAll class a ++ removeAll class b.
Proof. unfold removeAll. apply List.filter_app. Qed.

Lemma removeAll_cons (class : N -> bool) u s :
  removeAll class (u :: s)
  = if class u then removeAll class s else u :: removeAll class s.
Proof. unfold removeAll. cbn [List.filter]. now destruct (class u). Qed.

(** A code unit that is white space is its own lower case, and the
    lower case of any other code unit holds no white space. *)
Lemma lowerUnit_white before u after :
  u <> 0x3A3 ->
  removeAll isWhiteSpace (lowerUnit before u after)
  = if isWhiteSpace u then [] else lowerUnit before u after.
Proof.
  intros H3. unfold lowerUnit. apply N.eqb_neq in H3. rewrite H3.
  destruct (u =? 0x130) eqn:E130.
  { apply N.eqb_eq in E130. subst u. reflexivity. }
  destruct (N.eq_dec (simpleLower u) u) as [E | Hne].
  - rewrite E, removeAll_cons. now destruct (isWhiteSpace u).
  - destruct (simpleLower_image u Hne) as (_ & _ & _ & Hu & Hd & _).
    now rewrite removeAll_cons, Hu, Hd.
Qed.

Lemma lowerUnit_context before before' u after after' :
  u <> 0x3A3 -> lowerUnit before u after = lowerUnit before' u after'.
Proof. intros H%N.eqb_neq. unfold lowerUnit. now rewrite H. Qed.

Lemma lowerPair_white h l :
  isHighSurrogate h = true -> isLowSurrogate l = true ->
  removeAll isWhiteSpace (lowerPair h l) = lowerPair h l.
Proof.
  intros Hh Hl.
  assert (Hs : forall u, isHighSurrogate u = true \/ isLowSurrogate u = true ->
                         isWhiteSpace u = false).
  { intros u Hu. destruct (isWhiteSpace u) eqn:E; [|reflexivity].
    apply whiteSpace_not_surrogate, not_surrogate in E as [E1 E2].
    destruct Hu; congruence. }
  pose proof (lowerPair_lowered h l Hh Hl) as Hlow.
  unfold lowerPair in *. cbv zeta in *.
  destruct (simpleLower (codePoint h l) =? codePoint h l) eqn:E.
  - rewrite !removeAll_cons, (Hs h), (Hs l) by tauto. reflexivity.
  - apply N.eqb_neq in E.
    destruct (simpleLower_image _ E) as (_ & _ & _ & _ & _ & Hplane & Hmax).
    pose proof (codePoint_large h l) as Hc.
    assert (Hd : 0x10000 <= simpleLower (codePoint h l)).
    { destruct (simpleLower (codePoint h l) <? 0x10000) eqn:Elt.
      - apply N.ltb_lt in Hplane. lia.
      - now apply N.ltb_ge in Elt. }
    destruct (codeUnits_spec _ Hd Hmax) as (hi & lo & -> & Hhi & Hlo & _).
    rewrite !removeAll_cons, (Hs hi), (Hs lo) by tauto. reflexivity.
Qed.

(** In a well-formed string without a capital sigma, the white space
    can be removed before the letters are lowered or after. *)
Lemma lowerFrom_removeAll s :
  wellFormed s = true -> Forall (fun u => u <> 0x3A3) s ->
  forall before before',
    lowerFrom before (removeAll isWhiteSpace s)
    = removeAll isWhiteSpace (lowerFrom before' s).
Proof.
  assert (Hs : forall u, isHighSurrogate u = true \/ isLowSurrogate u = true ->
                         isWhiteSpace u = false).
  { intros u Hu. destruct (isWhiteSpace u) eqn:E; [|reflexivity].
    apply whiteSpace_not_surrogate, not_surrogate in E as [E1 E2].
    destruct Hu; congruence. }
  assert (Hone : forall h t,
             isHighSurrogate h = false -> h <> 0x3A3 ->
             (forall before before',
                lowerFrom before (removeAll isWhiteSpace t)
                = removeAll isWhiteSpace (lowerFrom before' t)) ->
             forall before before',
               lowerFrom before (removeAll isWhiteSpace (h :: t))
               = removeAll isWhiteSpace (lowerFrom before' (h :: t))).
  { intros h t Hh H3 IH before before'.
    rewrite (lowerFrom_unit before' h t Hh), removeAll_app, removeAll_cons.
    rewrite lowerUnit_white by exact H3.
    destruct (isWhiteSpace h); [apply IH|].
    rewrite lowerFrom_unit by exact Hh.
    rewrite (lowerUnit_context before before' h _ (codePoints t) H3).
    f_equal. apply IH. }
  induction s as [|h|h l t IHt IHlt] using two_step_ind; [reflexivity| |].
  - intros H [H3 _]%list.Forall_cons. cbn [wellFormed] in H.
    destruct (isHighSurrogate h) eqn:Hh; [discriminate|].
    apply Hone; [exact Hh | exact H3 | reflexivity].
  - cbn [wellFormed]. destruct (isHighSurrogate h) eqn:Hh.
    + intros [Hl Ht]%andb_true_iff [_ [_ H3]%list.Forall_cons]%list.Forall_cons
        before before'.
      rewrite (lowerFrom_pair before' h l t) by now rewrite Hh, Hl.
      rewrite removeAll_app, lowerPair_white by assumption.
      rewrite !removeAll_cons, (Hs h), (Hs l) by tauto.
      rewrite lowerFrom_pair by now rewrite Hh, Hl.
      f_equal. now apply IHt.
    + intros [Hl Ht]%andb_true_iff [H3 Hall]%list.Forall_cons.
      apply Hone; [exact Hh | exact H3 |]. now apply IHlt.
Qed.

Lemma toLowerCase_idem s :
  wellFormed s = true -> toLowerCase (toLowerCase s) = toLowerCase s.
Proof. intros H. now apply toLowerCase_fixed, toLowerCase_lowered. Qed.

End StrFacts.

(** ** The text normalizer *)

Module NormalizeFacts.
Import Str StrFacts Dedup.

Lemma punctuation_not_surrogate u :
  isNormalizePunctuation u = true -> isSurrogate u = false.
Proof.
  unfold isNormalizePunctuation.
  intros [[H | H]%orb_true_iff | H]%orb_true_iff.
  - now apply whiteSpace_not_surrogate.
  - apply N.eqb_eq in H. now subst.
  - apply existsb_exists in H as (v & Hv & ->%N.eqb_eq).
    vm_compute in Hv. intuition (subst; reflexivity).
Qed.

Lemma punctuation_white u :
  isNormalizePunctuation u = false -> isWhiteSpace u = false.
Proof.
  unfold isNormalizePunctuation. now intros [[H _]%orb_false_iff _]%orb_false_iff.
Qed.

(** Without the final [trim], which finds nothing to strip. *)
Lemma normalizeText_filter text :
  normalizeText text = removeAll isNormalizePunctuation (toLowerCase text).
Proof.
  unfold normalizeText. apply trim_id.
  eapply List.Forall_impl; [|apply removeAll_Forall].
  intros u. apply punctuation_white.
Qed.

(** C9, as the code has it: two lone surrogates with a space between
    them pass [toLowerCase] unchanged, become the pair of the Deseret
    capital U+10400 once the space is stripped, and the second pass
    lowers that letter. *)
Lemma normalizeText_not_idempotent :
  let x := [0xD801; 0x20; 0xDC00]%N in
  normalizeText x = [0xD801; 0xDC00]%N /\
  normalizeText (normalizeText x) = [0xD801; 0xDC28]%N /\
  normalizeText (normalizeText x) <> normalizeText x.
Proof. vm_compute. repeat split; congruence. Qed.

(** C9, amended: [normalizeText] is idempotent on the well-formed
    strings, those whose surrogates come in pairs. *)
Theorem normalizeText_idempotent (x : jsstring) :
  wellFormed x = true ->
  normalizeText (normalizeText x) = normalizeText x.
Proof.
  intros Hx. rewrite !normalizeText_filter.
  set (y := removeAll isNormalizePunctuation (toLowerCase x)).
  assert (Hy : isLowered y = true).
  { apply removeAll_lowered; [apply punctuation_not_surrogate|].
    now apply toLowerCase_lowered. }
  rewrite (toLowerCase_fixed y Hy). apply removeAll_idem.
Qed.

Lemma normalizeText_idempotent_witness :
  wellFormed (js "  Hello， World！ ") = true /\
  normalizeText (normalizeText (js "  Hello， World！ "))
  = normalizeText (js "  Hello， World！ ").
Proof.
  split; [reflexivity|].
  apply (normalizeText_idempotent (js "  Hello， World！ ")). reflexivity.
Defined.

End NormalizeFacts.

(** ** The originality report *)

Module ReportFacts.
Import Num NumFacts RoundingFacts Dedup.

Local Open Scope Q_scope.

(** The quotient of two counts. *)
Lemma div_counts (d t : nat) :
  (0 < t)%nat ->
  exists x : Qc,
    div (ofNat d) (ofNat t) = Fin x /\
    x == inject_Z (Z.of_nat d) / inject_Z (Z.of_nat t).
Proof.
  intros Ht. unfold ofNat, ofZ, div. rewrite (ofNat_nonzero t Ht).
  eexists. split; [reflexivity|]. to_Q. reflexivity.
Qed.

Lemma max_zero (r : Qc) :
  max (ofZ 0) (Fin r) = Fin (if Qcleb (Q2Qc (inject_Z 0)) r then r else Q2Qc (inject_Z 0)).
Proof. unfold max, ofZ, leb. now destruct (Qcleb _ r). Qed.

Lemma round_zero : round (ofZ 0) = ofZ 0.
Proof. reflexivity. Qed.

Lemma floor_half (s : Qc) :
  exists n : Z,
    round (Fin s) = ofZ n /\
    inject_Z n <= s + (1 # 2) /\ s + (1 # 2) < inject_Z n + 1.
Proof.
  exists (Qfloor (s + Q2Qc (1 # 2))%Qc). split; [reflexivity|].
  assert (E : (s + Q2Qc (1 # 2))%Qc == s + (1 # 2)) by (to_Q; reflexivity).
  rewrite <- E. split; [apply Qfloor_le|].
  change 1 with (inject_Z 1). rewrite <- inject_Z_plus. apply Qlt_floor.
Qed.

(** An integer [n] with [n <= s + 1/2 < n + 1], for [s] close to a
    rational [V] of denominator [T]: the distance of [V] from a half
    integer is zero or at least [1 / 2T], so [n] is within [1/2] of
    [V]. *)
Lemma nearest_integer (n T A : Z) (s V : Q) :
  (0 < T < 2 ^ 32)%Z ->
  V * inject_Z T == inject_Z A ->
  Qabs (s - V) <= 1 # 1099511627776 ->
  inject_Z n <= s + (1 # 2) -> s + (1 # 2) < inject_Z n + 1 ->
  Qabs (inject_Z n - V) <= 1 # 2.
Proof.
  intros [HT0 HT] HV Hs Hlo Hhi.
  apply Qabs_Qle_condition in Hs as [Hs1 Hs2].
  assert (HTq : 0 < inject_Z T) by (change 0 with (inject_Z 0); now rewrite <- Zlt_Qlt).
  assert (HTq' : inject_Z T < 4294967296).
  { change 4294967296 with (inject_Z (2 ^ 32)). now rewrite <- Zlt_Qlt. }
  assert (H2T : 0 < 2 * inject_Z T) by lra.
  apply Qabs_Qle_condition. split.
  - (* V - 1/2 <= n *)
    set (K := (2 * A - T - 2 * n * T)%Z).
    assert (HK : inject_Z K == 2 * inject_Z T * (V - (1 # 2) - inject_Z n)).
    { unfold K, Z.sub. rewrite !inject_Z_plus, !inject_Z_opp, !inject_Z_mult, <- HV.
      change (inject_Z 2) with 2. ring. }
    assert (Hlt : 2 * inject_Z T * (V - (1 # 2) - inject_Z n)
                  < 2 * inject_Z T * (1 # 1099511627776)).
    { apply Qmult_lt_l; [exact H2T | lra]. }
    assert (HK1 : (K < 1)%Z).
    { rewrite Zlt_Qlt, HK. change (inject_Z 1) with 1. lra. }
    assert (HK0 : inject_Z K <= 0).
    { change 0 with (inject_Z 0). rewrite <- Zle_Qle. lia. }
    rewrite HK in HK0.
    assert (Hle : V - (1 # 2) - inject_Z n <= 0).
    { apply (Qmult_le_l _ _ (2 * inject_Z T) H2T). now rewrite Qmult_0_r. }
    lra.
  - set (K := (2 * n * T - 2 * A - T)%Z).
    assert (HK : inject_Z K == 2 * inject_Z T * (inject_Z n - V - (1 # 2))).
    { unfold K, Z.sub. rewrite !inject_Z_plus, !inject_Z_opp, !inject_Z_mult, <- HV.
      change (inject_Z 2) with 2. ring. }
    assert (Hlt : 2 * inject_Z T * (inject_Z n - V - (1 # 2))
                  <= 2 * inject_Z T * (1 # 1099511627776)).
    { apply Qmult_le_l; [exact H2T | lra]. }
    assert (HK1 : (K < 1)%Z).
    { rewrite Zlt_Qlt, HK. change (inject_Z 1) with 1. lra. }
    assert (HK0 : inject_Z K <= 0).
    { change 0 with (inject_Z 0). rewrite <- Zle_Qle. lia. }
    rewrite HK in HK0.
    assert (Hle : inject_Z n - V - (1 # 2) <= 0).
    { apply (Qmult_le_l _ _ (2 * inject_Z T) H2T). now rewrite Qmult_0_r. }
    lra.
Qed.

Lemma ratio_counts (d t : nat) :
  (0 < t)%nat ->
  let q := inject_Z (Z.of_nat d) / inject_Z (Z.of_nat t) in
  ((d <= t)%nat -> 0 <= q /\ q <= 1) /\
  ((t < d)%nat -> (Z.of_nat t < 2 ^ 32)%Z -> 1 + (1 # 4294967296) <= q).
Proof.
  intros Ht q.
  assert (HT : 0 < inject_Z (Z.of_nat t)).
  { change 0 with (inject_Z 0). rewrite <- Zlt_Qlt. lia. }
  split.
  - intros Hle. split.
    + apply Qle_shift_div_l; [exact HT|]. rewrite Qmult_0_l.
      change 0 with (inject_Z 0). rewrite <- Zle_Qle. lia.
    + apply Qle_shift_div_r; [exact HT|]. rewrite Qmult_1_l.
      rewrite <- Zle_Qle. lia.
  - intros Hlt Hb. apply Qle_shift_div_l; [exact HT|].
    unfold Qle, Qmult, Qplus, inject_Z. cbn [Qnum Qden]. lia.
Qed.

Lemma not_Qcleb (p q : Qc) : Qcleb p q = false -> q < p.
Proof.
  intros H. apply Qnot_le_lt. intros Hle.
  assert (Qcleb p q = true) by now apply Qcleb_le.
  congruence.
Qed.

(** The number that the report rounds: in double precision
    [100 - (d / t) * 100] may miss the exact value by a little, and the
    score is an integer next to the exact value all the same. *)
Lemma score_nearest (d t : nat) :
  (0 < t)%nat -> (Z.of_nat t < 2 ^ 32)%Z ->
  exists n : Z,
    round (max (ofZ 0)
             (sub64 (ofZ 100) (mul64 (div64 (ofNat d) (ofNat t)) (ofZ 100))))
    = ofZ n /\
    (0 <= n <= 100)%Z /\
    Qabs (inject_Z n - scoreFormula d t) <= 1 # 2.
Proof.
  intros Ht Hbound.
  destruct (div_counts d t Ht) as (x1 & E1 & Hx1).
  destruct (ratio_counts d t Ht) as [Hsmall Hlarge]. cbv zeta in Hsmall, Hlarge.
  unfold div64. rewrite E1. cbn [round64].
  unfold scoreFormula.
  set (D := inject_Z (Z.of_nat d)) in *. set (T := inject_Z (Z.of_nat t)) in *.
  assert (HT : 0 < T).
  { unfold T. change 0 with (inject_Z 0). rewrite <- Zlt_Qlt. lia. }
  destruct (le_lt_dec d t) as [Hle | Hgt].
  - destruct (Hsmall Hle) as [Hq0 Hq1]. clear Hsmall Hlarge.
    destruct (double_small x1) as (r1 & -> & Herr1 & Hpos1).
    { rewrite Hx1, Qabs_pos; lra. }
    rewrite Hx1 in Herr1, Hpos1. rewrite (Qabs_pos (D / T)) in Herr1 by lra.
    specialize (Hpos1 Hq0).
    apply Qabs_Qle_condition in Herr1 as [Ha1 Hb1].
    unfold mul64. cbn [mul ofZ round64].
    set (x2 := (r1 * Q2Qc (inject_Z 100))%Qc).
    assert (Hx2 : x2 == r1 * 100) by (unfold x2; to_Q; reflexivity).
    assert (Hr1 : r1 <= 2) by (unfold unit53, tiny in *; lra).
    destruct (double_small x2) as (r2 & -> & Herr2 & Hpos2).
    { rewrite Hx2, Qabs_pos; lra. }
    rewrite Hx2 in Herr2, Hpos2. rewrite (Qabs_pos (r1 * 100)) in Herr2 by lra.
    assert (Hr2 : 0 <= r2) by (apply Hpos2; lra). clear Hpos2.
    apply Qabs_Qle_condition in Herr2 as [Ha2 Hb2].
    unfold sub64. cbn [sub neg add ofZ round64].
    set (x3 := (Q2Qc (inject_Z 100) + - r2)%Qc).
    assert (Hx3 : x3 == 100 - r2) by (unfold x3; to_Q; reflexivity).
    assert (Hr2' : r2 <= 201) by (unfold unit53, tiny in *; lra).
    assert (Habs : Qabs (100 - r2) <= 201) by (apply Qabs_Qle_condition; lra).
    destruct (double_small x3) as (r3 & -> & Herr3 & _).
    { rewrite Hx3. lra. }
    rewrite Hx3 in Herr3.
    set (a := Qabs (100 - r2)) in *.
    assert (Ha : 0 <= a) by apply Qabs_nonneg.
    apply Qabs_Qle_condition in Herr3 as [Ha3 Hb3].
    assert (Hnear : - (1 # 1099511627776) <= r3 - (100 - 100 * (D / T))
                    /\ r3 - (100 - 100 * (D / T)) <= 1 # 1099511627776).
    { unfold unit53, tiny in *. split; lra. }
    destruct Hnear as [Hn1 Hn2].
    rewrite max_zero.
    set (s := if Qcleb (Q2Qc (inject_Z 0)) r3 then r3 else Q2Qc (inject_Z 0)).
    assert (Hs : - (1 # 1099511627776) <= s - (100 - 100 * (D / T))
                 /\ s - (100 - 100 * (D / T)) <= 1 # 1099511627776).
    { unfold s. destruct (Qcleb (Q2Qc (inject_Z 0)) r3) eqn:E; [split; assumption|].
      apply not_Qcleb in E. unfold Qclt in E. rewrite this_Q2Qc in *.
      change (inject_Z 0) with 0 in *. split; lra. }
    destruct Hs as [Hs1 Hs2].
    destruct (floor_half s) as (n & -> & Hlo & Hhi).
    exists n. split; [reflexivity|].
    assert (HV : Qmax 0 (100 - 100 * (D / T)) == 100 - 100 * (D / T)).
    { apply Q.max_r. lra. }
    split.
    + assert ((-1 < n)%Z).
      { rewrite Zlt_Qlt. change (inject_Z (-1)) with (-1). lra. }
      assert ((n < 101)%Z).
      { rewrite Zlt_Qlt. change (inject_Z 101) with 101. lra. }
      lia.
    + rewrite HV.
      apply (nearest_integer n (Z.of_nat t) (100 * Z.of_nat t - 100 * Z.of_nat d) s).
      * lia.
      * unfold Z.sub. rewrite inject_Z_plus, inject_Z_opp, !inject_Z_mult.
        fold D T. change (inject_Z 100) with 100. field. lra.
      * apply Qabs_Qle_condition. split; assumption.
      * exact Hlo.
      * exact Hhi.
  - specialize (Hlarge Hgt Hbound). clear Hsmall.
    assert (Hzero : forall y : number,
              (y = Inf true \/ exists r : Qc, y = Fin r /\ r < 0) ->
              round (max (ofZ 0) y) = ofZ 0).
    { intros y [-> | (r & -> & Hr)]; [reflexivity|].
      rewrite max_zero.
      destruct (Qcleb (Q2Qc (inject_Z 0)) r) eqn:E; [|reflexivity].
      apply Qcleb_le in E. unfold Qcle in E. rewrite this_Q2Qc in E.
      change (inject_Z 0) with 0 in E. lra. }
    assert (Hneg : forall y : number,
              (y = Inf false \/
               exists r : Qc, y = Fin r /\ 100 + (1 # 1000000000) <= r) ->
              sub64 (ofZ 100) y = Inf true \/
              exists r : Qc, sub64 (ofZ 100) y = Fin r /\ r < 0).
    { intros y [-> | (r & -> & Hr)]; [now left|].
      unfold sub64. cbn [sub neg add ofZ round64].
      apply double_negative. to_Q. change (inject_Z 100) with 100. lra. }
    exists 0%Z. split; [|split; [lia|]].
    + apply Hzero, Hneg.
      destruct (double_large x1) as [-> | (r1 & -> & Hr1)].
      { rewrite Hx1. lra. }
      { now left. }
      rewrite Hx1 in Hr1.
      unfold mul64. cbn [mul ofZ round64].
      set (x2 := (r1 * Q2Qc (inject_Z 100))%Qc).
      assert (Hx2 : x2 == r1 * 100) by (unfold x2; to_Q; reflexivity).
      unfold unit53 in *.
      destruct (double_large x2) as [-> | (r2 & -> & Hr2)].
      { rewrite Hx2. lra. }
      { now left. }
      right. exists r2. split; [reflexivity|].
      rewrite Hx2 in Hr2. unfold unit53 in *. lra.
    + assert (HV : Qmax 0 (100 - 100 * (D / T)) == 0).
      { apply Q.max_l. lra. }
      rewrite HV. now vm_compute.
Qed.

(** C5, as the code has it: with one of eight segments flagged the
    formula gives 87.5 and the report holds 88; and for a script without
    segments the report holds [NaN], the result of [0 / 0]. *)
Lemma generateOriginalityReport_score_counterexample :
  fst (generateOriginalityReport Samples.eightSegments Samples.oneFinding)
    = ofZ 88 /\
  (scoreFormula (flaggedTargets Samples.oneFinding)
     (length (ScriptData.segments Samples.eightSegments)) == 175 # 2)%Q /\
  fst (generateOriginalityReport Samples.emptyScript []) = NaN.
Proof.
  split; [|split].
  - apply same_eq. now vm_compute.
  - replace (flaggedTargets Samples.oneFinding) with 1%nat by now vm_compute.
    reflexivity.
  - reflexivity.
Qed.

(** The rounding of the arithmetic shows at an exact half: with 109 of
    200 segments flagged the formula gives 45.5, which rounds up to 46;
    the code computes [100 - 0.545 * 100] in double precision, a little
    less than 45.5, and reports 45. *)
Lemma generateOriginalityReport_score_at_half :
  flaggedTargets Cases.flagged109 = 109%nat /\
  length (ScriptData.segments Cases.twoHundred) = 200%nat /\
  (scoreFormula 109 200 == 91 # 2)%Q /\
  roundHalfUp (scoreFormula 109 200) = 46%Z /\
  fst (generateOriginalityReport Cases.twoHundred Cases.flagged109) = ofZ 45.
Proof.
  split; [now vm_compute|]. split; [reflexivity|]. split; [reflexivity|].
  split; [reflexivity|].
  apply same_eq. now vm_compute.
Qed.

(** C5, amended: for a script with at least one segment, and fewer
    than [2^32] as in every array, the score is an integer of [[0, 100]]
    next to [max(0, 100 − 100 × flagged / total)], at most one half away
    from it, where [flagged] counts the distinct target segment ids. *)
Theorem generateOriginalityReport_score
    (script : ScriptData.t) (duplicates : list DuplicateResult) :
  (0 < Z.of_nat (length (ScriptData.segments script)) < 2 ^ 32)%Z ->
  exists n : Z,
    fst (generateOriginalityReport script duplicates) = ofZ n /\
    (0 <= n <= 100)%Z /\
    (Qabs (inject_Z n
           - scoreFormula (flaggedTargets duplicates)
                          (length (ScriptData.segments script))) <= 1 # 2)%Q.
Proof.
  intros [Ht Hb].
  unfold generateOriginalityReport. cbn [fst].
  apply score_nearest; [lia | exact Hb].
Qed.

Lemma generateOriginalityReport_score_witness :
  (0 < Z.of_nat (length (ScriptData.segments Cases.twoHundred)) < 2 ^ 32)%Z /\
  exists n : Z,
    fst (generateOriginalityReport Cases.twoHundred Cases.flagged109) = ofZ n /\
    (0 <= n <= 100)%Z /\
    (Qabs (inject_Z n - scoreFormula (flaggedTargets Cases.flagged109) 200)
     <= 1 # 2)%Q.
Proof.
  assert (H : (0 < Z.of_nat (length (ScriptData.segments Cases.twoHundred)) < 2 ^ 32)%Z).
  { split; reflexivity. }
  split; [exact H|].
  exact (generateOriginalityReport_score Cases.twoHundred Cases.flagged109 H).
Defined.

End ReportFacts.

(** ** The duplicate detector *)

Module DetectFacts.
Import Dedup.

(** *** Pairwise properties of lists *)

Section Pairwise.
Context {A : Type} (R : A -> A -> Prop).
Hypothesis R_sym : forall a b, R a b -> R b a.

Lemma ForallOrdPairs_perm (l l' : list A) :
  Permutation l l' -> ForallOrdPairs R l -> ForallOrdPairs R l'.
Proof.
  induction 1 as [|x l l' Hp IH|x y l|l l' l'' _ IH1 _ IH2]; intros H.
  - exact H.
  - inversion H as [|? ? Hx Hl]; subst. constructor.
    + eapply Permutation_Forall; eauto.
    + now apply IH.
  - inversion H as [|? ? Hy Hl]; subst.
    inversion Hl as [|? ? Hx Hl']; subst.
    inversion Hy as [|? ? Hyx Hyl]; subst.
    constructor; [constructor; [now apply R_sym | assumption]|].
    now constructor.
  - auto.
Qed.

Lemma ForallOrdPairs_lookup (l : list A) (i j : nat) (a b : A) :
  ForallOrdPairs R l -> i <> j ->
  l !! i = Some a -> l !! j = Some b -> R a b.
Proof.
  intros H. revert i j.
  induction H as [|x l Hx Hl IH]; intros i j Hij Hi Hj.
  - now rewrite lookup_nil in Hi.
  - destruct i as [|i], j as [|j]; cbn in Hi, Hj.
    + congruence.
    + injection Hi as ->. rewrite List.Forall_forall in Hx.
      apply Hx. apply list_elem_of_In. eapply list_elem_of_lookup_2; eauto.
    + injection Hj as ->. rewrite List.Forall_forall in Hx.
      apply R_sym, Hx. apply list_elem_of_In. eapply list_elem_of_lookup_2; eauto.
    + apply (IH i j); [lia | assumption | assumption].
Qed.

End Pairwise.

Lemma samePair_sym (r1 r2 : DuplicateResult) : samePair r1 r2 -> samePair r2 r1.
Proof. unfold samePair. intuition congruence. Qed.

(** *** [deduplicateResults] *)

Lemma samePair_keys (r1 r2 : DuplicateResult) :
  samePair r1 r2 -> keyOf r2 = keyOf r1 \/ reverseKeyOf r2 = keyOf r1.
Proof.
  unfold samePair, keyOf, reverseKeyOf.
  intros [[-> ->] | [-> ->]]; auto.
Qed.

Lemma dedupLoop_unseen (seen : gset jsstring) (results : list DuplicateResult) r :
  r ∈ dedupLoop seen results ->
  (r ∈ results) /\ (keyOf r ∉ seen) /\ (reverseKeyOf r ∉ seen).
Proof.
  revert seen. induction results as [|x rest IH]; intros seen; cbn [dedupLoop].
  - intros H. now apply elem_of_nil in H.
  - fold (keyOf x). fold (reverseKeyOf x).
    destruct (bool_decide (keyOf x ∈ seen) || bool_decide (reverseKeyOf x ∈ seen)) eqn:E.
    + intros H. apply IH in H as (? & ? & ?). repeat split; auto. now right.
    + apply orb_false_iff in E as [E1 E2].
      apply bool_decide_eq_false in E1, E2.
      intros [-> | H]%elem_of_cons.
      * repeat split; auto. now left.
      * apply IH in H as (? & H1 & H2).
        apply not_elem_of_union in H1 as [_ H1].
        apply not_elem_of_union in H2 as [_ H2].
        repeat split; auto. now right.
Qed.

Lemma dedupLoop_pairwise (seen : gset jsstring) (results : list DuplicateResult) :
  ForallOrdPairs (fun a b => ~ samePair a b) (dedupLoop seen results).
Proof.
  revert seen. induction results as [|x rest IH]; intros seen; cbn [dedupLoop].
  - constructor.
  - fold (keyOf x). fold (reverseKeyOf x).
    destruct (bool_decide (keyOf x ∈ seen) || bool_decide (reverseKeyOf x ∈ seen)).
    + apply IH.
    + constructor; [|apply IH].
      apply List.Forall_forall. intros r Hr%list_elem_of_In Hsame.
      apply dedupLoop_unseen in Hr as (_ & H1 & H2).
      apply not_elem_of_union in H1 as [H1 _].
      apply not_elem_of_union in H2 as [H2 _].
      apply samePair_keys in Hsame as [E | E];
        [apply H1 | apply H2]; rewrite E; now apply elem_of_singleton.
Qed.

(** *** The passes *)

Lemma sourceBeforeTarget_distinct (segments : list ScriptSegment.t) r :
  NoDup (map ScriptSegment.id segments) ->
  sourceBeforeTarget segments r ->
  segmentId (source r) <> segmentId (target r).
Proof.
  intros Hnd (p & cur & q & -> & Hs & Ht) E.
  rewrite map_app in Hnd. cbn [map] in Hnd.
  apply list.NoDup_app in Hnd as (_ & Hnd & _).
  apply (Hnd (segmentId (source r)) Hs). rewrite E, Ht. now left.
Qed.

Lemma exactLoop_spec (segments : list ScriptSegment.t)
    (normalize : jsstring -> jsstring) (rest done : list ScriptSegment.t)
    (contentMap : gmap jsstring jsstring) :
  segments = done ++ rest ->
  (forall k i, contentMap !! k = Some i -> i ∈ map ScriptSegment.id done) ->
  exists out,
    exactLoop segments normalize contentMap rest = Some out /\
    Forall (fun r => type r = TExact /\ sourceBeforeTarget segments r) out.
Proof.
  revert done contentMap.
  induction rest as [|segment rest IH]; intros done contentMap Hseg Hmap.
  - exists []. split; [reflexivity | constructor].
  - cbn [exactLoop].
    assert (Hseg' : segments = (done ++ [segment]) ++ rest)
      by now rewrite <- app_assoc.
    destruct (contentMap !! normalize (ScriptSegment.content segment))
      as [existingId|] eqn:Hk.
    + pose proof (Hmap _ _ Hk) as Hin.
      apply list_elem_of_fmap in Hin as (s0 & Hid & Hs0).
      destruct (List.find (fun s => Str.eqb (ScriptSegment.id s) existingId) segments)
        as [existing|] eqn:Hfind.
      2:{ exfalso.
          assert (Hf : Str.eqb (ScriptSegment.id s0) existingId = false).
          { apply (List.find_none _ _ Hfind s0).
            apply list_elem_of_In. rewrite Hseg. apply elem_of_app. now left. }
          unfold Str.eqb in Hf. apply bool_decide_eq_false in Hf. congruence. }
      apply List.find_some in Hfind as [_ Hex].
      unfold Str.eqb in Hex. apply bool_decide_eq_true in Hex.
      destruct (IH (done ++ [segment]) contentMap Hseg') as (out & -> & Hout).
      { intros k i Hki. rewrite map_app. apply elem_of_app. left. eauto. }
      eexists. split; [reflexivity|].
      constructor; [|exact Hout]. split; [reflexivity|].
      exists done, segment, rest.
      split; [assumption|]. split; [|reflexivity].
      cbn. rewrite Hex. eauto.
    + apply (IH (done ++ [segment])); [assumption|].
      intros k i Hki. rewrite map_app. apply elem_of_app.
      apply lookup_insert_Some in Hki as [[_ <-] | [_ Hki]].
      * right. now left.
      * left. eauto.
Qed.

Lemma pairLoop_spec (emit : ScriptSegment.t -> ScriptSegment.t -> list DuplicateResult)
    (l : list ScriptSegment.t) r :
  r ∈ pairLoop emit l ->
  exists p a m b q, l = p ++ a :: m ++ b :: q /\ r ∈ emit a b.
Proof.
  induction l as [|si rest IH]; cbn [pairLoop].
  - intros H. now apply elem_of_nil in H.
  - intros [H | H]%elem_of_app.
    + apply list_elem_of_In, in_flat_map in H as (sj & Hsj & Hr).
      apply list_elem_of_In, list_elem_of_split in Hsj as (m & q & ->).
      exists [], si, m, sj, q. split; [reflexivity|]. now apply list_elem_of_In.
    + apply IH in H as (p & a & m & b & q & -> & Hr).
      exists (si :: p), a, m, b, q. now split.
Qed.

Lemma pairLoop_ordered (emit : ScriptSegment.t -> ScriptSegment.t -> list DuplicateResult)
    (segments : list ScriptSegment.t) r :
  (forall a b, r ∈ emit a b ->
     source r = refOf a /\ target r = refOf b /\ type r = TSimilar) ->
  r ∈ pairLoop emit segments ->
  type r = TSimilar /\ sourceBeforeTarget segments r.
Proof.
  intros Hemit (p & a & m & b & q & -> & Hr)%pairLoop_spec.
  apply Hemit in Hr as (Hs & Ht & Hty). split; [assumption|].
  exists (p ++ a :: m), b, q. rewrite <- app_assoc. repeat split.
  - rewrite Hs, map_app. apply elem_of_app. right. now left.
  - now rewrite Ht.
Qed.

Lemma detectSemanticDuplicates_ordered segments threshold similarityOf r :
  r ∈ detectSemanticDuplicates segments threshold similarityOf ->
  type r = TSimilar /\ sourceBeforeTarget segments r.
Proof.
  apply pairLoop_ordered. intros a b. cbv zeta.
  match goal with |- context [if ?c then _ else _] => destruct c end;
    [|intros H; now apply elem_of_nil in H].
  intros ->%list_elem_of_singleton. auto.
Qed.

Lemma detectStructuralDuplicates_ordered segments threshold similarityOf r :
  r ∈ detectStructuralDuplicates segments threshold similarityOf ->
  type r = TSimilar /\ sourceBeforeTarget segments r.
Proof.
  apply pairLoop_ordered. intros a b. cbv zeta.
  match goal with |- context [if ?c then _ else _] => destruct c end;
    [|intros H; now apply elem_of_nil in H].
  intros ->%list_elem_of_singleton. auto.
Qed.

Lemma detectTemplateContent_self segments r :
  r ∈ detectTemplateContent segments ->
  type r = TTemplate /\ segmentId (source r) = segmentId (target r).
Proof.
  unfold detectTemplateContent.
  intros (segment & _ & H)%list_elem_of_In%in_flat_map.
  apply in_flat_map in H as ([category phrases] & _ & H).
  apply in_flat_map in H as (phrase & _ & H).
  destruct (Str.includes _ _); [|contradiction].
  destruct H as [<- | []]. auto.
Qed.

(** *** [detectDuplicates] *)

Lemma detectDuplicates_passes (config : DedupConfig) (script : ScriptData.t) :
  exists found,
    detectDuplicates config script
    = Some (sortBy (fun a b => Num.sub (similarity b) (similarity a))
              (deduplicateResults found)) /\
    Forall (classified (ScriptData.segments script)) found.
Proof.
  unfold detectDuplicates.
  set (segments := ScriptData.segments script).
  destruct (exactLoop_spec segments normalizeText segments [] ∅ eq_refl)
    as (exact & Hexact & Fexact).
  { intros k i H. now rewrite lookup_empty in H. }
  assert (F1 : Forall (classified segments) exact).
  { eapply List.Forall_impl; [|exact Fexact].
    intros r [Ht Hr]. right. split; [congruence | assumption]. }
  assert (F2 : Forall (classified segments)
                 (detectSemanticDuplicates segments (threshold config)
                    calculateSimilarity)).
  { apply List.Forall_forall. intros r Hr%list_elem_of_In.
    apply detectSemanticDuplicates_ordered in Hr as [Ht Hr].
    right. split; [congruence | assumption]. }
  assert (F3 : Forall (classified segments) (detectTemplateContent segments)).
  { apply List.Forall_forall. intros r Hr%list_elem_of_In.
    apply detectTemplateContent_self in Hr. now left. }
  assert (F4 : Forall (classified segments)
                 (detectStructuralDuplicates segments (threshold config)
                    calculateStructureSimilarity)).
  { apply List.Forall_forall. intros r Hr%list_elem_of_In.
    apply detectStructuralDuplicates_ordered in Hr as [Ht Hr].
    right. split; [congruence | assumption]. }
  unfold detectExactDuplicates. rewrite Hexact.
  clear Hexact Fexact. revert F2 F3 F4.
  generalize (detectSemanticDuplicates segments (threshold config)
                calculateSimilarity) as semantic.
  generalize (detectTemplateContent segments) as template.
  generalize (detectStructuralDuplicates segments (threshold config)
                calculateStructureSimilarity) as structural.
  intros structural template semantic F2 F3 F4.
  destruct (includesStrategy config Exact), (includesStrategy config Semantic),
    (includesStrategy config Template), (includesStrategy config Structural);
    cbn [mbind option_bind app];
    eexists; (split; [reflexivity|]);
    repeat first [assumption | apply List.Forall_nil
                 | apply List.Forall_app; split].
Qed.

(** C4, as the code has it: the template pass reports the segment that
    holds a stock phrase as a duplicate of itself. *)
Lemma detectDuplicates_self_duplicate :
  exists r,
    detectDuplicates defaultConfig Samples.templated = Some [r] /\
    type r = TTemplate /\
    segmentId (source r) = js "s1" /\
    segmentId (target r) = js "s1".
Proof. eexists. vm_compute. repeat split. Qed.

(** C4, amended: [detectDuplicates] returns a list in which every
    template finding names its own segment as source and target, every
    finding of the exact, semantic and structural passes has a source
    segment different from its target when the segment ids of the script
    are pairwise distinct, and no two findings name the same unordered
    pair of segment ids. *)
Theorem detectDuplicates_pairs (config : DedupConfig) (script : ScriptData.t) :
  exists out,
    detectDuplicates config script = Some out /\
    (forall r, r ∈ out ->
       (type r = TTemplate -> segmentId (source r) = segmentId (target r)) /\
       (type r <> TTemplate ->
        NoDup (map ScriptSegment.id (ScriptData.segments script)) ->
        segmentId (source r) <> segmentId (target r))) /\
    (forall i j ri rj,
       i <> j -> out !! i = Some ri -> out !! j = Some rj -> ~ samePair ri rj).
Proof.
  destruct (detectDuplicates_passes config script) as (found & -> & Hfound).
  eexists. split; [reflexivity|].
  set (cmp := fun a b => Num.sub (similarity b) (similarity a)).
  pose proof (sortBy_perm cmp (deduplicateResults found)) as Hperm.
  split.
  - intros r Hr. rewrite <- Hperm in Hr.
    apply dedupLoop_unseen in Hr as (Hr & _).
    rewrite List.Forall_forall in Hfound.
    apply list_elem_of_In, Hfound in Hr as [[Ht Hself] | [Ht Hord]].
    + split; [auto | congruence].
    + split; [congruence|]. intros _ Hnd.
      now apply (sourceBeforeTarget_distinct (ScriptData.segments script)).
  - intros i j ri rj Hij Hi Hj.
    apply (ForallOrdPairs_lookup (fun a b => ~ samePair a b)) with
      (l := sortBy cmp (deduplicateResults found)) (i := i) (j := j);
      try assumption.
    + intros a b Hab Hba. apply Hab. now apply samePair_sym.
    + eapply ForallOrdPairs_perm; [|exact Hperm|apply dedupLoop_pairwise].
      intros a b Hab Hba. apply Hab. now apply samePair_sym.
Qed.

(** In [Samples.repeated] the second segment repeats the first and the
    third holds a stock phrase: the exact finding names [s1] and [s2], the
    template finding names [s3] twice. *)
Example detectDuplicates_repeated :
  option_map
    (map (fun r => (type r, segmentId (source r), segmentId (target r))))
    (detectDuplicates defaultConfig Samples.repeated)
  = Some [ (TExact, js "s1", js "s2"); (TTemplate, js "s3", js "s3") ].
Proof. vm_compute. reflexivity. Qed.

Lemma detectDuplicates_pairs_witness :
  exists out,
    detectDuplicates defaultConfig Samples.repeated = Some out /\
    (forall r, r ∈ out -> type r <> TTemplate ->
       segmentId (source r) <> segmentId (target r)) /\
    (forall i j ri rj,
       i <> j -> out !! i = Some ri -> out !! j = Some rj -> ~ samePair ri rj).
Proof.
  destruct (detectDuplicates_pairs defaultConfig Samples.repeated)
    as (out & Hout & Hends & Hpairs).
  exists out. split; [exact Hout|]. split; [|exact Hpairs].
  intros r Hr Ht. apply (Hends r Hr); [exact Ht|].
  apply (bool_decide_unpack _). vm_compute. exact I.
Defined.

End DetectFacts.

(** ** The similarity of fingerprints *)

Module SimilarityFacts.
Import Uniqueness.

Lemma size_remove_dups (l : list jsstring) :
  length (remove_dups l) = size (list_to_set l : gset jsstring).
Proof.
  rewrite <- (size_list_to_set (C := gset jsstring) (remove_dups l))
    by apply NoDup_remove_dups.
  f_equal. apply set_eq. intros x.
  now rewrite !elem_of_list_to_set, elem_of_remove_dups.
Qed.

Lemma calculateKeywordSimilarity_jaccard (keywords1 keywords2 : list jsstring) :
  calculateKeywordSimilarity keywords1 keywords2
  = jaccard (list_to_set keywords1) (list_to_set keywords2).
Proof.
  unfold calculateKeywordSimilarity, jaccard. rewrite !size_remove_dups.
  f_equal; do 2 f_equal; apply set_eq; intros x.
  - rewrite elem_of_list_to_set, elem_of_List_filter, bool_decide_eq_true.
    rewrite !elem_of_remove_dups, elem_of_intersection, !elem_of_list_to_set.
    tauto.
  - rewrite elem_of_list_to_set, elem_of_app, !elem_of_remove_dups.
    now rewrite elem_of_union, !elem_of_list_to_set.
Qed.

Lemma length_filter_map {A B : Type} (f : A -> B) (p : B -> bool) (l : list A) :
  length (List.filter p (map f l)) = length (List.filter (fun x => p (f x)) l).
Proof.
  induction l as [|x l IH]; [reflexivity|].
  cbn [map List.filter]. destruct (p (f x)); cbn [length]; now rewrite IH.
Qed.

Lemma matchCountOf_equalPositions (parts1 parts2 : list jsstring) :
  length parts1 = length parts2 ->
  matchCountOf parts1 parts2 = equalPositions parts1 parts2.
Proof.
  unfold matchCountOf, equalPositions. revert parts2.
  induction parts1 as [|a parts1 IH]; intros [|b parts2] Hlen;
    try discriminate; [reflexivity|].
  injection Hlen as Hlen.
  cbn [length seq zip zip_with List.filter].
  rewrite <- seq_shift. cbn [lookup list_lookup fst snd].
  destruct (decide (a = b)) as [->|Hab].
  - rewrite !bool_decide_eq_true_2 by reflexivity. cbn [length].
    rewrite length_filter_map. cbn [lookup list_lookup].
    now rewrite <- (IH parts2 Hlen).
  - rewrite (bool_decide_eq_false_2 (Some a = Some b)) by congruence.
    rewrite (bool_decide_eq_false_2 (a = b)) by assumption.
    rewrite length_filter_map. cbn [lookup list_lookup].
    now rewrite <- (IH parts2 Hlen).
Qed.

Lemma calculateStructureSimilarity_ratio (structure1 structure2 : jsstring) :
  calculateStructureSimilarity structure1 structure2
  = structuralMatchRatio (Str.split 0x7C structure1) (Str.split 0x7C structure2).
Proof.
  unfold calculateStructureSimilarity, structuralMatchRatio.
  destruct (decide (length (Str.split 124 structure1)
                    = length (Str.split 124 structure2))) as [E|E].
  - rewrite (proj2 (Nat.eqb_eq _ _) E). cbn [negb].
    now rewrite matchCountOf_equalPositions.
  - now rewrite (proj2 (Nat.eqb_neq _ _) E).
Qed.

(** C7. The similarity of two fingerprints is 1 when their hashes are
    equal, and otherwise 0.6 times the Jaccard similarity of the keyword
    sets plus 0.4 times the structural match ratio of the parts of the two
    structure signatures; that ratio is zero when the numbers of parts
    differ and the fraction of the positions with equal parts otherwise. *)
Theorem calculateFingerprintSimilarity_weighted (fp1 fp2 : ContentFingerprint) :
  calculateFingerprintSimilarity fp1 fp2
  = if decide (hash fp1 = hash fp2) then Num.ofZ 1
    else
      let parts1 := Str.split 0x7C (structure fp1) in
      let parts2 := Str.split 0x7C (structure fp2) in
      Num.add
        (Num.mul (jaccard (list_to_set (keywords fp1)) (list_to_set (keywords fp2)))
                 (Num.ratio 6 10))
        (Num.mul (if decide (length parts1 = length parts2)
                  then Num.div (Num.ofNat (equalPositions parts1 parts2))
                               (Num.ofNat (length parts1))
                  else Num.ofZ 0)
                 (Num.ratio 4 10)).
Proof.
  unfold calculateFingerprintSimilarity, Str.eqb.
  destruct (decide (hash fp1 = hash fp2)) as [E|E].
  - now rewrite bool_decide_eq_true_2.
  - rewrite bool_decide_eq_false_2 by assumption. cbv zeta.
    rewrite calculateKeywordSimilarity_jaccard, calculateStructureSimilarity_ratio.
    reflexivity.
Qed.

End SimilarityFacts.

(** ** The uniqueness check *)

Module CheckFacts.
Import Uniqueness.

Section Check.
Variable config : UniquenessConfig.t.
Variable fingerprint : ContentFingerprint.

Lemma checkLoop_cons (k : jsstring) (e : ContentFingerprint) (rest : History) :
  checkLoop config fingerprint ((k, e) :: rest)
  = if reaches config fingerprint (k, e)
    then Some (mkCheck false (calculateFingerprintSimilarity fingerprint e)
                 (Some (mkMatched (scriptId e) (js "历史脚本") (createdAt e)))
                 (findDifferences fingerprint e)
                 (generateUniquenessSuggestions
                    (calculateFingerprintSimilarity fingerprint e)))
    else checkLoop config fingerprint rest.
Proof. reflexivity. Qed.

Lemma checkLoop_none (entries : History) :
  checkLoop config fingerprint entries = None <->
  Forall (fun e => reaches config fingerprint e = false) entries.
Proof.
  induction entries as [|[k e] rest IH].
  - split; [constructor | reflexivity].
  - rewrite checkLoop_cons. destruct (reaches config fingerprint (k, e)) eqn:E.
    + split; [discriminate|]. intros H. inversion H; congruence.
    + rewrite IH. split.
      * now constructor.
      * intros H. now inversion H.
Qed.

Lemma checkLoop_some (entries : History) (result : UniquenessCheckResult) :
  checkLoop config fingerprint entries = Some result ->
  isUnique result = false /\
  exists before found after,
    entries = before ++ found :: after /\
    Forall (fun e => reaches config fingerprint e = false) before /\
    reaches config fingerprint found = true /\
    similarity result = calculateFingerprintSimilarity fingerprint found.2 /\
    matchedScript result
    = Some (mkMatched (scriptId found.2) (js "历史脚本") (createdAt found.2)).
Proof.
  induction entries as [|[k e] rest IH]; [discriminate|].
  rewrite checkLoop_cons. destruct (reaches config fingerprint (k, e)) eqn:E.
  - intros [= <-]. split; [reflexivity|].
    exists [], (k, e), rest. repeat split; [constructor | assumption].
  - intros H. apply IH in H as (Hu & before & found & after & -> & Hb & Hf & Hs & Hm).
    split; [assumption|].
    exists ((k, e) :: before), found, after. repeat split; try assumption.
    now constructor.
Qed.

End Check.

(** C1, as the code has it: the scan stops at the first stored
    fingerprint that reaches the threshold. Against the history of
    [scriptA] then [scriptB], the check of [scriptB] answers with
    [scriptA] at similarity 0.7, though the stored fingerprint of
    [scriptB] has similarity 1. *)
Lemma checkUniqueness_first_not_best :
  let result :=
    checkUniqueness defaultConfig Samples.historyAB (Samples.stampOf 2)
                    Samples.scriptB in
  isUnique result = false /\
  similarity result = Num.ratio 7 10 /\
  matchedScript result
  = Some (mkMatched (js "A") (js "历史脚本") (js "t_0")) /\
  exists better,
    (better ∈ map snd Samples.historyAB) /\
    scriptId better = js "B" /\
    calculateFingerprintSimilarity
      (generateFingerprint (Samples.stampOf 2) Samples.scriptB) better
    = Num.ofZ 1.
Proof.
  cbv zeta. split; [now vm_compute|].
  split; [apply (f_equal (fun x => x)); vm_compute; now apply NumFacts.Fin_eq|].
  split; [now vm_compute|].
  exists (generateFingerprint (Samples.stampOf 1) Samples.scriptB).
  split; [|split]; [|reflexivity|now vm_compute].
  apply list_elem_of_In. vm_compute. tauto.
Qed.

(** C1, amended: [checkUniqueness] answers [isUnique = true] exactly
    when the history is not consulted ([checkHistory] off) or no stored
    fingerprint has a similarity that reaches the threshold; otherwise it
    answers [isUnique = false] with the first stored fingerprint, in the
    order of insertion, whose similarity reaches the threshold, and with
    that similarity. *)
Theorem checkUniqueness_first_match
    (config : UniquenessConfig.t) (fingerprints : History) (stamp : Stamp)
    (script : ScriptData.t) :
  let fingerprint := generateFingerprint stamp script in
  let result := checkUniqueness config fingerprints stamp script in
  (isUnique result = true <->
   UniquenessConfig.checkHistory config = false \/
   Forall (fun e => reaches config fingerprint e = false) fingerprints) /\
  (isUnique result = false ->
   exists before found after,
     fingerprints = before ++ found :: after /\
     Forall (fun e => reaches config fingerprint e = false) before /\
     reaches config fingerprint found = true /\
     similarity result = calculateFingerprintSimilarity fingerprint found.2 /\
     matchedScript result
     = Some (mkMatched (scriptId found.2) (js "历史脚本") (createdAt found.2))).
Proof.
  intros fingerprint result. unfold result, checkUniqueness. fold fingerprint.
  destruct (UniquenessConfig.checkHistory config).
  - destruct (checkLoop config fingerprint fingerprints) as [found|] eqn:E.
    + pose proof (checkLoop_some _ _ _ _ E) as [Hu Hex]. split.
      * rewrite Hu. split; [discriminate|].
        intros [H | H]; [discriminate|].
        apply checkLoop_none in H. congruence.
      * intros _. exact Hex.
    + split.
      * split; [|reflexivity]. intros _. right. now apply checkLoop_none.
      * discriminate.
  - split.
    + split; [|reflexivity]. now left.
    + discriminate.
Qed.

Lemma checkUniqueness_first_match_witness :
  let fingerprint := generateFingerprint (Samples.stampOf 2) Samples.scriptB in
  let result :=
    checkUniqueness defaultConfig Samples.historyAB (Samples.stampOf 2)
                    Samples.scriptB in
  exists before found after,
    Samples.historyAB = before ++ found :: after /\
    Forall (fun e => reaches defaultConfig fingerprint e = false) before /\
    reaches defaultConfig fingerprint found = true /\
    similarity result = calculateFingerprintSimilarity fingerprint found.2 /\
    matchedScript result
    = Some (mkMatched (scriptId found.2) (js "历史脚本") (createdAt found.2)).
Proof.
  pose proof (checkUniqueness_first_match defaultConfig Samples.historyAB
                (Samples.stampOf 2) Samples.scriptB) as H.
  cbv zeta in *. destruct H as [_ H]. apply H. now vm_compute.
Defined.

End CheckFacts.

(** ** The edit distance *)

Module LevenshteinFacts.
Import Dedup.

(** *** Loops and arrays *)

(** A loop that takes the state [X k] to [X (k + 1)] in round [k]. *)
Lemma forRange_states {S : Type} (X : nat -> S) (from count : nat)
    (body : nat -> S -> option S) :
  (forall k, from <= k < from + count -> body k (X k) = Some (X (k + 1))) ->
  forRange from count body (X from) = Some (X (from + count)).
Proof.
  revert from. induction count as [|count IH]; intros from Hstep.
  - now rewrite Nat.add_0_r.
  - cbn [forRange]. rewrite Hstep by lia. cbn [mbind option_bind].
    rewrite Nat.add_1_r, IH.
    + f_equal. f_equal. lia.
    + intros k Hk. apply Hstep. lia.
Qed.

Lemma bind_Some {A B : Type} (f : A -> option B) (x : A) : Some x ≫= f = f x.
Proof. reflexivity. Qed.

Lemma store_inside {A : Type} (arr : list A) (i : nat) (v : A) :
  i < length arr -> store arr i v = Some (<[i:=v]> arr).
Proof. intros H. unfold store. now rewrite decide_True. Qed.

Lemma store_end {A : Type} (arr : list A) (v : A) :
  store arr (length arr) v = Some (arr ++ [v]).
Proof.
  unfold store. rewrite decide_False by lia. now rewrite decide_True.
Qed.

Lemma map_seq_snoc {A : Type} (f : nat -> A) (n : nat) :
  map f (seq 0 n) ++ [f n] = map f (seq 0 (S n)).
Proof. now rewrite seq_S, map_app. Qed.

Lemma lookup_map_seq {A : Type} (f : nat -> A) (n i : nat) :
  i < n -> map f (seq 0 n) !! i = Some (f i).
Proof.
  intros H. change (map f (seq 0 n)) with (f <$> seq 0 n).
  rewrite list_lookup_fmap, lookup_seq_lt by assumption. reflexivity.
Qed.

Lemma insert_map_seq {A : Type} (f g : nat -> A) (n i : nat) :
  (forall r, r <> i -> g r = f r) ->
  i < n -> <[i:=g i]> (map f (seq 0 n)) = map g (seq 0 n).
Proof.
  intros Hfg Hi. apply list_eq. intros r.
  destruct (decide (r = i)) as [->|Hr].
  - rewrite list_lookup_insert_eq by now rewrite length_map, length_seq.
    now rewrite lookup_map_seq.
  - rewrite list_lookup_insert_ne by congruence.
    destruct (decide (r < n)) as [Hlt|Hge].
    + rewrite !lookup_map_seq by assumption. now rewrite Hfg.
    + rewrite !lookup_ge_None_2; [reflexivity|..];
        rewrite length_map, length_seq; lia.
Qed.

(** *** The matrix *)

Section Matrix.
Variables str1 str2 : jsstring.

Local Abbreviation D := (editDistance str1 str2).
Local Abbreviation n1 := (length str1).
Local Abbreviation n2 := (length str2).

Lemma editDistance_0_r (i : nat) : D i 0 = i.
Proof. now destruct i. Qed.

Lemma editDistance_step (i j : nat) :
  D (S i) (S j)
  = Nat.min (Nat.min (D i (S j) + 1) (D (S i) j + 1))
            (D i j + substitutionCost str1 str2 i j).
Proof. reflexivity. Qed.

Lemma substitutionCost_le (i j : nat) : substitutionCost str1 str2 i j <= 1.
Proof.
  unfold substitutionCost.
  destruct (str1 !! i), (str2 !! j); try lia. destruct (_ =? _)%N; lia.
Qed.

Lemma editDistance_bound (i j : nat) : D i j <= Nat.max i j.
Proof.
  revert j. induction i as [|i IH]; intros j; [cbn; lia|].
  induction j as [|j IHj]; [rewrite editDistance_0_r; lia|].
  rewrite editDistance_step.
  pose proof (IH j). pose proof (substitutionCost_le i j). lia.
Qed.

Lemma matrixAt_row (i j r : nat) :
  r <= n1 ->
  matrixAt str1 str2 i j !! r
  = Some (map (D r)
            (seq 0 (if r <? i then S n2 else if r =? i then j else 1))).
Proof. intros H. unfold matrixAt. rewrite lookup_map_seq by lia. reflexivity. Qed.

Lemma cell_matrixAt (i j r c : nat) :
  r <= n1 ->
  c < (if r <? i then S n2 else if r =? i then j else 1) ->
  cell (matrixAt str1 str2 i j) r c = Some (D r c).
Proof.
  intros Hr Hc. unfold cell. rewrite matrixAt_row by assumption.
  cbn [mbind option_bind]. now rewrite lookup_map_seq.
Qed.

Lemma matrixAt_length (i j : nat) : length (matrixAt str1 str2 i j) = S n1.
Proof. unfold matrixAt. now rewrite length_map, length_seq. Qed.

Lemma setCell_matrixAt (i j : nat) :
  1 <= i <= n1 -> 1 <= j ->
  setCell (matrixAt str1 str2 i j) i j (D i j)
  = Some (matrixAt str1 str2 i (S j)).
Proof.
  intros Hi Hj. unfold setCell. rewrite matrixAt_row by lia.
  rewrite Nat.ltb_irrefl, Nat.eqb_refl. cbn [mbind option_bind].
  pose proof (store_end (map (D i) (seq 0 j)) (D i j)) as Hrow.
  rewrite length_map, length_seq in Hrow. rewrite Hrow. cbn [mbind option_bind].
  rewrite map_seq_snoc.
  rewrite store_inside by (rewrite matrixAt_length; lia).
  f_equal. unfold matrixAt.
  set (g := fun r => map (D r)
        (seq 0 (if r <? i then S n2 else if r =? i then S j else 1))).
  replace (map (D i) (seq 0 (S j))) with (g i)
    by (unfold g; now rewrite Nat.ltb_irrefl, Nat.eqb_refl).
  apply insert_map_seq; [|lia].
  intros r Hr. unfold g. now rewrite (proj2 (Nat.eqb_neq r i) Hr).
Qed.

Lemma matrixAt_next_row (i : nat) :
  matrixAt str1 str2 i (S n2) = matrixAt str1 str2 (S i) 1.
Proof.
  unfold matrixAt. apply map_ext. intros r. do 2 f_equal.
  destruct (Nat.ltb_spec r i), (Nat.ltb_spec r (S i)),
    (Nat.eqb_spec r i), (Nat.eqb_spec r (S i)); lia.
Qed.

Lemma init_rows :
  forRange 0 (S n1) (fun i matrix => store matrix i [i]) []
  = Some (map (fun r => [r]) (seq 0 (S n1))).
Proof.
  apply (forRange_states (fun k => map (fun r => [r]) (seq 0 k)) 0 (S n1)).
  intros k _. rewrite Nat.add_1_r, <- map_seq_snoc.
  pose proof (store_end (map (fun r => [r]) (seq 0 k)) [k]) as H.
  now rewrite length_map, length_seq in H.
Qed.

Lemma init_columns :
  forRange 0 (S n2) (fun j matrix => setCell matrix 0 j j)
           (map (fun r => [r]) (seq 0 (S n1)))
  = Some (matrixAt str1 str2 1 1).
Proof.
  set (X := fun k => map (fun r => if r =? 0 then seq 0 (Nat.max k 1) else [r])
                         (seq 0 (S n1))).
  assert (H0 : map (fun r => [r]) (seq 0 (S n1)) = X 0).
  { unfold X. apply map_ext. intros r. now destruct r. }
  assert (H1 : X (0 + S n2) = matrixAt str1 str2 1 1).
  { unfold X, matrixAt. apply map_ext. intros [|r].
    - cbn [Nat.eqb Nat.ltb Nat.leb plus]. rewrite Nat.max_l by lia.
      rewrite (map_ext _ id); [now rewrite map_id | reflexivity].
    - replace (S r <? 1) with false by (symmetry; apply Nat.ltb_ge; lia).
      cbn [Nat.eqb]. now destruct (r =? 0). }
  rewrite H0, <- H1. apply forRange_states. intros k _.
  unfold setCell, X. rewrite lookup_map_seq by lia.
  cbn [Nat.eqb mbind option_bind].
  assert (Hrow : store (seq 0 (Nat.max k 1)) k k = Some (seq 0 (Nat.max (k + 1) 1))).
  { destruct k as [|k]; [reflexivity|].
    rewrite Nat.max_l by lia. rewrite Nat.max_l by lia.
    pose proof (store_end (seq 0 (S k)) (S k)) as H. rewrite length_seq in H.
    rewrite H. now rewrite Nat.add_1_r, <- seq_S. }
  rewrite Hrow. cbn [mbind option_bind].
  rewrite store_inside by (rewrite length_map, length_seq; lia).
  f_equal.
  set (g := fun r => if r =? 0 then seq 0 (Nat.max (k + 1) 1) else [r]).
  change (seq 0 (Nat.max (k + 1) 1)) with (g 0).
  apply insert_map_seq; [|lia].
  intros r Hr. unfold g. now rewrite (proj2 (Nat.eqb_neq r 0) Hr).
Qed.

Lemma fill_cell (i j : nat) :
  1 <= i <= n1 -> 1 <= j <= n2 ->
  (c1 ← str1 !! (i - 1);
   c2 ← str2 !! (j - 1);
   let cost := if (c1 =? c2)%N then 0 else 1 in
   up ← cell (matrixAt str1 str2 i j) (i - 1) j;
   left ← cell (matrixAt str1 str2 i j) i (j - 1);
   diag ← cell (matrixAt str1 str2 i j) (i - 1) (j - 1);
   setCell (matrixAt str1 str2 i j) i j
     (Nat.min (Nat.min (up + 1) (left + 1)) (diag + cost)))
  = Some (matrixAt str1 str2 i (j + 1)).
Proof.
  intros Hi Hj.
  destruct (lookup_lt_is_Some_2 str1 (i - 1)) as [c1 E1]; [lia|].
  destruct (lookup_lt_is_Some_2 str2 (j - 1)) as [c2 E2]; [lia|].
  unfold jsstring in *. rewrite E1, E2. cbn [mbind option_bind]. cbv zeta.
  rewrite !cell_matrixAt.
  2:{ lia. }
  2:{ replace (i - 1 <? i) with true by (symmetry; apply Nat.ltb_lt; lia). lia. }
  2:{ lia. }
  2:{ rewrite Nat.ltb_irrefl, Nat.eqb_refl. lia. }
  2:{ lia. }
  2:{ replace (i - 1 <? i) with true by (symmetry; apply Nat.ltb_lt; lia). lia. }
  cbn [mbind option_bind].
  replace (j + 1) with (S j) by lia.
  rewrite <- setCell_matrixAt by lia. f_equal.
  destruct i as [|i]; [lia|]. destruct j as [|j]; [lia|].
  rewrite editDistance_step. cbn [Nat.sub] in *. rewrite !Nat.sub_0_r in *.
  unfold substitutionCost, jsstring. now rewrite E1, E2.
Qed.

Lemma fill_rows :
  forRange 1 n1 (fun i matrix =>
    forRange 1 n2 (fun j matrix =>
      c1 ← str1 !! (i - 1);
      c2 ← str2 !! (j - 1);
      up ← cell matrix (i - 1) j;
      left ← cell matrix i (j - 1);
      diag ← cell matrix (i - 1) (j - 1);
      setCell matrix i j
        (Nat.min (Nat.min (up + 1) (left + 1))
                 (diag + if (c1 =? c2)%N then 0 else 1)))
      matrix) (matrixAt str1 str2 1 1)
  = Some (matrixAt str1 str2 (S n1) 1).
Proof.
  apply (forRange_states (fun i => matrixAt str1 str2 i 1) 1 n1).
  intros i Hi. rewrite Nat.add_1_r, <- matrixAt_next_row.
  apply (forRange_states (fun j => matrixAt str1 str2 i j) 1 n2).
  intros j Hj. apply fill_cell; lia.
Qed.

(** The loops of [levenshteinDistance] never read outside the matrix,
    and the entry they return is the one of the recurrence. *)
Lemma levenshteinDistance_editDistance :
  levenshteinDistance str1 str2 = Some (D n1 n2).
Proof.
  unfold levenshteinDistance. cbv zeta.
  rewrite init_rows, bind_Some, init_columns, bind_Some, fill_rows, bind_Some.
  apply cell_matrixAt; [lia|].
  replace (n1 <? S n1) with true by (symmetry; apply Nat.ltb_lt; lia). lia.
Qed.

Lemma levenshteinDistance_total :
  exists distance,
    levenshteinDistance str1 str2 = Some distance /\
    distance <= Nat.max n1 n2.
Proof.
  exists (D n1 n2). split.
  - apply levenshteinDistance_editDistance.
  - apply editDistance_bound.
Qed.

End Matrix.

(** *** [calculateSimilarity] *)

Lemma calculateSimilarity_formula (text1 text2 : jsstring) :
  let normalized1 := normalizeText text1 in
  let normalized2 := normalizeText text2 in
  calculateSimilarity text1 text2
  = Num.sub (Num.ofZ 1)
      (Num.div
         (Num.ofNat (editDistance normalized1 normalized2
                       (length normalized1) (length normalized2)))
         (Num.ofNat (Nat.max (length normalized1) (length normalized2)))).
Proof.
  cbv zeta. unfold calculateSimilarity.
  now rewrite levenshteinDistance_editDistance.
Qed.

Lemma one_minus_ratio_within (d m : nat) :
  0 < m -> d <= m ->
  Num.within 0 1 (Num.sub (Num.ofZ 1) (Num.div (Num.ofNat d) (Num.ofNat m))).
Proof.
  intros Hm Hd. unfold Num.ofNat, Num.ofZ, Num.div.
  rewrite (NumFacts.ofNat_nonzero m Hm).
  cbn [Num.sub Num.neg Num.add Num.within]. unfold Qcle.
  NumFacts.to_Q.
  assert (Hm' : (0 < inject_Z (Z.of_nat m))%Q).
  { change 0%Q with (inject_Z 0). rewrite <- Zlt_Qlt. lia. }
  assert (H0 : (0 <= inject_Z (Z.of_nat d) / inject_Z (Z.of_nat m))%Q).
  { apply Qle_shift_div_l; [assumption|]. rewrite Qmult_0_l.
    change 0%Q with (inject_Z 0). rewrite <- Zle_Qle. lia. }
  assert (H1 : (inject_Z (Z.of_nat d) / inject_Z (Z.of_nat m) <= 1)%Q).
  { apply Qle_shift_div_r; [assumption|]. rewrite Qmult_1_l.
    rewrite <- Zle_Qle. lia. }
  set (x := (inject_Z (Z.of_nat d) / inject_Z (Z.of_nat m))%Q) in *.
  change (inject_Z 0) with 0%Q. change (inject_Z 1) with 1%Q.
  split; lra.
Qed.

Lemma one_minus_one (m : nat) :
  0 < m ->
  Num.sub (Num.ofZ 1) (Num.div (Num.ofNat m) (Num.ofNat m)) = Num.ofZ 0.
Proof.
  intros Hm. unfold Num.ofNat, Num.ofZ, Num.div.
  rewrite (NumFacts.ofNat_nonzero m Hm).
  cbn [Num.sub Num.neg Num.add]. apply NumFacts.Fin_eq.
  NumFacts.to_Q.
  assert (Hm' : ~ (inject_Z (Z.of_nat m) == 0)%Q).
  { intros H. unfold Qeq in H. cbn in H. lia. }
  change (inject_Z 1) with 1%Q. change (inject_Z 0) with 0%Q. field. exact Hm'.
Qed.

(** The similarity away from the degenerate case: a number of
    [[0, 1]]. *)
Lemma calculateSimilarity_range (text1 text2 : jsstring) :
  normalizeText text1 <> [] \/ normalizeText text2 <> [] ->
  Num.within 0 1 (calculateSimilarity text1 text2).
Proof.
  intros H. rewrite calculateSimilarity_formula. cbv zeta.
  apply one_minus_ratio_within; [|apply editDistance_bound].
  destruct (normalizeText text1), (normalizeText text2); cbn [length];
    try lia. destruct H; congruence.
Qed.

(** One empty and one non-empty normalized text: similarity 0. *)
Lemma calculateSimilarity_one_empty (text1 text2 : jsstring) :
  normalizeText text1 = [] -> normalizeText text2 <> [] ->
  calculateSimilarity text1 text2 = Num.ofZ 0 /\
  calculateSimilarity text2 text1 = Num.ofZ 0.
Proof.
  intros H1 H2. rewrite !calculateSimilarity_formula. cbv zeta. rewrite H1.
  assert (Hlen : 0 < length (normalizeText text2))
    by (destruct (normalizeText text2); [congruence | cbn; lia]).
  cbn [length editDistance]. rewrite editDistance_0_r, Nat.max_0_l, Nat.max_0_r.
  split; now apply one_minus_one.
Qed.

(** Two texts that normalize to the empty string: [NaN]. *)
Lemma calculateSimilarity_both_empty (text1 text2 : jsstring) :
  normalizeText text1 = [] -> normalizeText text2 = [] ->
  calculateSimilarity text1 text2 = Num.NaN.
Proof.
  intros H1 H2. rewrite calculateSimilarity_formula. cbv zeta.
  now rewrite H1, H2.
Qed.

(** C6, on the code: for two texts that normalize to the empty string
    the distance and the maximal length are both zero, and
    [1 - 0 / 0] is [NaN], which is neither 1 nor a number of [[0, 1]]. *)
Theorem calculateSimilarity_empty_NaN :
  calculateSimilarity (js "") (js "") = Num.NaN /\
  calculateSimilarity (js "。") (js " ！") = Num.NaN /\
  ~ Num.within 0 1 (calculateSimilarity (js "") (js "")).
Proof.
  assert (H : calculateSimilarity (js "") (js "") = Num.NaN)
    by now apply calculateSimilarity_both_empty.
  split; [exact H|]. split; [now apply calculateSimilarity_both_empty|].
  rewrite H. intros [].
Qed.

End LevenshteinFacts.

(** ** The randomization pass *)

Module RandomnessFacts.
Import Uniqueness.

Section Shuffle.
Variable random : nat -> Unit01.
Context {A : Type}.

Lemma swap_length (l : list A) (i j : nat) : length (swap l i j) = length l.
Proof.
  unfold swap. destruct (l !! i), (l !! j); try reflexivity.
  now rewrite !length_insert.
Qed.

Lemma insert_perm (l : list A) (j : nat) (a b : A) :
  l !! j = Some b -> Permutation (b :: <[j:=a]> l) (a :: l).
Proof.
  revert j. induction l as [|y l IH]; intros [|j] H; try discriminate.
  - injection H as ->. apply perm_swap.
  - cbn in H. cbn [insert list_insert].
    rewrite perm_swap, (IH j H). apply perm_swap.
Qed.

Lemma swap_perm (l : list A) (i j : nat) : Permutation (swap l i j) l.
Proof.
  unfold swap.
  destruct (l !! i) as [a|] eqn:Hi; [|reflexivity].
  destruct (l !! j) as [b|] eqn:Hj; [|reflexivity].
  revert i j Hi Hj. induction l as [|x l IH]; intros [|i] [|j] Hi Hj;
    try discriminate; cbn in Hi, Hj; cbn [insert list_insert].
  - injection Hj as ->. reflexivity.
  - injection Hi as ->. now apply insert_perm.
  - injection Hj as ->. now apply insert_perm.
  - apply perm_skip. now apply IH.
Qed.

Lemma shuffleLoop_perm (i k : nat) (l : list A) :
  Permutation (shuffleLoop random i k l) l.
Proof.
  revert k l. induction i as [|i IH]; intros k l; [reflexivity|].
  cbn [shuffleLoop]. now rewrite IH, swap_perm.
Qed.

Lemma shuffleLoop_length (i k : nat) (l : list A) :
  length (shuffleLoop random i k l) = length l.
Proof.
  revert k l. induction i as [|i IH]; intros k l; [reflexivity|].
  cbn [shuffleLoop]. now rewrite IH, swap_length.
Qed.

Lemma shuffleArray_length (k : nat) (l : list A) :
  length (shuffleArray random k l) = length l.
Proof. apply shuffleLoop_length. Qed.

End Shuffle.

Lemma removelast_length {A : Type} (l : list A) :
  length (removelast l) = length l - 1.
Proof.
  rewrite removelast_firstn_len, length_take. lia.
Qed.

Lemma middle_split {A : Type} (l : list A) :
  2 <= length l ->
  l = take 1 l ++ removelast (drop 1 l)
        ++ drop (1 + length (removelast (drop 1 l))) l.
Proof.
  intros H. destruct l as [|a l]; [cbn in H; lia|].
  assert (Hl : l <> []) by (destruct l; [cbn in H; lia | discriminate]).
  pose proof (app_removelast_last a Hl) as E.
  cbn [take drop Nat.add]. rewrite drop_0.
  set (r := removelast l) in *. set (z := List.last l a) in *.
  cbn [app]. f_equal. rewrite take_0. cbn [app].
  rewrite E at 2. rewrite drop_app_length. exact E.
Qed.

Lemma anonymous_imap (f : nat -> jsstring) (l : list ScriptSegment.t) :
  map anonymous (imap (fun index s => withId (f index) s) l) = map anonymous l.
Proof.
  apply list_eq. intros i.
  change (map anonymous ?x) with (anonymous <$> x).
  rewrite !list_lookup_fmap, list_lookup_imap.
  now destruct (l !! i).
Qed.

(** The list that [splice] leaves: the first segment, the shuffled
    middle, the last segment. *)
Lemma spliced_ends (segments shuffled : list ScriptSegment.t) :
  2 <= length segments ->
  length shuffled = length (removelast (drop 1 segments)) ->
  let spliced :=
    take 1 segments ++ shuffled
      ++ drop (1 + length (removelast (drop 1 segments))) segments in
  length spliced = length segments /\
  spliced !! 0 = segments !! 0 /\
  spliced !! (length segments - 1) = segments !! (length segments - 1).
Proof.
  intros Hlen Hsh. cbv zeta.
  rewrite removelast_length, length_drop in Hsh.
  rewrite removelast_length, length_drop.
  replace (1 + (length segments - 1 - 1)) with (length segments - 1) by lia.
  assert (Ht : length (take 1 segments) = 1) by (rewrite length_take; lia).
  repeat split.
  - rewrite !length_app, Ht, Hsh, length_drop. lia.
  - rewrite lookup_app_l by (rewrite Ht; lia).
    now rewrite lookup_take_lt by lia.
  - rewrite lookup_app_r by (rewrite Ht; lia).
    rewrite lookup_app_r by (rewrite Ht, Hsh; lia).
    rewrite lookup_drop, Ht, Hsh. f_equal. lia.
Qed.

(** C8. For a script of two or more segments [addRandomness] returns as
    many segments, and its first and its last segment are the first and the
    last segment of the input, up to the ids, which are assigned anew; the
    segments of the output are those of the input in some order. *)
Theorem addRandomness_keeps_ends
    (random : nat -> Unit01) (freshSegmentId : nat -> jsstring) (now : jsstring)
    (config : UniquenessConfig.t) (script : ScriptData.t) :
  2 <= length (ScriptData.segments script) ->
  let segments := ScriptData.segments script in
  let segments' :=
    ScriptData.segments (addRandomness random freshSegmentId now config script) in
  length segments' = length segments /\
  anonymous <$> segments' !! 0 = anonymous <$> segments !! 0 /\
  anonymous <$> segments' !! (length segments - 1)
  = anonymous <$> segments !! (length segments - 1) /\
  Permutation (map anonymous segments') (map anonymous segments).
Proof.
  intros Hlen segments segments'. unfold segments', addRandomness.
  destruct (negb (UniquenessConfig.addRandomness config)); [now repeat split|].
  cbn [ScriptData.segments]. fold segments.
  set (spliced := if 3 <? length segments then _ else segments).
  assert (H : length spliced = length segments /\
              spliced !! 0 = segments !! 0 /\
              spliced !! (length segments - 1) = segments !! (length segments - 1)).
  { unfold spliced. destruct (3 <? length segments); [|now repeat split].
    apply spliced_ends; [exact Hlen|]. apply shuffleArray_length. }
  assert (Hp : Permutation spliced segments).
  { unfold spliced. destruct (3 <? length segments); [|reflexivity].
    rewrite (middle_split segments Hlen) at 5.
    apply Permutation_app_head, Permutation_app_tail, shuffleLoop_perm. }
  destruct H as (H1 & H2 & H3).
  rewrite length_imap, !list_lookup_imap, H1, H2, H3.
  repeat split.
  - now destruct (segments !! 0).
  - now destruct (segments !! (length segments - 1)).
  - rewrite anonymous_imap. now apply Permutation_map.
Qed.

Lemma addRandomness_keeps_ends_witness :
  2 <= length (ScriptData.segments Samples.eightSegments) /\
  let segments := ScriptData.segments Samples.eightSegments in
  let segments' :=
    ScriptData.segments
      (addRandomness Samples.alwaysHalf Samples.numberedId (js "now")
                     defaultConfig Samples.eightSegments) in
  length segments' = length segments /\
  anonymous <$> segments' !! 0 = anonymous <$> segments !! 0 /\
  anonymous <$> segments' !! (length segments - 1)
  = anonymous <$> segments !! (length segments - 1) /\
  Permutation (map anonymous segments') (map anonymous segments).
Proof.
  split; [cbn; lia|].
  apply (addRandomness_keeps_ends Samples.alwaysHalf Samples.numberedId (js "now")
           defaultConfig Samples.eightSegments).
  cbn; lia.
Defined.

End RandomnessFacts.

(** ** The retry loop *)

Module EnsureFacts.
Import Uniqueness.

Section Loop.
Context {W : Type}.
Variable stamps : nat -> Stamp.
Variable config : UniquenessConfig.t.
Variable rewriteFn : ScriptData.t -> W -> Completion ScriptData.t * W.

(** One round of the loop, up to the call of the collaborator. *)
Lemma ensureLoop_round (rounds : nat) (currentScript : ScriptData.t)
    (attempts : nat) (st : State) :
  let check :=
    checkUniqueness config (fingerprints st) (stamps (drawn st)) currentScript in
  let checked :=
    mkState (fingerprints st) (S (drawn st)) (collaborator st)
            (trace st ++ [Checked currentScript]) in
  ensureLoop stamps config rewriteFn (S rounds) currentScript attempts st
  = if isUnique check then
      (Returned (mkEnsure currentScript attempts true),
       mkState (registerScript (fingerprints st) (stamps (S (drawn st)))
                               currentScript)
               (S (S (drawn st))) (collaborator st)
               (trace st ++ [Checked currentScript] ++ [Registered currentScript]))
    else if negb (UniquenessConfig.autoRewrite config) then
      (Returned (mkEnsure currentScript attempts false), checked)
    else
      bind (awaitRewrite rewriteFn currentScript)
           (fun rewritten =>
              ensureLoop stamps config rewriteFn rounds rewritten (S attempts))
           checked.
Proof.
  cbv zeta. cbn [ensureLoop]. unfold bind at 1, checkUniquenessM.
  unfold bind at 1, log. unfold bind at 1, drawStamp.
  cbn [fingerprints drawn collaborator trace].
  destruct (isUnique _); [|destruct (negb _); reflexivity].
  unfold bind, registerScriptM, log, drawStamp, ret, bind.
  cbn [fingerprints drawn collaborator trace].
  now rewrite <- app_assoc.
Qed.


(** A rejection of the loop is a rejection of the collaborator. *)
Lemma ensureLoop_thrown (rounds : nat) (currentScript : ScriptData.t)
    (attempts : nat) (st st' : State) (e : jsstring) :
  ensureLoop stamps config rewriteFn rounds currentScript attempts st
  = (Thrown e, st') ->
  exists s w w', rewriteFn s w = (Thrown e, w').
Proof.
  revert currentScript attempts st.
  induction rounds as [|rounds IH]; intros currentScript attempts st.
  - discriminate.
  - rewrite ensureLoop_round. cbv zeta.
    destruct (isUnique _); [discriminate|].
    destruct (negb _); [discriminate|].
    unfold bind at 1. unfold awaitRewrite, bind, log.
    cbn [fingerprints drawn collaborator trace].
    destruct (rewriteFn currentScript (collaborator st)) as [[rewritten|e'] w] eqn:E.
    + apply IH.
    + intros [= -> _]. eauto.
Qed.

Lemma countChecks_app (t u : list Event) :
  countChecks (t ++ u) = countChecks t + countChecks u.
Proof. unfold countChecks. now rewrite List.filter_app, length_app. Qed.

Lemma countRewrites_app (t u : list Event) :
  countRewrites (t ++ u) = countRewrites t + countRewrites u.
Proof. unfold countRewrites. now rewrite List.filter_app, length_app. Qed.

(** The loop checks and rewrites at most [rounds] times. *)
Lemma ensureLoop_bounded (rounds : nat) (currentScript : ScriptData.t)
    (attempts : nat) (st : State) :
  let st' := snd (ensureLoop stamps config rewriteFn rounds currentScript
                    attempts st) in
  countChecks (trace st') <= countChecks (trace st) + rounds /\
  countRewrites (trace st') <= countRewrites (trace st) + rounds.
Proof.
  cbv zeta. revert currentScript attempts st.
  induction rounds as [|rounds IH]; intros currentScript attempts st.
  - cbn. lia.
  - rewrite ensureLoop_round. cbv zeta.
    destruct (isUnique _).
    { cbn [snd trace]. rewrite !countChecks_app, !countRewrites_app. cbn. lia. }
    destruct (negb _).
    { cbn [snd trace]. rewrite !countChecks_app, !countRewrites_app. cbn. lia. }
    unfold bind at 1. unfold awaitRewrite, bind, log.
    cbn [fingerprints drawn collaborator trace].
    destruct (rewriteFn currentScript (collaborator st)) as [[rewritten|e] w].
    + match goal with
      | |- context [ensureLoop _ _ _ rounds rewritten (S attempts) ?s] =>
          specialize (IH rewritten (S attempts) s)
      end.
      cbn [trace] in IH.
      rewrite !countChecks_app, !countRewrites_app in IH. cbn in IH. lia.
    + cbn [snd trace]. rewrite !countChecks_app, !countRewrites_app. cbn. lia.
Qed.

End Loop.

(** [ensureUniqueness] performs at most [maxRewriteAttempts] checks and
    at most as many rewrites. *)
Lemma ensureUniqueness_bounded {W : Type} (stamps : nat -> Stamp)
    (config : UniquenessConfig.t)
    (rewriteFn : ScriptData.t -> W -> Completion ScriptData.t * W)
    (script : ScriptData.t) (st : State) :
  let st' := snd (ensureUniqueness stamps config rewriteFn script st) in
  countChecks (trace st')
  <= countChecks (trace st) + Z.to_nat (UniquenessConfig.maxRewriteAttempts config) /\
  countRewrites (trace st')
  <= countRewrites (trace st) + Z.to_nat (UniquenessConfig.maxRewriteAttempts config).
Proof. apply ensureLoop_bounded. Qed.

(** C2, on the code: with [maxRewriteAttempts = 0] the test of the loop
    fails at once, so [ensureUniqueness] leaves the state and the trace as
    they are (no check, no rewrite) and answers [isUnique = false]; this
    also for a script that the one check of the specification finds
    unique, as [scriptA] against an empty history. *)
Theorem ensureUniqueness_zero_attempts_checks_nothing :
  (forall (W : Type) (stamps : nat -> Stamp)
          (rewriteFn : ScriptData.t -> W -> Completion ScriptData.t * W)
          (script : ScriptData.t) (st : State),
     ensureUniqueness stamps Samples.noAttempts rewriteFn script st
     = (Returned (mkEnsure script 0 false), st)) /\
  countChecks
    (trace (snd (ensureUniqueness Samples.stampOf Samples.noAttempts
                   Samples.failingRewrite Samples.scriptA (Samples.startWith []))))
  = 0 /\
  isUnique (checkUniqueness Samples.noAttempts [] (Samples.stampOf 0) Samples.scriptA)
  = true.
Proof. repeat split. Qed.




End EnsureFacts.

(** * Further properties of the code *)

Module DistanceFacts.
Import Dedup.

Lemma substitutionCost_sym (s t : jsstring) (i j : nat) :
  substitutionCost s t i j = substitutionCost t s j i.
Proof.
  unfold substitutionCost.
  destruct (s !! i), (t !! j); try reflexivity. now rewrite N.eqb_sym.
Qed.

Lemma editDistance_sym (s t : jsstring) (i j : nat) :
  editDistance s t i j = editDistance t s j i.
Proof.
  revert j. induction i as [|i IH]; intros j.
  - now rewrite LevenshteinFacts.editDistance_0_r.
  - induction j as [|j IHj].
    + now rewrite LevenshteinFacts.editDistance_0_r.
    + rewrite !LevenshteinFacts.editDistance_step.
      rewrite IHj, (IH (S j)), (IH j), substitutionCost_sym. lia.
Qed.

Lemma editDistance_lower (s t : jsstring) (i j : nat) :
  i - j <= editDistance s t i j /\ j - i <= editDistance s t i j.
Proof.
  revert j. induction i as [|i IH]; intros j; [cbn; lia|].
  induction j as [|j IHj]; [rewrite LevenshteinFacts.editDistance_0_r; lia|].
  rewrite LevenshteinFacts.editDistance_step.
  pose proof (IH j). pose proof (IH (S j)). lia.
Qed.

Lemma editDistance_diag (s : jsstring) (i : nat) :
  i <= length s -> editDistance s s i i = 0.
Proof.
  induction i as [|i IH]; intros Hi; [reflexivity|].
  rewrite LevenshteinFacts.editDistance_step, IH by lia.
  unfold substitutionCost, jsstring in *.
  destruct (lookup_lt_is_Some_2 s i ltac:(lia)) as [c ->].
  rewrite N.eqb_refl. lia.
Qed.

Lemma editDistance_zero (s t : jsstring) (i j : nat) :
  i <= length s -> j <= length t ->
  editDistance s t i j = 0 -> i = j /\ take i s = take j t.
Proof.
  revert j. induction i as [|i IH]; intros j Hi Hj.
  - cbn. intros ->. now rewrite !take_0.
  - destruct j as [|j]; [now rewrite LevenshteinFacts.editDistance_0_r|].
    rewrite LevenshteinFacts.editDistance_step. intros H.
    assert (H0 : editDistance s t i j = 0) by lia.
    assert (Hc : substitutionCost s t i j = 0) by lia.
    destruct (IH j ltac:(lia) ltac:(lia) H0) as [-> Htake].
    split; [reflexivity|].
    unfold substitutionCost, jsstring in *.
    destruct (lookup_lt_is_Some_2 s j ltac:(lia)) as [c1 H1].
    destruct (lookup_lt_is_Some_2 t j ltac:(lia)) as [c2 H2].
    rewrite H1, H2 in Hc.
    destruct (c1 =? c2)%N eqn:E; [|discriminate].
    apply N.eqb_eq in E as ->.
    rewrite (take_S_r _ _ _ H1), (take_S_r _ _ _ H2). now rewrite Htake.
Qed.

(** X1: [levenshteinDistance] always returns a number: no read misses
    the matrix. The distance is symmetric, it is zero exactly for equal
    strings, and it lies between the difference and the larger of the
    two lengths; the distance to the empty string is the length. *)
Theorem levenshteinDistance_distance (s t : jsstring) :
  exists d,
    levenshteinDistance s t = Some d /\
    levenshteinDistance t s = Some d /\
    (d = 0 <-> s = t) /\
    length s - length t <= d /\ length t - length s <= d /\
    d <= Nat.max (length s) (length t) /\
    (t = [] -> d = length s).
Proof.
  exists (editDistance s t (length s) (length t)).
  rewrite !LevenshteinFacts.levenshteinDistance_editDistance.
  split; [reflexivity|]. split; [now rewrite editDistance_sym|].
  split; [split|].
  - intros H. apply editDistance_zero in H as [_ H]; [|lia|lia].
    now rewrite !firstn_all in H.
  - intros <-. now apply editDistance_diag.
  - pose proof (editDistance_lower s t (length s) (length t)).
    pose proof (LevenshteinFacts.editDistance_bound s t (length s) (length t)).
    repeat split; try lia.
    intros ->. apply LevenshteinFacts.editDistance_0_r.
Qed.

End DistanceFacts.

Module SimilarityOfTexts.
Import Dedup.

Lemma one_minus_ratio_one (d m : nat) :
  0 < m ->
  Num.sub (Num.ofZ 1) (Num.div (Num.ofNat d) (Num.ofNat m)) = Num.ofZ 1 <-> d = 0.
Proof.
  intros Hm. unfold Num.ofNat, Num.ofZ, Num.div.
  rewrite (NumFacts.ofNat_nonzero m Hm).
  cbn [Num.sub Num.neg Num.add].
  assert (Hm' : ~ (inject_Z (Z.of_nat m) == 0)%Q).
  { intros H. unfold Qeq in H. cbn in H. lia. }
  split.
  - intros H. destruct (decide (d = 0)) as [|Hd]; [assumption|]. exfalso.
    revert H. apply NumFacts.Fin_neq. NumFacts.to_Q.
    change (inject_Z 1) with 1%Q. intros H.
    assert (Hz : (inject_Z (Z.of_nat d) / inject_Z (Z.of_nat m) == 0)%Q) by lra.
    assert (Hd' : (inject_Z (Z.of_nat d) == 0)%Q).
    { rewrite <- (Qmult_div_r (inject_Z (Z.of_nat d)) (inject_Z (Z.of_nat m)) Hm').
      rewrite Hz. ring. }
    unfold Qeq in Hd'. cbn in Hd'. lia.
  - intros ->. apply NumFacts.Fin_eq. NumFacts.to_Q.
    change (inject_Z (Z.of_nat 0)) with 0%Q. change (inject_Z 1) with 1%Q.
    field. exact Hm'.
Qed.

(** X2: [calculateSimilarity] does not depend on the order of its two
    texts, and it is 1 exactly when the two texts have the same
    normal form and that normal form is not empty. *)
Theorem calculateSimilarity_symmetric (text1 text2 : jsstring) :
  calculateSimilarity text1 text2 = calculateSimilarity text2 text1 /\
  (calculateSimilarity text1 text2 = Num.ofZ 1 <->
   normalizeText text1 = normalizeText text2 /\ normalizeText text1 <> []).
Proof.
  rewrite !LevenshteinFacts.calculateSimilarity_formula. cbv zeta.
  set (n1 := normalizeText text1). set (n2 := normalizeText text2).
  split.
  - now rewrite DistanceFacts.editDistance_sym, Nat.max_comm.
  - destruct (decide (0 < Nat.max (length n1) (length n2))) as [Hm|Hm].
    + rewrite (one_minus_ratio_one _ _ Hm). split.
      * intros H.
        apply DistanceFacts.editDistance_zero in H as [Hl H]; [|lia|lia].
        rewrite !firstn_all in H. split; [assumption|].
        intros E. rewrite <- H, E in Hm. cbn in Hm. lia.
      * intros [-> _]. now apply DistanceFacts.editDistance_diag.
    + assert (E1 : n1 = []) by (destruct n1; [reflexivity | cbn in Hm; lia]).
      assert (E2 : n2 = []) by (destruct n2; [reflexivity | cbn in Hm; lia]).
      rewrite E1, E2. cbn. split; [discriminate | intros [_ H]; congruence].
Qed.

End SimilarityOfTexts.

Module OrderFacts.
Import Dedup.

Lemma div_ofNat_finite (p q : nat) :
  0 < q -> finite (Num.div (Num.ofNat p) (Num.ofNat q)).
Proof.
  intros Hq. unfold Num.div, Num.ofNat, Num.ofZ.
  rewrite (NumFacts.ofNat_nonzero q Hq). now eexists.
Qed.

Lemma geb_not_NaN (x y : number) : Num.geb x y = true -> x <> Num.NaN.
Proof. intros H ->. unfold Num.geb in H. now destruct y as [|[]|]. Qed.

Lemma calculateSimilarity_finite (text1 text2 : jsstring) (threshold : number) :
  Num.geb (calculateSimilarity text1 text2) threshold = true ->
  finite (calculateSimilarity text1 text2).
Proof.
  intros H. apply geb_not_NaN in H.
  destruct (decide (0 < Nat.max (length (normalizeText text1))
                                (length (normalizeText text2)))) as [Hm|Hm].
  - rewrite LevenshteinFacts.calculateSimilarity_formula. cbv zeta.
    destruct (div_ofNat_finite
      (editDistance (normalizeText text1) (normalizeText text2)
         (length (normalizeText text1)) (length (normalizeText text2))) _ Hm)
      as [q ->].
    now eexists.
  - exfalso. apply H. apply LevenshteinFacts.calculateSimilarity_both_empty.
    + destruct (normalizeText text1); [reflexivity | cbn in Hm; lia].
    + destruct (normalizeText text2); [reflexivity | cbn in Hm; lia].
Qed.

Lemma remove_dups_nil {A : Type} `{EqDecision A} (l : list A) :
  remove_dups l = [] -> l = [].
Proof.
  destruct l as [|a l]; [reflexivity|]. intros H. exfalso.
  assert (Ha : a ∈ remove_dups (a :: l)) by (apply elem_of_remove_dups; now left).
  rewrite H in Ha. now apply elem_of_nil in Ha.
Qed.

Lemma calculateStructureSimilarity_finite (text1 text2 : jsstring) (threshold : number) :
  Num.geb (calculateStructureSimilarity text1 text2) threshold = true ->
  finite (calculateStructureSimilarity text1 text2).
Proof.
  intros H. apply geb_not_NaN in H. revert H.
  unfold calculateStructureSimilarity. cbv zeta.
  set (f1 := extractStructureFeatures text1).
  set (f2 := extractStructureFeatures text2).
  destruct (remove_dups (f1 ++ f2)) as [|u us] eqn:E.
  - apply remove_dups_nil, app_eq_nil in E as [-> ->]. intros H. now exfalso.
  - intros _. apply div_ofNat_finite. cbn. lia.
Qed.

(** *** Insertion sort *)

(** A comparator that decides a transitive relation [before] on the
    elements with the property [P]. *)
Section Sorting.
Context {A : Type} (cmp : A -> A -> number) (before : A -> A -> Prop) (P : A -> Prop).
Hypothesis before_trans : forall x y z, before x y -> before y z -> before x z.
Hypothesis cmp_before : forall x y, P x -> P y ->
  if Num.ltb (Num.ofZ 0) (cmp x y) then before y x else before x y.

Lemma insertBy_elem (x y : A) (l : list A) :
  y ∈ insertBy cmp x l -> y = x \/ y ∈ l.
Proof.
  intros H. rewrite <- (insertBy_perm cmp x l) in H.
  now apply elem_of_cons in H.
Qed.

Lemma insertBy_sorted (x : A) (l : list A) :
  P x -> Forall P l ->
  ForallOrdPairs before l -> ForallOrdPairs before (insertBy cmp x l).
Proof.
  intros Hx Hl Hs. induction Hs as [|y l Hy Hs IH]; cbn [insertBy].
  - repeat constructor.
  - inversion Hl as [|? ? Hfy Hfl]; subst.
    pose proof (cmp_before x y Hx Hfy) as Ht.
    destruct (Num.ltb (Num.ofZ 0) (cmp x y)).
    + constructor; [|now apply IH].
      apply List.Forall_forall. intros z Hz%list_elem_of_In.
      apply insertBy_elem in Hz as [-> | Hz]; [assumption|].
      rewrite List.Forall_forall in Hy. now apply Hy, list_elem_of_In.
    + constructor; [|now constructor].
      constructor; [assumption|].
      eapply List.Forall_impl; [|exact Hy].
      intros z Hz. now apply (before_trans x y z).
Qed.

Lemma sortBy_sorted (l : list A) :
  Forall P l -> ForallOrdPairs before (sortBy cmp l).
Proof.
  induction 1 as [|x l Hx Hl IH]; cbn [sortBy foldr]; [constructor|].
  apply insertBy_sorted; [assumption| |exact IH].
  apply List.Forall_forall. intros z Hz%list_elem_of_In.
  fold (sortBy cmp l) in Hz. rewrite <- (sortBy_perm cmp l) in Hz.
  rewrite List.Forall_forall in Hl. now apply Hl, list_elem_of_In.
Qed.

Lemma sorted_lookup (l : list A) (i j : nat) (a b : A) :
  ForallOrdPairs before l -> i < j ->
  l !! i = Some a -> l !! j = Some b -> before a b.
Proof.
  intros Hs. revert i j. induction Hs as [|x l Hx Hs IH]; intros i j Hij Hi Hj.
  - now rewrite lookup_nil in Hi.
  - destruct j as [|j]; [lia|]. cbn in Hj. destruct i as [|i]; cbn in Hi.
    + injection Hi as ->. rewrite List.Forall_forall in Hx.
      apply Hx, list_elem_of_In. eapply list_elem_of_lookup_2; eauto.
    + apply (IH i j); [lia|assumption|assumption].
Qed.

End Sorting.

(** *** Numbers in order *)

Lemma geb_trans (x y z : number) :
  Num.geb x y = true -> Num.geb y z = true -> Num.geb x z = true.
Proof.
  unfold Num.geb.
  destruct x as [|[]|p], y as [|[]|q], z as [|[]|r];
    cbn; try congruence.
  rewrite !NumFacts.Qcleb_le. intros H1 H2. eapply Qcle_trans; eauto.
Qed.

(** The sign of a difference of finite numbers. *)
Lemma sub_sign (x y : number) :
  finite x -> finite y ->
  if Num.ltb (Num.ofZ 0) (Num.sub y x) then Num.geb y x = true
  else Num.geb x y = true.
Proof.
  intros [p ->] [q ->].
  cbn [Num.sub Num.neg Num.add Num.ltb Num.ofZ Num.leb Num.geb].
  destruct (negb (Num.Qcleb (q + - p) (Q2Qc (inject_Z 0)))) eqn:E.
  - apply negb_true_iff in E.
    apply NumFacts.Qcleb_le. apply Qclt_le_weak.
    destruct (Qclt_le_dec p q) as [Hlt|Hle]; [assumption|exfalso].
    assert (Hc : Num.Qcleb (q + - p) (Q2Qc (inject_Z 0)) = true).
    { apply NumFacts.Qcleb_le. unfold Qcle in *. NumFacts.to_Q.
      change (inject_Z 0) with 0%Q. lra. }
    congruence.
  - apply negb_false_iff, NumFacts.Qcleb_le in E.
    apply NumFacts.Qcleb_le. unfold Qcle in *. revert E. NumFacts.to_Q.
    change (inject_Z 0) with 0%Q. intros E. lra.
Qed.

Lemma found_finite (config : DedupConfig) (script : ScriptData.t) :
  exists found,
    detectDuplicates config script
    = Some (sortBy (fun a b => Num.sub (similarity b) (similarity a))
              (deduplicateResults found)) /\
    Forall (fun r => finite (similarity r)) found.
Proof.
  unfold detectDuplicates.
  set (segments := ScriptData.segments script).
  destruct (DetectFacts.exactLoop_spec segments normalizeText segments [] ∅ eq_refl)
    as (exact & Hexact & _).
  { intros k i H. now rewrite lookup_empty in H. }
  assert (F1 : Forall (fun r => finite (similarity r)) exact).
  { clear -Hexact. revert Hexact. generalize (∅ : gmap jsstring jsstring).
    generalize segments at 2 as rest. intros rest. revert exact.
    induction rest as [|s rest IH]; intros exact m; cbn [exactLoop].
    - intros [= <-]. constructor.
    - destruct (m !! _).
      + destruct (List.find _ _); [|discriminate]. cbn [mbind option_bind].
        destruct (exactLoop segments normalizeText m rest) eqn:E; [|discriminate].
        cbn [mbind option_bind]. intros [= <-].
        constructor; [now eexists | eauto].
      + eauto. }
  assert (F2 : Forall (fun r => finite (similarity r))
                 (detectSemanticDuplicates segments (threshold config)
                    calculateSimilarity)).
  { apply List.Forall_forall. intros r Hr%list_elem_of_In.
    apply DetectFacts.pairLoop_spec in Hr as (p & a & m & b & q & _ & Hr).
    cbv zeta in Hr.
    destruct (Num.geb _ _) eqn:E; [|now apply elem_of_nil in Hr].
    apply list_elem_of_singleton in Hr as ->.
    now apply calculateSimilarity_finite in E. }
  assert (F3 : Forall (fun r => finite (similarity r)) (detectTemplateContent segments)).
  { apply List.Forall_forall. intros r Hr. unfold detectTemplateContent in Hr.
    apply in_flat_map in Hr as (segment & _ & H).
    apply in_flat_map in H as ([category phrases] & _ & H).
    apply in_flat_map in H as (phrase & _ & H).
    destruct (Str.includes _ _); [|contradiction].
    destruct H as [<- | []]. now eexists. }
  assert (F4 : Forall (fun r => finite (similarity r))
                 (detectStructuralDuplicates segments (threshold config)
                    calculateStructureSimilarity)).
  { apply List.Forall_forall. intros r Hr%list_elem_of_In.
    apply DetectFacts.pairLoop_spec in Hr as (p & a & m & b & q & _ & Hr).
    cbv zeta in Hr.
    destruct (Num.geb _ _) eqn:E; [|now apply elem_of_nil in Hr].
    apply list_elem_of_singleton in Hr as ->.
    now apply calculateStructureSimilarity_finite in E. }
  unfold detectExactDuplicates. rewrite Hexact.
  clear Hexact. revert F2 F3 F4.
  generalize (detectSemanticDuplicates segments (threshold config)
                calculateSimilarity) as semantic.
  generalize (detectTemplateContent segments) as template.
  generalize (detectStructuralDuplicates segments (threshold config)
                calculateStructureSimilarity) as structural.
  intros structural template semantic F2 F3 F4.
  destruct (includesStrategy config Exact), (includesStrategy config Semantic),
    (includesStrategy config Template), (includesStrategy config Structural);
    cbn [mbind option_bind app];
    eexists; (split; [reflexivity|]);
    repeat first [assumption | apply List.Forall_nil
                 | apply List.Forall_app; split].
Qed.

(** X3: the findings returned by [detectDuplicates] are in the order of
    their similarity, the highest first; every similarity in the list
    is a finite number, never [NaN]. *)
Theorem detectDuplicates_sorted (config : DedupConfig) (script : ScriptData.t) :
  exists out,
    detectDuplicates config script = Some out /\
    (forall r, r ∈ out -> finite (similarity r)) /\
    (forall i j ri rj,
       i < j -> out !! i = Some ri -> out !! j = Some rj ->
       Num.geb (similarity ri) (similarity rj) = true).
Proof.
  destruct (found_finite config script) as (found & -> & Hfound).
  eexists. split; [reflexivity|].
  set (cmp := fun a b => Num.sub (similarity b) (similarity a)).
  assert (Hkept : Forall (fun r => finite (similarity r)) (deduplicateResults found)).
  { apply List.Forall_forall. intros r Hr%list_elem_of_In.
    apply DetectFacts.dedupLoop_unseen in Hr as (Hr & _).
    rewrite List.Forall_forall in Hfound. now apply Hfound, list_elem_of_In. }
  split.
  - intros r Hr. rewrite <- (sortBy_perm cmp _) in Hr.
    rewrite List.Forall_forall in Hkept. now apply Hkept, list_elem_of_In.
  - intros i j ri rj Hij Hi Hj.
    eapply (sorted_lookup (fun a b => Num.geb (similarity a) (similarity b) = true));
      [|exact Hij|exact Hi|exact Hj].
    apply (sortBy_sorted cmp _ (fun r => finite (similarity r))); [| |exact Hkept].
    + intros x y z. apply geb_trans.
    + intros x y Hx Hy. unfold cmp. now apply sub_sign.
Qed.

End OrderFacts.

Module FilterFacts.
Import Dedup.

Lemma dedupLoop_sublist (seen : gset jsstring) (results : list DuplicateResult) :
  sublist (dedupLoop seen results) results.
Proof.
  revert seen. induction results as [|x rest IH]; intros seen; cbn [dedupLoop].
  - constructor.
  - destruct (_ || _); [apply sublist_cons | apply sublist_skip]; apply IH.
Qed.

Lemma dedupLoop_again (seen seen' : gset jsstring) (results : list DuplicateResult) :
  seen' ⊆ seen ->
  dedupLoop seen' (dedupLoop seen results) = dedupLoop seen results.
Proof.
  revert seen seen'.
  induction results as [|x rest IH]; intros seen seen' Hsub; cbn [dedupLoop].
  - reflexivity.
  - fold (keyOf x). fold (reverseKeyOf x).
    destruct (bool_decide (keyOf x ∈ seen) || bool_decide (reverseKeyOf x ∈ seen)) eqn:E.
    + now apply IH.
    + apply orb_false_iff in E as [E1 E2].
      apply bool_decide_eq_false in E1, E2.
      cbn [dedupLoop]. fold (keyOf x). fold (reverseKeyOf x).
      rewrite (bool_decide_eq_false_2 (keyOf x ∈ seen')) by set_solver.
      rewrite (bool_decide_eq_false_2 (reverseKeyOf x ∈ seen')) by set_solver.
      cbn [orb]. f_equal. apply IH. set_solver.
Qed.

Lemma dedupLoop_represented (seen : gset jsstring) (results : list DuplicateResult) r :
  r ∈ results ->
  (keyOf r ∈ seen \/ reverseKeyOf r ∈ seen) \/
  exists r', (r' ∈ dedupLoop seen results) /\
             (keyOf r' = keyOf r \/ keyOf r' = reverseKeyOf r).
Proof.
  revert seen. induction results as [|x rest IH]; intros seen Hr.
  - now apply elem_of_nil in Hr.
  - cbn [dedupLoop]. fold (keyOf x). fold (reverseKeyOf x).
    destruct (bool_decide (keyOf x ∈ seen) || bool_decide (reverseKeyOf x ∈ seen)) eqn:E.
    + apply elem_of_cons in Hr as [-> | Hr]; [|now apply IH].
      left. apply orb_true_iff in E as [E | E]; apply bool_decide_eq_true in E; auto.
    + apply elem_of_cons in Hr as [-> | Hr].
      * right. exists x. split; [now left | now left].
      * destruct (IH ({[keyOf x]} ∪ seen) Hr) as [[H | H] | (r' & Hr' & H)].
        -- apply elem_of_union in H as [H%elem_of_singleton | H]; [|now left; left].
           right. exists x. split; [now left | now left].
        -- apply elem_of_union in H as [H%elem_of_singleton | H]; [|now left; right].
           right. exists x. split; [now left | now right].
        -- right. exists r'. split; [now right | assumption].
Qed.

(** X4: [deduplicateResults] only drops findings: what it returns is a
    subsequence of its input, in the order of the input. A finding is
    dropped only when a finding that is kept was recorded under its key
    or its reversed key, and a second pass drops nothing more. *)
Theorem deduplicateResults_subsequence (results : list DuplicateResult) :
  sublist (deduplicateResults results) results /\
  (forall r, r ∈ results ->
     exists r', (r' ∈ deduplicateResults results) /\
                (keyOf r' = keyOf r \/ keyOf r' = reverseKeyOf r)) /\
  deduplicateResults (deduplicateResults results) = deduplicateResults results.
Proof.
  unfold deduplicateResults. split; [apply dedupLoop_sublist|]. split.
  - intros r Hr.
    destruct (dedupLoop_represented ∅ results r Hr) as [[H | H] | H];
      [set_solver | set_solver | exact H].
  - now apply dedupLoop_again.
Qed.

End FilterFacts.

Module PassFacts.
Import Dedup.

Lemma pairLoop_pairs (emit : ScriptSegment.t -> ScriptSegment.t -> list DuplicateResult)
    (l : list ScriptSegment.t) r :
  r ∈ pairLoop emit l <->
  exists i j a b, i < j /\ l !! i = Some a /\ l !! j = Some b /\ r ∈ emit a b.
Proof.
  induction l as [|si rest IH]; cbn [pairLoop].
  - split; [intros H; now apply elem_of_nil in H|].
    intros (i & j & a & b & _ & H & _). now rewrite lookup_nil in H.
  - rewrite elem_of_app, IH. split.
    + intros [H | (i & j & a & b & Hij & Hi & Hj & Hr)].
      * apply list_elem_of_In, in_flat_map in H as (sj & Hsj & Hr).
        apply list_elem_of_In, list_elem_of_lookup_1 in Hsj as [j Hj].
        exists 0, (S j), si, sj. repeat split; [lia | assumption |].
        now apply list_elem_of_In.
      * exists (S i), (S j), a, b. repeat split; [lia | assumption ..].
    + intros (i & j & a & b & Hij & Hi & Hj & Hr).
      destruct j as [|j]; [lia|]. cbn in Hj. destruct i as [|i]; cbn in Hi.
      * injection Hi as ->. left. apply list_elem_of_In, in_flat_map.
        exists b. split; [|now apply list_elem_of_In].
        apply list_elem_of_In. eapply list_elem_of_lookup_2; eauto.
      * right. exists i, j, a, b. repeat split; [lia | assumption ..].
Qed.

Lemma pairLoop_length (emit : ScriptSegment.t -> ScriptSegment.t -> list DuplicateResult)
    (l : list ScriptSegment.t) :
  (forall a b, length (emit a b) <= 1) ->
  2 * length (pairLoop emit l) <= length l * (length l - 1).
Proof.
  intros Hemit. induction l as [|si rest IH]; cbn [pairLoop length]; [lia|].
  rewrite length_app.
  assert (H : length (flat_map (emit si) rest) <= length rest).
  { clear IH. induction rest as [|x rest IH]; cbn [flat_map length]; [lia|].
    rewrite length_app. pose proof (Hemit si x). lia. }
  nia.
Qed.

(** X5: the semantic pass reports exactly the pairs of segments, the
    earlier one as source and the later one as target, whose
    similarity reaches the threshold; a script of [n] segments gives at
    most [n (n - 1) / 2] findings. *)
Theorem detectSemanticDuplicates_pairs (segments : list ScriptSegment.t)
    (threshold : number) (similarityOf : jsstring -> jsstring -> number) :
  (forall r,
     r ∈ detectSemanticDuplicates segments threshold similarityOf <->
     exists i j si sj,
       i < j /\ segments !! i = Some si /\ segments !! j = Some sj /\
       Num.geb (similarityOf (ScriptSegment.content si) (ScriptSegment.content sj))
               threshold = true /\
       r = mkDuplicate TSimilar (refOf si) (refOf sj)
             (similarityOf (ScriptSegment.content si) (ScriptSegment.content sj))
             (generateSuggestion
                (similarityOf (ScriptSegment.content si) (ScriptSegment.content sj)))) /\
  2 * length (detectSemanticDuplicates segments threshold similarityOf)
  <= length segments * (length segments - 1).
Proof.
  split.
  - intros r. unfold detectSemanticDuplicates. rewrite pairLoop_pairs.
    split; intros (i & j & si & sj & Hij & Hi & Hj & H);
      exists i, j, si, sj; (split; [exact Hij|]); (split; [exact Hi|]);
      (split; [exact Hj|]); cbv zeta in *.
    + destruct (Num.geb _ _); [|now apply elem_of_nil in H].
      apply list_elem_of_singleton in H. auto.
    + destruct H as [-> ->]. now apply list_elem_of_singleton.
  - apply pairLoop_length. intros a b. cbv zeta.
    destruct (Num.geb _ _); cbn; lia.
Qed.

End PassFacts.

Module ExactFacts.
Import Dedup.

Section Exact.
Variable segments : list ScriptSegment.t.
Variable normalize : jsstring -> jsstring.

Local Abbreviation normalForm s := (normalize (ScriptSegment.content s)).
Local Abbreviation forms l :=
  (list_to_set (map (fun s => normalize (ScriptSegment.content s)) l) : gset jsstring).

Lemma same_id_same_segment (a b : ScriptSegment.t) :
  NoDup (map ScriptSegment.id segments) ->
  a ∈ segments -> b ∈ segments -> ScriptSegment.id a = ScriptSegment.id b -> a = b.
Proof.
  intros Hnd Ha Hb Hid.
  apply list_elem_of_lookup_1 in Ha as [i Hi], Hb as [j Hj].
  assert (i = j); [|congruence].
  apply (NoDup_lookup _ i j (ScriptSegment.id a) Hnd).
  - change (map ScriptSegment.id segments) with (ScriptSegment.id <$> segments).
    now rewrite list_lookup_fmap, Hi.
  - change (map ScriptSegment.id segments) with (ScriptSegment.id <$> segments).
    now rewrite list_lookup_fmap, Hj, Hid.
Qed.

Lemma forms_snoc (done : list ScriptSegment.t) (s : ScriptSegment.t) :
  forms (done ++ [s]) = {[normalForm s]} ∪ forms done.
Proof. rewrite map_app, list_to_set_app_L. cbn. set_solver. Qed.

Lemma exactLoop_count (rest done : list ScriptSegment.t)
    (contentMap : gmap jsstring jsstring) :
  segments = done ++ rest ->
  dom contentMap = forms done ->
  (forall k i, contentMap !! k = Some i ->
     exists s, (s ∈ done) /\ ScriptSegment.id s = i /\ normalForm s = k) ->
  exists out,
    exactLoop segments normalize contentMap rest = Some out /\
    length out + size (forms segments) = length rest + size (forms done) /\
    forall r, r ∈ out ->
      type r = TExact /\ similarity r = Num.ofZ 1 /\
      (NoDup (map ScriptSegment.id segments) ->
       normalize (content (source r)) = normalize (content (target r))).
Proof.
  revert done contentMap.
  induction rest as [|segment rest IH]; intros done contentMap Hseg Hdom Hmap.
  - exists []. split; [reflexivity|]. split.
    + rewrite Hseg, app_nil_r. cbn. lia.
    + intros r Hr. now apply elem_of_nil in Hr.
  - cbn [exactLoop].
    assert (Hseg' : segments = (done ++ [segment]) ++ rest)
      by now rewrite <- app_assoc.
    destruct (contentMap !! normalize (ScriptSegment.content segment))
      as [existingId|] eqn:Hk.
    + destruct (Hmap _ _ Hk) as (s0 & Hs0 & Hid & Hform).
      assert (Hin0 : s0 ∈ segments) by (rewrite Hseg; apply elem_of_app; now left).
      destruct (List.find (fun s => Str.eqb (ScriptSegment.id s) existingId) segments)
        as [existing|] eqn:Hfind.
      2:{ exfalso.
          assert (Hf : Str.eqb (ScriptSegment.id s0) existingId = false)
            by (apply (List.find_none _ _ Hfind s0); now apply list_elem_of_In).
          unfold Str.eqb in Hf. apply bool_decide_eq_false in Hf. congruence. }
      apply List.find_some in Hfind as [Hex1 Hex].
      unfold Str.eqb in Hex. apply bool_decide_eq_true in Hex.
      assert (Hd' : dom contentMap = forms (done ++ [segment])).
      { rewrite forms_snoc, <- Hdom.
        assert (normalForm segment ∈ dom contentMap)
          by (eapply elem_of_dom_2; exact Hk).
        set_solver. }
      destruct (IH (done ++ [segment]) contentMap Hseg' Hd') as (out & -> & Hlen & Hout).
      { intros k i Hki. destruct (Hmap k i Hki) as (s & ? & ? & ?).
        exists s. split; [apply elem_of_app; now left | auto]. }
      eexists. split; [reflexivity|]. split.
      * cbn [length]. rewrite <- Hd', Hdom in Hlen. lia.
      * intros r [-> | Hr]%elem_of_cons; [|now apply Hout].
        split; [reflexivity|]. split; [reflexivity|].
        intros Hnd. cbn.
        assert (existing = s0); [|subst; exact Hform].
        apply same_id_same_segment; auto; [now apply list_elem_of_In | congruence].
    + assert (Hnew : normalForm segment ∉ forms done).
      { rewrite <- Hdom. now apply not_elem_of_dom. }
      destruct (IH (done ++ [segment])
                  (<[normalForm segment := ScriptSegment.id segment]> contentMap) Hseg')
        as (out & -> & Hlen & Hout).
      * rewrite dom_insert_L, Hdom. now rewrite forms_snoc.
      * intros k i Hki.
        apply lookup_insert_Some in Hki as [[<- <-] | [_ Hki]].
        -- exists segment. split; [apply elem_of_app; right; now left | auto].
        -- destruct (Hmap k i Hki) as (s & ? & ? & ?).
           exists s. split; [apply elem_of_app; now left | auto].
      * eexists. split; [reflexivity|]. split; [|exact Hout].
        rewrite forms_snoc, size_union, size_singleton in Hlen by set_solver.
        cbn [length]. lia.
Qed.

End Exact.

(** X6: the exact pass never fails to find a recorded segment again.
    It reports one finding, of similarity 1, for each segment whose
    normalized content was seen before: the number of findings is the
    number of segments less the number of distinct normalized contents.
    When the segment ids are pairwise distinct, source and target of a
    finding have the same normalized content. *)
Theorem detectExactDuplicates_repeats (segments : list ScriptSegment.t) :
  exists out,
    detectExactDuplicates segments normalizeText = Some out /\
    length out
    + size (list_to_set
              (map (fun s => normalizeText (ScriptSegment.content s)) segments)
            : gset jsstring)
    = length segments /\
    forall r, r ∈ out ->
      type r = TExact /\ similarity r = Num.ofZ 1 /\
      (NoDup (map ScriptSegment.id segments) ->
       normalizeText (content (source r)) = normalizeText (content (target r))).
Proof.
  destruct (exactLoop_count segments normalizeText segments [] ∅ eq_refl)
    as (out & Hout & Hlen & Hres).
  - now rewrite dom_empty_L.
  - intros k i H. now rewrite lookup_empty in H.
  - exists out. split; [exact Hout|]. split; [|exact Hres].
    cbn in Hlen. rewrite size_empty in Hlen. lia.
Qed.

End ExactFacts.

Module FeatureFacts.
Import Dedup.

Lemma div_ofNat_within (p q : nat) :
  0 < q -> p <= q -> Num.within 0 1 (Num.div (Num.ofNat p) (Num.ofNat q)).
Proof.
  intros Hq Hp. unfold Num.ofNat, Num.ofZ, Num.div.
  rewrite (NumFacts.ofNat_nonzero q Hq).
  cbn [Num.within]. unfold Qcle. NumFacts.to_Q.
  assert (Hq' : (0 < inject_Z (Z.of_nat q))%Q).
  { change 0%Q with (inject_Z 0). rewrite <- Zlt_Qlt. lia. }
  change (inject_Z 0) with 0%Q. change (inject_Z 1) with 1%Q. split.
  - apply Qle_shift_div_l; [assumption|]. rewrite Qmult_0_l.
    change 0%Q with (inject_Z 0). rewrite <- Zle_Qle. lia.
  - apply Qle_shift_div_r; [assumption|]. rewrite Qmult_1_l.
    rewrite <- Zle_Qle. lia.
Qed.

Lemma div_ofNat_self (q : nat) :
  0 < q -> Num.div (Num.ofNat q) (Num.ofNat q) = Num.ofZ 1.
Proof.
  intros Hq. unfold Num.ofNat, Num.ofZ, Num.div.
  rewrite (NumFacts.ofNat_nonzero q Hq). apply NumFacts.Fin_eq. NumFacts.to_Q.
  assert (Hq' : ~ (inject_Z (Z.of_nat q) == 0)%Q).
  { intros H. unfold Qeq in H. cbn in H. lia. }
  change (inject_Z 1) with 1%Q. field. exact Hq'.
Qed.

Lemma pushIf_sublist (c : bool) (f : jsstring) (features all : list jsstring) :
  sublist features all -> sublist (pushIf c f features) (all ++ [f]).
Proof.
  intros H. unfold pushIf. destruct c.
  - apply sublist_app; [assumption | reflexivity].
  - rewrite <- (app_nil_r features). apply sublist_app; [assumption|].
    apply sublist_nil_l.
Qed.

Lemma extractStructureFeatures_NoDup (text : jsstring) :
  NoDup (extractStructureFeatures text).
Proof.
  unfold extractStructureFeatures. cbv zeta.
  eapply sublist_NoDup.
  2:{ do 9 apply pushIf_sublist. exact (sublist_nil_l []). }
  apply (bool_decide_unpack _). vm_compute. exact I.
Qed.

Lemma filter_NoDup {A : Type} (p : A -> bool) (l : list A) :
  NoDup l -> NoDup (List.filter p l).
Proof.
  induction 1 as [|x l Hx Hl IH]; cbn [List.filter]; [constructor|].
  destruct (p x); [|exact IH]. constructor; [|exact IH].
  intros H. apply Hx. apply elem_of_List_filter in H. tauto.
Qed.

Lemma calculateStructureSimilarity_jaccard (text1 text2 : jsstring) :
  calculateStructureSimilarity text1 text2
  = Uniqueness.jaccard (list_to_set (extractStructureFeatures text1))
                       (list_to_set (extractStructureFeatures text2)).
Proof.
  unfold calculateStructureSimilarity, Uniqueness.jaccard. cbv zeta.
  rewrite SimilarityFacts.size_remove_dups.
  rewrite <- (size_list_to_set (C := gset jsstring) (List.filter _ _))
    by apply filter_NoDup, extractStructureFeatures_NoDup.
  f_equal; do 2 f_equal; apply set_eq; intros x.
  - rewrite elem_of_list_to_set, elem_of_List_filter, bool_decide_eq_true.
    rewrite elem_of_intersection, !elem_of_list_to_set. tauto.
  - rewrite elem_of_list_to_set, elem_of_app.
    now rewrite elem_of_union, !elem_of_list_to_set.
Qed.

(** X7: the structural similarity of two texts is the Jaccard index of
    their sets of features, so it does not depend on the order of the
    texts. It is [NaN] when neither text shows a feature, also for two
    equal texts, and a number of [[0, 1]] otherwise; a text with a
    feature has similarity 1 to itself. *)
Theorem calculateStructureSimilarity_features (text1 text2 : jsstring) :
  calculateStructureSimilarity text1 text2
  = calculateStructureSimilarity text2 text1 /\
  (extractStructureFeatures text1 = [] /\ extractStructureFeatures text2 = [] ->
   calculateStructureSimilarity text1 text2 = Num.NaN) /\
  (extractStructureFeatures text1 <> [] \/ extractStructureFeatures text2 <> [] ->
   Num.within 0 1 (calculateStructureSimilarity text1 text2)) /\
  (extractStructureFeatures text1 <> [] ->
   calculateStructureSimilarity text1 text1 = Num.ofZ 1).
Proof.
  rewrite !calculateStructureSimilarity_jaccard. unfold Uniqueness.jaccard.
  set (F1 := list_to_set (extractStructureFeatures text1) : gset jsstring).
  set (F2 := list_to_set (extractStructureFeatures text2) : gset jsstring).
  assert (Hne : forall l : list jsstring,
            l <> [] -> 0 < size (list_to_set l : gset jsstring)).
  { intros [|a l] Hl; [congruence|].
    assert (size (list_to_set (a :: l) : gset jsstring) <> 0); [|lia].
    intros H%size_empty_inv.
    assert (Ha : a ∈ (list_to_set (a :: l) : gset jsstring))
      by (apply elem_of_list_to_set; now left).
    apply H in Ha. now apply elem_of_empty in Ha. }
  split; [|split; [|split]].
  - now rewrite (comm_L (∩) F1 F2), (comm_L (∪) F1 F2).
  - intros [E1 E2]. subst F1 F2. rewrite E1, E2. reflexivity.
  - intros H. apply div_ofNat_within.
    + assert (0 < size F1 \/ 0 < size F2) as [H1 | H2]
        by (destruct H; [left | right]; now apply Hne).
      * pose proof (subseteq_size F1 (F1 ∪ F2) ltac:(apply union_subseteq_l)). lia.
      * pose proof (subseteq_size F2 (F1 ∪ F2) ltac:(apply union_subseteq_r)). lia.
    + apply subseteq_size. intros x Hx. apply elem_of_intersection in Hx as [Hx _].
      apply elem_of_union. now left.
  - intros H. rewrite (idemp_L (∩) F1), (idemp_L (∪) F1).
    apply div_ofNat_self. now apply Hne.
Qed.

End FeatureFacts.

Module HashFacts.
Import Str Uniqueness StrFacts.

Local Open Scope N_scope.

(** X8: the hash of a well-formed content does not change when the
    content is put in lower case; and it does not change when the white
    space of the content is removed, if the content holds no capital
    sigma. A capital sigma is lowered by its place in the word, which the
    white space marks: the hashes of [ΑΣ Β] and of [ΑΣΒ] differ. *)
Theorem generateHash_ignores_case_and_space (content : jsstring) :
  wellFormed content = true ->
  generateHash (toLowerCase content) = generateHash content /\
  (Forall (fun u => u <> 0x3A3) content ->
   generateHash (removeAll isWhiteSpace content) = generateHash content) /\
  generateHash (js "ΑΣ Β") = js "e53a1" /\
  generateHash (removeAll isWhiteSpace (js "ΑΣ Β")) = js "e53c0".
Proof.
  intros H. unfold generateHash at 1 2 3 4. cbv zeta.
  split; [|split; [|split; vm_compute; reflexivity]].
  - now rewrite toLowerCase_idem.
  - intros Hsigma. unfold toLowerCase.
    now rewrite (lowerFrom_removeAll content H Hsigma [] []), removeAll_idem.
Qed.

Lemma generateHash_ignores_case_and_space_witness :
  wellFormed (js "Hello World") = true /\
  generateHash (toLowerCase (js "Hello World")) = generateHash (js "Hello World") /\
  generateHash (removeAll isWhiteSpace (js "Hello World"))
  = generateHash (js "Hello World").
Proof.
  split; [reflexivity|].
  destruct (generateHash_ignores_case_and_space (js "Hello World") eq_refl)
    as (H1 & H2 & _).
  split; [exact H1|]. apply H2.
  apply (bool_decide_unpack _). vm_compute. exact I.
Defined.

End HashFacts.

Module RegisterFacts.
Import Uniqueness.

Lemma mapSet_elem (k : jsstring) (v : ContentFingerprint) (m : History) :
  (k, v) ∈ mapSet k v m.
Proof.
  induction m as [|[k' v'] m IH]; cbn [mapSet]; [now left|].
  destruct (Str.eqb k k'); [now left | now right].
Qed.

Lemma checkLoop_reached (config : UniquenessConfig.t) (fingerprint : ContentFingerprint)
    (entries : History) (entry : jsstring * ContentFingerprint) :
  entry ∈ entries -> reaches config fingerprint entry = true ->
  exists result,
    checkLoop config fingerprint entries = Some result /\ isUnique result = false.
Proof.
  intros Hin Hr.
  destruct (checkLoop config fingerprint entries) as [result|] eqn:E.
  - exists result. split; [reflexivity|].
    now apply CheckFacts.checkLoop_some in E as [E _].
  - apply CheckFacts.checkLoop_none in E. rewrite List.Forall_forall in E.
    apply list_elem_of_In, E in Hin. congruence.
Qed.

(** X9: once a script is registered, a later check of a script with the
    same content hash is never unique, whatever else the history holds,
    as long as the history is consulted and the threshold is at most
    1. *)
Theorem checkUniqueness_after_registerScript
    (config : UniquenessConfig.t) (fingerprints : History)
    (stamp stamp' : Stamp) (script script' : ScriptData.t) :
  UniquenessConfig.checkHistory config = true ->
  Num.geb (Num.ofZ 1) (UniquenessConfig.similarityThreshold config) = true ->
  generateHash (ScriptData.content script') = generateHash (ScriptData.content script) ->
  isUnique (checkUniqueness config (registerScript fingerprints stamp script)
              stamp' script') = false.
Proof.
  intros Hc Ht Hh. unfold checkUniqueness. rewrite Hc.
  destruct (checkLoop_reached config (generateFingerprint stamp' script')
              (registerScript fingerprints stamp script)
              (id (generateFingerprint stamp script), generateFingerprint stamp script))
    as (result & -> & Hres); [apply mapSet_elem| |exact Hres].
  unfold reaches, calculateFingerprintSimilarity, Str.eqb. cbn [snd hash generateFingerprint].
  now rewrite Hh, bool_decide_eq_true_2.
Qed.

Lemma checkUniqueness_after_registerScript_witness :
  isUnique (checkUniqueness defaultConfig
              (registerScript Samples.historyAB (Samples.stampOf 2) Samples.scriptA)
              (Samples.stampOf 3) Samples.scriptA) = false.
Proof.
  apply (checkUniqueness_after_registerScript defaultConfig Samples.historyAB
           (Samples.stampOf 2) (Samples.stampOf 3) Samples.scriptA Samples.scriptA);
    reflexivity.
Defined.

End RegisterFacts.

Module FingerprintFacts.
Import Uniqueness.

Lemma split_nonempty (sep : N) (s : jsstring) : 0 < length (Str.split sep s).
Proof.
  induction s as [|u t IH]; cbn [Str.split]; [cbn; lia|].
  destruct (u =? sep)%N; [cbn; lia|].
  destruct (Str.split sep t); cbn in *; lia.
Qed.

Lemma equalPositions_sym (parts1 parts2 : list jsstring) :
  equalPositions parts1 parts2 = equalPositions parts2 parts1.
Proof.
  unfold equalPositions. revert parts2.
  induction parts1 as [|a parts1 IH]; intros [|b parts2]; try reflexivity.
  cbn [zip zip_with List.filter fst snd].
  destruct (decide (a = b)) as [->|Hab].
  - rewrite !bool_decide_eq_true_2 by reflexivity. cbn [length]. now rewrite IH.
  - rewrite !bool_decide_eq_false_2 by congruence. apply IH.
Qed.

Lemma equalPositions_le (parts1 parts2 : list jsstring) :
  equalPositions parts1 parts2 <= length parts1.
Proof.
  unfold equalPositions. revert parts2.
  induction parts1 as [|a parts1 IH]; intros [|b parts2]; cbn; try lia.
  destruct (bool_decide (a = b)); cbn [length]; specialize (IH parts2); lia.
Qed.

Lemma equalPositions_refl (parts : list jsstring) :
  equalPositions parts parts = length parts.
Proof.
  unfold equalPositions. induction parts as [|a parts IH]; [reflexivity|].
  cbn [zip zip_with List.filter fst snd].
  rewrite bool_decide_eq_true_2 by reflexivity. cbn [length]. now rewrite IH.
Qed.

Lemma structuralMatchRatio_sym (parts1 parts2 : list jsstring) :
  structuralMatchRatio parts1 parts2 = structuralMatchRatio parts2 parts1.
Proof.
  unfold structuralMatchRatio.
  destruct (decide (length parts1 = length parts2)) as [E|E].
  - rewrite decide_True by congruence. now rewrite equalPositions_sym, E.
  - now rewrite decide_False by congruence.
Qed.

Lemma structuralMatchRatio_within (parts1 parts2 : list jsstring) :
  0 < length parts1 -> Num.within 0 1 (structuralMatchRatio parts1 parts2).
Proof.
  intros H. unfold structuralMatchRatio. destruct (decide _).
  - apply FeatureFacts.div_ofNat_within; [exact H | apply equalPositions_le].
  - apply NumFacts.within_ofZ. lia.
Qed.

Lemma jaccard_sym (A B : gset jsstring) : jaccard A B = jaccard B A.
Proof. unfold jaccard. now rewrite (comm_L (∩) A B), (comm_L (∪) A B). Qed.

Lemma jaccard_within (A B : gset jsstring) :
  0 < size A \/ 0 < size B -> Num.within 0 1 (jaccard A B).
Proof.
  intros H. unfold jaccard. apply FeatureFacts.div_ofNat_within.
  - destruct H as [H | H].
    + pose proof (subseteq_size A (A ∪ B) ltac:(apply union_subseteq_l)). lia.
    + pose proof (subseteq_size B (A ∪ B) ltac:(apply union_subseteq_r)). lia.
  - apply subseteq_size. intros x Hx. apply elem_of_intersection in Hx as [Hx _].
    apply elem_of_union. now left.
Qed.

Lemma keywords_size (l : list jsstring) :
  l <> [] -> 0 < size (list_to_set l : gset jsstring).
Proof.
  intros Hl. destruct l as [|a l]; [congruence|].
  assert (size (list_to_set (a :: l) : gset jsstring) <> 0); [|lia].
  intros H%size_empty_inv.
  assert (Ha : a ∈ (list_to_set (a :: l) : gset jsstring))
    by (apply elem_of_list_to_set; now left).
  apply H in Ha. now apply elem_of_empty in Ha.
Qed.

Lemma weighted_within (a b : number) :
  Num.within 0 1 a -> Num.within 0 1 b ->
  Num.within 0 1 (Num.add (Num.mul a (Num.ratio 6 10)) (Num.mul b (Num.ratio 4 10))) /\
  (b = Num.ofZ 1 ->
   Num.geb (Num.add (Num.mul a (Num.ratio 6 10)) (Num.mul b (Num.ratio 4 10)))
           (Num.ratio 4 10) = true).
Proof.
  destruct a as [| |p]; try contradiction. destruct b as [| |q]; try contradiction.
  cbn [Num.within Num.mul Num.add Num.ratio Num.geb Num.leb].
  unfold Qcle. intros [Hp0 Hp1] [Hq0 Hq1]. revert Hp0 Hp1 Hq0 Hq1.
  NumFacts.to_Q. change (inject_Z 0) with 0%Q. change (inject_Z 1) with 1%Q.
  intros Hp0 Hp1 Hq0 Hq1. split.
  - NumFacts.to_Q. split; lra.
  - intros [= ->]. apply NumFacts.Qcleb_le. unfold Qcle. NumFacts.to_Q.
    change (inject_Z 1) with 1%Q. lra.
Qed.

(** X10: the similarity of two fingerprints does not depend on their
    order. It is [NaN] when the hashes differ and neither fingerprint
    has a keyword, and a number of [[0, 1]] in every other case; two
    fingerprints with the same structure signature and a keyword have a
    similarity of at least 0.4. *)
Theorem calculateFingerprintSimilarity_range (fp1 fp2 : ContentFingerprint) :
  calculateFingerprintSimilarity fp1 fp2 = calculateFingerprintSimilarity fp2 fp1 /\
  (hash fp1 <> hash fp2 -> keywords fp1 = [] -> keywords fp2 = [] ->
   calculateFingerprintSimilarity fp1 fp2 = Num.NaN) /\
  (hash fp1 = hash fp2 \/ keywords fp1 <> [] \/ keywords fp2 <> [] ->
   Num.within 0 1 (calculateFingerprintSimilarity fp1 fp2)) /\
  (structure fp1 = structure fp2 ->
   keywords fp1 <> [] \/ keywords fp2 <> [] ->
   Num.geb (calculateFingerprintSimilarity fp1 fp2) (Num.ratio 4 10) = true).
Proof.
  unfold calculateFingerprintSimilarity, Str.eqb. cbv zeta.
  rewrite !SimilarityFacts.calculateKeywordSimilarity_jaccard.
  rewrite !SimilarityFacts.calculateStructureSimilarity_ratio.
  set (K1 := list_to_set (keywords fp1) : gset jsstring).
  set (K2 := list_to_set (keywords fp2) : gset jsstring).
  set (P1 := Str.split 124 (structure fp1)).
  set (P2 := Str.split 124 (structure fp2)).
  assert (Hw : keywords fp1 <> [] \/ keywords fp2 <> [] ->
               Num.within 0 1 (jaccard K1 K2)).
  { intros H. apply jaccard_within.
    destruct H; [left | right]; now apply keywords_size. }
  assert (Hs : Num.within 0 1 (structuralMatchRatio P1 P2))
    by apply structuralMatchRatio_within, split_nonempty.
  split; [|split; [|split]].
  - destruct (decide (hash fp1 = hash fp2)) as [E|E].
    + now rewrite !bool_decide_eq_true_2 by congruence.
    + rewrite !bool_decide_eq_false_2 by congruence.
      now rewrite jaccard_sym, structuralMatchRatio_sym.
  - intros E E1 E2. rewrite bool_decide_eq_false_2 by assumption.
    subst K1 K2. rewrite E1, E2. reflexivity.
  - intros H. destruct (decide (hash fp1 = hash fp2)) as [E|E].
    + rewrite bool_decide_eq_true_2 by assumption.
      apply NumFacts.within_ofZ. lia.
    + rewrite bool_decide_eq_false_2 by assumption.
      destruct H as [H | H]; [contradiction|].
      now apply weighted_within; [apply Hw|].
  - intros E H. destruct (decide (hash fp1 = hash fp2)) as [Eh|Eh].
    + rewrite bool_decide_eq_true_2 by assumption. reflexivity.
    + rewrite bool_decide_eq_false_2 by assumption.
      apply weighted_within; [now apply Hw | assumption|].
      subst P1 P2. rewrite E. unfold structuralMatchRatio.
      rewrite decide_True by reflexivity. rewrite equalPositions_refl.
      apply FeatureFacts.div_ofNat_self, split_nonempty.
Qed.

End FingerprintFacts.

Module KeywordFacts.
Import Uniqueness.

Lemma List_filter_sublist {A : Type} (p : A -> bool) (l : list A) :
  sublist (List.filter p l) l.
Proof.
  induction l as [|x l IH]; cbn [List.filter]; [constructor|].
  destruct (p x); [now apply sublist_skip | now apply sublist_cons].
Qed.

Lemma bump_keys (word : jsstring) (wordCount : list (jsstring * nat)) :
  map fst (bump word wordCount)
  = if bool_decide (word ∈ map fst wordCount) then map fst wordCount
    else map fst wordCount ++ [word].
Proof.
  induction wordCount as [|[w n] rest IH]; [reflexivity|].
  cbn [bump map fst]. unfold Str.eqb.
  destruct (decide (w = word)) as [->|Hw].
  - rewrite bool_decide_eq_true_2 by reflexivity.
    now rewrite bool_decide_eq_true_2 by now left.
  - rewrite (bool_decide_eq_false_2 (w = word)) by assumption.
    cbn [map fst]. rewrite IH.
    destruct (decide (word ∈ map fst rest)) as [Hin|Hin].
    + rewrite !bool_decide_eq_true_2; [reflexivity | now right | assumption].
    + rewrite !bool_decide_eq_false_2; [reflexivity | | assumption].
      intros [E | H]%elem_of_cons; [congruence | contradiction].
Qed.

Lemma counted_keys (words : list jsstring) (acc : list (jsstring * nat)) :
  NoDup (map fst acc) ->
  NoDup (map fst (foldl (fun m word => bump word m) acc words)) /\
  forall k, k ∈ map fst (foldl (fun m word => bump word m) acc words) ->
            (k ∈ map fst acc) \/ (k ∈ words).
Proof.
  revert acc. induction words as [|w words IH]; intros acc Hnd; cbn [foldl].
  - split; [assumption | now left].
  - assert (Hb : NoDup (map fst (bump w acc))).
    { rewrite bump_keys. destruct (bool_decide _) eqn:E; [assumption|].
      apply bool_decide_eq_false in E. apply list.NoDup_app.
      repeat split; [assumption | | apply NoDup_singleton].
      intros x Hx ->%list_elem_of_singleton. contradiction. }
    destruct (IH (bump w acc) Hb) as [H1 H2]. split; [assumption|].
    intros k Hk. apply H2 in Hk as [Hk | Hk]; [|right; now right].
    rewrite bump_keys in Hk. destruct (bool_decide _); [now left|].
    apply elem_of_app in Hk as [Hk | ->%list_elem_of_singleton];
      [now left | right; now left].
Qed.

(** The pieces between runs of white space hold no white space, and
    their code units come from the string. *)
Lemma splitRuns_pieces (P : N -> Prop) (inRun : bool) (s : jsstring) :
  Forall (fun u => Str.isWhiteSpace u = false -> P u) s ->
  Forall (Forall P) (Str.splitRuns inRun s).
Proof.
  intros H. revert inRun. induction H as [|u t Hu Ht IH]; intros inRun.
  - repeat constructor.
  - cbn [Str.splitRuns]. destruct (Str.isWhiteSpace u).
    + destruct inRun; [apply IH|]. constructor; [constructor | apply IH].
    + specialize (IH false). destruct (Str.splitRuns false t) as [|w ws].
      * repeat constructor. now apply Hu.
      * inversion IH; subst. constructor; [|assumption].
        constructor; [now apply Hu | assumption].
Qed.

(** X11: [extractKeywords] returns at most twenty keywords, no keyword
    twice; a keyword has two code units or more, all of them letters,
    digits or ideographs of the class of the regular expression, and no
    keyword is a stop word. *)
Theorem extractKeywords_keywords (content : jsstring) :
  length (extractKeywords content) <= 20 /\
  NoDup (extractKeywords content) /\
  forall w, w ∈ extractKeywords content ->
    2 <= length w /\ Forall (fun u => isWordUnit u = true) w /\ w ∉ stopWords.
Proof.
  unfold extractKeywords. cbv zeta.
  set (text := map (fun u => if isWordUnit u then u else 32%N) (Str.toLowerCase content)).
  set (words := List.filter (fun w => 2 <=? length w) (Str.splitRuns false text)).
  set (wordCount := foldl (fun m word => bump word m) [] words).
  set (kept := List.filter (fun e => negb (bool_decide (e.1 ∈ stopWords))) wordCount).
  set (cmp := fun a b : jsstring * nat =>
                Num.sub (Num.ofNat (snd b)) (Num.ofNat (snd a))).
  destruct (counted_keys words [] ltac:(constructor)) as [Hnd Hkeys].
  fold wordCount in Hnd, Hkeys.
  assert (Hsub : forall e, e ∈ take 20 (sortBy cmp kept) -> e ∈ kept).
  { intros e He.
    pose proof (elem_of_sublist _ _ _ He (sublist_take _ 20)) as He'.
    now rewrite <- (sortBy_perm cmp kept) in He'. }
  split; [|split].
  - rewrite length_map, length_take. lia.
  - change (map fst ?l) with (fst <$> l).
    eapply sublist_NoDup; [|apply fmap_sublist, sublist_take].
    rewrite <- (sortBy_perm cmp kept).
    eapply sublist_NoDup; [exact Hnd|].
    apply fmap_sublist, List_filter_sublist.
  - intros w Hw. change (map fst ?l) with (fst <$> l) in Hw.
    apply list_elem_of_fmap in Hw as ([w' n] & -> & He). cbn [fst].
    apply Hsub, elem_of_List_filter in He as [He Hstop].
    apply negb_true_iff, bool_decide_eq_false in Hstop. cbn [fst] in Hstop.
    assert (Hin : w' ∈ words).
    { destruct (Hkeys w') as [H | H]; [|now apply elem_of_nil in H|exact H].
      change (map fst wordCount) with (fst <$> wordCount).
      apply list_elem_of_fmap. now exists (w', n). }
    apply elem_of_List_filter in Hin as [Hin Hlen].
    apply Nat.leb_le in Hlen. repeat split; [exact Hlen| |exact Hstop].
    assert (Hall : Forall (Forall (fun u => isWordUnit u = true))
                     (Str.splitRuns false text)).
    { apply splitRuns_pieces. unfold text.
      apply List.Forall_forall. intros u Hu. apply in_map_iff in Hu as (v & <- & _).
      destruct (isWordUnit v) eqn:E; [auto|]. intros H. discriminate. }
    rewrite List.Forall_forall in Hall. now apply Hall, list_elem_of_In.
Qed.

End KeywordFacts.

Module OutcomeFacts.
Import Uniqueness.

Section Loop.
Context {W : Type}.
Variable stamps : nat -> Stamp.
Variable config : UniquenessConfig.t.
Variable rewriteFn : ScriptData.t -> W -> Completion ScriptData.t * W.

Lemma ensureLoop_outcome (rounds : nat) (currentScript : ScriptData.t)
    (attempts : nat) (st st' : State) (result : EnsureResult) :
  ensureLoop stamps config rewriteFn rounds currentScript attempts st
  = (Returned result, st') ->
  Uniqueness.attempts result + countRewrites (trace st)
  = attempts + countRewrites (trace st') /\
  Uniqueness.attempts result <= attempts + rounds /\
  (ensuredUnique result = true ->
   exists n m,
     isUnique (checkUniqueness config (fingerprints st) (stamps n) (script result))
     = true /\
     fingerprints st'
     = registerScript (fingerprints st) (stamps m) (script result)) /\
  (ensuredUnique result = false -> fingerprints st' = fingerprints st) /\
  (UniquenessConfig.autoRewrite config = false ->
   script result = currentScript /\ Uniqueness.attempts result = attempts).
Proof.
  revert currentScript attempts st.
  induction rounds as [|rounds IH]; intros currentScript attempts st.
  - cbn. intros [= <- <-]. cbn. repeat split; try lia; discriminate.
  - rewrite EnsureFacts.ensureLoop_round. cbv zeta.
    destruct (isUnique _) eqn:Hu.
    { intros [= <- <-]. cbn [Uniqueness.attempts ensuredUnique script trace fingerprints].
      rewrite !EnsureFacts.countRewrites_app. cbn.
      repeat split; try lia; try discriminate.
      intros _. eauto. }
    destruct (negb _) eqn:Ha.
    { intros [= <- <-]. cbn [Uniqueness.attempts ensuredUnique script trace fingerprints].
      rewrite !EnsureFacts.countRewrites_app. cbn.
      repeat split; try lia; discriminate. }
    apply negb_false_iff in Ha.
    unfold bind at 1. unfold awaitRewrite, bind, log.
    cbn [fingerprints drawn collaborator trace].
    destruct (rewriteFn currentScript (collaborator st)) as [[rewritten|e] w];
      [|discriminate].
    intros H. apply IH in H as (H1 & H2 & H3 & H4 & H5).
    cbn [trace fingerprints] in *.
    rewrite !EnsureFacts.countRewrites_app in H1. cbn in H1.
    repeat split; try lia; try assumption; congruence.
Qed.

End Loop.

(** X12: when [ensureUniqueness] returns, the attempts it reports are
    the calls of the rewrite collaborator it made, at most
    [maxRewriteAttempts]. With [isUnique = true] the returned script
    passed a check against the history and was registered in it; with
    [isUnique = false] the history is as it was. Without [autoRewrite]
    the collaborator is not called and the script comes back as it
    is. *)
Theorem ensureUniqueness_outcome {W : Type} (stamps : nat -> Stamp)
    (config : UniquenessConfig.t)
    (rewriteFn : ScriptData.t -> W -> Completion ScriptData.t * W)
    (script : ScriptData.t) (st st' : State) (result : EnsureResult) :
  ensureUniqueness stamps config rewriteFn script st = (Returned result, st') ->
  attempts result + countRewrites (trace st) = countRewrites (trace st') /\
  attempts result <= Z.to_nat (UniquenessConfig.maxRewriteAttempts config) /\
  (ensuredUnique result = true ->
   exists n m,
     isUnique (checkUniqueness config (fingerprints st) (stamps n)
                 (Uniqueness.script result)) = true /\
     fingerprints st'
     = registerScript (fingerprints st) (stamps m) (Uniqueness.script result)) /\
  (ensuredUnique result = false -> fingerprints st' = fingerprints st) /\
  (UniquenessConfig.autoRewrite config = false ->
   Uniqueness.script result = script /\ attempts result = 0).
Proof.
  intros H. apply ensureLoop_outcome in H. exact H.
Qed.

Lemma ensureUniqueness_outcome_witness :
  exists st',
    ensureUniqueness Samples.stampOf defaultConfig Samples.failingRewrite
      Samples.scriptA (Samples.startWith [])
    = (Returned (mkEnsure Samples.scriptA 0 true), st') /\
    fingerprints st'
    = registerScript [] (Samples.stampOf 1) Samples.scriptA /\
    countRewrites (trace st') = 0.
Proof.
  eexists. split; [reflexivity|]. split; [reflexivity|].
  destruct (ensureUniqueness_outcome Samples.stampOf defaultConfig
              Samples.failingRewrite Samples.scriptA (Samples.startWith []) _
              (mkEnsure Samples.scriptA 0 true) eq_refl) as [H _].
  symmetry. exact H.
Defined.

End OutcomeFacts.

Module OrderOfSegments.
Import Uniqueness.

(** X13: [addRandomness] gives the segment at index [i] the id drawn
    for [i] and keeps the number of segments; in a script of at most
    three segments every segment stays in its place. The id, the title,
    the metadata and the creation time of the script are kept. *)
Theorem addRandomness_small_script
    (random : nat -> Unit01) (freshSegmentId : nat -> jsstring) (now : jsstring)
    (config : UniquenessConfig.t) (script : ScriptData.t) :
  let out := addRandomness random freshSegmentId now config script in
  (UniquenessConfig.addRandomness config = true ->
   map ScriptSegment.id (ScriptData.segments out)
   = map freshSegmentId (seq 0 (length (ScriptData.segments script)))) /\
  (length (ScriptData.segments script) <= 3 ->
   map anonymous (ScriptData.segments out)
   = map anonymous (ScriptData.segments script)) /\
  ScriptData.id out = ScriptData.id script /\
  ScriptData.title out = ScriptData.title script /\
  ScriptData.metadata out = ScriptData.metadata script /\
  ScriptData.createdAt out = ScriptData.createdAt script.
Proof.
  cbv zeta. unfold addRandomness.
  destruct (UniquenessConfig.addRandomness config); cbn [negb];
    [|repeat split; discriminate].
  cbn [ScriptData.segments ScriptData.id ScriptData.title ScriptData.metadata
       ScriptData.createdAt].
  set (segments := ScriptData.segments script).
  set (spliced := if 3 <? length segments then _ else segments).
  repeat split.
  - intros _.
    assert (Hlen : length spliced = length segments).
    { unfold spliced. destruct (3 <? length segments) eqn:E; [|reflexivity].
      apply Nat.ltb_lt in E.
      apply RandomnessFacts.spliced_ends; [lia|].
      apply RandomnessFacts.shuffleArray_length. }
    rewrite <- Hlen. apply list_eq. intros i.
    change (map ?f ?l) with (f <$> l).
    rewrite !list_lookup_fmap, list_lookup_imap.
    destruct (spliced !! i) as [s|] eqn:E.
    + rewrite lookup_seq_lt by (eapply lookup_lt_Some; eauto). reflexivity.
    + rewrite lookup_seq_ge by (now apply lookup_ge_None). reflexivity.
  - intros H. rewrite RandomnessFacts.anonymous_imap. unfold spliced.
    now rewrite (proj2 (Nat.ltb_ge _ _) H).
Qed.

End OrderOfSegments.

Module SignatureFacts.
Import Uniqueness.

Lemma js_String (c : ascii) (s : string) :
  (N_of_ascii c < 0x80)%N -> js (String c s) = N_of_ascii c :: js s.
Proof.
  intros H. unfold js, Str.js. cbn [list_ascii_of_string map Str.decode].
  now rewrite (proj2 (N.ltb_lt _ _) H).
Qed.

Lemma digits_no_bar (d : Decimal.uint) :
  Forall (fun u => u <> 0x7C%N) (js (DecimalString.NilEmpty.string_of_uint d)).
Proof.
  induction d; cbn [DecimalString.NilEmpty.string_of_uint];
    [constructor|..];
    (rewrite js_String by (vm_compute; reflexivity));
    (constructor; [vm_compute; discriminate | assumption]).
Qed.

Lemma ofNat_no_bar (n : nat) : Forall (fun u => u <> 0x7C%N) (Str.ofNat n).
Proof. apply digits_no_bar. Qed.

Lemma typeName_no_bar (t : SegmentType) : Forall (fun u => u <> 0x7C%N) (typeName t).
Proof.
  destruct t; apply (bool_decide_unpack _); vm_compute; exact I.
Qed.

Lemma split_plain (sep : N) (p : jsstring) :
  Forall (fun u => u <> sep) p -> Str.split sep p = [p].
Proof.
  induction 1 as [|u p Hu Hp IH]; [reflexivity|].
  cbn [Str.split]. rewrite (proj2 (N.eqb_neq _ _) Hu). now rewrite IH.
Qed.

Lemma split_app (sep : N) (p rest : jsstring) :
  Forall (fun u => u <> sep) p ->
  Str.split sep (p ++ sep :: rest) = p :: Str.split sep rest.
Proof.
  induction 1 as [|u p Hu Hp IH]; cbn [app Str.split].
  - now rewrite N.eqb_refl.
  - rewrite (proj2 (N.eqb_neq _ _) Hu). now rewrite IH.
Qed.

(** [split] undoes [join] when no part holds the separator. *)
Lemma split_join (sep : N) (parts : list jsstring) :
  parts <> [] -> Forall (Forall (fun u => u <> sep)) parts ->
  Str.split sep (Str.join [sep] parts) = parts.
Proof.
  intros Hne H. revert Hne.
  induction H as [|p parts Hp Hparts IH]; intros Hne; [now exfalso|].
  destruct parts as [|q parts].
  - cbn [Str.join]. now apply split_plain.
  - change (Str.join [sep] (p :: q :: parts))
      with (p ++ [sep] ++ Str.join [sep] (q :: parts)).
    cbn [app]. rewrite split_app by assumption. now rewrite IH.
Qed.


Lemma partOf_no_bar (s : ScriptSegment.t) : Forall (fun u => u <> 0x7C%N) (partOf s).
Proof.
  unfold partOf.
  repeat first [apply List.Forall_app; split | apply typeName_no_bar
               | apply ofNat_no_bar];
    apply (bool_decide_unpack _); vm_compute; exact I.
Qed.

(** X14: the structure signature splits at the bars into one part for
    each segment, in the order of the segments; the signature of a
    script without segments is the empty string, which splits into one
    empty part. So two scripts whose numbers of segments differ, other
    than none against one, have structure similarity 0. *)
Theorem generateStructureSignature_parts (script script' : ScriptData.t) :
  Str.split 0x7C (generateStructureSignature script)
  = (if decide (ScriptData.segments script = []) then [[]]
     else map partOf (ScriptData.segments script)) /\
  (Nat.max 1 (length (ScriptData.segments script))
   <> Nat.max 1 (length (ScriptData.segments script')) ->
   calculateStructureSimilarity (generateStructureSignature script)
                                (generateStructureSignature script')
   = Num.ofZ 0).
Proof.
  assert (Hparts : forall s : ScriptData.t,
            Str.split 0x7C (generateStructureSignature s)
            = (if decide (ScriptData.segments s = []) then [[]]
               else map partOf (ScriptData.segments s))).
  { intros s. unfold generateStructureSignature.
    change (map _ (ScriptData.segments s)) with (map partOf (ScriptData.segments s)).
    destruct (decide (ScriptData.segments s = [])) as [->|Hne]; [reflexivity|].
    apply (split_join 0x7C).
    - destruct (ScriptData.segments s); [now exfalso | discriminate].
    - apply List.Forall_forall. intros p Hp. apply in_map_iff in Hp as (x & <- & _).
      apply partOf_no_bar. }
  split; [apply Hparts|].
  intros Hlen. unfold calculateStructureSimilarity. rewrite !Hparts.
  assert (Hl : forall s : ScriptData.t,
            length (if decide (ScriptData.segments s = []) then [[]]
                    else map partOf (ScriptData.segments s))
            = Nat.max 1 (length (ScriptData.segments s))).
  { intros s. destruct (decide _) as [->|Hne]; [reflexivity|].
    rewrite length_map. destruct (ScriptData.segments s); [now exfalso | cbn; lia]. }
  rewrite !Hl. now rewrite (proj2 (Nat.eqb_neq _ _) Hlen).
Qed.

End SignatureFacts.

Module RetryFacts.
Import Uniqueness.

Lemma reaches_stamp (config : UniquenessConfig.t) (stamp stamp' : Stamp)
    (script : ScriptData.t) (entry : jsstring * ContentFingerprint) :
  reaches config (generateFingerprint stamp script) entry
  = reaches config (generateFingerprint stamp' script) entry.
Proof. reflexivity. Qed.

Lemma isUnique_stamp (config : UniquenessConfig.t) (history : History)
    (stamp stamp' : Stamp) (script : ScriptData.t) :
  isUnique (checkUniqueness config history stamp script)
  = isUnique (checkUniqueness config history stamp' script).
Proof.
  unfold checkUniqueness. destruct (UniquenessConfig.checkHistory config);
    [|reflexivity].
  destruct (checkLoop config (generateFingerprint stamp script) history)
    as [r|] eqn:E;
  destruct (checkLoop config (generateFingerprint stamp' script) history)
    as [r'|] eqn:E'; try reflexivity.
  - apply CheckFacts.checkLoop_some in E as [-> _].
    now apply CheckFacts.checkLoop_some in E' as [-> _].
  - apply CheckFacts.checkLoop_some in E as (_ & before & found & after & -> & _ & Hr & _).
    apply CheckFacts.checkLoop_none in E'.
    apply List.Forall_app in E' as [_ E']. inversion E' as [|? ? Hf _]; subst.
    rewrite (reaches_stamp config stamp stamp') in Hr. congruence.
  - apply CheckFacts.checkLoop_some in E' as (_ & before & found & after & -> & _ & Hr & _).
    apply CheckFacts.checkLoop_none in E.
    apply List.Forall_app in E as [_ E]. inversion E as [|? ? Hf _]; subst.
    rewrite (reaches_stamp config stamp' stamp) in Hr. congruence.
Qed.

Section Loop.
Context {W : Type}.
Variable stamps : nat -> Stamp.
Variable config : UniquenessConfig.t.
Variable rewriteFn : ScriptData.t -> W -> Completion ScriptData.t * W.
Hypothesis rewrite_same : forall s w, exists w', rewriteFn s w = (Returned s, w').

Lemma ensureLoop_same (rounds : nat) (script : ScriptData.t)
    (attempts : nat) (st : State) :
  UniquenessConfig.autoRewrite config = true ->
  isUnique (checkUniqueness config (fingerprints st) (stamps (drawn st)) script)
  = false ->
  exists st',
    ensureLoop stamps config rewriteFn rounds script attempts st
    = (Returned (mkEnsure script (attempts + rounds) false), st') /\
    fingerprints st' = fingerprints st /\
    countChecks (trace st') = countChecks (trace st) + rounds /\
    countRewrites (trace st') = countRewrites (trace st) + rounds.
Proof.
  intros Ha. revert attempts st.
  induction rounds as [|rounds IH]; intros attempts st Hu.
  - exists st. cbn. rewrite !Nat.add_0_r. auto.
  - rewrite EnsureFacts.ensureLoop_round. cbv zeta. rewrite Hu, Ha. cbn [negb].
    unfold bind at 1. unfold awaitRewrite, bind, log.
    cbn [fingerprints drawn collaborator trace].
    destruct (rewrite_same script (collaborator st)) as [w' ->].
    match goal with
    | |- context [ensureLoop _ _ _ rounds script (S attempts) ?s] =>
        destruct (IH (S attempts) s) as (st' & Hrun & Hf & Hc & Hr)
    end.
    { cbn [fingerprints drawn].
      now rewrite (isUnique_stamp _ _ _ (stamps (drawn st))). }
    exists st'. rewrite Hrun. cbn [fingerprints trace] in *.
    rewrite !EnsureFacts.countChecks_app in Hc.
    rewrite !EnsureFacts.countRewrites_app in Hr. cbn in Hc, Hr.
    repeat split; [do 3 f_equal; lia | assumption | lia | lia].
Qed.

End Loop.

(** X15: with a rewrite function that returns the script it is given,
    as the one of the workflow does when its context is missing, a
    script that is not unique stays so: [ensureUniqueness] checks and
    rewrites [maxRewriteAttempts] times, reports all of them as attempts
    and returns that script with [isUnique = false], the history as it
    was. *)
Theorem ensureUniqueness_same_script {W : Type} (stamps : nat -> Stamp)
    (config : UniquenessConfig.t)
    (rewriteFn : ScriptData.t -> W -> Completion ScriptData.t * W)
    (script : ScriptData.t) (st : State) :
  (forall s w, exists w', rewriteFn s w = (Returned s, w')) ->
  UniquenessConfig.autoRewrite config = true ->
  isUnique (checkUniqueness config (fingerprints st) (stamps (drawn st)) script)
  = false ->
  exists st',
    ensureUniqueness stamps config rewriteFn script st
    = (Returned
         (mkEnsure script (Z.to_nat (UniquenessConfig.maxRewriteAttempts config))
                   false),
       st') /\
    fingerprints st' = fingerprints st /\
    countChecks (trace st')
    = countChecks (trace st) + Z.to_nat (UniquenessConfig.maxRewriteAttempts config) /\
    countRewrites (trace st')
    = countRewrites (trace st) + Z.to_nat (UniquenessConfig.maxRewriteAttempts config).
Proof.
  intros Hsame Ha Hu. unfold ensureUniqueness.
  exact (ensureLoop_same stamps config rewriteFn Hsame _ script 0 st Ha Hu).
Qed.

Lemma ensureUniqueness_same_script_witness :
  exists st',
    ensureUniqueness Samples.stampOf defaultConfig
      (Workflow.rewriteOfStep false Cases.seedOf Cases.seedOf)
      Samples.scriptA (mkState Samples.historyAB 0 0 [])
    = (Returned (mkEnsure Samples.scriptA 3 false), st') /\
    fingerprints st' = Samples.historyAB /\
    countChecks (trace st') = 3 /\
    countRewrites (trace st') = 3.
Proof.
  apply (ensureUniqueness_same_script Samples.stampOf defaultConfig
           (Workflow.rewriteOfStep false Cases.seedOf Cases.seedOf)
           Samples.scriptA (mkState Samples.historyAB 0 0 [])).
  - intros s w. now exists w.
  - reflexivity.
  - now vm_compute.
Defined.

End RetryFacts.

Section FindIndex.
Context {A : Type} (p : A -> bool).

Lemma findIndex_Some (l : list A) (i : nat) :
  findIndex p l = Some i ->
  exists x, l !! i = Some x /\ p x = true.
Proof.
  revert i. induction l as [|y l IH]; intros i; cbn [findIndex]; [discriminate|].
  destruct (p y) eqn:E.
  - intros [= <-]. now exists y.
  - destruct (findIndex p l) as [k|]; [|discriminate].
    intros [= <-]. destruct (IH k eq_refl) as (x & Hx & Hp). now exists x.
Qed.

Lemma findIndex_None (l : list A) :
  findIndex p l = None <-> Forall (fun x => p x = false) l.
Proof.
  induction l as [|y l IH]; cbn [findIndex].
  - split; [constructor | reflexivity].
  - destruct (p y) eqn:E.
    + split; [discriminate|]. intros H. inversion H; congruence.
    + destruct (findIndex p l) as [k|].
      * split; [discriminate|]. intros H. inversion H as [|? ? _ Hl]; subst.
        now apply IH in Hl.
      * split; [|reflexivity]. intros _. constructor; [assumption|]. now apply IH.
Qed.

End FindIndex.

Module MergeFacts.
Import Dedup Rewriters.

Lemma hasId_elem (i : jsstring) (segments : list Segment) :
  i ∈ map idOf segments <-> exists k, findIndex (hasId i) segments = Some k.
Proof.
  split.
  - intros H. destruct (findIndex (hasId i) segments) as [k|] eqn:E; [eauto|].
    exfalso. apply findIndex_None in E. rewrite List.Forall_forall in E.
    change (map idOf segments) with (idOf <$> segments) in H.
    apply list_elem_of_fmap in H as (s & -> & Hs).
    apply list_elem_of_In, E in Hs. unfold hasId, Str.eqb in Hs.
    now apply bool_decide_eq_false in Hs.
  - intros [k H]. apply findIndex_Some in H as (x & Hx & Hp).
    unfold hasId, Str.eqb in Hp. apply bool_decide_eq_true in Hp. subst i.
    change (map idOf segments) with (idOf <$> segments).
    apply list_elem_of_fmap. exists x. split; [reflexivity|].
    eapply list_elem_of_lookup_2; eauto.
Qed.

Lemma elem_of_delete {A : Type} (l : list A) (j k : nat) (x : A) :
  l !! k = Some x -> k <> j -> x ∈ delete j l.
Proof.
  intros Hk Hkj. destruct (decide (k < j)) as [Hlt|Hge].
  - apply (list_elem_of_lookup_2 _ k). now rewrite list_lookup_delete_lt.
  - apply (list_elem_of_lookup_2 _ (k - 1)).
    rewrite list_lookup_delete_ge by lia. now replace (S (k - 1)) with k by lia.
Qed.

Lemma delete_insert_same {A : Type} (l : list A) (i : nat) (x : A) :
  delete i (<[i:=x]> l) = delete i l.
Proof.
  revert i. induction l as [|y l IH]; intros [|i]; cbn; try reflexivity.
  now rewrite IH.
Qed.

(** X16: [mergeSegments] leaves the array as it is when no segment has
    the source id or none has the target id. Otherwise it removes one
    segment with the target id: the ids of the result are the ids of the
    array less one occurrence of the target id. When the two ids differ,
    the first segment with the source id carries the two contents joined
    by a space and the end time of the target; when they are equal,
    the result holds nothing but segments of the array, so the merged
    segment is the one removed. *)
Theorem mergeSegments_merges (segments : list Segment) (duplicate : DuplicateResult) :
  let sourceId := segmentId (source duplicate) in
  let targetId := segmentId (target duplicate) in
  let merged := mergeSegments segments duplicate in
  (sourceId ∉ map idOf segments \/ targetId ∉ map idOf segments ->
   merged = segments) /\
  ((sourceId ∈ map idOf segments) /\ (targetId ∈ map idOf segments) ->
   Permutation (targetId :: map idOf merged) (map idOf segments) /\
   (sourceId <> targetId ->
    exists s t m,
      (s ∈ segments) /\ (t ∈ segments) /\ (m ∈ merged) /\
      idOf s = sourceId /\ idOf t = targetId /\
      fields m
      = ScriptSegment.mk sourceId (ScriptSegment.startTime (fields s))
          (ScriptSegment.endTime (fields t))
          (contentOf s ++ js " " ++ contentOf t)
          (ScriptSegment.type (fields s)) /\
      updatedAt m = updatedAt s) /\
   (sourceId = targetId -> sublist merged segments)).
Proof.
  cbv zeta. unfold mergeSegments.
  set (sourceId := segmentId (source duplicate)).
  set (targetId := segmentId (target duplicate)).
  split.
  - intros [H | H].
    + destruct (findIndex (hasId sourceId) segments) as [i|] eqn:Ei; [|reflexivity].
      exfalso. apply H, hasId_elem. eauto.
    + destruct (findIndex (hasId targetId) segments) as [j|] eqn:Ej;
        [|now destruct (findIndex (hasId sourceId) segments)].
      exfalso. apply H, hasId_elem. eauto.
  - intros [[i Ei]%hasId_elem [j Ej]%hasId_elem]. rewrite Ei, Ej.
    destruct (findIndex_Some _ _ _ Ei) as (s & Hs & Hps).
    destruct (findIndex_Some _ _ _ Ej) as (t & Ht & Hpt).
    unfold hasId, Str.eqb in Hps, Hpt.
    apply bool_decide_eq_true in Hps, Hpt.
    rewrite Hs, Ht.
    set (m := mkSegment _ (updatedAt s)).
    assert (Hids : map idOf (<[i:=m]> segments) = map idOf segments).
    { change (map idOf ?l) with (idOf <$> l).
      rewrite list_fmap_insert. apply list_insert_id.
      now rewrite list_lookup_fmap, Hs. }
    split; [|split].
    + change (map idOf ?l) with (idOf <$> l).
      rewrite list_fmap_delete.
      change (idOf <$> <[i:=m]> segments) with (map idOf (<[i:=m]> segments)).
      rewrite Hids. symmetry. apply delete_Permutation.
      change (map idOf segments) with (idOf <$> segments).
      now rewrite list_lookup_fmap, Ht, <- Hpt.
    + intros Hne. exists s, t, m.
      assert (Hij : i <> j) by (intros ->; congruence).
      repeat split.
      * eapply list_elem_of_lookup_2; eauto.
      * eapply list_elem_of_lookup_2; eauto.
      * apply (elem_of_delete _ j i); [|assumption].
        apply list_lookup_insert_eq. eapply lookup_lt_Some; eauto.
      * assumption.
      * assumption.
      * unfold m. cbn [fields]. now rewrite Hps.
    + intros E.
      assert (i = j) as -> by (rewrite E in Ei; congruence).
      rewrite delete_insert_same. apply sublist_delete.
Qed.

End MergeFacts.

Module RewriteFacts.
Import Rewriters.

Lemma isPrefix_app (p s : jsstring) : Str.isPrefix p (p ++ s) = true.
Proof.
  induction p as [|a p IH]; cbn [Str.isPrefix app]; [reflexivity|].
  now rewrite N.eqb_refl, IH.
Qed.

Lemma minorRewrite_run (content : jsstring) (w : World) :
  minorRewrite content w
  = (let transition := pick (randoms w (randomsRead w)) transitions [] in
     if Str.isPrefix transition content then content
     else transition ++ js "，" ++ content,
     mkWorld (randoms w) (times w) (S (randomsRead w)) (timesRead w)).
Proof.
  unfold minorRewrite, choose, mbind, Gen_bind, mret, Gen_ret, mathRandom.
  cbv zeta. now destruct (Str.isPrefix _ content).
Qed.

(** X17: [minorRewrite] returns a text that starts with the transition
    it drew: the content itself when it starts with that transition,
    else the transition, a comma and the content. A second pass with the
    same draw changes nothing. *)
Theorem minorRewrite_starts_with_transition (content : jsstring) (w : World) :
  let transition := pick (randoms w (randomsRead w)) transitions [] in
  let out := (minorRewrite content w).1 in
  (transition ∈ transitions) /\
  Str.isPrefix transition out = true /\
  out = (if Str.isPrefix transition content then content
         else transition ++ js "，" ++ content) /\
  (minorRewrite out w).1 = out /\
  randomsRead (minorRewrite content w).2 = S (randomsRead w).
Proof.
  cbv zeta. rewrite !minorRewrite_run. cbn [fst snd randomsRead].
  set (transition := pick (randoms w (randomsRead w)) transitions []).
  split; [apply pick_In; discriminate|].
  destruct (Str.isPrefix transition content) eqn:E.
  - now rewrite E.
  - rewrite isPrefix_app. repeat split; apply isPrefix_app.
Qed.

End RewriteFacts.

Section GenFacts.

Lemma forEach_unchanged {A S : Type} (l : list A) (body : A -> S -> Gen S)
    (s : S) (w : World) :
  (forall x, x ∈ l -> body x s w = (s, w)) -> forEach l body s w = (s, w).
Proof.
  induction l as [|x l IH]; intros H; [reflexivity|].
  cbn [forEach]. unfold mbind, Gen_bind. rewrite (H x) by now left.
  apply IH. intros y Hy. apply H. now right.
Qed.

Lemma forEach_ext {A S : Type} (l : list A) (body body' : A -> S -> Gen S)
    (s : S) (w : World) :
  (forall x s w, body x s w = body' x s w) ->
  forEach l body s w = forEach l body' s w.
Proof.
  intros H. revert s w. induction l as [|x l IH]; intros s w; [reflexivity|].
  cbn [forEach]. unfold mbind, Gen_bind. rewrite H.
  destruct (body' x s w) as [s' w']. apply IH.
Qed.


Lemma forEachTry_ext {A S : Type} (l : list A)
    (body body' : A -> S -> Gen (Uniqueness.Completion S)) (s : S) (w : World) :
  (forall x s w, body x s w = body' x s w) ->
  forEachTry l body s w = forEachTry l body' s w.
Proof.
  intros H. revert s w. induction l as [|x l IH]; intros s w; [reflexivity|].
  cbn [forEachTry]. unfold mbind, Gen_bind. rewrite H.
  destruct (body' x s w) as [[s'|error] w']; [apply IH | reflexivity].
Qed.

(** A loop whose body returns, and keeps [P], at every element of the
    list returns, and keeps [P]. *)
Lemma forEachTry_invariant {A S : Type} (P : S -> Prop) (l : list A)
    (body : A -> S -> Gen (Uniqueness.Completion S)) (s : S) (w : World) :
  (forall x s w, x ∈ l -> P s ->
     exists s' w', body x s w = (Uniqueness.Returned s', w') /\ P s') ->
  P s ->
  exists s' w', forEachTry l body s w = (Uniqueness.Returned s', w') /\ P s'.
Proof.
  revert s w. induction l as [|x l IH]; intros s w H Hs.
  - exists s, w. now split.
  - cbn [forEachTry]. unfold mbind, Gen_bind.
    destruct (H x s w) as (s' & w' & -> & Hs'); [now left | exact Hs |].
    apply IH; [|exact Hs'].
    intros y s0 w0 Hy. apply H. now right.
Qed.

End GenFacts.

Module PhraseFacts.
Import Dedup Rewriters.

Lemma lookupCategory_elem (table : list (jsstring * list jsstring))
    (category : jsstring) (phrases : list jsstring) :
  lookupCategory table category = Own phrases -> (category, phrases) ∈ table.
Proof.
  unfold lookupCategory.
  destruct (List.find _ table) as [[c ps]|] eqn:E.
  - intros [= <-]. apply List.find_some in E as [Hin Hc].
    unfold Str.eqb in Hc. apply bool_decide_eq_true in Hc. cbn in Hc. subst c.
    now apply list_elem_of_In.
  - now destruct (bool_decide _).
Qed.

Lemma lookupCategory_no_key (table : list (jsstring * list jsstring))
    (category : jsstring) :
  category ∉ map fst table ->
  lookupCategory table category
  = if bool_decide (category ∈ objectPrototypeKeys) then Inherited else Undefined.
Proof.
  intros Hn. unfold lookupCategory.
  destruct (List.find _ table) as [[c ps]|] eqn:E; [|reflexivity].
  apply List.find_some in E as [Hin Hc].
  unfold Str.eqb in Hc. apply bool_decide_eq_true in Hc. cbn in Hc. subst c.
  exfalso. apply Hn. apply list_elem_of_In, in_map_iff.
  now exists (category, ps).
Qed.

(** No key of the two tables is a property name of the prototype, and
    no key occurs twice. *)
Lemma keys_not_inherited :
  Forall (fun key => key ∉ objectPrototypeKeys)
         (map fst ALTERNATIVE_PHRASES ++ map fst originals).
Proof. apply (bool_decide_unpack _). vm_compute. exact I. Qed.

Lemma inherited_no_key (category : jsstring) :
  category ∈ objectPrototypeKeys ->
  category ∉ map fst ALTERNATIVE_PHRASES /\ category ∉ map fst originals.
Proof.
  intros Hc. pose proof keys_not_inherited as H.
  apply Forall_app in H as [H1 H2].
  rewrite list.Forall_forall in H1, H2.
  split; intros Hk; [apply (H1 _ Hk Hc) | apply (H2 _ Hk Hc)].
Qed.

Lemma alternatives_own (category : jsstring) (alternatives : list jsstring) :
  (category, alternatives) ∈ ALTERNATIVE_PHRASES ->
  lookupCategory ALTERNATIVE_PHRASES category = Own alternatives.
Proof.
  intros H. apply list_elem_of_In in H. cbn [ALTERNATIVE_PHRASES In] in H.
  repeat (destruct H as [[= <- <-] | H]; [vm_compute; reflexivity|]).
  contradiction.
Qed.

Lemma others_nonempty (original : jsstring) (l : list jsstring) :
  NoDup l -> 2 <= length l ->
  List.filter (fun a => negb (Str.eqb a original)) l <> [].
Proof.
  intros Hnd Hlen. destruct l as [|a [|b l]]; cbn in Hlen; try lia.
  apply list.NoDup_cons in Hnd as [Hab _].
  cbn [List.filter]. unfold Str.eqb.
  destruct (decide (a = original)) as [->|Ha].
  - rewrite bool_decide_eq_true_2 by reflexivity. cbn [negb].
    rewrite (bool_decide_eq_false_2 (b = original)); [discriminate|].
    intros ->. apply Hab. now left.
  - rewrite (bool_decide_eq_false_2 (a = original)) by assumption. discriminate.
Qed.

Lemma alternatives_distinct :
  Forall (fun entry : jsstring * list jsstring =>
            NoDup entry.2 /\ 2 <= length entry.2) ALTERNATIVE_PHRASES.
Proof.
  apply (bool_decide_unpack _). vm_compute. exact I.
Qed.

Lemma getAlternativePhrase_own (category original : jsstring)
    (alternatives : list jsstring) (w : World) :
  lookupCategory ALTERNATIVE_PHRASES category = Own alternatives ->
  exists replacement w',
    getAlternativePhrase category original w = (Uniqueness.Returned replacement, w') /\
    (replacement ∈ alternatives) /\ replacement <> original.
Proof.
  intros E. unfold getAlternativePhrase. rewrite E. cbv zeta.
  pose proof alternatives_distinct as Hd. rewrite List.Forall_forall in Hd.
  apply lookupCategory_elem, list_elem_of_In, Hd in E as [Hnd Hlen].
  cbn [snd] in Hnd, Hlen.
  pose proof (others_nonempty original alternatives Hnd Hlen) as Hne.
  set (filtered := List.filter _ alternatives) in *.
  assert (Hpos : (0 <? length filtered) = true).
  { apply Nat.ltb_lt. destruct filtered; [congruence | cbn; lia]. }
  rewrite Hpos.
  unfold choose, mbind, Gen_bind, mret, Gen_ret, mathRandom.
  eexists. eexists. split; [reflexivity|].
  assert (Hin : pick (randoms w (randomsRead w)) filtered original ∈ filtered)
    by now apply pick_In.
  unfold filtered in Hin at 2.
  apply elem_of_List_filter in Hin as [Hin Hneq].
  split; [exact Hin|].
  apply negb_true_iff in Hneq. unfold Str.eqb in Hneq.
  now apply bool_decide_eq_false in Hneq.
Qed.

(** X18: for a category of [ALTERNATIVE_PHRASES], [getAlternativePhrase]
    returns one of the alternatives of the category, and never the
    phrase it is to replace. For a category that names a property of
    [Object.prototype] the call throws, and for any other category it
    returns the phrase it was given. *)
Theorem getAlternativePhrase_differs (category original : jsstring) (w : World) :
  let result := (getAlternativePhrase category original w).1 in
  (forall alternatives,
     (category, alternatives) ∈ ALTERNATIVE_PHRASES ->
     exists replacement,
       result = Uniqueness.Returned replacement /\
       (replacement ∈ alternatives) /\ replacement <> original) /\
  (category ∈ objectPrototypeKeys -> exists error, result = Uniqueness.Thrown error) /\
  (category ∉ map fst ALTERNATIVE_PHRASES -> category ∉ objectPrototypeKeys ->
   result = Uniqueness.Returned original).
Proof.
  cbv zeta. split; [|split].
  - intros alternatives H%alternatives_own.
    destruct (getAlternativePhrase_own category original alternatives w H)
      as (replacement & w' & -> & Hin & Hne).
    now exists replacement.
  - intros Hc. unfold getAlternativePhrase.
    rewrite lookupCategory_no_key by now apply inherited_no_key.
    rewrite bool_decide_eq_true_2 by exact Hc.
    eexists. reflexivity.
  - intros Hk Hc. unfold getAlternativePhrase.
    rewrite lookupCategory_no_key by exact Hk.
    rewrite bool_decide_eq_false_2 by exact Hc.
    cbv zeta. cbn [List.filter]. unfold Str.eqb.
    now rewrite bool_decide_eq_true_2.
Qed.


(** The categories that [replaceTemplatePhrases] visits are keys of
    both tables. *)
Lemma categories_own :
  Forall (fun entry : jsstring * list jsstring =>
            match getOriginalPhrases entry.1,
                  lookupCategory ALTERNATIVE_PHRASES entry.1 with
            | Iterable _, Own _ => True
            | _, _ => False
            end) ALTERNATIVE_PHRASES.
Proof. repeat (constructor; [vm_compute; exact I|]). constructor. Qed.




End PhraseFacts.

Section GenFacts2.

Lemma forEach_invariant {A S : Type} (P : S -> Prop) (l : list A)
    (body : A -> S -> Gen S) (s : S) (w : World) :
  (forall x s w, P s -> P (body x s w).1) -> P s -> P (forEach l body s w).1.
Proof.
  intros H. revert s w. induction l as [|x l IH]; intros s w Hs; [exact Hs|].
  cbn [forEach]. unfold mbind, Gen_bind.
  specialize (H x s w Hs). destruct (body x s w) as [s' w']. now apply IH.
Qed.

End GenFacts2.

Module RepairFacts.
Import Dedup Rewriters DedupService.


Lemma Forall2_replace (repaired : list Segment) (kept : list ScriptSegment.t)
    (i : nat) (x y : Segment) :
  Forall2 sameFrame repaired kept -> repaired !! i = Some x ->
  idOf y = idOf x ->
  ScriptSegment.startTime (fields y) = ScriptSegment.startTime (fields x) ->
  ScriptSegment.type (fields y) = ScriptSegment.type (fields x) ->
  Forall2 sameFrame (<[i:=y]> repaired) kept.
Proof.
  intros H. revert i. induction H as [|a b l k Hab Hl IH]; intros i Hi H1 H2 H3.
  - constructor.
  - destruct i as [|i]; cbn in Hi |- *.
    + injection Hi as ->. constructor; [|assumption].
      destruct Hab as (Ha & Hb & Hc). unfold sameFrame. now rewrite H1, H2, H3.
    + constructor; [assumption|]. now apply IH.
Qed.

Lemma framed_replace (segments : list ScriptSegment.t) (repaired : list Segment)
    (i : nat) (x y : Segment) :
  framed segments repaired -> repaired !! i = Some x ->
  idOf y = idOf x ->
  ScriptSegment.startTime (fields y) = ScriptSegment.startTime (fields x) ->
  ScriptSegment.type (fields y) = ScriptSegment.type (fields x) ->
  framed segments (<[i:=y]> repaired).
Proof.
  intros (kept & Hsub & HF) Hi H1 H2 H3. exists kept. split; [assumption|].
  now apply (Forall2_replace _ _ i x y).
Qed.

Lemma framed_delete (segments : list ScriptSegment.t) (repaired : list Segment)
    (j : nat) :
  framed segments repaired -> framed segments (delete j repaired).
Proof.
  intros (kept & Hsub & HF). exists (delete j kept). split.
  - etransitivity; [apply sublist_delete | exact Hsub].
  - now apply Forall2_delete.
Qed.

Lemma mergeSegments_framed (segments : list ScriptSegment.t)
    (repaired : list Segment) (dup : DuplicateResult) :
  framed segments repaired -> framed segments (mergeSegments repaired dup).
Proof.
  intros H. unfold mergeSegments.
  destruct (findIndex _ repaired) as [i|]; [|exact H].
  destruct (findIndex _ repaired) as [j|]; [|exact H].
  destruct (repaired !! i) as [s|] eqn:Hs; [|exact H].
  destruct (repaired !! j) as [t|]; [|exact H].
  apply framed_delete. now apply (framed_replace _ _ i s).
Qed.

Lemma rewriteSegment_fields (segment : Segment) (similarity : number)
    (autoVariant : bool) (variantFn : option (jsstring -> number -> Gen jsstring))
    (w : World) :
  exists content,
    fields (rewriteSegment segment similarity autoVariant variantFn w).1
    = withContent content (fields segment).
Proof.
  unfold rewriteSegment. cbv zeta. unfold mbind at 1. unfold Gen_bind at 1.
  match goal with |- context [match ?m w with _ => _ end] => destruct (m w) as [c w'] end.
  exists c. reflexivity.
Qed.

(** [replaceTemplatePhrases] returns: the categories it visits are
    keys of the tables. *)
Lemma replaceTemplatePhrases_returns (segment : Segment) (w : World) :
  exists content now w',
    replaceTemplatePhrases segment w
    = (Uniqueness.Returned
         (mkSegment (withContent content (fields segment)) (Some now)), w').
Proof.
  unfold replaceTemplatePhrases. cbv zeta. unfold mbind at 1. unfold Gen_bind at 1.
  destruct (forEachTry_invariant (fun _ => True) ALTERNATIVE_PHRASES
              (fun entry content =>
                 let (category, phrases) := entry : jsstring * list jsstring in
                 match getOriginalPhrases category with
                 | Iterable originalPhrases =>
                     forEachTry originalPhrases (fun phrase content =>
                         if Str.includes content phrase then
                           replacement ← getAlternativePhrase category phrase;
                           match replacement with
                           | Uniqueness.Returned replacement =>
                               mret (Uniqueness.Returned
                                       (Regex.replaceFirst [Regex.Lit phrase]
                                          [Regex.Text replacement] content))
                           | Uniqueness.Thrown error => mret (Uniqueness.Thrown error)
                           end
                         else mret (Uniqueness.Returned content)) content
                 | NotIterable =>
                     mret (Uniqueness.Thrown
                             (js "TypeError: originalPhrases is not iterable"))
                 end) (contentOf segment) w) as (content & w' & -> & _);
    [|exact I|].
  - intros [category phrases] content w0 Hin _.
    pose proof PhraseFacts.categories_own as Hown.
    rewrite list.Forall_forall in Hown.
    specialize (Hown _ Hin). cbn [fst] in Hown.
    destruct (getOriginalPhrases category) as [originalPhrases|]; [|contradiction].
    destruct (lookupCategory ALTERNATIVE_PHRASES category) as [alternatives| |] eqn:E;
      try contradiction.
    apply (forEachTry_invariant (fun _ => True)); [|exact I].
    intros phrase content' w1 _ _.
    destruct (Str.includes content' phrase).
    + unfold mbind, Gen_bind.
      destruct (PhraseFacts.getAlternativePhrase_own category phrase alternatives w1 E)
        as (replacement & w2 & -> & _).
      eexists. eexists. split; [reflexivity | exact I].
    + eexists. eexists. split; [reflexivity | exact I].
  - unfold mbind, Gen_bind, isoNow, mret, Gen_ret.
    eexists. eexists. eexists. reflexivity.
Qed.

Lemma fixOne_framed (segments : list ScriptSegment.t) (config : DedupConfig)
    (dup : DuplicateResult) (repaired : list Segment) (w : World) :
  framed segments repaired ->
  exists repaired' w',
    fixOne config dup repaired w = (Uniqueness.Returned repaired', w') /\
    framed segments repaired'.
Proof.
  intros H. unfold fixOne.
  destruct (findIndex _ repaired) as [targetIndex|];
    [|eexists; eexists; split; [reflexivity | exact H]].
  destruct (repaired !! targetIndex) as [found|] eqn:Hf;
    [|eexists; eexists; split; [reflexivity | exact H]].
  destruct (type dup).
  - eexists. eexists. split; [reflexivity|]. now apply mergeSegments_framed.
  - unfold mbind, Gen_bind.
    destruct (rewriteSegment_fields found (similarity dup) (autoVariant config) None w)
      as [c Hc].
    destruct (rewriteSegment _ _ _ _ w) as [rewritten w']. cbn [fst] in *.
    eexists. eexists. split; [reflexivity|].
    apply (framed_replace _ _ targetIndex found); [assumption..| | |];
      unfold idOf; now rewrite Hc.
  - unfold mbind, Gen_bind.
    destruct (replaceTemplatePhrases_returns found w) as (c & now & w' & ->).
    eexists. eexists. split; [reflexivity|].
    apply (framed_replace _ _ targetIndex found); [assumption..| | |]; reflexivity.
Qed.

(** X20: [autoFix] returns a script whose segments are a subsequence of
    the segments of the script: no segment is added or moved, and each
    one that is kept has its id, its start time and its type. The new
    content is the contents of these segments joined by blank lines; the
    id, the title, the metadata and the creation time of the script are
    kept. Without findings the segments come back as they are. *)
Theorem autoFix_keeps_frame (config : DedupConfig) (script : ScriptData.t)
    (w : World) :
  exists fixed w',
    autoFix config script w = (Some fixed, w') /\
    (exists kept,
       sublist kept (ScriptData.segments script) /\
       Forall2 sameFrame (fixedSegments fixed) kept) /\
    fixedContent fixed
    = Str.join blankLine (map contentOf (fixedSegments fixed)) /\
    fixedId fixed = ScriptData.id script /\
    fixedTitle fixed = ScriptData.title script /\
    fixedMetadata fixed = ScriptData.metadata script /\
    fixedCreatedAt fixed = ScriptData.createdAt script /\
    (detectDuplicates config script = Some [] ->
     fixedSegments fixed = map plain (ScriptData.segments script)).
Proof.
  unfold autoFix.
  destruct (DetectFacts.detectDuplicates_passes config script) as (found & -> & _).
  set (duplicates := sortBy _ _).
  unfold mbind at 1. unfold Gen_bind at 1.
  destruct (forEachTry_invariant (framed (ScriptData.segments script)) duplicates
              (fixOne config) (map plain (ScriptData.segments script)) w)
    as (repaired & w' & Hloop & Hframed).
  { intros x s w0 _. apply fixOne_framed. }
  { exists (ScriptData.segments script). split; [reflexivity|].
    clear. induction (ScriptData.segments script) as [|s l IH]; cbn [map];
      constructor; [now repeat split | exact IH]. }
  rewrite Hloop. unfold mbind, Gen_bind, isoNow, mret, Gen_ret.
  eexists. eexists. split; [reflexivity|].
  cbn [fixedSegments fixedContent fixedId fixedTitle fixedMetadata fixedCreatedAt].
  split; [exact Hframed|repeat split].
  intros [= E]. subst duplicates. rewrite E in Hloop. now injection Hloop as <- _.
Qed.

Lemma rewriteSegment_without_variantFn (segment : Segment) (similarity : number)
    (autoVariant : bool) :
  rewriteSegment segment similarity autoVariant None
  = rewriteSegment segment similarity false None.
Proof. now destruct autoVariant. Qed.

(** X21: the service reads nothing of its configuration but the
    strategies and the threshold: [enabled], [autoFix],
    [preserveMeaning], [autoVariant] and [variantIntensity] change
    neither the findings nor the repair nor the report. [autoFix] calls
    [rewriteSegment] without a variant function, so [autoVariant]
    selects nothing. *)
Theorem DedupService_reads_strategies_and_threshold
    (config config' : DedupConfig) (script : ScriptData.t) (w : World) :
  strategies config = strategies config' ->
  threshold config = threshold config' ->
  detectDuplicates config script = detectDuplicates config' script /\
  DedupService.autoFix config script w = DedupService.autoFix config' script w /\
  originalityReport config script = originalityReport config' script.
Proof.
  intros Hs Ht.
  assert (Hd : detectDuplicates config script = detectDuplicates config' script).
  { unfold detectDuplicates, includesStrategy. now rewrite Hs, Ht. }
  split; [exact Hd|]. split.
  - unfold DedupService.autoFix. rewrite Hd.
    destruct (detectDuplicates config' script) as [duplicates|]; [|reflexivity].
    unfold mbind at 1 3. unfold Gen_bind at 1 3.
    rewrite (forEachTry_ext duplicates (fixOne config) (fixOne config')); [reflexivity|].
    intros dup repaired w0. unfold fixOne.
    destruct (findIndex _ repaired) as [targetIndex|]; [|reflexivity].
    destruct (repaired !! targetIndex) as [found|]; [|reflexivity].
    destruct (type dup); try reflexivity.
    now rewrite (rewriteSegment_without_variantFn _ _ (autoVariant config)),
      (rewriteSegment_without_variantFn _ _ (autoVariant config')).
  - unfold originalityReport. now rewrite Hd.
Qed.

Lemma DedupService_reads_strategies_and_threshold_witness :
  detectDuplicates Cases.flagsOff Samples.repeated
  = detectDuplicates defaultConfig Samples.repeated /\
  DedupService.autoFix Cases.flagsOff Samples.repeated Cases.startOfWorld
  = DedupService.autoFix defaultConfig Samples.repeated Cases.startOfWorld /\
  originalityReport Cases.flagsOff Samples.repeated
  = originalityReport defaultConfig Samples.repeated.
Proof.
  apply (DedupService_reads_strategies_and_threshold Cases.flagsOff defaultConfig
           Samples.repeated Cases.startOfWorld); reflexivity.
Defined.

End RepairFacts.

(** ** The variant of an intensity *)

Module IntensityFacts.
Import Num NumFacts RoundingFacts Variants VariantService.

Local Open Scope Q_scope.

(** *** The order of the numbers *)

Lemma Qcleb_false (p q : Qc) : Qcleb p q = false <-> (q < p)%Qc.
Proof.
  split.
  - intros H. apply Qnot_le_lt. intros Hle.
    assert (Qcleb p q = true) by now apply Qcleb_le.
    congruence.
  - intros H. destruct (Qcleb p q) eqn:E; [|reflexivity].
    apply Qcleb_le in E. exfalso. eapply Qlt_not_le; eauto.
Qed.

Lemma ltb_Fin (p q : Qc) : ltb (Fin p) (Fin q) = true <-> (p < q)%Qc.
Proof. cbn. rewrite negb_true_iff. apply Qcleb_false. Qed.

Lemma ltb_asym (x y : number) : ltb x y = true -> ltb y x = false.
Proof.
  destruct x as [|[]|p], y as [|[]|q]; try (cbn; congruence).
  intros H%ltb_Fin. destruct (ltb (Fin q) (Fin p)) eqn:E; [|reflexivity].
  apply ltb_Fin in E. exfalso. eapply Qclt_not_le; [exact H|]. now apply Qclt_le_weak.
Qed.

Lemma ltb_trans (x y z : number) :
  ltb x y = true -> ltb y z = true -> ltb x z = true.
Proof.
  destruct x as [|[]|p], y as [|[]|q], z as [|[]|r]; try (cbn; congruence).
  rewrite !ltb_Fin. apply Qclt_trans.
Qed.

(** Below a number that is not [NaN], or above it. *)
Lemma ltb_between (x y z : number) :
  y <> NaN -> ltb x z = true -> ltb x y = true \/ ltb y z = true.
Proof.
  intros Hy.
  destruct x as [|[]|p], y as [|[]|q], z as [|[]|r]; try (cbn; congruence);
    try (cbn; tauto).
  rewrite !ltb_Fin. intros H.
  destruct (Qclt_le_dec p q) as [Hpq | Hqp]; [now left | right].
  eapply Qcle_lt_trans; eauto.
Qed.

(** *** The head of a sorted list *)

Section Head.
Context {A : Type} (cmp : A -> A -> number) (key : A -> number).
Hypothesis cmp_key :
  forall a b, ltb (ofZ 0) (cmp a b) = ltb (key b) (key a).

Lemma head_insertBy (x : A) (l : list A) :
  head (insertBy cmp x l)
  = match head l with
    | Some y => if ltb (key y) (key x) then Some y else Some x
    | None => Some x
    end.
Proof.
  destruct l as [|y l]; [reflexivity|].
  cbn [insertBy head]. rewrite cmp_key. now destruct (ltb (key y) (key x)).
Qed.

(** Sorting brings to the front the first of the elements with the
    least key. *)
Lemma head_sortBy (l : list A) :
  l <> [] ->
  Forall (fun a => key a <> NaN) l ->
  exists before v after,
    l = before ++ v :: after /\
    head (sortBy cmp l) = Some v /\
    (forall u, u ∈ before -> ltb (key v) (key u) = true) /\
    (forall u, u ∈ after -> ltb (key u) (key v) = false).
Proof.
  induction l as [|x l IH]; [congruence|]. intros _ Hall.
  apply list.Forall_cons in Hall as [Hx Hall].
  change (sortBy cmp (x :: l)) with (insertBy cmp x (sortBy cmp l)).
  rewrite head_insertBy.
  destruct l as [|x' l'].
  { exists [], x, []. repeat split; try reflexivity; intros u Hu; now apply elem_of_nil in Hu. }
  destruct IH as (before & y & after & El & -> & Hbefore & Hafter);
    [discriminate | exact Hall |].
  assert (Hy : key y <> NaN).
  { rewrite list.Forall_forall in Hall. apply Hall. rewrite El.
    apply elem_of_app. right. now left. }
  destruct (ltb (key y) (key x)) eqn:E.
  - exists (x :: before), y, after. rewrite El. repeat split; try assumption.
    intros u [-> | Hu]%elem_of_cons; [exact E | now apply Hbefore].
  - exists [], x, (x' :: l'). repeat split.
    + intros u Hu. now apply elem_of_nil in Hu.
    + intros u Hu. rewrite El in Hu.
      destruct (ltb (key u) (key x)) eqn:Eu; [|reflexivity].
      apply elem_of_app in Hu as [Hu | [-> | Hu]%elem_of_cons].
      * pose proof (ltb_trans _ _ _ (Hbefore u Hu) Eu). congruence.
      * congruence.
      * destruct (ltb_between _ (key y) _ Hy Eu) as [H | H]; [|congruence].
        rewrite (Hafter u Hu) in H. discriminate.
Qed.

(** With keys that are all [NaN] the order is left as it is. *)
Lemma head_sortBy_NaN (l : list A) :
  Forall (fun a => key a = NaN) l -> head (sortBy cmp l) = head l.
Proof.
  destruct l as [|x l]; [reflexivity|]. intros [Hx _]%list.Forall_cons.
  change (sortBy cmp (x :: l)) with (insertBy cmp x (sortBy cmp l)).
  rewrite head_insertBy, Hx.
  destruct (head (sortBy cmp l)) as [y|]; [|reflexivity].
  now destruct (key y) as [|[]|].
Qed.

End Head.

(** *** Distances in double precision *)

Lemma double_onGrid (q : Q) : onGrid (double q).
Proof.
  pose proof (double_spec q) as H. destruct (double q) as [|s|r]; cbn; try exact I.
  now destruct H as (_ & H & _).
Qed.

Lemma round64_onGrid (x : number) : onGrid x -> onGrid (round64 x).
Proof. destruct x as [|s|r]; cbn [round64]; [trivial..|]. intros _. apply double_onGrid. Qed.

Lemma sub64_onGrid (x y : number) : onGrid (sub64 x y).
Proof.
  unfold sub64. destruct (sub x y) as [|s|r]; cbn [round64]; try exact I.
  apply double_onGrid.
Qed.

Lemma abs_onGrid (x : number) : onGrid x -> onGrid (abs x).
Proof.
  destruct x as [|s|r]; cbn [abs onGrid]; [trivial..|]. intros [j Hj].
  destruct (Qcltb r 0); [|now exists j].
  exists (- j)%Z. rewrite this_opp, Hj, inject_Z_opp. ring.
Qed.

Lemma distanceTo_onGrid (x : number) (v : DedupVariant) : onGrid (distanceTo x v).
Proof. apply abs_onGrid, sub64_onGrid. Qed.

Lemma zero_lt_Fin (r : Qc) : ltb (ofZ 0) (Fin r) = true <-> 0 < r.
Proof.
  unfold ofZ. rewrite ltb_Fin. unfold Qclt. now rewrite this_Q2Qc.
Qed.

Lemma grid_step (j : Z) (z : Q) :
  z == inject_Z j * pow2 (-1074) -> 0 < z -> pow2 (-1074) <= z.
Proof.
  intros Hz Hpos. pose proof (pow2_pos (-1074)) as Hg.
  assert (Hj : (0 < j)%Z).
  { destruct (Z_lt_le_dec 0 j) as [H | H]; [exact H|]. exfalso.
    assert (inject_Z j <= 0) by (change 0 with (inject_Z 0); now rewrite <- Zle_Qle).
    assert (inject_Z j * pow2 (-1074) <= 0 * pow2 (-1074)).
    { apply Qmult_le_compat_r; lra. }
    lra. }
  assert (H1 : 1 <= inject_Z j).
  { change 1 with (inject_Z 1). rewrite <- Zle_Qle. lia. }
  rewrite Hz. rewrite <- (Qmult_1_l (pow2 (-1074))) at 1.
  apply Qmult_le_compat_r; lra.
Qed.

(** The sign of a rounded difference of doubles is the sign of the
    difference: the comparator of [selectByIntensity] asks for [a] after
    [b] exactly when the distance of [b] is the smaller one. *)
Lemma sub64_sign (a b : number) :
  onGrid a -> onGrid b -> ltb (ofZ 0) (sub64 a b) = ltb b a.
Proof.
  destruct a as [|[]|p], b as [|[]|q]; try reflexivity.
  intros [jp Hp] [jq Hq]. unfold sub64. cbn [sub neg add round64].
  set (z := (p + - q)%Qc).
  assert (Hz : z == p - q) by (unfold z; to_Q; reflexivity).
  assert (Hgrid : z == inject_Z (jp - jq) * pow2 (-1074)).
  { rewrite Hz, Hp, Hq. unfold Z.sub. rewrite inject_Z_plus, inject_Z_opp. ring. }
  pose proof (double_spec z) as H.
  destruct (ltb (Fin q) (Fin p)) eqn:E.
  - apply ltb_Fin in E. unfold Qclt in E.
    assert (Hpos : 0 < z) by (rewrite Hz; lra).
    pose proof (grid_step _ _ Hgrid Hpos) as Hstep.
    destruct (double z) as [|[]|r]; [contradiction|..].
    + destruct H as [_ H]. lra.
    + reflexivity.
    + apply zero_lt_Fin. destruct H as (_ & _ & H & _). now apply H.
  - assert (Hle : z <= 0).
    { rewrite Hz. destruct (Qlt_le_dec q p) as [Hlt | Hle]; [|lra].
      assert (ltb (Fin q) (Fin p) = true) by now apply ltb_Fin.
      congruence. }
    destruct (double z) as [|[]|r]; [contradiction|..].
    + reflexivity.
    + destruct H as [_ H]. lra.
    + destruct (ltb (ofZ 0) (Fin r)) eqn:E0; [|reflexivity].
      apply zero_lt_Fin in E0. destruct H as (_ & _ & _ & _ & _ & H).
      specialize (H Hle). lra.
Qed.

(** The intensities of the table are numbers of [[0, 1]], and so are
    their doubles, up to the rounding. *)
Lemma intensities_unit :
  Forall (fun v => exists q : Qc, intensity v = Fin q /\ 0 <= q /\ q <= 1)
         DEDUP_VARIANTS.
Proof.
  repeat (constructor; [eexists; split; [reflexivity|]; split; discriminate|]).
  constructor.
Qed.

Lemma intensity_double (v : DedupVariant) :
  v ∈ DEDUP_VARIANTS ->
  exists r : Qc, round64 (intensity v) = Fin r /\ 0 <= r /\ r <= 2.
Proof.
  intros Hv. pose proof intensities_unit as H.
  rewrite list.Forall_forall in H.
  destruct (H v Hv) as (q & -> & Hq0 & Hq1). cbn [round64].
  destruct (double_small q) as (r & -> & Herr & Hpos).
  { rewrite Qabs_pos; lra. }
  exists r. split; [reflexivity|]. split; [now apply Hpos|].
  rewrite (Qabs_pos q) in Herr by lra.
  apply Qabs_Qle_condition in Herr as [_ Herr].
  unfold unit53, tiny in *. lra.
Qed.

Lemma distanceTo_NaN (v : DedupVariant) : distanceTo NaN v = NaN.
Proof.
  unfold distanceTo, sub64, sub. cbn [neg].
  now destruct (round64 (intensity v)).
Qed.

Lemma distanceTo_not_NaN (x : number) (v : DedupVariant) :
  x <> NaN -> v ∈ DEDUP_VARIANTS -> distanceTo x v <> NaN.
Proof.
  intros Hx Hv. destruct (intensity_double v Hv) as (r & Hr & _).
  unfold distanceTo, sub64. rewrite Hr.
  destruct x as [|s|q]; [congruence|now destruct s|].
  cbn [sub neg add round64].
  pose proof (double_spec (r + - q)%Qc) as H.
  destruct (double (r + - q)%Qc) as [|s|t]; [contradiction|discriminate|].
  cbn [abs]. now destruct (Qcltb t 0).
Qed.

(** The distance that the code computes, against the distance of the
    double of the table from [q]: the rounded difference, without its
    sign. *)
Lemma distanceTo_near (q : Qc) (v : DedupVariant) (r : Qc) :
  round64 (intensity v) = Fin r ->
  (distanceTo (Fin q) v = Inf false /\ pow2 1023 <= Qabs (r - q)) \/
  exists d : Qc,
    distanceTo (Fin q) v = Fin d /\
    Qabs (d - Qabs (r - q)) <= Qabs (r - q) * unit53 + pow2 (-1075).
Proof.
  intros Hr. unfold distanceTo, sub64. rewrite Hr.
  cbn [sub neg add round64].
  set (z := (r + - q)%Qc).
  assert (Hz : z == r - q) by (unfold z; to_Q; reflexivity).
  pose proof (double_spec z) as H.
  destruct (double z) as [|s|t]; [contradiction|..].
  - left. split; [reflexivity|]. rewrite <- Hz. apply H.
  - right. destruct H as (Herr & _). rewrite Hz in Herr. cbn [abs].
    assert (Habs : forall a b : Q, Qabs (Qabs a - Qabs b) <= Qabs (a - b)).
    { intros a b. apply Qabs_case; intros _.
      - apply Qabs_triangle_reverse.
      - rewrite (Qabs_wd (a - b) (- (b - a))) by ring.
        rewrite Qabs_opp.
        assert (E : - (Qabs a - Qabs b) == Qabs b - Qabs a) by ring.
        rewrite E. apply Qabs_triangle_reverse. }
    destruct (Qcltb t 0) eqn:E.
    + exists (- t)%Qc. split; [reflexivity|].
      apply Qcltb_lt in E. unfold Qclt in E. change (this 0%Qc) with 0 in E.
      rewrite this_opp. rewrite <- (Qabs_neg t) by lra.
      eapply Qle_trans; [apply Habs | exact Herr].
    + exists t. split; [reflexivity|].
      assert (Ht : 0 <= t).
      { destruct (Qlt_le_dec t 0) as [Hlt | Hle]; [|exact Hle].
        assert (Qcltb t 0 = true) by now apply Qcltb_lt.
        congruence. }
      rewrite <- (Qabs_pos t) at 1 by exact Ht.
      eapply Qle_trans; [apply Habs | exact Herr].
Qed.

(** X22: [selectByIntensity] returns the first variant of the table
    among those of the least distance [Math.abs(v.intensity - x)], as
    the code computes it in double precision. For a finite [x] this
    variant is nearest up to the rounding: its distance from [x], less
    one part in [2^53], exceeds that of no other variant by more than one
    part in [2^53] and [2^-1074]. For [NaN] the first variant of the
    table is returned. Two cases of the rounding: at 0.65 the variants
    [academic] (0.6) and [poetic] (0.7) are equally near in decimals and
    the code returns [poetic], which comes later in the table; at [10^20]
    all computed distances are equal and the code returns the first
    variant, [conservative] (0.2), where [creative] (1.0) is nearest. *)
Theorem selectByIntensity_nearest (x : number) :
  (exists before v after,
     DEDUP_VARIANTS = before ++ v :: after /\
     selectByIntensity x = Some v /\
     (forall u, u ∈ before ->
        ltb (distanceTo x v) (distanceTo x u) = true) /\
     (forall u, u ∈ after ->
        ltb (distanceTo x u) (distanceTo x v) = false) /\
     (forall (q rv ru : Qc) u,
        x = Fin q -> u ∈ DEDUP_VARIANTS ->
        round64 (intensity v) = Fin rv -> round64 (intensity u) = Fin ru ->
        Qabs (rv - q) * (1 - unit53)
        <= Qabs (ru - q) * (1 + unit53) + pow2 (-1074))) /\
  selectByIntensity NaN = head DEDUP_VARIANTS /\
  id <$> selectByIntensity (round64 (ratio 65 100)) = Some poetic /\
  id <$> selectByIntensity (ofZ (10 ^ 20)) = Some conservative.
Proof.
  split; [|split; [|split]]; [|vm_compute; reflexivity..].
  assert (Hchar : exists before v after,
             DEDUP_VARIANTS = before ++ v :: after /\
             selectByIntensity x = Some v /\
             (forall u, u ∈ before ->
                ltb (distanceTo x v) (distanceTo x u) = true) /\
             (forall u, u ∈ after ->
                ltb (distanceTo x u) (distanceTo x v) = false)).
  { assert (Hcases : x = NaN \/ x <> NaN) by (destruct x; [now left | now right..]).
    destruct Hcases as [-> | Hx].
    - exists [], (mkVariant conservative (js "保守型") (js "最小化改动，保持原意和结构")
                   (Num.ratio 2 10) [js "synonym_replace"; js "minor_reorder"]
                   (Num.ratio 3 10) false false false), (tail DEDUP_VARIANTS).
      split; [reflexivity|]. split; [vm_compute; reflexivity|].
      split; [intros u Hu; now apply elem_of_nil in Hu|].
      intros u _. now rewrite !distanceTo_NaN.
    - unfold selectByIntensity. cbv zeta.
      apply (head_sortBy _ (distanceTo x)).
      + intros a b. apply sub64_sign; apply distanceTo_onGrid.
      + discriminate.
      + apply list.Forall_forall. intros v Hv. now apply distanceTo_not_NaN. }
  destruct Hchar as (before & v & after & El & Hsel & Hbefore & Hafter).
  exists before, v, after. repeat split; try assumption.
  intros q rv ru u -> Hu Hrv Hru.
  assert (Hv : v ∈ DEDUP_VARIANTS).
  { rewrite El. apply elem_of_app. right. now left. }
  assert (Hnot : ltb (distanceTo (Fin q) u) (distanceTo (Fin q) v) = false).
  { rewrite El in Hu. apply elem_of_app in Hu as [Hu | [-> | Hu]%elem_of_cons].
    - now apply ltb_asym, Hbefore.
    - destruct (ltb _ _) eqn:E; [|reflexivity]. now rewrite (ltb_asym _ _ E) in E.
    - now apply Hafter. }
  destruct (intensity_double v Hv) as (rv' & Erv & Hrv0 & Hrv2).
  destruct (intensity_double u Hu) as (ru' & Eru & Hru0 & Hru2).
  rewrite Hrv in Erv. rewrite Hru in Eru.
  injection Erv as <-. injection Eru as <-.
  pose proof (pow2_pos (-1075)) as Hp.
  assert (H1074 : pow2 (-1074) == 2 * pow2 (-1075)) by now vm_compute.
  assert (Hlarge : 9007199254740992 * 4 <= pow2 1023) by now vm_compute.
  assert (Htri : Qabs (rv - q) <= Qabs (ru - q) + 2).
  { assert (E : rv - q == (ru - q) + (rv - ru)) by ring.
    rewrite E. eapply Qle_trans; [apply Qabs_triangle|].
    assert (Qabs (rv - ru) <= 2) by (apply Qabs_Qle_condition; lra).
    lra. }
  pose proof (Qabs_nonneg (rv - q)) as Hav. pose proof (Qabs_nonneg (ru - q)) as Hau.
  set (av := Qabs (rv - q)) in *. set (au := Qabs (ru - q)) in *.
  destruct (distanceTo_near q u ru Hru) as [[Edu Hbig] | (du & Edu & Herru)];
    fold au in Hbig || fold au in Herru.
  { unfold unit53. lra. }
  destruct (distanceTo_near q v rv Hrv) as [[Edv _] | (dv & Edv & Herrv)].
  { rewrite Edu, Edv in Hnot. discriminate. }
  fold av in Herrv.
  rewrite Edu, Edv in Hnot.
  assert (Hle : dv <= du).
  { destruct (Qlt_le_dec du dv) as [Hlt | Hle]; [|exact Hle].
    assert (ltb (Fin du) (Fin dv) = true) by now apply ltb_Fin.
    congruence. }
  apply Qabs_Qle_condition in Herru as [_ Hu2].
  apply Qabs_Qle_condition in Herrv as [Hv1 _].
  unfold unit53 in *. lra.
Qed.

End IntensityFacts.

Module VariantServiceFacts.
Import Variants VariantService.

(** *** [applyVariant] and [smartDedup] *)

Lemma applyVariant_unimplemented (content : jsstring) (variant : DedupVariant)
    (w : World) :
  Forall (fun strategy => strategyOf strategy = None) (strategies variant) ->
  applyVariant content variant w = (content, w).
Proof.
  intros H. unfold applyVariant. apply forEach_unchanged.
  intros strategy Hs. rewrite List.Forall_forall in H.
  now rewrite (H strategy) by now apply list_elem_of_In.
Qed.

Lemma strategies_missing (variant : DedupVariant) :
  variant ∈ DEDUP_VARIANTS ->
  id variant = creative \/ id variant = technical ->
  Forall (fun strategy => strategyOf strategy = None) (strategies variant).
Proof.
  intros Hin Hid.
  apply list_elem_of_In in Hin. cbn [DEDUP_VARIANTS In] in Hin.
  repeat (destruct Hin as [<- | Hin];
          [cbn [id] in Hid; destruct Hid as [Hid | Hid]; try discriminate Hid;
           cbn [strategies];
           repeat (constructor; [vm_compute; reflexivity|]); constructor|]).
  contradiction.
Qed.

(** X23: the strategies of the variants [creative] and [technical] are
    all missing from [STRATEGIES]: [applyVariant] with one of these two
    variants returns the content as it is and draws no random
    number. *)
Theorem applyVariant_without_strategies (content : jsstring)
    (variant : DedupVariant) (w : World) :
  variant ∈ DEDUP_VARIANTS ->
  id variant = creative \/ id variant = technical ->
  applyVariant content variant w = (content, w).
Proof.
  intros Hin Hid. apply applyVariant_unimplemented.
  now apply strategies_missing.
Qed.

Lemma applyVariant_without_strategies_witness :
  exists variant,
    DEDUP_VARIANTS !! 3 = Some variant /\
    id variant = creative /\
    applyVariant (js "这个问题非常重要") variant Cases.startOfWorld
    = (js "这个问题非常重要", Cases.startOfWorld).
Proof.
  eexists. split; [reflexivity|]. split; [reflexivity|].
  apply applyVariant_without_strategies.
  - apply (list_elem_of_lookup_2 _ 3). reflexivity.
  - left. reflexivity.
Defined.







End VariantServiceFacts.

Module BatchFacts.
Import Variants VariantService.


Lemma all_variants_size (used : gset DedupVariantType) :
  (forall v, v ∈ used) -> 8 <= size used.
Proof.
  intros H.
  set (all := [conservative; balanced; aggressive; creative;
               academic; casual; poetic; technical]).
  assert (Hnd : NoDup all) by (apply (bool_decide_unpack _); vm_compute; exact I).
  change 8 with (length all).
  rewrite <- (size_list_to_set (C := gset DedupVariantType) all Hnd).
  apply subseteq_size. intros v _. apply H.
Qed.

Lemma available_nonempty (used : gset DedupVariantType) :
  size used < 8 -> availableVariants used None <> [].
Proof.
  intros Hs E.
  pose proof (all_variants_size used
                (fun v => VariantsFacts.available_empty_used used None E v eq_refl)).
  lia.
Qed.

Lemma batchLoop_distinct (count : nat) (content : jsstring)
    (used : gset DedupVariantType) (results : list (jsstring * DedupVariant))
    (w : World) :
  NoDup (variantIds results) ->
  used = list_to_set (variantIds results) ->
  size used + count <= 8 ->
  exists results' used' w',
    batchLoop count content used results w = (Some (results', used'), w') /\
    length results' = length results + count /\
    NoDup (variantIds results') /\
    used' = list_to_set (variantIds results').
Proof.
  revert used results w.
  induction count as [|count IH]; intros used results w Hnd Hused Hsize.
  - exists results, used, w. cbn [batchLoop]. repeat split; auto.
  - cbn [batchLoop]. unfold mbind at 1. unfold Gen_bind at 1.
    unfold mathRandom at 1. cbv beta iota.
    set (r := randoms w (randomsRead w)).
    set (w1 := mkWorld _ _ _ _).
    destruct (availableVariants used None) as [|first rest] eqn:E.
    { exfalso. apply (available_nonempty used); [lia | exact E]. }
    rewrite (VariantsFacts.selectVariant_pick 1 r used None first rest E).
    set (selected := pick r (first :: rest) first).
    assert (Hin : selected ∈ availableVariants used None).
    { rewrite E. now apply pick_In. }
    apply VariantsFacts.available_spec in Hin as (_ & Hnew & _).
    unfold mbind, Gen_bind.
    destruct (applyVariant content selected w1) as [result w2].
    assert (Hids : variantIds (results ++ [(result, selected)])
                   = variantIds results ++ [id selected]).
    { unfold variantIds. now rewrite map_app. }
    destruct (IH ({[id selected]} ∪ used) (results ++ [(result, selected)]) w2)
      as (results' & used' & w' & Hrun & Hlen & Hnd' & Hused').
    + rewrite Hids. apply list.NoDup_app. repeat split; [assumption| |apply NoDup_singleton].
      intros v Hv ->%list_elem_of_singleton. apply Hnew.
      rewrite Hused. now apply elem_of_list_to_set.
    + rewrite Hids, list_to_set_app_L, Hused. cbn. set_solver.
    + rewrite size_union, size_singleton by set_solver. lia.
    + exists results', used', w'. split; [exact Hrun|].
      rewrite length_app in Hlen. cbn in Hlen. repeat split; [lia | assumption..].
Qed.

(** X25: on a service that has used no variant yet, [batchDedup] with a
    count of eight at most returns as many results as asked, each under
    another variant: no variant comes twice, and the variants of the
    results are the ones marked as used. *)
Theorem batchDedup_distinct_variants (content : jsstring) (count : Z) (w : World) :
  (count <= 8)%Z ->
  exists results used' w',
    batchDedup content count ∅ w = (Some (results, used'), w') /\
    length results = Z.to_nat count /\
    NoDup (variantIds results) /\
    used' = list_to_set (variantIds results).
Proof.
  intros Hc. unfold batchDedup.
  destruct (batchLoop_distinct (Z.to_nat count) content ∅ [] w)
    as (results & used' & w' & Hrun & Hlen & Hnd & Hused).
  - constructor.
  - reflexivity.
  - rewrite size_empty. lia.
  - exists results, used', w'. repeat split; assumption.
Qed.

Lemma batchDedup_distinct_variants_witness :
  exists results used' w',
    batchDedup (js "这个问题非常重要") 3 ∅ Cases.startOfWorld
    = (Some (results, used'), w') /\
    length results = 3 /\
    NoDup (variantIds results) /\
    used' = list_to_set (variantIds results).
Proof.
  apply (batchDedup_distinct_variants (js "这个问题非常重要") 3 Cases.startOfWorld).
  lia.
Defined.

End BatchFacts.

Module ParagraphFacts.
Import VariantService.

Lemma shuffleFrom_perm {A : Type} (i : nat) (l : list A) (w : World) :
  Permutation (shuffleFrom i l w).1 l.
Proof.
  revert l w. induction i as [|i IH]; intros l w; [reflexivity|].
  cbn [shuffleFrom]. unfold mbind, Gen_bind, mathRandom.
  rewrite IH. apply RandomnessFacts.swap_perm.
Qed.

(** X26: [paragraph_reorder] returns a content of fewer than three
    paragraphs as it is, without drawing a random number. Otherwise the
    result starts with the first paragraph and ends with the last one,
    and the paragraphs between them are those of the content in some
    order. *)
Theorem paragraph_reorder_keeps_ends (content : jsstring) (w : World) :
  let paragraphs := Regex.splitOn DedupService.blankLine content in
  (length paragraphs < 3 -> paragraph_reorder content w = (content, w)) /\
  (3 <= length paragraphs ->
   exists middle,
     Permutation middle (removelast (drop 1 paragraphs)) /\
     (paragraph_reorder content w).1
     = Str.join DedupService.blankLine
         (hd [] paragraphs :: middle ++ [List.last paragraphs []])).
Proof.
  cbv zeta. unfold paragraph_reorder. cbv zeta.
  set (paragraphs := Regex.splitOn DedupService.blankLine content).
  split.
  - intros H. now rewrite (proj2 (Nat.ltb_lt _ _) H).
  - intros H. rewrite (proj2 (Nat.ltb_ge _ _) H).
    set (middle := removelast (drop 1 paragraphs)).
    exists (shuffleFrom (length middle - 1) middle w).1.
    split; [apply shuffleFrom_perm|].
    unfold mbind, Gen_bind, mret, Gen_ret.
    now destruct (shuffleFrom _ middle w).
Qed.

End ParagraphFacts.
